(** * Cornell Footnote plugin: footnote parsing, content generation and sync

    A shallow embedding of [src/main.ts] (the Obsidian "Cornell Footnote"
    plugin).  JavaScript strings are sequences of UTF-16 code units and are
    modelled as [list N]; every regular expression of the source is written
    out as the deterministic matcher its backtracking search amounts to. *)

From Stdlib Require Import List NArith ZArith Lia Bool String Ascii.
From Stdlib Require Import Sorted Permutation.
Import ListNotations.
Local Open Scope N_scope.

(** ** Strings as UTF-16 code units *)

Definition char := N.
Definition str := list char.

Definition ch (a : ascii) : char := N_of_ascii a.

(** An ASCII literal as a JavaScript string. *)
Definition lit (s : string) : str := List.map ch (list_ascii_of_string s).

Definition LF : char := 10.
Definition TAB : char := 9.
Definition SP : char := 32.
Definition LBRACK : char := 91.   (* [ *)
Definition RBRACK : char := 93.   (* ] *)
Definition CARET : char := 94.    (* ^ *)
Definition COLON : char := 58.    (* : *)
Definition DOLLAR : char := 36.   (* $ *)

(** ECMAScript [LineTerminator]: what [.] refuses and what [^] (flag m)
    looks behind for. *)
Definition isLineTerminator (c : char) : bool :=
  (c =? 10) || (c =? 13) || (c =? 8232) || (c =? 8233).

(** ECMAScript [\s], which is also what [trim] and [trimEnd] strip:
    WhiteSpace and LineTerminator code points. *)
Definition isWhiteSpace (c : char) : bool :=
  (c =? 9) || (c =? 10) || (c =? 11) || (c =? 12) || (c =? 13) || (c =? 32)
  || (c =? 160) || (c =? 5760) || ((8192 <=? c) && (c <=? 8202))
  || (c =? 8232) || (c =? 8233) || (c =? 8239) || (c =? 8287)
  || (c =? 12288) || (c =? 65279).

Definition notLineTerminator (c : char) : bool := negb (isLineTerminator c).
Definition notRBrack (c : char) : bool := negb (c =? RBRACK).

Fixpoint str_eqb (a b : str) : bool :=
  match a, b with
  | [], [] => true
  | x :: a', y :: b' => (x =? y) && str_eqb a' b'
  | _, _ => false
  end.

(** The longest prefix whose characters satisfy [p], and what follows: a
    greedy [c*] on a character class that nothing makes give back. *)
Fixpoint span (p : char -> bool) (s : str) : str * str :=
  match s with
  | [] => ([], [])
  | c :: r => if p c then let '(a, b) := span p r in (c :: a, b) else ([], s)
  end.

Fixpoint dropWhile (p : char -> bool) (s : str) : str :=
  match s with
  | [] => []
  | c :: r => if p c then dropWhile p r else s
  end.

(** [String.prototype.trimEnd], [trimStart] and [trim]. *)
Fixpoint trimEnd (s : str) : str :=
  match s with
  | [] => []
  | c :: r =>
      match trimEnd r with
      | [] => if isWhiteSpace c then [] else [c]
      | r' => c :: r'
      end
  end.

Definition trimStart (s : str) : str := dropWhile isWhiteSpace s.
Definition trim (s : str) : str := trimEnd (trimStart s).

(** [String.prototype.startsWith], [endsWith] and [includes]. *)
Fixpoint startsWith (s pat : str) : bool :=
  match pat, s with
  | [], _ => true
  | p :: pat', c :: s' => (c =? p) && startsWith s' pat'
  | _ :: _, [] => false
  end.

Definition endsWith (s pat : str) : bool := startsWith (rev s) (rev pat).

Fixpoint includes (s pat : str) : bool :=
  startsWith s pat ||
  match s with
  | [] => false
  | _ :: s' => includes s' pat
  end.

(** [s.substring(0, n)] for [0 <= n]. *)
Definition substring0 (s : str) (n : nat) : str := firstn n s.

(** [parts.join(sep)]. *)
Fixpoint join (sep : str) (parts : list str) : str :=
  match parts with
  | [] => []
  | [p] => p
  | p :: ps => p ++ sep ++ join sep ps
  end.

(** ** Regular-expression drivers

    A matcher tells, for the text at the current position and the character
    before it ([None] at the start of the input), how many code units the
    match takes and what it captured.  All matchers below take at least one
    code unit. *)

Definition matcher (R : Type) := option char -> str -> option (nat * R).

(** [while ((m = re.exec(s)) !== null)] with flag g: every match, leftmost
    first, the search resuming where the last match ended.  [skip] counts
    the code units of the current match still to be passed over, [i] is the
    index of the current position.  The result lists (index, length,
    captures). *)
Fixpoint execAll {R} (m : matcher R) (prev : option char) (skip i : nat)
    (s : str) : list (nat * nat * R) :=
  match s with
  | [] => []
  | c :: r =>
      match skip with
      | S k => execAll m (Some c) k (S i) r
      | O =>
          match m prev s with
          | Some (len, x) => (i, len, x) :: execAll m (Some c) (pred len) (S i) r
          | None => execAll m (Some c) O (S i) r
          end
      end
  end.

(** [s.replace(re, f)] with flag g: each match replaced by [f] of its
    captures, the text between matches kept. *)
Fixpoint replaceAll {R} (m : matcher R) (f : R -> str) (prev : option char)
    (skip : nat) (s : str) : str :=
  match s with
  | [] => []
  | c :: r =>
      match skip with
      | S k => replaceAll m f (Some c) k r
      | O =>
          match m prev s with
          | Some (len, x) => f x ++ replaceAll m f (Some c) (pred len) r
          | None => c :: replaceAll m f (Some c) O r
          end
      end
  end.

(** [s.match(re)?.index] without flag g: the index of the leftmost match. *)
Fixpoint searchIndex {R} (m : matcher R) (prev : option char) (i : nat)
    (s : str) : option nat :=
  match m prev s with
  | Some _ => Some i
  | None =>
      match s with
      | [] => None
      | c :: r => searchIndex m (Some c) (S i) r
      end
  end.

(** [^] under flag m: at the start of the input or just after a line
    terminator. *)
Definition atLineStart (prev : option char) : bool :=
  match prev with
  | None => true
  | Some c => isLineTerminator c
  end.

(** ** [Map<string, string>]

    A JavaScript [Map] iterates in insertion order, and [set] on a key that
    is present keeps the key's place: an association list with one entry
    per key. *)

Module JsMap.

Section Values.

Context {V : Type}.

Definition t := list (str * V).

Definition empty : t := [].

Fixpoint set (m : t) (k : str) (v : V) : t :=
  match m with
  | [] => [(k, v)]
  | (k', v') :: m' =>
      if str_eqb k' k then (k', v) :: m' else (k', v') :: set m' k v
  end.

Fixpoint get (m : t) (k : str) : option V :=
  match m with
  | [] => None
  | (k', v') :: m' => if str_eqb k' k then Some v' else get m' k
  end.

Definition has (m : t) (k : str) : bool :=
  match get m k with Some _ => true | None => false end.

Fixpoint delete (m : t) (k : str) : t :=
  match m with
  | [] => []
  | (k', v') :: m' =>
      if str_eqb k' k then m' else (k', v') :: delete m' k
  end.

Definition keys (m : t) : list str := List.map fst m.
Definition values (m : t) : list V := List.map snd m.
Definition entries (m : t) : list (str * V) := m.
Definition size (m : t) : nat := List.length m.

(** [new Map(entries)]. *)
Definition ofEntries (l : list (str * V)) : t :=
  fold_left (fun m kv => set m (fst kv) (snd kv)) l empty.

End Values.

Arguments t : clear implicits.


End JsMap.

(** ** The footnote grammar *)

(** The indentation of a continuation line: four spaces, or a tab, or two
    or more white-space characters (as many as there are).  The result is
    the number of code units taken; the alternatives are tried in this
    order and nothing after them can fail. *)
Definition indentLen (s : str) : option nat :=
  if startsWith s [SP; SP; SP; SP] then Some 4%nat
  else if startsWith s [TAB] then Some 1%nat
  else
    let n := List.length (fst (span isWhiteSpace s)) in
    if (2 <=? n)%nat then Some n else None.

(** Capture 3 of the definition pattern: the rest of the line, then every
    continuation line (a line feed, an indentation, the rest of that line),
    as many as there are.  The result is the number of code units taken;
    [skip] counts the indentation still to be passed over. *)
Fixpoint bodyLen (skip : nat) (s : str) : nat :=
  match s with
  | [] => O
  | c :: r =>
      match skip with
      | S k => S (bodyLen k r)
      | O =>
          if isLineTerminator c then
            if c =? LF then
              match indentLen r with
              | Some k => S (bodyLen k r)
              | None => O
              end
            else O
          else S (bodyLen O r)
      end
  end.

(** Captures 1, 2 and 3 of [defRegex]. *)
Definition defCaptures : Type := str * str * str.

(** The definition pattern of [parseSourceContent] and
    [parseFootnotesSimple] (flags g and m): at a line start, white space
    (capture 1), the two characters [[^], one or more characters other than
    the closing bracket, taken lazily (capture 2), the closing bracket and a
    colon, white space, and the definition text (capture 3).  The leading
    white space must stop at the first character that is not white space
    and the lazy name at the first closing bracket, so the match at a
    position is unique. *)
Definition defRegex : matcher defCaptures := fun prev s =>
  if atLineStart prev then
    let '(g1, r1) := span isWhiteSpace s in
    match r1 with
    | c1 :: c2 :: r2 =>
        if (c1 =? LBRACK) && (c2 =? CARET) then
          let '(g2, r3) := span notRBrack r2 in
          match g2, r3 with
          | _ :: _, c3 :: c4 :: r4 =>
              if (c3 =? RBRACK) && (c4 =? COLON) then
                let '(ws, r5) := span isWhiteSpace r4 in
                let n := bodyLen O r5 in
                Some ((List.length g1 + 2 + List.length g2 + 2
                       + List.length ws + n)%nat,
                      (g1, g2, firstn n r5))
              else None
          | _, _ => None
          end
        else None
    | _ => None
    end
  else None.

(** The reference pattern (flag g): the two characters [[^], one or more
    characters other than the closing bracket (the capture), the closing
    bracket, and no colon right after it. *)
Definition refRegex : matcher str := fun _ s =>
  match s with
  | c1 :: c2 :: r2 =>
      if (c1 =? LBRACK) && (c2 =? CARET) then
        let '(g1, r3) := span notRBrack r2 in
        match g1, r3 with
        | _ :: _, c3 :: r4 =>
            if (c3 =? RBRACK) && negb (startsWith r4 [COLON])
            then Some ((List.length g1 + 3)%nat, g1)
            else None
        | _, _ => None
        end
      else None
  | _ => None
  end.

(** The pattern of the indentation of continuation lines (flag g): a line
    feed and the indentation. *)
Definition indentRegex : matcher unit := fun _ s =>
  match s with
  | c :: r =>
      if c =? LF then
        match indentLen r with
        | Some k => Some (S k, tt)
        | None => None
        end
      else None
  | [] => None
  end.

(** The definition text of a match: capture 3 with the indentation of its
    continuation lines replaced by a line feed, trimmed. *)
Definition definitionText (g3 : str) : str :=
  trim (replaceAll indentRegex (fun _ => [LF]) None O g3).

Record ParsedDefinition := {
  def_ref : str;
  def_definition : str;
  def_start : nat;
  def_end : nat;
  def_fullMatch : str
}.

Record ParsedReference := {
  ref_ref : str;
  ref_start : nat;
  ref_end : nat;
  ref_fullMatch : str
}.

Definition matchText (content : str) (i len : nat) : str :=
  firstn len (skipn i content).

Definition defMatches (content : str) : list (nat * nat * defCaptures) :=
  execAll defRegex None O O content.

Definition refMatches (content : str) : list (nat * nat * str) :=
  execAll refRegex None O O content.

Definition parseDefinitions (content : str) : list ParsedDefinition :=
  List.map (fun '(i, len, (_, g2, g3)) =>
              {| def_ref := trim g2;
                 def_definition := definitionText g3;
                 def_start := i;
                 def_end := (i + len)%nat;
                 def_fullMatch := matchText content i len |})
           (defMatches content).

Definition parseReferences (content : str) : list ParsedReference :=
  List.map (fun '(i, len, g1) =>
              {| ref_ref := trim g1;
                 ref_start := i;
                 ref_end := (i + len)%nat;
                 ref_fullMatch := matchText content i len |})
           (refMatches content).

(** [parseSourceContent(content)]: [{ definitions, references }]. *)
Definition parseSourceContent (content : str)
  : list ParsedDefinition * list ParsedReference :=
  (parseDefinitions content, parseReferences content).

(** The footnote definitions of a note, by name. *)
Definition Footnotes := JsMap.t str.

(** A string is truthy when it is not empty. *)
Definition truthy (s : str) : bool :=
  match s with [] => false | _ :: _ => true end.

(** [parseFootnotesSimple(content)]. *)
Definition parseFootnotesSimple (content : str) : Footnotes :=
  fold_left
    (fun footnotesMap '(_, _, (_, g2, g3)) =>
       if truthy g2 then
         let ref := trim g2 in
         let definition := definitionText g3 in
         JsMap.set footnotesMap ref definition
       else footnotesMap)
    (defMatches content) JsMap.empty.

(** One definition put into a map of footnotes, as [Map.set(ref, definition)]
    does it. *)
Definition setDefinition (m : Footnotes) (d : ParsedDefinition) : Footnotes :=
  JsMap.set m (def_ref d) (def_definition d).

(** ** Settings and constants *)

Record CornellFootnoteSettings := {
  syncOnSave : bool;
  deleteReferencesOnDefinitionDelete : bool;
  deleteDefinitionsOnReferenceDelete : bool;
  linkToSourceText : str;
  linkToCueText : str;
  enableCueNoteNavigation : bool;
  enableModifierClickHighlight : bool;
  moveFootnotesToEnd : bool
}.

(** The arrow of the default link templates, U+2B05 U+FE0F. *)
Definition leftArrow : str := [11013; 65039].

Definition DEFAULT_SETTINGS : CornellFootnoteSettings := {|
  syncOnSave := false;
  deleteReferencesOnDefinitionDelete := false;
  deleteDefinitionsOnReferenceDelete := false;
  linkToSourceText :=
    lit "[[{{sourceNote}}|" ++ leftArrow ++ lit " Back to Source]]";
  linkToCueText := lit "[[{{cueNote}}|" ++ leftArrow ++ lit " Back to Cue]]";
  enableCueNoteNavigation := true;
  enableModifierClickHighlight := true;
  moveFootnotesToEnd := true
|}.

(** [INTERNAL_SETTINGS]. *)
Definition cueNoteSuffix : str := lit "-cue".
Definition summaryNoteSuffix : str := lit "-summary".
Definition codeBlockProcessorId : str := lit "cornell-footnote-links".
Definition dotMd : str := lit ".md".

(** ** Text helpers of the generators *)

(** [str.replace(pattern, replacement)] with a string pattern: the first
    occurrence is replaced, and in the replacement [$$], [$&], the dollar
    with a backquote and the dollar with a quote stand for a dollar, the
    match, the text before it and the text after it.  There are no
    captures, so a dollar before a digit stays as written. *)
Fixpoint getSubstitution (matched before after replacement : str) : str :=
  match replacement with
  | [] => []
  | c1 :: r1 =>
      if c1 =? DOLLAR then
        match r1 with
        | c2 :: r2 =>
            if c2 =? DOLLAR then DOLLAR :: getSubstitution matched before after r2
            else if c2 =? 38 then matched ++ getSubstitution matched before after r2
            else if c2 =? 96 then before ++ getSubstitution matched before after r2
            else if c2 =? 39 then after ++ getSubstitution matched before after r2
            else c1 :: getSubstitution matched before after r1
        | [] => [c1]
        end
      else c1 :: getSubstitution matched before after r1
  end.

Fixpoint replaceFirstFrom (before s pattern replacement : str) : str :=
  if startsWith s pattern then
    rev before
    ++ getSubstitution pattern (rev before)
         (skipn (List.length pattern) s) replacement
    ++ skipn (List.length pattern) s
  else
    match s with
    | [] => rev before
    | c :: r => replaceFirstFrom (c :: before) r pattern replacement
    end.

Definition replaceFirst (s pattern replacement : str) : str :=
  replaceFirstFrom [] s pattern replacement.

(** Three or more line feeds in a row (flag g), as many as there are. *)
Definition newlines3Regex : matcher unit := fun _ s =>
  let n := List.length (fst (span (fun c => c =? LF) s)) in
  if (3 <=? n)%nat then Some (n, tt) else None.

(** [s.replace(/\n{3,}/g, '\n\n')]. *)
Definition collapseNewlines (s : str) : str :=
  replaceAll newlines3Regex (fun _ => [LF; LF]) None O s.

(** [arr.sort(cmp)]: the sort is stable; an element goes before the first
    one it compares smaller than. *)
Fixpoint sortInsert {A} (cmp : A -> A -> Z) (x : A) (l : list A) : list A :=
  match l with
  | [] => [x]
  | y :: l' => if (cmp x y <? 0)%Z then x :: l else y :: sortInsert cmp x l'
  end.

Definition sortBy {A} (cmp : A -> A -> Z) (l : list A) : list A :=
  fold_left (fun acc x => sortInsert cmp x acc) l [].

(** The template literal of a definition line: the name in [[^ ]], a colon,
    a space and the text. *)
Definition renderDefinition (e : str * str) : str :=
  [LBRACK; CARET] ++ fst e ++ [RBRACK; COLON; SP] ++ snd e.

Definition blankLine : str := [LF; LF].

(** A [Set<string>] in insertion order. *)
Definition setAdd (s : list str) (x : str) : list str :=
  if existsb (str_eqb x) s then s else s ++ [x].

(** The pattern [updateSourceNoteContentRebuild] builds from the names to
    delete (flag g): the two characters [[^], one of the names, the closing
    bracket, and no colon right after it.  [escapeRegex] puts a backslash
    before every character that is special in a pattern, so each
    alternative matches its name literally; they are tried in order. *)
Definition refsToDeleteRegex (names : list str) : matcher unit := fun _ s =>
  match s with
  | c1 :: c2 :: r2 =>
      if (c1 =? LBRACK) && (c2 =? CARET) then
        match
          find (fun name =>
                  startsWith r2 (name ++ [RBRACK])
                  && negb (startsWith (skipn (S (List.length name)) r2) [COLON]))
               names
        with
        | Some name => Some ((List.length name + 3)%nat, tt)
        | None => None
        end
      else None
  | _ => None
  end.

(** The two patterns [generateCueContent] searches with (flag m) start
    alike: at a line start, white space, then the rest of the pattern,
    [core], which says how many code units it takes. *)
Definition afterLineStart (core : str -> option nat) : matcher unit :=
  fun prev s =>
    if atLineStart prev then
      let '(ws, r1) := span isWhiteSpace s in
      match core r1 with
      | Some n => Some ((List.length ws + n)%nat, tt)
      | None => None
      end
    else None.

(** One or more characters of the line taken lazily, then the closing
    bracket and a colon, after the first of these characters: the number of
    code units up to and including the first closing bracket with a colon
    that the line reaches. *)
Fixpoint lazyUntilBracketColon (s : str) : option nat :=
  match s with
  | [] => None
  | c :: r =>
      if startsWith s [RBRACK; COLON] then Some 2%nat
      else if isLineTerminator c then None
      else option_map S (lazyUntilBracketColon r)
  end.

(** The first definition line: after the white space, the two characters
    [[^], one or more characters of the line taken lazily, the closing
    bracket and a colon. *)
Definition defLineCore (r1 : str) : option nat :=
  match r1 with
  | c1 :: c2 :: c3 :: r3 =>
      if (c1 =? LBRACK) && (c2 =? CARET) && negb (isLineTerminator c3) then
        option_map (fun n => (3 + n)%nat) (lazyUntilBracketColon r3)
      else None
  | _ => None
  end.

Definition firstDefRegex : matcher unit := afterLineStart defLineCore.

(** The start of the code block: after the white space, three backquotes
    and the processor id. *)
Definition codeFence : str := [96; 96; 96] ++ codeBlockProcessorId.

Definition fenceCore (r1 : str) : option nat :=
  if startsWith r1 codeFence then Some (List.length codeFence) else None.

Definition firstCbRegex : matcher unit := afterLineStart fenceCore.

(** [TFile]: the fields the plugin reads; [file_parent] is [parent?.path]. *)
Record TFile := {
  file_path : str;
  file_basename : str;
  file_parent : option str
}.

(** ** The generators *)

Section Generators.

(** [a.localeCompare(b, undefined, { numeric: true, sensitivity: 'base' })],
    the host's collation: negative, zero or positive. *)
Variable localeCompare : str -> str -> Z.

(** The sorted, rendered definition block of a map. *)
Definition definitionsText (m : Footnotes) : str :=
  match JsMap.size m with
  | O => []
  | S _ =>
      join blankLine
        (List.map renderDefinition
           (sortBy (fun a b => localeCompare (fst a) (fst b))
                   (JsMap.entries m)))
  end.

(** Step 2 of [updateSourceNoteContentRebuild], first loop: the
    definitions of the Source that the Cue still has take the Cue's text,
    the others are marked for deletion. *)
Definition keepOrMark (footnotesFromCue : Footnotes)
    (acc : Footnotes * list str) (def : ParsedDefinition)
  : Footnotes * list str :=
  let '(finalDefinitions, refsToDeleteCompletely) := acc in
  match JsMap.get footnotesFromCue (def_ref def) with
  | Some cueDef =>
      (JsMap.set finalDefinitions (def_ref def) cueDef, refsToDeleteCompletely)
  | None =>
      (finalDefinitions, setAdd refsToDeleteCompletely (def_ref def))
  end.

(** Step 2, second loop: the definitions only the Cue has are added. *)
Definition addNew (sourceDefs : list ParsedDefinition)
    (finalDefinitions : Footnotes) (e : str * str) : Footnotes :=
  if existsb (fun d => str_eqb (def_ref d) (fst e)) sourceDefs
  then finalDefinitions
  else JsMap.set finalDefinitions (fst e) (snd e).

(** Step 3a: one definition cut out of the body. *)
Definition cutDefinition (bodyContent : str) (def : ParsedDefinition) : str :=
  firstn (def_start def) bodyContent ++ skipn (def_end def) bodyContent.

Definition updateSourceNoteContentRebuild (sourceContent : str)
    (footnotesFromCue : Footnotes) (deleteReferences moveToEnd : bool) : str :=
  let sourceDefs := parseDefinitions sourceContent in
  let '(finalDefinitions0, refsToDeleteCompletely) :=
    fold_left (keepOrMark footnotesFromCue) sourceDefs (JsMap.empty, []) in
  let finalDefinitions :=
    fold_left (addNew sourceDefs) (JsMap.entries footnotesFromCue)
              finalDefinitions0 in
  let sortedDefsToRemove :=
    sortBy (fun a b => (Z.of_nat (def_start b) - Z.of_nat (def_start a))%Z)
           sourceDefs in
  let bodyContent0 :=
    trimEnd (fold_left cutDefinition sortedDefsToRemove sourceContent) in
  let bodyContent :=
    if deleteReferences && negb (Nat.eqb (List.length refsToDeleteCompletely) O)
    then replaceAll (refsToDeleteRegex refsToDeleteCompletely)
                    (fun _ => []) None O bodyContent0
    else bodyContent0 in
  let finalDefinitionsText := definitionsText finalDefinitions in
  let newSourceContent :=
    if truthy finalDefinitionsText then
      if moveToEnd
      then bodyContent ++ blankLine ++ finalDefinitionsText
      else bodyContent ++ blankLine ++ finalDefinitionsText
    else bodyContent in
  collapseNewlines (trimEnd newSourceContent ++ [LF]).

Variable settings : CornellFootnoteSettings.

(** The link back to the Source, the template with the note's name. *)
Definition linkToSource (sourceNoteFile : TFile) : str :=
  replaceFirst (linkToSourceText settings) (lit "{{sourceNote}}")
               (file_basename sourceNoteFile).

(** Where the first definition line or the code block starts, the end of
    the content when there is neither. *)
Definition firstElementIdx (currentContent : str) : nat :=
  let idx0 := List.length currentContent in
  let idx1 :=
    match searchIndex firstDefRegex None O currentContent with
    | Some i => i
    | None => idx0
    end in
  match searchIndex firstCbRegex None O currentContent with
  | Some i => if (i <? idx1)%nat then i else idx1
  | None => idx1
  end.

(** The header taken from the current content, with the link put before
    it when it does not contain the link. *)
Definition extractedHeader (link currentContent : str) : str :=
  let header :=
    trimEnd (substring0 currentContent (firstElementIdx currentContent)) in
  if includes header link then header
  else if truthy header then link ++ blankLine ++ header
  else link.

Definition codeBlockSection : str :=
  blankLine ++ codeFence ++ [LF] ++ [96; 96; 96] ++ [LF].

Definition generateCueContent (currentContent : str) (sourceNoteFile : TFile)
    (footnotes : Footnotes) : str :=
  let header := extractedHeader (linkToSource sourceNoteFile) currentContent in
  let finalHeader := if truthy header then header ++ blankLine else [] in
  let fnsText := definitionsText footnotes in
  let cb :=
    match JsMap.size footnotes with
    | O => []
    | S _ => codeBlockSection
    end in
  collapseNewlines (trimEnd (finalHeader ++ fnsText ++ cb) ++ [LF]).

End Generators.

(** ** Paths and roles *)

Section Paths.

(** Obsidian's [normalizePath]. *)
Variable normalizePath : str -> str.

Definition isCueNote (filePath : str) : bool :=
  if truthy filePath
  then endsWith (normalizePath filePath) (cueNoteSuffix ++ dotMd)
  else false.

Definition isSummaryNote (filePath : str) : bool :=
  if truthy filePath
  then endsWith (normalizePath filePath) (summaryNoteSuffix ++ dotMd)
  else false.

Definition slash : str := lit "/".

Definition getCueNotePath (sourceFile : TFile) : str :=
  let basename := file_basename sourceFile in
  let cueFilename := basename ++ cueNoteSuffix ++ dotMd in
  let folderPath :=
    match file_parent sourceFile with Some p => p | None => slash end in
  let finalPath :=
    if str_eqb folderPath slash || str_eqb folderPath []
    then cueFilename
    else folderPath ++ slash ++ cueFilename in
  normalizePath finalPath.

Definition getSummaryNotePath (sourceFile : TFile) : str :=
  let basename := file_basename sourceFile in
  let summaryFilename := basename ++ summaryNoteSuffix ++ dotMd in
  let folderPath :=
    match file_parent sourceFile with Some p => p | None => slash end in
  let finalPath :=
    if str_eqb folderPath slash || str_eqb folderPath []
    then summaryFilename
    else folderPath ++ slash ++ summaryFilename in
  normalizePath finalPath.

End Paths.

(** ** The plugin's state and the host *)

Record CornellNoteInfo := {
  sourcePath : str;
  cuePath : option str;
  summaryPath : option str;
  lastSyncSourceToCue : option N;
  lastSyncCueToSource : option N
}.

(** [TAbstractFile]: a file with its data, or a folder. *)
Inductive TAbstractFile :=
| AFile (file : TFile) (data : str)
| AFolder (path : str).

Definition abstractPath (a : TAbstractFile) : str :=
  match a with
  | AFile f _ => file_path f
  | AFolder p => p
  end.

Inductive NoticeKind :=
| CueNoteNotFound
| SourceNoteNotFound
| ErrorDuringSourceToCue
| ErrorDuringCueToSource.

(** What a pass does to the outside: notices shown, files written, plugin
    data saved.  Console output is left out. *)
Inductive Event :=
| Notice (kind : NoticeKind) (basename : str)
| Modified (path data : str)
| DataSaved.

Record World := {
  isSyncing : bool;
  noteInfoMap : JsMap.t CornellNoteInfo;
  vault : list TAbstractFile;
  savedNoteInfoMap : option (JsMap.t CornellNoteInfo);
  events : list Event;
  now : N;
  awaits : nat
}.

Definition setSyncing (b : bool) (w : World) : World :=
  {| isSyncing := b; noteInfoMap := noteInfoMap w; vault := vault w;
     savedNoteInfoMap := savedNoteInfoMap w; events := events w;
     now := now w; awaits := awaits w |}.

Definition setNoteInfoMap (m : JsMap.t CornellNoteInfo) (w : World) : World :=
  {| isSyncing := isSyncing w; noteInfoMap := m; vault := vault w;
     savedNoteInfoMap := savedNoteInfoMap w; events := events w;
     now := now w; awaits := awaits w |}.

Definition setVault (v : list TAbstractFile) (w : World) : World :=
  {| isSyncing := isSyncing w; noteInfoMap := noteInfoMap w; vault := v;
     savedNoteInfoMap := savedNoteInfoMap w; events := events w;
     now := now w; awaits := awaits w |}.

Definition setSaved (m : JsMap.t CornellNoteInfo) (w : World) : World :=
  {| isSyncing := isSyncing w; noteInfoMap := noteInfoMap w; vault := vault w;
     savedNoteInfoMap := Some m; events := events w;
     now := now w; awaits := awaits w |}.

Definition addEvent (e : Event) (w : World) : World :=
  {| isSyncing := isSyncing w; noteInfoMap := noteInfoMap w; vault := vault w;
     savedNoteInfoMap := savedNoteInfoMap w; events := events w ++ [e];
     now := now w; awaits := awaits w |}.

Definition nextAwait (w : World) : World :=
  {| isSyncing := isSyncing w; noteInfoMap := noteInfoMap w; vault := vault w;
     savedNoteInfoMap := savedNoteInfoMap w; events := events w;
     now := now w; awaits := S (awaits w) |}.

(** A rejected promise of the host; [Rejected k] is the rejection of the
    k-th awaited call. *)
Inductive Error := Rejected (k : nat).

(** How a block ends: normally with a value, or by throwing. *)
Inductive Completion (A : Type) :=
| Normal (a : A)
| Throw (e : Error).

Arguments Normal {A} a.
Arguments Throw {A} e.

(** An async function of the plugin: from the world to how it ends and the
    world it leaves. *)
Definition Task (A : Type) := World -> Completion A * World.

Definition ret {A} (a : A) : Task A := fun w => (Normal a, w).

Definition bind {A B} (t : Task A) (k : A -> Task B) : Task B := fun w =>
  match t w with
  | (Normal a, w') => k a w'
  | (Throw e, w') => (Throw e, w')
  end.

Notation "x <- t ;; k" := (bind t (fun x => k))
  (at level 61, t at next level, right associativity).
Notation "t ;;; k" := (bind t (fun _ => k))
  (at level 61, right associativity).

Definition perform (f : World -> World) : Task unit := fun w => (Normal tt, f w).

Definition look {A} (f : World -> A) : Task A := fun w => (Normal (f w), w).

(** [try { body } catch (error) { handler } finally { finalizer }]. *)
Definition tryCatchFinally {A} (body : Task A) (handler : Error -> Task A)
    (finalizer : Task unit) : Task A := fun w =>
  let '(c, w1) :=
    match body w with
    | (Normal a, w') => (Normal a, w')
    | (Throw e, w') => handler e w'
    end in
  match finalizer w1 with
  | (Normal _, w2) => (c, w2)
  | (Throw e, w2) => (Throw e, w2)
  end.

(** [try { body } catch (error) { handler }]. *)
Definition tryCatch {A} (body : Task A) (handler : Error -> Task A) : Task A :=
  fun w =>
    match body w with
    | (Normal a, w') => (Normal a, w')
    | (Throw e, w') => handler e w'
    end.

Definition getAbstractFileByPath (v : list TAbstractFile) (path : str)
  : option TAbstractFile :=
  find (fun a => str_eqb (abstractPath a) path) v.

Fixpoint writeFile (v : list TAbstractFile) (path data : str)
  : list TAbstractFile :=
  match v with
  | [] => []
  | a :: v' =>
      if str_eqb (abstractPath a) path then
        match a with
        | AFile f _ => AFile f data :: v'
        | AFolder _ => a :: v'
        end
      else a :: writeFile v' path data
  end.

(** [s.lastIndexOf('/')]. *)
Fixpoint lastIndexOfSlash (i : nat) (s : str) : option nat :=
  match s with
  | [] => None
  | c :: r =>
      match lastIndexOfSlash (S i) r with
      | Some j => Some j
      | None => if c =? 47 then Some i else None
      end
  end.

(** [s.substring(0, s.lastIndexOf('/')) || '/']. *)
Definition folderOf (s : str) : str :=
  match lastIndexOfSlash O s with
  | Some i => if truthy (firstn i s) then firstn i s else slash
  | None => slash
  end.

(** [s.split('/').pop()]. *)
Definition lastSegment (s : str) : str :=
  match lastIndexOfSlash O s with
  | Some i => skipn (S i) s
  | None => s
  end.

(** [s.replace(new RegExp(escapeRegex(suffix) + '$'), '')]. *)
Definition stripSuffix (s suffix : str) : str :=
  if endsWith s suffix
  then firstn (List.length s - List.length suffix) s
  else s.

(** [[...new Set(paths)]]. *)
Definition unique (paths : list str) : list str := fold_left setAdd paths [].

(** ** The two sync passes *)

Section Sync.

Variable localeCompare : str -> str -> Z.
Variable normalizePath : str -> str.
Variable settings : CornellFootnoteSettings.

(** Whether the k-th awaited call of the host rejects. *)
Variable rejects : nat -> bool.

(** What the other tasks of the event loop do to the world while this one
    waits, before and after the k-th awaited call completes. *)
Variable interleaved : nat -> World -> World.

(** [await] of a call of the host: the others run, the call rejects or takes
    effect, the others run again, and the task resumes. *)
Definition awaitHost {A} (call : Task A) : Task A := fun w =>
  let k := awaits w in
  let w1 := interleaved (2 * k) (nextAwait w) in
  if rejects k then (Throw (Rejected k), interleaved (2 * k + 1) w1)
  else
    let '(c, w2) := call w1 in
    (c, interleaved (2 * k + 1) w2).

(** [await sleep(ms)]: a timer never rejects. *)
Definition sleep : Task unit := fun w =>
  let k := awaits w in
  (Normal tt, interleaved (2 * k + 1) (interleaved (2 * k) (nextAwait w))).

(** [await this.app.vault.cachedRead(file)]. *)
Definition cachedRead (file : TFile) : Task str :=
  awaitHost (fun w =>
    match getAbstractFileByPath (vault w) (file_path file) with
    | Some (AFile _ data) => (Normal data, w)
    | _ => (Throw (Rejected (awaits w)), w)
    end).

(** [await this.app.vault.modify(file, data)]. *)
Definition modify (file : TFile) (data : str) : Task unit :=
  awaitHost (fun w =>
    match getAbstractFileByPath (vault w) (file_path file) with
    | Some (AFile _ _) =>
        (Normal tt,
         addEvent (Modified (file_path file) data)
           (setVault (writeFile (vault w) (file_path file) data) w))
    | _ => (Throw (Rejected (awaits w)), w)
    end).

(** [await this.saveData()]. *)
Definition saveData : Task unit :=
  awaitHost (fun w =>
    (Normal tt, addEvent DataSaved (setSaved (noteInfoMap w) w))).

Definition notice (kind : NoticeKind) (basename : str) : Task unit :=
  perform (addEvent (Notice kind basename)).

Definition fileAt (w : World) (path : str) : option TFile :=
  match getAbstractFileByPath (vault w) path with
  | Some (AFile f _) => Some f
  | _ => None
  end.

Definition getOrCreateNoteInfo (sourceNoteFile : TFile) : Task CornellNoteInfo :=
  fun w =>
    let sourcePath := file_path sourceNoteFile in
    match JsMap.get (noteInfoMap w) sourcePath with
    | Some info => (Normal info, w)
    | None =>
        let cuePath := getCueNotePath normalizePath sourceNoteFile in
        let summaryPath := getSummaryNotePath normalizePath sourceNoteFile in
        let info :=
          {| sourcePath := sourcePath;
             cuePath := option_map file_path (fileAt w cuePath);
             summaryPath := option_map file_path (fileAt w summaryPath);
             lastSyncSourceToCue := None;
             lastSyncCueToSource := None |} in
        (Normal info, setNoteInfoMap (JsMap.set (noteInfoMap w) sourcePath info) w)
    end.

Definition option_str_eqb (a : option str) (b : str) : bool :=
  match a with
  | Some x => str_eqb x b
  | None => false
  end.

Definition withCuePath (p : option str) (info : CornellNoteInfo) : CornellNoteInfo :=
  {| sourcePath := sourcePath info; cuePath := p;
     summaryPath := summaryPath info;
     lastSyncSourceToCue := lastSyncSourceToCue info;
     lastSyncCueToSource := lastSyncCueToSource info |}.

Definition withSummaryPath (p : option str) (info : CornellNoteInfo) : CornellNoteInfo :=
  {| sourcePath := sourcePath info; cuePath := cuePath info;
     summaryPath := p;
     lastSyncSourceToCue := lastSyncSourceToCue info;
     lastSyncCueToSource := lastSyncCueToSource info |}.

Definition withLastSyncSourceToCue (t : N) (info : CornellNoteInfo) : CornellNoteInfo :=
  {| sourcePath := sourcePath info; cuePath := cuePath info;
     summaryPath := summaryPath info;
     lastSyncSourceToCue := Some t;
     lastSyncCueToSource := lastSyncCueToSource info |}.

Definition withLastSyncCueToSource (t : N) (info : CornellNoteInfo) : CornellNoteInfo :=
  {| sourcePath := sourcePath info; cuePath := cuePath info;
     summaryPath := summaryPath info;
     lastSyncSourceToCue := lastSyncSourceToCue info;
     lastSyncCueToSource := Some t |}.

(** [updateCueNoteContent]: the Cue is written only when the generated
    content differs from what it holds; an error is logged, not rethrown. *)
Definition updateCueNoteContent (cueNoteFile sourceNoteFile : TFile)
    (footnotes : Footnotes) : Task bool :=
  tryCatch
    (currentContent <- cachedRead cueNoteFile ;;
     let newContent :=
       generateCueContent localeCompare settings currentContent
                          sourceNoteFile footnotes in
     if str_eqb currentContent newContent then ret false
     else modify cueNoteFile newContent ;;; ret true)
    (fun _ => ret false).

(** Steps 1 and 3 of [syncSourceToCue]: the definitions the Cue is to hold. *)
Definition finalCueFootnotes (sourceContent : str) : Footnotes :=
  let sourceDefs := parseDefinitions sourceContent in
  let sourceDefinitionsMap :=
    JsMap.ofEntries
      (List.map (fun def => (def_ref def, def_definition def)) sourceDefs) in
  let final0 :=
    fold_left (fun m e => JsMap.set m (fst e) (snd e))
              (JsMap.entries sourceDefinitionsMap) JsMap.empty in
  if deleteDefinitionsOnReferenceDelete settings then
    let presentSourceRefKeys :=
      List.map ref_ref (parseReferences sourceContent) in
    fold_left
      (fun m e =>
         if existsb (str_eqb (fst e)) presentSourceRefKeys then m
         else JsMap.delete m (fst e))
      (JsMap.entries final0) final0
  else final0.

(** Step 5 of both passes: the Cue's path and the time of the sync are
    recorded, and the plugin data saved, when either changed. *)
Definition recordSync (sourceNoteFile : TFile) (cuePathNow : str)
    (mapNeedsSave : bool)
    (stamp : N -> CornellNoteInfo -> CornellNoteInfo) : Task unit :=
  info <- getOrCreateNoteInfo sourceNoteFile ;;
  let pathChanged := negb (option_str_eqb (cuePath info) cuePathNow) in
  let info1 := if pathChanged then withCuePath (Some cuePathNow) info else info in
  t <- look now ;;
  let info2 := if mapNeedsSave then stamp t info1 else info1 in
  if pathChanged || mapNeedsSave then
    perform (fun w => setNoteInfoMap
                        (JsMap.set (noteInfoMap w) (file_path sourceNoteFile) info2) w) ;;;
    saveData
  else ret tt.

Definition syncSourceToCue (sourceNoteFile : TFile) : Task unit := fun w =>
  if isSyncing w then (Normal tt, w)
  else if isCueNote normalizePath (file_path sourceNoteFile)
          || isSummaryNote normalizePath (file_path sourceNoteFile)
  then (Normal tt, w)
  else
    (perform (setSyncing true) ;;;
     tryCatchFinally
       (sourceContent <- cachedRead sourceNoteFile ;;
        let cueNotePath := getCueNotePath normalizePath sourceNoteFile in
        cueFile <- look (fun w => fileAt w cueNotePath) ;;
        match cueFile with
        | Some cueFileInstance =>
            currentCueContent <- cachedRead cueFileInstance ;;
            updated <- updateCueNoteContent cueFileInstance sourceNoteFile
                         (finalCueFootnotes sourceContent) ;;
            recordSync sourceNoteFile (file_path cueFileInstance) updated
                       withLastSyncSourceToCue
        | None =>
            notice CueNoteNotFound (file_basename sourceNoteFile) ;;;
            info <- getOrCreateNoteInfo sourceNoteFile ;;
            (match cuePath info with
             | Some _ =>
                 perform (fun w => setNoteInfoMap
                                     (JsMap.set (noteInfoMap w)
                                        (file_path sourceNoteFile)
                                        (withCuePath None info)) w) ;;;
                 saveData
             | None => ret tt
             end) ;;;
            perform (setSyncing false) ;;;
            sleep
        end)
       (fun _ => notice ErrorDuringSourceToCue (file_basename sourceNoteFile))
       (sleep ;;; perform (setSyncing false))) w.

(** [getSourceNoteFileFromDerived], first part: the note info whose Cue or
    Summary path is the derived path and whose Source is a file. *)
Fixpoint sourceFromNoteInfo (w : World) (normalizedDerivedPath : str)
    (infos : list CornellNoteInfo) : option TFile :=
  match infos with
  | [] => None
  | info :: rest =>
      if option_str_eqb (cuePath info) normalizedDerivedPath
         || option_str_eqb (summaryPath info) normalizedDerivedPath
      then
        match fileAt w (sourcePath info) with
        | Some sourceFile => Some sourceFile
        | None => sourceFromNoteInfo w normalizedDerivedPath rest
        end
      else sourceFromNoteInfo w normalizedDerivedPath rest
  end.

(** Second part: the Source's base name guessed from the derived file name. *)
Definition guessSourceBasename (normalizedDerivedPath : str) : option str :=
  let derivedFilename := lastSegment normalizedDerivedPath in
  if isCueNote normalizePath normalizedDerivedPath
  then Some (stripSuffix derivedFilename (cueNoteSuffix ++ dotMd))
  else if isSummaryNote normalizePath normalizedDerivedPath
  then Some (stripSuffix derivedFilename (summaryNoteSuffix ++ dotMd))
  else None.

(** The candidate paths: the same folder, its parent, the root. *)
Definition potentialPaths (normalizedDerivedPath sourceBasename : str)
  : list str :=
  let derivedFolder := folderOf normalizedDerivedPath in
  let sourceFilename := sourceBasename ++ dotMd in
  let first := [normalizePath (derivedFolder ++ slash ++ sourceFilename)] in
  if str_eqb derivedFolder slash then first
  else
    first
    ++ [normalizePath (folderOf derivedFolder ++ slash ++ sourceFilename);
        normalizePath (slash ++ sourceFilename)].

Fixpoint probePaths (w : World) (sourceBasename : str) (paths : list str)
  : option TFile :=
  match paths with
  | [] => None
  | p :: rest =>
      match fileAt w p with
      | Some file =>
          if str_eqb (file_basename file) sourceBasename then Some file
          else probePaths w sourceBasename rest
      | None => probePaths w sourceBasename rest
      end
  end.

(** [this.saveData().catch(...)]: not awaited; a rejection is logged. *)
Definition saveDataDetached : Task unit := fun w =>
  let k := awaits w in
  let w1 := nextAwait w in
  if rejects k then (Normal tt, w1)
  else (Normal tt, addEvent DataSaved (setSaved (noteInfoMap w1) w1)).

Definition getSourceNoteFileFromDerived (derivedPath : str)
  : Task (option TFile) := fun w =>
  let normalizedDerivedPath := normalizePath derivedPath in
  match sourceFromNoteInfo w normalizedDerivedPath
          (JsMap.values (noteInfoMap w)) with
  | Some sourceFile => (Normal (Some sourceFile), w)
  | None =>
      match guessSourceBasename normalizedDerivedPath with
      | None => (Normal None, w)
      | Some sourceBasename =>
          if negb (truthy sourceBasename) then (Normal None, w)
          else
            match probePaths w sourceBasename
                    (unique (potentialPaths normalizedDerivedPath sourceBasename))
            with
            | None => (Normal None, w)
            | Some file =>
                let info0 :=
                  match JsMap.get (noteInfoMap w) (file_path file) with
                  | Some info => info
                  | None =>
                      {| sourcePath := file_path file; cuePath := None;
                         summaryPath := None; lastSyncSourceToCue := None;
                         lastSyncCueToSource := None |}
                  end in
                let info1 :=
                  if isCueNote normalizePath normalizedDerivedPath
                  then withCuePath (Some normalizedDerivedPath) info0
                  else info0 in
                let info2 :=
                  if isSummaryNote normalizePath normalizedDerivedPath
                  then withSummaryPath (Some normalizedDerivedPath) info1
                  else info1 in
                (perform (fun w => setNoteInfoMap
                                     (JsMap.set (noteInfoMap w) (file_path file) info2) w) ;;;
                 saveDataDetached ;;;
                 ret (Some file)) w
            end
      end
  end.

Definition syncCueToSource (cueNoteFile : TFile) : Task unit := fun w =>
  if isSyncing w then (Normal tt, w)
  else if negb (isCueNote normalizePath (file_path cueNoteFile))
  then (Normal tt, w)
  else
    (perform (setSyncing true) ;;;
     tryCatchFinally
       (cueContent <- cachedRead cueNoteFile ;;
        let footnotesFromCue := parseFootnotesSimple cueContent in
        source <- getSourceNoteFileFromDerived (file_path cueNoteFile) ;;
        match source with
        | None =>
            notice SourceNoteNotFound (file_basename cueNoteFile) ;;;
            perform (setSyncing false)
        | Some sourceNoteFile =>
            sourceContent <- cachedRead sourceNoteFile ;;
            let newSourceContent :=
              updateSourceNoteContentRebuild localeCompare sourceContent
                footnotesFromCue
                (deleteReferencesOnDefinitionDelete settings)
                (moveFootnotesToEnd settings) in
            mapNeedsSave <-
              (if str_eqb newSourceContent sourceContent then ret false
               else modify sourceNoteFile newSourceContent ;;; ret true) ;;
            recordSync sourceNoteFile (file_path cueNoteFile) mapNeedsSave
                       withLastSyncCueToSource
        end)
       (fun _ => notice ErrorDuringCueToSource (file_basename cueNoteFile))
       (sleep ;;; perform (setSyncing false))) w.

End Sync.

(** ** Vocabulary of the statements *)

(** The character before the position that follows [a], when [prev] is the
    character before [a]. *)
Definition prevAfter (prev : option char) (a : str) : option char :=
  fold_left (fun _ c => Some c) a prev.

(** No match of [m] starts at a position of [a] when [b] follows [a] and
    [prev] is before it. *)
Definition noMatchIn {R} (m : matcher R) (prev : option char) (a b : str) : Prop :=
  forall a1 a2, a = a1 ++ a2 -> a2 <> [] -> m (prevAfter prev a1) (a2 ++ b) = None.

(** No match of [m] starts anywhere in [s], its end included. *)
Definition noMatch {R} (m : matcher R) (prev : option char) (s : str) : Prop :=
  forall a1 a2, s = a1 ++ a2 -> m (prevAfter prev a1) a2 = None.

(** A text is empty or starts with a line terminator. *)
Definition stops (r : str) : Prop :=
  match r with [] => True | c :: _ => isLineTerminator c = true end.

(** What a pattern finds on a line it still finds when the line goes on,
    and it finds nothing in the empty text. *)
Definition lineBound (core : str -> option nat) : Prop :=
  core [] = None
  /\ forall l rest z,
       forallb notLineTerminator l = true -> stops rest ->
       core (l ++ rest) <> None -> core (l ++ z) <> None.

(** The pattern after the white space at the head of a text. *)
Definition hit (core : str -> option nat) (s : str) : option nat :=
  core (snd (span isWhiteSpace s)).

(** The line feed, as a test. *)
Definition isLF (c : char) : bool := c =? LF.

(** A text does not start with a line feed. *)
Definition noLeadLF (r : str) : Prop :=
  match r with [] => True | c :: _ => isLF c = false end.

(** A generated text is normalised when it has no three line feeds in a
    row and is a text without white space at its end followed by one line
    feed. *)
Definition normalized (out : str) : Prop :=
  includes out [LF; LF; LF] = false
  /\ exists t, out = t ++ [LF] /\ trimEnd t = t.

(** A footnote name [generateCueContent] recognises in the line it writes
    for it: not empty, and without a line terminator. *)
Definition goodRef (r : str) : Prop :=
  r <> [] /\ forallb notLineTerminator r = true.

(** A link [generateCueContent] finds again in the header it wrote: on one
    line, without white space at its end, and not itself the start of a
    definition line or of the code block. *)
Definition goodLink (link : str) : Prop :=
  forallb notLineTerminator link = true
  /\ trimEnd link = link
  /\ firstDefRegex None link = None
  /\ firstCbRegex None link = None.

(** The content [generateCueContent] puts together from the header it
    extracted and the footnotes. *)
Definition assembleCue (localeCompare : str -> str -> Z) (header : str)
    (footnotes : Footnotes) : str :=
  let finalHeader := if truthy header then header ++ blankLine else [] in
  let fnsText := definitionsText localeCompare footnotes in
  let cb :=
    match JsMap.size footnotes with
    | O => []
    | S _ => codeBlockSection
    end in
  collapseNewlines (trimEnd (finalHeader ++ fnsText ++ cb) ++ [LF]).

(** A text without the two characters [[^] in a row. *)
Definition plain (s : str) : Prop := includes s [LBRACK; CARET] = false.

(** Plain text with definition prefixes in it: [[^], a plain name without a
    closing bracket, the closing bracket and a colon. *)
Inductive defText : str -> Prop :=
| defText_plain : forall s, plain s -> defText s
| defText_def : forall a r b,
    plain a -> plain r -> forallb notRBrack r = true -> defText b ->
    defText (a ++ [LBRACK; CARET] ++ r ++ [RBRACK; COLON] ++ b).

(** A footnote whose name and text bring no reference of their own: no
    [[^] in either, and no closing bracket in the name. *)
Definition referenceFree (e : str * str) : Prop :=
  plain (fst e) /\ forallb notRBrack (fst e) = true /\ plain (snd e).

(** A file name in the folder of a file: the name alone at the root. *)
Definition inFolderOf (sourceFile : TFile) (filename : str) : str :=
  match file_parent sourceFile with
  | None => filename
  | Some folder =>
      if str_eqb folder slash || str_eqb folder [] then filename
      else folder ++ slash ++ filename
  end.

(** The writes among the events. *)
Definition isModified (e : Event) : bool :=
  match e with
  | Modified _ _ => true
  | _ => false
  end.

Definition modifications (evs : list Event) : list Event := filter isModified evs.

(** Two worlds with the same files and the same writes so far. *)
Definition sameFiles (w w' : World) : Prop :=
  vault w' = vault w /\ modifications (events w') = modifications (events w).

(** ** Sample host functions

    The closed examples need some collation, some path normalisation and
    some vault; these stand in for the host's. *)

(** Comparison by code units, shorter first on a common prefix. *)
Fixpoint codeUnitCompare (a b : str) : Z :=
  match a, b with
  | [], [] => 0%Z
  | [], _ :: _ => (-1)%Z
  | _ :: _, [] => 1%Z
  | x :: a', y :: b' =>
      if x <? y then (-1)%Z
      else if y <? x then 1%Z
      else codeUnitCompare a' b'
  end.

(** Path normalisation as Obsidian documents it, without the Unicode
    normalisation: runs of slashes and backslashes become one slash, the
    slashes at both ends go, the empty path is the root, and no-break
    spaces become spaces. *)
Definition isSeparator (c : char) : bool := (c =? 47) || (c =? 92).

Fixpoint collapseSeparators (s : str) : str :=
  match s with
  | [] => []
  | c :: r =>
      if isSeparator c then
        match r with
        | c2 :: _ => if isSeparator c2 then collapseSeparators r
                     else 47 :: collapseSeparators r
        | [] => [47]
        end
      else c :: collapseSeparators r
  end.

Fixpoint dropTrailingSlashes (s : str) : str :=
  match s with
  | [] => []
  | c :: r =>
      match dropTrailingSlashes r with
      | [] => if c =? 47 then [] else [c]
      | r' => c :: r'
      end
  end.

Definition plainSpace (c : char) : char :=
  if (c =? 160) || (c =? 8239) then SP else c.

Definition sampleNormalizePath (path : str) : str :=
  let p := dropTrailingSlashes
             (dropWhile (fun c => c =? 47) (collapseSeparators path)) in
  List.map plainSpace (if truthy p then p else slash).

(** A string with line feeds written as vertical bars, for examples. *)
Definition text (s : string) : str :=
  List.map (fun c => if c =? 124 then LF else c) (lit s).

(** A small vault for the closed examples. *)
Definition sampleSource : TFile :=
  {| file_path := lit "notes/S.md"; file_basename := lit "S";
     file_parent := Some (lit "notes") |}.

Definition sampleCue : TFile :=
  {| file_path := lit "notes/S-cue.md"; file_basename := lit "S-cue";
     file_parent := Some (lit "notes") |}.

Definition sampleWorld (sourceContent cueContent : str) : World :=
  {| isSyncing := false;
     noteInfoMap := JsMap.empty;
     vault := [AFolder (lit "notes"); AFile sampleSource sourceContent;
               AFile sampleCue cueContent];
     savedNoteInfoMap := None;
     events := [];
     now := 1000;
     awaits := O |}.


(** What follows the note's name in the default link to the Source. *)
Definition backToSource : str := lit "|" ++ leftArrow ++ lit " Back to Source]]".

(** ** [escapeRegex] *)

(** The characters of the class in [escapeRegex]: the dot, the star, the
    plus, the question mark, the caret, the dollar, the braces, the
    parentheses, the bar, the brackets and the backslash. *)
Definition isSpecial (c : char) : bool :=
  (c =? 46) || (c =? 42) || (c =? 43) || (c =? 63) || (c =? 94) || (c =? 36)
  || (c =? 123) || (c =? 125) || (c =? 40) || (c =? 41) || (c =? 124)
  || (c =? 91) || (c =? 93) || (c =? 92).

Definition BACKSLASH : char := 92.

(** One character of the class (flag g); the match is the capture. *)
Definition specialRegex : matcher char := fun _ s =>
  match s with
  | c :: _ => if isSpecial c then Some (1%nat, c) else None
  | [] => None
  end.

(** [escapeRegex(s)]: every match replaced by a backslash and the match. *)
Definition escapeRegex (s : str) : str :=
  replaceAll specialRegex (fun c => [BACKSLASH; c]) None O s.

(** What a pattern made of plain characters and of special characters
    after a backslash matches: the text itself; a pattern with a special
    character on its own, or with a backslash before another character or
    at its end, is not of that kind. *)
Fixpoint patternLiteral (p : str) : option str :=
  match p with
  | [] => Some []
  | c :: r =>
      if c =? BACKSLASH then
        match r with
        | d :: r' =>
            if isSpecial d then option_map (cons d) (patternLiteral r')
            else None
        | [] => None
        end
      else if isSpecial c then None
      else option_map (cons c) (patternLiteral r)
  end.

(** ** The command that highlights the first reference *)

(** [\w]. *)
Definition isWordChar (c : char) : bool :=
  ((48 <=? c) && (c <=? 57)) || ((65 <=? c) && (c <=? 90)) || (c =? 95)
  || ((97 <=? c) && (c <=? 122)).

(** Capture 1 of the pattern for a definition line (no flag): at the start
    of the line, white space, the two characters [[^], one or more
    characters other than the closing bracket, the closing bracket and a
    colon. *)
Definition defLineName (currentLine : str) : option str :=
  let '(_, r1) := span isWhiteSpace currentLine in
  match r1 with
  | c1 :: c2 :: r2 =>
      if (c1 =? LBRACK) && (c2 =? CARET) then
        let '(g, r3) := span notRBrack r2 in
        match g, r3 with
        | _ :: _, c3 :: c4 :: _ =>
            if (c3 =? RBRACK) && (c4 =? COLON) then Some g else None
        | _, _ => None
        end
      else None
  | _ => None
  end.

(** Capture 1 of the pattern for the text of a link button (no flag): at
    the start of the line, white space, the two characters [[^], one or
    more word characters and the closing bracket. *)
Definition buttonName (currentLine : str) : option str :=
  let '(_, r1) := span isWhiteSpace currentLine in
  match r1 with
  | c1 :: c2 :: r2 =>
      if (c1 =? LBRACK) && (c2 =? CARET) then
        let '(g, r3) := span isWordChar r2 in
        match g, r3 with
        | _ :: _, c3 :: _ => if c3 =? RBRACK then Some g else None
        | _, _ => None
        end
      else None
  | _ => None
  end.

(** [defMatch?.[1]?.trim() || cbRefMatch?.[1]?.trim()], when it is truthy:
    the name the command looks for in the Source. *)
Definition refAtCursor (currentLine : str) : option str :=
  match option_map trim (defLineName currentLine) with
  | Some (c :: r) => Some (c :: r)
  | _ =>
      match option_map trim (buttonName currentLine) with
      | Some (c :: r) => Some (c :: r)
      | _ => None
      end
  end.

(** ** The notes the Arrange command creates *)

(** The content [ensureCueNoteExists] gives a new Cue note: the link to
    the Source and a blank line. *)
Definition initialCueContent (settings : CornellFootnoteSettings)
    (sourceFile : TFile) : str :=
  linkToSource settings sourceFile ++ blankLine.

(** ** Scanning the vault *)

(** [a !== b] on [string | null], negated. *)
Definition optionStrEqb (a b : option str) : bool :=
  match a, b with
  | Some x, Some y => str_eqb x y
  | None, None => true
  | _, _ => false
  end.

(** [Set.delete]. *)
Fixpoint setDelete (s : list str) (x : str) : list str :=
  match s with
  | [] => []
  | y :: s' => if str_eqb y x then s' else y :: setDelete s' x
  end.

(** What [initializeOrUpdateNoteInfoMap] has in hand while it goes
    through the files. *)
Record ScanState := {
  scan_noteInfoMap : JsMap.t CornellNoteInfo;
  scan_currentMapKeys : list str;
  scan_mapChanged : bool
}.

Record BatchCounts := {
  processedCount : nat;
  skippedDerivedCount : nat;
  skippedNoCueCount : nat;
  errorCount : nat
}.

(** How [processAllNotesSourceToCue] ends: with the counts of its final
    message, or with the message of a fatal error. *)
Inductive BatchReport :=
| BatchComplete (counts : BatchCounts)
| BatchFatal.

Section Maintenance.

Variable localeCompare : str -> str -> Z.
Variable normalizePath : str -> str.
Variable settings : CornellFootnoteSettings.
Variable rejects : nat -> bool.
Variable interleaved : nat -> World -> World.

(** The callback of [allMarkdownFiles.map] on one file.  It has no
    [await], so it runs to its end when it is called, in the vault [w]. *)
Definition scanFile (w : World) (st : ScanState) (file : TFile) : ScanState :=
  if isCueNote normalizePath (file_path file)
     || isSummaryNote normalizePath (file_path file)
  then st
  else
    let sourcePath := file_path file in
    let expectedCuePath := getCueNotePath normalizePath file in
    let expectedSummaryPath := getSummaryNotePath normalizePath file in
    let actualCuePath := option_map file_path (fileAt w expectedCuePath) in
    let actualSummaryPath :=
      option_map file_path (fileAt w expectedSummaryPath) in
    match JsMap.get (scan_noteInfoMap st) sourcePath with
    | Some currentInfo =>
        let cueChanged :=
          negb (optionStrEqb (cuePath currentInfo) actualCuePath) in
        let info1 :=
          if cueChanged then withCuePath actualCuePath currentInfo
          else currentInfo in
        let summaryChanged :=
          negb (optionStrEqb (summaryPath info1) actualSummaryPath) in
        let info2 :=
          if summaryChanged then withSummaryPath actualSummaryPath info1
          else info1 in
        let infoNeedsUpdate := cueChanged || summaryChanged in
        {| scan_noteInfoMap :=
             if infoNeedsUpdate
             then JsMap.set (scan_noteInfoMap st) sourcePath info2
             else scan_noteInfoMap st;
           scan_currentMapKeys := setDelete (scan_currentMapKeys st) sourcePath;
           scan_mapChanged := scan_mapChanged st || infoNeedsUpdate |}
    | None =>
        let newInfo :=
          {| sourcePath := sourcePath;
             cuePath := actualCuePath;
             summaryPath := actualSummaryPath;
             lastSyncSourceToCue := None;
             lastSyncCueToSource := None |} in
        {| scan_noteInfoMap := JsMap.set (scan_noteInfoMap st) sourcePath newInfo;
           scan_currentMapKeys := scan_currentMapKeys st;
           scan_mapChanged := true |}
    end.

(** [await Promise.all(...)] of callbacks that have all run to their end:
    it cannot reject, and the others run while the task waits. *)
Definition awaitAll : Task unit := fun w =>
  let k := awaits w in
  (Normal tt, interleaved (2 * k + 1) (interleaved (2 * k) (nextAwait w))).

(** The loop over the keys that no file accounted for. *)
Definition dropDeleted (acc : JsMap.t CornellNoteInfo * bool)
    (deletedSourcePath : str) : JsMap.t CornellNoteInfo * bool :=
  let '(m, mapChanged) := acc in
  if JsMap.has m deletedSourcePath
  then (JsMap.delete m deletedSourcePath, true)
  else (m, mapChanged).

(** [initializeOrUpdateNoteInfoMap()], for the list of files
    [getMarkdownFiles()] returns. *)
Definition initializeOrUpdateNoteInfoMap (allMarkdownFiles : list TFile)
  : Task unit := fun w =>
  let st :=
    fold_left (scanFile w) allMarkdownFiles
      {| scan_noteInfoMap := noteInfoMap w;
         scan_currentMapKeys := JsMap.keys (noteInfoMap w);
         scan_mapChanged := false |} in
  (perform (setNoteInfoMap (scan_noteInfoMap st)) ;;;
   awaitAll ;;;
   mapChanged <-
     (fun w1 =>
        let '(m, mapChanged) :=
          fold_left dropDeleted (scan_currentMapKeys st)
                    (noteInfoMap w1, scan_mapChanged st) in
        (Normal mapChanged, setNoteInfoMap m w1)) ;;
   if mapChanged then saveData rejects interleaved else ret tt) w.

Definition countProcessed (c : BatchCounts) : BatchCounts :=
  {| processedCount := S (processedCount c);
     skippedDerivedCount := skippedDerivedCount c;
     skippedNoCueCount := skippedNoCueCount c;
     errorCount := errorCount c |}.

Definition countSkippedDerived (c : BatchCounts) : BatchCounts :=
  {| processedCount := processedCount c;
     skippedDerivedCount := S (skippedDerivedCount c);
     skippedNoCueCount := skippedNoCueCount c;
     errorCount := errorCount c |}.

Definition countSkippedNoCue (c : BatchCounts) : BatchCounts :=
  {| processedCount := processedCount c;
     skippedDerivedCount := skippedDerivedCount c;
     skippedNoCueCount := S (skippedNoCueCount c);
     errorCount := errorCount c |}.

Definition countError (c : BatchCounts) : BatchCounts :=
  {| processedCount := processedCount c;
     skippedDerivedCount := skippedDerivedCount c;
     skippedNoCueCount := skippedNoCueCount c;
     errorCount := S (errorCount c) |}.

(** [INTERNAL_SETTINGS.batchSyncUpdateInterval]. *)
Definition batchSyncUpdateInterval : nat := 50.

(** The [for] loop of [processAllNotesSourceToCue] from one file on; the
    text of the progress notice is left out, the wait after it is not. *)
Fixpoint batchLoop (totalFiles : nat) (files : list TFile) (c : BatchCounts)
  : Task BatchCounts :=
  match files with
  | [] => ret c
  | file :: rest =>
      if isCueNote normalizePath (file_path file)
         || isSummaryNote normalizePath (file_path file)
      then batchLoop totalFiles rest (countSkippedDerived c)
      else
        cueFile <- look (fun w => fileAt w (getCueNotePath normalizePath file)) ;;
        match cueFile with
        | None => batchLoop totalFiles rest (countSkippedNoCue c)
        | Some _ =>
            c1 <- tryCatch
                    (syncSourceToCue localeCompare normalizePath settings
                       rejects interleaved file ;;;
                     ret (countProcessed c))
                    (fun _ => ret (countError c)) ;;
            let currentProcessedTotal :=
              (processedCount c1 + skippedDerivedCount c1
               + skippedNoCueCount c1)%nat in
            (if Nat.eqb (currentProcessedTotal mod batchSyncUpdateInterval) O
                || Nat.eqb currentProcessedTotal totalFiles
             then sleep interleaved
             else ret tt) ;;;
            batchLoop totalFiles rest c1
        end
  end.

(** [processAllNotesSourceToCue()], for the list of files
    [getMarkdownFiles()] returns. *)
Definition processAllNotesSourceToCue (allMarkdownFiles : list TFile)
  : Task BatchReport :=
  tryCatchFinally
    (c <- batchLoop (List.length allMarkdownFiles) allMarkdownFiles
            {| processedCount := O; skippedDerivedCount := O;
               skippedNoCueCount := O; errorCount := O |} ;;
     ret (BatchComplete c))
    (fun _ => ret BatchFatal)
    (saveData rejects interleaved).

End Maintenance.

(** ** More vocabulary *)

(** What the matches of a search with flag g captured, in order. *)
Definition captures {R} (m : matcher R) (prev : option char) (skip : nat)
    (s : str) : list R :=
  List.map snd (execAll m prev skip O s).

(** A text at which the definition text of a line ends: the end of the
    input, or a line terminator that no continuation line follows. *)
Definition endsBody (t : str) : Prop :=
  match t with
  | [] => True
  | c :: r =>
      isLineTerminator c = true /\ ((c =? LF) = false \/ indentLen r = None)
  end.

(** A footnote that the definition line written for it gives back: a good
    name without a closing bracket, and a text on one line that is not
    empty, both trimmed. *)
Definition faithfulEntry (e : str * str) : Prop :=
  goodRef (fst e) /\ forallb notRBrack (fst e) = true
  /\ trim (fst e) = fst e
  /\ snd e <> [] /\ forallb notLineTerminator (snd e) = true
  /\ trim (snd e) = snd e.

(** A task keeps [I] and, when it completes normally, returns a value that
    satisfies [Q]. *)
Definition keeps {A} (I : World -> Prop) (t : Task A) (Q : A -> Prop) : Prop :=
  forall w, I w ->
    I (snd (t w))
    /\ match fst (t w) with Normal a => Q a | Throw _ => True end.

(** Every entry of the map is filed under the path of its Source. *)
Definition wellKeyed (m : JsMap.t CornellNoteInfo) : Prop :=
  forall k info, In (k, info) m -> sourcePath info = k.

(** Since [w0], no file but the one at [path] was written: the other paths
    lead to what they led to, and every write recorded is one recorded in
    [w0] or a write at [path]. *)
Definition wroteOnly (path : str) (w0 w : World) : Prop :=
  (forall p, p <> path ->
     getAbstractFileByPath (vault w) p = getAbstractFileByPath (vault w0) p)
  /\ (forall p data, In (Modified p data) (events w) ->
        In (Modified p data) (events w0) \/ p = path).

(** ** More sample data *)

(** The note info of the sample Source once its Cue is known. *)
Definition sampleInfo : CornellNoteInfo :=
  {| sourcePath := file_path sampleSource;
     cuePath := Some (file_path sampleCue);
     summaryPath := None;
     lastSyncSourceToCue := None;
     lastSyncCueToSource := None |}.

(** The sample vault with that info in the map. *)
Definition sampleLinkedWorld (sourceContent cueContent : str) : World :=
  setNoteInfoMap [(file_path sampleSource, sampleInfo)]
    (sampleWorld sourceContent cueContent).

(** The sample vault without the Cue note. *)
Definition sampleLoneWorld (sourceContent : str) : World :=
  setVault [AFolder (lit "notes"); AFile sampleSource sourceContent]
    (sampleWorld sourceContent (lit "")).

(** A file that is neither a Cue note nor a Summary note. *)
Definition isSourceNote (normalizePath : str -> str) (file : TFile) : bool :=
  negb (isCueNote normalizePath (file_path file)
        || isSummaryNote normalizePath (file_path file)).

(** A note info that has the paths of the Cue and Summary notes of a
    Source as the vault has them: the path of the file that is there, or
    nothing. *)
Definition upToDate (normalizePath : str -> str) (w : World) (file : TFile)
    (info : CornellNoteInfo) : Prop :=
  cuePath info
  = option_map file_path (fileAt w (getCueNotePath normalizePath file))
  /\ summaryPath info
     = option_map file_path (fileAt w (getSummaryNotePath normalizePath file)).

(** Where the scan stands after the files [done], for a map that had the
    keys [keys0]: the keys still to account for are those no Source among
    [done] has, they are keys of the map, and an entry of the map is
    either one of those or the entry, up to date, of a Source among
    [done]. *)
Definition scanInvariant (normalizePath : str -> str) (w : World)
    (keys0 : list str) (done : list TFile) (st : ScanState) : Prop :=
  NoDup (JsMap.keys (scan_noteInfoMap st))
  /\ NoDup (scan_currentMapKeys st)
  /\ (forall k, In k (scan_currentMapKeys st)
                <-> In k keys0
                    /\ ~ exists f, In f done /\ file_path f = k
                                   /\ isSourceNote normalizePath f = true)
  /\ (forall k info, In (k, info) (scan_noteInfoMap st) ->
        In k (scan_currentMapKeys st)
        \/ exists f, In f done /\ file_path f = k
                     /\ isSourceNote normalizePath f = true
                     /\ upToDate normalizePath w f info)
  /\ (forall f, In f done -> isSourceNote normalizePath f = true ->
                In (file_path f) (JsMap.keys (scan_noteInfoMap st)))
  /\ (forall k, In k (scan_currentMapKeys st) ->
                In k (JsMap.keys (scan_noteInfoMap st))).

(** ** The start of a definition, character by character

    How far a text has got as the start of a match of the definition
    pattern: in the white space, after the opening bracket, after the
    caret, in the name, after the closing bracket, through (the colon is
    there: the rest of the pattern cannot fail), or off. *)
Inductive DefState :=
| DLead | DBracket | DCaret | DName | DClose | DAccept | DReject.

Definition defStep (q : DefState) (c : char) : DefState :=
  match q with
  | DLead =>
      if isWhiteSpace c then DLead
      else if c =? LBRACK then DBracket else DReject
  | DBracket => if c =? CARET then DCaret else DReject
  | DCaret => if c =? RBRACK then DReject else DName
  | DName => if c =? RBRACK then DClose else DName
  | DClose => if c =? COLON then DAccept else DReject
  | DAccept => DAccept
  | DReject => DReject
  end.

Definition defRun (q : DefState) (s : str) : DefState := fold_left defStep s q.

(** A state in which no definition has started and no name is open. *)
Definition settled (q : DefState) : Prop :=
  q <> DAccept /\ q <> DCaret /\ q <> DName.

(** At no line start of [s], with [prev] before it, does a definition
    start or a name stay open to the end. *)
Definition quiet (prev : option char) (s : str) : Prop :=
  forall a b, s = a ++ b -> atLineStart (prevAfter prev a) = true ->
              settled (defRun DLead b).

(** Every [[^] of the text has a closing bracket somewhere after it. *)
Definition bracketsClosed (s : str) : Prop :=
  forall a b, s = a ++ [LBRACK; CARET] ++ b -> In RBRACK b.

(** A state that can follow the character [prev]. *)
Definition follows (q : DefState) (prev : option char) : Prop :=
  match q with
  | DBracket => prev = Some LBRACK
  | DCaret => prev = Some CARET
  | DClose => prev = Some RBRACK
  | _ => True
  end.


(** [bracketsClosed], computed. *)
Fixpoint bracketsClosedb (s : str) : bool :=
  match s with
  | [] => true
  | _ :: r =>
      (if startsWith s [LBRACK; CARET]
       then existsb (fun x => x =? RBRACK) (skipn 1 r) else true)
      && bracketsClosedb r
  end.


(** The definitions the rebuild keeps, its step 2: those of the Source
    that the Cue still has, with the Cue's text, then those only the Cue
    has. *)
Definition finalDefinitions (footnotesFromCue : Footnotes)
    (sourceDefs : list ParsedDefinition) : Footnotes :=
  fold_left (addNew sourceDefs) (JsMap.entries footnotesFromCue)
    (fst (fold_left (keepOrMark footnotesFromCue) sourceDefs
            (JsMap.empty, []))).

(** The comparison puts no two names before each other, and a name before
    a name that is before a third is before the third. *)
Definition consistentOrder (cmp : str -> str -> Z) : Prop :=
  (forall a b, (cmp a b < 0)%Z -> ~ (cmp b a < 0)%Z)
  /\ (forall a b c, (cmp a b < 0)%Z -> (cmp b c < 0)%Z -> (cmp a c < 0)%Z).


(** A name without a slash. *)
Definition noSlash (s : str) : Prop :=
  forallb (fun c => negb (c =? 47)) s = true.

(** ** Basic facts about strings *)

Lemma str_eqb_eq : forall a b, str_eqb a b = true <-> a = b.
Proof.
  induction a as [|x a IH]; intros [|y b]; simpl; split; intro H;
    try reflexivity; try discriminate.
  - apply andb_true_iff in H as [H1 H2].
    apply N.eqb_eq in H1. apply IH in H2. congruence.
  - injection H as -> ->. apply andb_true_iff. split.
    + apply N.eqb_refl.
    + now apply IH.
Qed.

Lemma str_eqb_refl : forall a, str_eqb a a = true.
Proof. intro a. now apply str_eqb_eq. Qed.

Lemma str_eqb_neq : forall a b, str_eqb a b = false <-> a <> b.
Proof.
  intros a b. split; intro H.
  - intro E. apply str_eqb_eq in E. congruence.
  - destruct (str_eqb a b) eqn:E; [|reflexivity].
    apply str_eqb_eq in E. contradiction.
Qed.

Lemma str_eqb_sym : forall a b, str_eqb a b = str_eqb b a.
Proof.
  intros a b. destruct (str_eqb a b) eqn:E.
  - apply str_eqb_eq in E. subst. symmetry. apply str_eqb_refl.
  - symmetry. apply str_eqb_neq. apply str_eqb_neq in E. congruence.
Qed.

(** ** Facts about [JsMap] *)

Lemma JsMap_get_set_same : forall (V : Type) (m : JsMap.t V) k v,
  JsMap.get (JsMap.set m k v) k = Some v.
Proof.
  induction m as [|[k' v'] m IH]; intros k v; simpl.
  - now rewrite str_eqb_refl.
  - destruct (str_eqb k' k) eqn:E; simpl; rewrite E; auto.
Qed.


Lemma JsMap_keys_set : forall (V : Type) (m : JsMap.t V) k v,
  JsMap.keys (JsMap.set m k v)
  = if JsMap.has m k then JsMap.keys m else JsMap.keys m ++ [k].
Proof.
  unfold JsMap.has, JsMap.keys.
  induction m as [|[k0 v0] m IH]; intros k v; simpl; [reflexivity|].
  destruct (str_eqb k0 k) eqn:E; simpl; [reflexivity|].
  rewrite IH. destruct (JsMap.get m k); reflexivity.
Qed.

Lemma JsMap_has_In : forall (V : Type) (m : JsMap.t V) k,
  JsMap.has m k = true <-> In k (JsMap.keys m).
Proof.
  unfold JsMap.has, JsMap.keys.
  induction m as [|[k0 v0] m IH]; intros k; simpl.
  - split; [discriminate | tauto].
  - destruct (str_eqb k0 k) eqn:E.
    + apply str_eqb_eq in E. split; auto.
    + apply str_eqb_neq in E. rewrite IH. split; [tauto|].
      intros [H|H]; [contradiction | assumption].
Qed.

Lemma JsMap_keys_set_NoDup : forall (V : Type) (m : JsMap.t V) k v,
  NoDup (JsMap.keys m) -> NoDup (JsMap.keys (JsMap.set m k v)).
Proof.
  intros V m k v H. rewrite JsMap_keys_set.
  destruct (JsMap.has m k) eqn:E; [assumption|].
  apply NoDup_app; [assumption | repeat constructor; simpl; tauto |].
  intros x Hin [Hx|[]]. subst x.
  apply JsMap_has_In in Hin. congruence.
Qed.


(** ** The definition pattern and the two parsers *)

Lemma execAll_Forall : forall (R : Type) (m : matcher R) (P : R -> Prop),
  (forall prev s len x, m prev s = Some (len, x) -> P x) ->
  forall s prev skip i,
    Forall (fun r => P (snd r)) (execAll m prev skip i s).
Proof.
  intros R m P Hm. induction s as [|c r IH]; intros prev skip i; simpl.
  - constructor.
  - destruct skip as [|k]; [|apply IH].
    destruct (m prev (c :: r)) as [[len x]|] eqn:E; [|apply IH].
    constructor; [|apply IH]. simpl. eapply Hm; eauto.
Qed.

(** Capture 2 of a match of the definition pattern is never empty, so the
    test [if (match[2])] of [parseFootnotesSimple] always passes. *)
Lemma defRegex_name_truthy : forall prev s len g1 g2 g3,
  defRegex prev s = Some (len, (g1, g2, g3)) -> truthy g2 = true.
Proof.
  unfold defRegex. intros prev s len g1 g2 g3 H.
  destruct (atLineStart prev); [|discriminate].
  destruct (span isWhiteSpace s) as [a r1].
  destruct r1 as [|c1 [|c2 r2]]; try discriminate.
  destruct ((c1 =? LBRACK) && (c2 =? CARET)); [|discriminate].
  destruct (span notRBrack r2) as [b r3].
  destruct b as [|b0 b]; [discriminate|].
  destruct r3 as [|c3 [|c4 r4]]; try discriminate.
  destruct ((c3 =? RBRACK) && (c4 =? COLON)); [|discriminate].
  destruct (span isWhiteSpace r4) as [ws r5].
  injection H as _ _ <- _. reflexivity.
Qed.

Lemma parseFootnotesSimple_fold : forall content,
  parseFootnotesSimple content
  = fold_left setDefinition (parseDefinitions content) JsMap.empty.
Proof.
  intro content. unfold parseFootnotesSimple, parseDefinitions.
  assert (H : Forall (fun r => truthy (snd (fst (snd r))) = true)
                     (defMatches content)).
  { apply (execAll_Forall _ defRegex
             (fun x : defCaptures => truthy (snd (fst x)) = true)).
    intros prev s len [[g1 g2] g3] E. simpl.
    eapply defRegex_name_truthy; eauto. }
  generalize (@JsMap.empty str).
  induction H as [|[[i len] [[g1 g2] g3]] l Hx Hl IH]; intro m; simpl.
  - reflexivity.
  - simpl in Hx. rewrite Hx. rewrite IH. reflexivity.
Qed.


Lemma fold_setDefinition_NoDup : forall l m,
  NoDup (JsMap.keys m) -> NoDup (JsMap.keys (fold_left setDefinition l m)).
Proof.
  induction l as [|d l IH]; intros m H; simpl; [assumption|].
  apply IH. unfold setDefinition. now apply JsMap_keys_set_NoDup.
Qed.





(** C5: a definition line whose name is only white space is parsed all the
    same, by both parsers, with the empty name: [parseFootnotesSimple]
    tests the name before it trims it, [parseSourceContent] does not test
    it. *)
Theorem empty_ref_not_skipped :
  List.map def_ref (fst (parseSourceContent (lit "[^ ]: body"))) = [ [] ]
  /\ parseFootnotesSimple (lit "[^ ]: body") = [([], lit "body")].
Proof. split; vm_compute; reflexivity. Qed.

(** C7: [updateSourceNoteContentRebuild] returns the same content whether
    [moveToEnd] is set or not. *)
Theorem moveToEnd_makes_no_difference :
  forall localeCompare sourceContent footnotesFromCue deleteReferences,
    updateSourceNoteContentRebuild localeCompare sourceContent
      footnotesFromCue deleteReferences true
    = updateSourceNoteContentRebuild localeCompare sourceContent
        footnotesFromCue deleteReferences false.
Proof.
  intros. unfold updateSourceNoteContentRebuild.
  destruct (fold_left _ _ _) as [finalDefinitions0 refsToDeleteCompletely].
  destruct (truthy _); reflexivity.
Qed.

(** C2: a reference written with spaces inside the brackets cites, for the
    parser, the trimmed name; when that name's definition is gone from the
    Cue and references are to be deleted, the rebuilt Source still holds
    the reference. *)
Theorem padded_reference_not_deleted :
  forall localeCompare,
    let source := text "See[^a] and[^ b ].||[^a]: A|[^b]: B" in
    let rebuilt :=
      updateSourceNoteContentRebuild localeCompare source
        [(lit "a", lit "A2")] true true in
    List.map ref_ref (snd (parseSourceContent source)) = [lit "a"; lit "b"]
    /\ rebuilt = text "See[^a] and[^ b ].||[^a]: A2|"
    /\ List.map ref_ref (snd (parseSourceContent rebuilt)) = [lit "a"; lit "b"].
Proof. intro. repeat split; vm_compute; reflexivity. Qed.

(** ** The drivers *)

Lemma prevAfter_app : forall a b prev,
  prevAfter prev (a ++ b) = prevAfter (prevAfter prev a) b.
Proof. intros. unfold prevAfter. apply fold_left_app. Qed.

Lemma prevAfter_cons : forall c a prev,
  prevAfter prev (c :: a) = prevAfter (Some c) a.
Proof. reflexivity. Qed.

(** Passing over the rest of a match. *)
Lemma replaceAll_skip : forall (R : Type) (m : matcher R) f a b prev,
  replaceAll m f prev (List.length a) (a ++ b)
  = replaceAll m f (prevAfter prev a) O b.
Proof.
  induction a as [|c a IH]; intros b prev; simpl.
  - destruct b; reflexivity.
  - apply IH.
Qed.

Lemma replaceAll_prev_irrelevant : forall (R : Type) (m : matcher R) f,
  (forall p1 p2 s, m p1 s = m p2 s) ->
  forall s p1 p2 skip, replaceAll m f p1 skip s = replaceAll m f p2 skip s.
Proof.
  intros R m f Hm. induction s as [|c r IH]; intros p1 p2 skip; simpl.
  - reflexivity.
  - destruct skip; [|apply IH].
    rewrite (Hm p1 p2). destruct (m p2 (c :: r)) as [[len x]|].
    + f_equal. 
    + f_equal. 
Qed.

(** A match at the head of the text: its replacement, then the text after
    the match. *)
Lemma replaceAll_match : forall (R : Type) (m : matcher R) f a b prev x,
  a <> [] ->
  m prev (a ++ b) = Some (List.length a, x) ->
  replaceAll m f prev O (a ++ b) = f x ++ replaceAll m f (prevAfter prev a) O b.
Proof.
  intros R m f a b prev x Ha Hm. destruct a as [|c a]; [contradiction|].
  simpl app in *. cbn [replaceAll]. rewrite Hm. f_equal.
  simpl. apply replaceAll_skip.
Qed.

Lemma replaceAll_no_match : forall (R : Type) (m : matcher R) f c r prev,
  m prev (c :: r) = None ->
  replaceAll m f prev O (c :: r) = c :: replaceAll m f (Some c) O r.
Proof. intros. simpl. now rewrite H. Qed.

(** ** Runs of line feeds and [collapseNewlines] *)

Lemma span_app_stop : forall p a r,
  forallb p a = true ->
  (match r with [] => True | c :: _ => p c = false end) ->
  span p (a ++ r) = (a, r).
Proof.
  induction a as [|c a IH]; intros r Ha Hr; simpl.
  - destruct r as [|c r]; [reflexivity|]. simpl. now rewrite Hr.
  - simpl in Ha. apply andb_true_iff in Ha as [Hc Ha].
    rewrite Hc, IH; auto.
Qed.

Lemma span_spec : forall p s,
  s = fst (span p s) ++ snd (span p s)
  /\ forallb p (fst (span p s)) = true
  /\ match snd (span p s) with [] => True | c :: _ => p c = false end.
Proof.
  induction s as [|c r IH]; simpl.
  - auto.
  - destruct (p c) eqn:E.
    + destruct (span p r) as [a b]. simpl in *.
      destruct IH as (H1 & H2 & H3). repeat split; auto.
      * now f_equal.
      * now rewrite E.
    + simpl. rewrite E. auto.
Qed.

Lemma forallb_isLF_repeat : forall a,
  forallb isLF a = true -> a = repeat LF (List.length a).
Proof.
  induction a as [|c a IH]; simpl; intro H; [reflexivity|].
  apply andb_true_iff in H as [Hc Ha]. apply N.eqb_eq in Hc.
  subst c. f_equal. auto.
Qed.

Lemma forallb_isLF_of_repeat : forall n, forallb isLF (repeat LF n) = true.
Proof. induction n; simpl; auto. Qed.

(** Induction on a text by its runs of line feeds. *)
Lemma str_runs_ind : forall P : str -> Prop,
  P [] ->
  (forall c r, isLF c = false -> P r -> P (c :: r)) ->
  (forall n r, noLeadLF r -> P r -> P (repeat LF (S n) ++ r)) ->
  forall s, P s.
Proof.
  intros P H0 Hc Hrun s.
  remember (List.length s) as k eqn:Hk. revert s Hk.
  induction k as [k IH] using lt_wf_ind. intros s Hk.
  destruct s as [|c r]; [assumption|].
  destruct (isLF c) eqn:E.
  - destruct (span_spec isLF (c :: r)) as (H1 & H2 & H3).
    simpl in H1, H2, H3. fold (isLF c) in *. unfold isLF in E.
    change (c =? LF) with (isLF c) in E.
    simpl span in *. rewrite E in *.
    destruct (span isLF r) as [a b] eqn:Es. simpl in *.
    apply andb_true_iff in H2 as [_ H2].
    apply N.eqb_eq in E. subst c.
    rewrite H1. rewrite (forallb_isLF_repeat a H2).
    change (LF :: repeat LF (List.length a) ++ b)
      with (repeat LF (S (List.length a)) ++ b).
    apply Hrun; [exact H3|].
    apply (IH (List.length b)); [|reflexivity].
    subst k. injection H1 as H1. rewrite H1, length_app. simpl. lia.
  - apply Hc; [assumption|].
    apply (IH (List.length r)); [subst k; simpl; lia | reflexivity].
Qed.

Lemma collapse_prev : forall s p skip,
  replaceAll newlines3Regex (fun _ => [LF; LF]) p skip s
  = replaceAll newlines3Regex (fun _ => [LF; LF]) None skip s.
Proof.
  intros. apply replaceAll_prev_irrelevant. reflexivity.
Qed.

Lemma collapse_cons_other : forall c r,
  isLF c = false -> collapseNewlines (c :: r) = c :: collapseNewlines r.
Proof.
  intros c r H. unfold collapseNewlines.
  rewrite replaceAll_no_match.
  - f_equal. apply collapse_prev.
  - unfold newlines3Regex. simpl. unfold isLF in H. rewrite H. reflexivity.
Qed.

Lemma newlines3Regex_run : forall n r prev,
  noLeadLF r ->
  newlines3Regex prev (repeat LF n ++ r)
  = if (3 <=? n)%nat then Some (n, tt) else None.
Proof.
  intros n r prev Hr. unfold newlines3Regex.
  change (fun c : char => c =? LF) with isLF.
  rewrite span_app_stop.
  - simpl. now rewrite repeat_length.
  - apply forallb_isLF_of_repeat.
  - exact Hr.
Qed.

Lemma collapse_run : forall n r,
  noLeadLF r ->
  collapseNewlines (repeat LF n ++ r)
  = repeat LF (Nat.min n 2) ++ collapseNewlines r.
Proof.
  intros n r Hr. unfold collapseNewlines.
  destruct (le_lt_dec 3 n) as [Hn|Hn].
  - rewrite (replaceAll_match _ newlines3Regex _ (repeat LF n) r None tt).
    + rewrite collapse_prev. replace (Nat.min n 2) with 2%nat by lia.
      reflexivity.
    + destruct n; [lia | discriminate].
    + rewrite newlines3Regex_run by assumption. rewrite repeat_length.
      destruct (Nat.leb_spec 3 n); [reflexivity | lia].
  - destruct n as [|[|[|n]]]; try lia; simpl app.
    + reflexivity.
    + rewrite replaceAll_no_match.
      * rewrite collapse_prev. reflexivity.
      * apply (newlines3Regex_run 1 r None Hr).
    + rewrite replaceAll_no_match.
      * rewrite collapse_prev. rewrite replaceAll_no_match.
        -- rewrite collapse_prev. reflexivity.
        -- apply (newlines3Regex_run 1 r None Hr).
      * apply (newlines3Regex_run 2 r None Hr).
Qed.

Lemma collapse_nil : collapseNewlines [] = [].
Proof. reflexivity. Qed.

Lemma noLeadLF_collapse : forall r, noLeadLF r -> noLeadLF (collapseNewlines r).
Proof.
  intros [|c r] H; simpl in *; [exact I|].
  rewrite collapse_cons_other by assumption. exact H.
Qed.

(** [collapseNewlines] works on each side of a character that is not a line
    feed. *)
Lemma collapse_app_other : forall a c b,
  isLF c = false ->
  collapseNewlines (a ++ c :: b)
  = collapseNewlines a ++ c :: collapseNewlines b.
Proof.
  intros a c b Hc. pattern a. apply str_runs_ind; clear a;
    [|intros c' r Hc' IH|intros n r Hr IH].
  - simpl. now apply collapse_cons_other.
  - simpl. rewrite !collapse_cons_other by assumption. simpl. now f_equal.
  - rewrite <- app_assoc. rewrite !collapse_run; auto.
    + rewrite IH. now rewrite app_assoc.
    + destruct r; simpl; auto.
Qed.

Lemma includes_cons_other : forall c t,
  isLF c = false -> includes (c :: t) [LF; LF; LF] = includes t [LF; LF; LF].
Proof.
  intros c t H. cbn [includes startsWith]. unfold isLF in H. rewrite H.
  reflexivity.
Qed.

Lemma includes_short_run : forall n t,
  (n <= 2)%nat -> noLeadLF t ->
  includes (repeat LF n ++ t) [LF; LF; LF] = includes t [LF; LF; LF].
Proof.
  intros n t Hn Ht.
  assert (Hs : forall u, noLeadLF u -> startsWith u [LF] = false).
  { intros [|c u] Hu; simpl in *; [reflexivity|].
    unfold isLF in Hu. rewrite Hu. reflexivity. }
  destruct t as [|c t].
  - destruct n as [|[|[|n]]]; try lia; reflexivity.
  - simpl in Ht. unfold isLF in Ht.
    destruct n as [|[|[|n]]]; try lia; cbn [repeat app includes startsWith];
      rewrite ?Ht; cbn; rewrite ?Ht; reflexivity.
Qed.

Lemma collapse_no_three : forall s,
  includes (collapseNewlines s) [LF; LF; LF] = false.
Proof.
  intro s. pattern s. apply str_runs_ind; clear s;
    [|intros c r Hc IH|intros n r Hr IH].
  - reflexivity.
  - rewrite collapse_cons_other by assumption.
    now rewrite includes_cons_other.
  - rewrite collapse_run by assumption.
    rewrite includes_short_run; auto using noLeadLF_collapse. lia.
Qed.

(** ** [trimEnd] *)

Lemma trimEnd_app_keep : forall a b,
  trimEnd b <> [] -> trimEnd (a ++ b) = a ++ trimEnd b.
Proof.
  induction a as [|c a IH]; intros b Hb; simpl; [reflexivity|].
  rewrite IH by assumption.
  destruct (a ++ trimEnd b) eqn:E; [|reflexivity].
  apply app_eq_nil in E as [_ E]. contradiction.
Qed.

Lemma trimEnd_last : forall t c,
  isWhiteSpace c = false -> trimEnd (t ++ [c]) = t ++ [c].
Proof.
  intros t c H. rewrite trimEnd_app_keep; simpl; rewrite H; [reflexivity|].
  discriminate.
Qed.

Lemma trimEnd_shape : forall s,
  trimEnd s = []
  \/ exists t c, trimEnd s = t ++ [c] /\ isWhiteSpace c = false.
Proof.
  induction s as [|c r IH]; simpl; [now left|].
  destruct IH as [E|(t & c' & E & Hc')]; rewrite E.
  - destruct (isWhiteSpace c) eqn:Hc; [now left|].
    right. exists [], c. auto.
  - right. exists (c :: t), c'. split; [|assumption].
    destruct (t ++ [c']) eqn:E'; [destruct t; discriminate|].
    simpl. now rewrite E'.
Qed.

Lemma not_space_not_LF : forall c, isWhiteSpace c = false -> isLF c = false.
Proof.
  intros c H. unfold isLF, LF. destruct (c =? 10) eqn:E; [|reflexivity].
  apply N.eqb_eq in E. subst c. discriminate.
Qed.

(** What both generators end with: the text trimmed at its end, a line
    feed, and the line feeds collapsed. *)
Lemma normalized_output : forall s,
  normalized (collapseNewlines (trimEnd s ++ [LF])).
Proof.
  intro s. split; [apply collapse_no_three|].
  destruct (trimEnd_shape s) as [E|(t & c & E & Hc)]; rewrite E.
  - exists []. split; reflexivity.
  - exists (collapseNewlines t ++ [c]). split.
    + rewrite <- !app_assoc. simpl.
      rewrite collapse_app_other by now apply not_space_not_LF.
      reflexivity.
    + now apply trimEnd_last.
Qed.

(** C9: the content [generateCueContent] and [updateSourceNoteContentRebuild]
    return has no three line feeds in a row, and ends with exactly one line
    feed with no white space before it. *)
Theorem generated_content_normalized :
  forall localeCompare settings,
    (forall currentContent sourceNoteFile footnotes,
       normalized (generateCueContent localeCompare settings currentContent
                     sourceNoteFile footnotes))
    /\ (forall sourceContent footnotesFromCue deleteReferences moveToEnd,
          normalized (updateSourceNoteContentRebuild localeCompare
                        sourceContent footnotesFromCue deleteReferences
                        moveToEnd)).
Proof.
  intros localeCompare settings. split.
  - intros. unfold generateCueContent. apply normalized_output.
  - intros. unfold updateSourceNoteContentRebuild.
    destruct (fold_left _ _ _) as [finalDefinitions0 refsToDeleteCompletely].
    apply normalized_output.
Qed.

(** ** The re-entrancy guard *)

Section Guard.

Variable localeCompare : str -> str -> Z.
Variable normalizePath : str -> str.
Variable settings : CornellFootnoteSettings.
Variable rejects : nat -> bool.
Variable interleaved : nat -> World -> World.

(** Whatever the body does, a pass that catches with a notice and ends with
    [finally { await sleep(...); this.isSyncing = false }] completes
    normally with the guard released. *)
Lemma guarded_pass_releases : forall (body : Task unit) kind basename w,
  exists w',
    (perform (setSyncing true) ;;;
     tryCatchFinally body
       (fun _ => notice kind basename)
       (sleep interleaved ;;; perform (setSyncing false))) w
    = (Normal tt, w')
    /\ isSyncing w' = false.
Proof.
  intros body kind basename w.
  unfold bind at 1. unfold perform at 1. unfold tryCatchFinally.
  destruct (body (setSyncing true w)) as [[[]|e] w1].
  - unfold bind, sleep, perform. eexists. split; reflexivity.
  - unfold notice, bind, sleep, perform. eexists. split; reflexivity.
Qed.

(** C8: a pass of [syncSourceToCue] or [syncCueToSource] that sets
    [isSyncing] ends with [isSyncing = false] and completes normally,
    whatever the host's calls do (reject or not) and whatever runs
    while the pass waits: no error escapes to the caller. *)
Theorem guard_always_released :
  forall sourceNoteFile cueNoteFile w,
    isSyncing w = false ->
    isCueNote normalizePath (file_path sourceNoteFile)
      || isSummaryNote normalizePath (file_path sourceNoteFile) = false ->
    isCueNote normalizePath (file_path cueNoteFile) = true ->
    (exists w',
       syncSourceToCue localeCompare normalizePath settings rejects
         interleaved sourceNoteFile w = (Normal tt, w')
       /\ isSyncing w' = false)
    /\ (exists w',
          syncCueToSource localeCompare normalizePath settings rejects
            interleaved cueNoteFile w = (Normal tt, w')
          /\ isSyncing w' = false).
Proof.
  intros sourceNoteFile cueNoteFile w Hidle Hsource Hcue. split.
  - unfold syncSourceToCue. rewrite Hidle, Hsource.
    apply guarded_pass_releases.
  - unfold syncCueToSource. rewrite Hidle, Hcue. simpl negb. cbv iota.
    apply guarded_pass_releases.
Qed.

End Guard.

(** The first read of the Source rejects: the pass still ends normally,
    with the guard released. *)
Lemma guard_always_released_witness :
  (exists w',
     syncSourceToCue codeUnitCompare sampleNormalizePath DEFAULT_SETTINGS
       (fun k => Nat.eqb k 0) (fun _ w => w) sampleSource
       (sampleWorld (text "See[^a].||[^a]: A") (lit "")) = (Normal tt, w')
     /\ isSyncing w' = false)
  /\ (exists w',
        syncCueToSource codeUnitCompare sampleNormalizePath DEFAULT_SETTINGS
          (fun k => Nat.eqb k 0) (fun _ w => w) sampleCue
          (sampleWorld (text "See[^a].||[^a]: A") (lit "")) = (Normal tt, w')
        /\ isSyncing w' = false).
Proof.
  apply guard_always_released; vm_compute; reflexivity.
Defined.

(** ** Paths *)

Lemma startsWith_spec : forall s p,
  startsWith s p = true <-> exists b, s = p ++ b.
Proof.
  intros s p. revert s. induction p as [|x p IH]; intros s; simpl.
  - split; [intros _; now exists s | intros _; destruct s; reflexivity].
  - destruct s as [|c s].
    + simpl. split; [discriminate | intros [b Hb]; discriminate].
    + simpl. rewrite andb_true_iff, N.eqb_eq, IH. split.
      * intros [-> [b ->]]. now exists b.
      * intros [b Hb]. injection Hb as -> ->. split; [reflexivity | now exists b].
Qed.

Lemma endsWith_spec : forall s p,
  endsWith s p = true <-> exists a, s = a ++ p.
Proof.
  intros s p. unfold endsWith. rewrite startsWith_spec. split.
  - intros [b Hb]. exists (rev b).
    rewrite <- (rev_involutive s), Hb, rev_app_distr, rev_involutive.
    reflexivity.
  - intros [a ->]. exists (rev a). apply rev_app_distr.
Qed.

Lemma endsWith_truthy : forall s c p,
  endsWith s (c :: p) = true -> truthy s = true.
Proof.
  intros s c p H. apply endsWith_spec in H as [a ->].
  destruct a; reflexivity.
Qed.

(** C10: when [normalizePath] leaves the ending [-cue.md] and the ending
    [-summary.md] of a path in place, the path [getCueNotePath] returns is
    a Cue note for [isCueNote], the path [getSummaryNotePath] returns is a
    Summary note for [isSummaryNote], and each is the normalised path of
    the Source's base name with the suffix and [.md] in the Source's
    folder. *)
Theorem derived_paths_classified :
  forall normalizePath : str -> str,
    (forall p, endsWith p (cueNoteSuffix ++ dotMd) = true ->
               endsWith (normalizePath p) (cueNoteSuffix ++ dotMd) = true) ->
    (forall p, endsWith p (summaryNoteSuffix ++ dotMd) = true ->
               endsWith (normalizePath p) (summaryNoteSuffix ++ dotMd) = true) ->
    forall sourceFile,
      isCueNote normalizePath (getCueNotePath normalizePath sourceFile) = true
      /\ isSummaryNote normalizePath
           (getSummaryNotePath normalizePath sourceFile) = true
      /\ getCueNotePath normalizePath sourceFile
         = normalizePath
             (inFolderOf sourceFile
                (file_basename sourceFile ++ cueNoteSuffix ++ dotMd))
      /\ getSummaryNotePath normalizePath sourceFile
         = normalizePath
             (inFolderOf sourceFile
                (file_basename sourceFile ++ summaryNoteSuffix ++ dotMd)).
Proof.
  intros normalizePath Hcue Hsum sourceFile.
  assert (Ec : getCueNotePath normalizePath sourceFile
               = normalizePath
                   (inFolderOf sourceFile
                      (file_basename sourceFile ++ cueNoteSuffix ++ dotMd))).
  { unfold getCueNotePath, inFolderOf.
    destruct (file_parent sourceFile) as [folder|]; reflexivity. }
  assert (Es : getSummaryNotePath normalizePath sourceFile
               = normalizePath
                   (inFolderOf sourceFile
                      (file_basename sourceFile ++ summaryNoteSuffix ++ dotMd))).
  { unfold getSummaryNotePath, inFolderOf.
    destruct (file_parent sourceFile) as [folder|]; reflexivity. }
  assert (Hin : forall name sfx,
            endsWith (inFolderOf sourceFile (name ++ sfx)) sfx = true).
  { intros name sfx. apply endsWith_spec. unfold inFolderOf.
    destruct (file_parent sourceFile) as [folder|].
    - destruct (str_eqb folder slash || str_eqb folder []).
      + now exists name.
      + exists (folder ++ slash ++ name). now rewrite <- !app_assoc.
    - now exists name. }
  repeat split; auto.
  - rewrite Ec. unfold isCueNote.
    pose proof (Hcue _ (Hin (file_basename sourceFile) (cueNoteSuffix ++ dotMd))) as H1.
    rewrite (endsWith_truthy _ _ _ H1). now apply Hcue.
  - rewrite Es. unfold isSummaryNote.
    pose proof (Hsum _ (Hin (file_basename sourceFile) (summaryNoteSuffix ++ dotMd))) as H1.
    rewrite (endsWith_truthy _ _ _ H1). now apply Hsum.
Qed.

(** The sample normalisation keeps the ending of a path when the ending
    has no separator and no no-break space. *)

Lemma collapseSeparators_plain : forall sfx,
  forallb (fun c => negb (isSeparator c)) sfx = true ->
  collapseSeparators sfx = sfx.
Proof.
  induction sfx as [|c r IH]; simpl; intro H; [reflexivity|].
  apply andb_true_iff in H as [Hc Hr]. apply negb_true_iff in Hc.
  rewrite Hc. f_equal. auto.
Qed.

Lemma collapseSeparators_suffix : forall a sfx,
  sfx <> [] ->
  forallb (fun c => negb (isSeparator c)) sfx = true ->
  exists x, collapseSeparators (a ++ sfx) = x ++ sfx.
Proof.
  induction a as [|c a IH]; intros sfx Hne Hp.
  - exists []. now apply collapseSeparators_plain.
  - destruct (IH sfx Hne Hp) as [x Hx]. simpl.
    destruct (isSeparator c).
    + destruct (a ++ sfx) as [|c2 r] eqn:E.
      * apply app_eq_nil in E as [_ E]. contradiction.
      * destruct (isSeparator c2).
        -- now exists x.
        -- exists (47 :: x). simpl. now f_equal.
    + exists (c :: x). simpl. now f_equal.
Qed.

Lemma dropWhile_suffix : forall p x c rest,
  p c = false -> exists y, dropWhile p (x ++ c :: rest) = y ++ c :: rest.
Proof.
  induction x as [|d x IH]; intros c rest Hc; simpl.
  - exists []. now rewrite Hc.
  - destruct (p d).
    + now apply IH.
    + now exists (d :: x).
Qed.

Lemma dropTrailingSlashes_app_keep : forall a b,
  dropTrailingSlashes b <> [] ->
  dropTrailingSlashes (a ++ b) = a ++ dropTrailingSlashes b.
Proof.
  induction a as [|c a IH]; intros b Hb; simpl; [reflexivity|].
  rewrite IH by assumption.
  destruct (a ++ dropTrailingSlashes b) eqn:E; [|reflexivity].
  apply app_eq_nil in E as [_ E]. contradiction.
Qed.

Lemma sampleNormalizePath_keeps_suffix : forall c rest,
  forallb (fun c => negb (isSeparator c)) (c :: rest) = true ->
  dropTrailingSlashes (c :: rest) = c :: rest ->
  List.map plainSpace (c :: rest) = c :: rest ->
  forall p,
    endsWith p (c :: rest) = true ->
    endsWith (sampleNormalizePath p) (c :: rest) = true.
Proof.
  intros c rest Hplain Htrail Hmap p Hp.
  apply endsWith_spec in Hp as [a ->]. apply endsWith_spec.
  unfold sampleNormalizePath.
  destruct (collapseSeparators_suffix a (c :: rest)) as [x ->];
    [discriminate | assumption |].
  destruct (dropWhile_suffix (fun c => c =? 47) x c rest) as [y ->].
  { simpl in Hplain. apply andb_true_iff in Hplain as [Hc _].
    apply negb_true_iff in Hc. unfold isSeparator in Hc.
    now apply orb_false_iff in Hc as [Hc _]. }
  rewrite dropTrailingSlashes_app_keep by (rewrite Htrail; discriminate).
  rewrite Htrail.
  replace (truthy (y ++ c :: rest)) with true by (destruct y; reflexivity).
  rewrite map_app, Hmap. now exists (List.map plainSpace y).
Qed.

(** A note in a folder, with the sample normalisation. *)
Lemma derived_paths_classified_witness :
  isCueNote sampleNormalizePath
    (getCueNotePath sampleNormalizePath sampleSource) = true
  /\ isSummaryNote sampleNormalizePath
       (getSummaryNotePath sampleNormalizePath sampleSource) = true
  /\ getCueNotePath sampleNormalizePath sampleSource
     = sampleNormalizePath
         (inFolderOf sampleSource
            (file_basename sampleSource ++ cueNoteSuffix ++ dotMd))
  /\ getSummaryNotePath sampleNormalizePath sampleSource
     = sampleNormalizePath
         (inFolderOf sampleSource
            (file_basename sampleSource ++ summaryNoteSuffix ++ dotMd)).
Proof.
  apply (derived_paths_classified sampleNormalizePath).
  - apply sampleNormalizePath_keeps_suffix; reflexivity.
  - apply sampleNormalizePath_keeps_suffix; reflexivity.
Defined.

(** ** Searching for the first match *)

Lemma searchIndex_shift : forall (R : Type) (m : matcher R) s prev i,
  searchIndex m prev i s = option_map (fun k => (i + k)%nat) (searchIndex m prev O s).
Proof.
  induction s as [|c r IH]; intros prev i; simpl.
  - destruct (m prev []); simpl; [f_equal; lia | reflexivity].
  - destruct (m prev (c :: r)); simpl; [f_equal; lia|].
    rewrite (IH (Some c) (S i)), (IH (Some c) 1%nat).
    destruct (searchIndex m (Some c) O r); simpl; [f_equal; lia | reflexivity].
Qed.

Lemma searchIndex_none : forall (R : Type) (m : matcher R) s prev i,
  searchIndex m prev i s = None <-> noMatch m prev s.
Proof.
  unfold noMatch. induction s as [|c r IH]; intros prev i; simpl.
  - destruct (m prev []) eqn:E; split; try discriminate.
    + intro H. specialize (H [] [] eq_refl). simpl in H. congruence.
    + intros _ a1 a2 H. symmetry in H. apply app_eq_nil in H as [-> ->].
      exact E.
    + reflexivity.
  - destruct (m prev (c :: r)) eqn:E.
    + split; [discriminate|]. intro H.
      specialize (H [] (c :: r) eq_refl). simpl in H. congruence.
    + rewrite IH. split.
      * intros H [|d a1] a2 Ha.
        -- simpl in Ha. subst a2. exact E.
        -- simpl in Ha. injection Ha as -> ->. apply H. reflexivity.
      * intros H a1 a2 Ha. apply (H (c :: a1) a2). now rewrite Ha.
Qed.

Lemma searchIndex_skip : forall (R : Type) (m : matcher R) a b prev i,
  noMatchIn m prev a b ->
  searchIndex m prev i (a ++ b)
  = searchIndex m (prevAfter prev a) (i + List.length a) b.
Proof.
  unfold noMatchIn. induction a as [|c a IH]; intros b prev i H; simpl.
  - now replace (i + 0)%nat with i by lia.
  - pose proof (H [] (c :: a) eq_refl ltac:(discriminate)) as H0.
    simpl in H0. rewrite H0.
    rewrite IH.
    + f_equal. lia.
    + intros a1 a2 Ha Hne. apply (H (c :: a1) a2); [now rewrite Ha | assumption].
Qed.

Lemma searchIndex_some : forall (R : Type) (m : matcher R) s prev i k,
  searchIndex m prev i s = Some k ->
  (i <= k)%nat
  /\ (k - i <= List.length s)%nat
  /\ noMatchIn m prev (firstn (k - i) s) (skipn (k - i) s)
  /\ m (prevAfter prev (firstn (k - i) s)) (skipn (k - i) s) <> None.
Proof.
  unfold noMatchIn. induction s as [|c r IH]; intros prev i k H; simpl in H.
  - destruct (m prev []) eqn:E; [|discriminate]. injection H as <-.
    replace (i - i)%nat with O by lia. simpl. repeat split; try lia.
    + intros a1 a2 Ha Hne. symmetry in Ha. apply app_eq_nil in Ha as [_ ->].
      contradiction.
    + congruence.
  - destruct (m prev (c :: r)) eqn:E.
    + injection H as <-. replace (i - i)%nat with O by lia. simpl.
      repeat split; try lia.
      * intros a1 a2 Ha Hne. symmetry in Ha. apply app_eq_nil in Ha as [_ ->].
        contradiction.
      * congruence.
    + apply IH in H as (H1 & H2 & H3 & H4).
      replace (k - i)%nat with (S (k - S i)) by lia. simpl.
      repeat split; try lia.
      * intros [|d a1] a2 Ha Hne.
        -- simpl in Ha. subst a2. simpl. 
           rewrite firstn_skipn. exact E.
        -- simpl in Ha. injection Ha as -> Ha. simpl. now apply H3.
      * exact H4.
Qed.

Lemma noMatchIn_prefix : forall (R : Type) (m : matcher R) prev a a' b,
  noMatchIn m prev (a ++ a') b -> noMatchIn m prev a (a' ++ b).
Proof.
  unfold noMatchIn. intros R m prev a a' b H a1 a2 Ha Hne.
  rewrite app_assoc. apply H.
  - rewrite Ha. now rewrite app_assoc.
  - destruct a2; [contradiction | discriminate].
Qed.

Lemma noMatch_cons : forall (R : Type) (m : matcher R) prev c r,
  noMatch m prev (c :: r) <-> m prev (c :: r) = None /\ noMatch m (Some c) r.
Proof.
  unfold noMatch. intros R m prev c r. split.
  - intro H. split.
    + apply (H [] (c :: r)). reflexivity.
    + intros a1 a2 Ha. apply (H (c :: a1) a2). now rewrite Ha.
  - intros [H0 H] [|d a1] a2 Ha; simpl in Ha.
    + now subst a2.
    + injection Ha as -> ->. now apply H.
Qed.

Lemma noMatch_nil : forall (R : Type) (m : matcher R) prev,
  noMatch m prev [] <-> m prev [] = None.
Proof.
  unfold noMatch. intros R m prev. split.
  - intro H. apply (H [] []). reflexivity.
  - intros H a1 a2 Ha. symmetry in Ha. apply app_eq_nil in Ha as [-> ->].
    exact H.
Qed.

Lemma noMatch_app : forall (R : Type) (m : matcher R) a b prev,
  noMatch m prev (a ++ b)
  <-> noMatchIn m prev a b /\ noMatch m (prevAfter prev a) b.
Proof.
  intros R m. induction a as [|c a IH]; intros b prev.
  - simpl. split.
    + intro H. split; [|assumption].
      intros a1 a2 Ha Hne. symmetry in Ha. apply app_eq_nil in Ha as [_ ->].
      contradiction.
    + now intros [_ H].
  - simpl app. rewrite noMatch_cons, IH. unfold noMatchIn. split.
    + intros (H0 & H1 & H2). split; [|exact H2].
      intros [|d a1] a2 Ha Hne; simpl in Ha.
      * subst a2. exact H0.
      * injection Ha as -> ->. now apply H1.
    + intros (H1 & H2). split; [|split].
      * apply (H1 [] (c :: a)); [reflexivity | discriminate].
      * intros a1 a2 Ha Hne. apply (H1 (c :: a1) a2); [now rewrite Ha | assumption].
      * exact H2.
Qed.

(** ** Patterns bound to a line *)

Lemma span_app_left : forall p t x,
  snd (span p t) <> [] ->
  span p (t ++ x) = (fst (span p t), snd (span p t) ++ x).
Proof.
  induction t as [|c t IH]; intros x H; simpl in *; [contradiction|].
  destruct (p c) eqn:E.
  - destruct (span p t) as [a b] eqn:Es. simpl in *.
    rewrite IH by assumption. reflexivity.
  - reflexivity.
Qed.

Lemma span_app_all : forall p w s,
  forallb p w = true ->
  span p (w ++ s) = (w ++ fst (span p s), snd (span p s)).
Proof.
  induction w as [|c w IH]; intros s H; simpl in *.
  - now destruct (span p s).
  - apply andb_true_iff in H as [Hc Hw]. rewrite Hc, IH by assumption.
    reflexivity.
Qed.

Lemma first_line : forall s,
  exists l rest,
    s = l ++ rest /\ forallb notLineTerminator l = true /\ stops rest.
Proof.
  intro s. destruct (span_spec notLineTerminator s) as (H1 & H2 & H3).
  exists (fst (span notLineTerminator s)), (snd (span notLineTerminator s)).
  repeat split; auto.
  destruct (snd (span notLineTerminator s)) as [|c r]; simpl; [exact I|].
  unfold notLineTerminator in H3. now apply negb_false_iff in H3.
Qed.

Lemma afterLineStart_some : forall core prev s,
  afterLineStart core prev s <> None
  <-> atLineStart prev = true /\ hit core s <> None.
Proof.
  intros core prev s. unfold afterLineStart, hit.
  destruct (atLineStart prev).
  - destruct (span isWhiteSpace s) as [ws r1]. simpl.
    destruct (core r1).
    + split; [intros _; split; [reflexivity | discriminate] | discriminate].
    + split; [intro H; now contradiction H | intros [_ H]; now contradiction H].
  - split; [intro H; now contradiction H | intros [H _]; discriminate].
Qed.

Lemma afterLineStart_none : forall core prev s,
  afterLineStart core prev s = None
  <-> atLineStart prev = false \/ hit core s = None.
Proof.
  intros core prev s.
  destruct (afterLineStart core prev s) eqn:E.
  - split; [discriminate|].
    assert (H : afterLineStart core prev s <> None) by congruence.
    apply afterLineStart_some in H as [H1 H2].
    intros [H|H]; congruence.
  - split; [|reflexivity]. intros _.
    destruct (atLineStart prev) eqn:E1; [|now left].
    destruct (hit core s) eqn:E2; [|now right].
    exfalso. assert (H : afterLineStart core prev s <> None).
    { apply afterLineStart_some. split; congruence. }
    contradiction.
Qed.

Lemma hit_skip_space : forall core w s,
  forallb isWhiteSpace w = true -> hit core (w ++ s) = hit core s.
Proof.
  intros core w s H. unfold hit. now rewrite span_app_all.
Qed.

(** What is found in a text with a visible character, when a line
    terminator follows the text, is found whatever follows it. *)
Lemma hit_extends : forall core,
  lineBound core ->
  forall t rest z,
    snd (span isWhiteSpace t) <> [] -> stops rest ->
    hit core (t ++ rest) <> None -> hit core (t ++ z) <> None.
Proof.
  intros core [_ Hcore] t rest z Ht Hrest. unfold hit.
  rewrite !span_app_left by assumption. simpl.
  destruct (first_line (snd (span isWhiteSpace t))) as (l & rest1 & E & Hl & Hr1).
  rewrite E, <- !app_assoc. apply Hcore; [assumption|].
  destruct rest1; simpl; assumption.
Qed.

Lemma lazyUntilBracketColon_extends : forall l rest z,
  forallb notLineTerminator l = true -> stops rest ->
  lazyUntilBracketColon (l ++ rest) <> None ->
  lazyUntilBracketColon (l ++ z) <> None.
Proof.
  induction l as [|c l IH]; intros rest z Hl Hrest H.
  - exfalso. apply H. simpl. destruct rest as [|d rest]; [reflexivity|].
    simpl in Hrest. cbn [lazyUntilBracketColon startsWith].
    destruct (d =? RBRACK) eqn:E.
    + apply N.eqb_eq in E. subst d. discriminate.
    + simpl. now rewrite Hrest.
  - simpl in Hl. apply andb_true_iff in Hl as [Hc Hl].
    unfold notLineTerminator in Hc. apply negb_true_iff in Hc.
    simpl app in *. cbn [lazyUntilBracketColon] in *.
    destruct (startsWith (c :: l ++ z) [RBRACK; COLON]) eqn:Ez; [congruence|].
    rewrite Hc in *.
    destruct (startsWith (c :: l ++ rest) [RBRACK; COLON]) eqn:Er.
    + exfalso. apply startsWith_spec in Er as [b Eb].
      simpl in Eb. injection Eb as -> Eb.
      destruct l as [|d l]; simpl in Eb.
      * subst rest. simpl in Hrest. vm_compute in Hrest. discriminate.
      * injection Eb as -> Eb. simpl in Ez.
        destruct (l ++ z); vm_compute in Ez; discriminate.
    + destruct (lazyUntilBracketColon (l ++ rest)) eqn:E1; [|now contradiction H].
      specialize (IH rest z Hl Hrest). rewrite E1 in IH.
      destruct (lazyUntilBracketColon (l ++ z)); [discriminate|].
      exfalso. apply IH; [discriminate | reflexivity].
Qed.

Lemma defLineCore_lineBound : lineBound defLineCore.
Proof.
  split; [reflexivity|].
  intros l rest z Hl Hrest H.
  assert (Hstop : forall d r, stops (d :: r) -> (d =? LBRACK) = false
                              /\ (d =? CARET) = false).
  { intros d r Hd. simpl in Hd. split.
    - destruct (d =? LBRACK) eqn:E; [|reflexivity].
      apply N.eqb_eq in E. subst d. discriminate.
    - destruct (d =? CARET) eqn:E; [|reflexivity].
      apply N.eqb_eq in E. subst d. discriminate. }
  destruct l as [|c1 [|c2 [|c3 l]]]; simpl app in *.
  - exfalso. apply H. destruct rest as [|d [|d2 [|d3 r]]]; try reflexivity.
    unfold defLineCore. destruct (Hstop _ _ Hrest) as [-> _]. reflexivity.
  - exfalso. apply H. destruct rest as [|d [|d2 r]]; try reflexivity.
    unfold defLineCore. destruct (Hstop _ _ Hrest) as [_ ->].
    now rewrite andb_false_r.
  - exfalso. apply H. destruct rest as [|d r]; try reflexivity.
    unfold defLineCore. simpl in Hrest. rewrite Hrest.
    now rewrite andb_false_r.
  - unfold defLineCore in *.
    destruct ((c1 =? LBRACK) && (c2 =? CARET) && negb (isLineTerminator c3));
      [|contradiction].
    simpl in Hl. apply andb_true_iff in Hl as [_ Hl].
    apply andb_true_iff in Hl as [_ Hl]. apply andb_true_iff in Hl as [_ Hl].
    pose proof (lazyUntilBracketColon_extends l rest z Hl Hrest) as Hx.
    destruct (lazyUntilBracketColon (l ++ rest)); [|contradiction].
    destruct (lazyUntilBracketColon (l ++ z)); [discriminate|].
    exfalso. apply Hx; [discriminate | reflexivity].
Qed.

Lemma startsWith_line : forall f l rest,
  forallb notLineTerminator f = true -> stops rest ->
  startsWith (l ++ rest) f = true -> startsWith l f = true.
Proof.
  induction f as [|x f IH]; intros l rest Hf Hrest H.
  - destruct l; reflexivity.
  - simpl in Hf. apply andb_true_iff in Hf as [Hx Hf].
    destruct l as [|c l]; simpl in *.
    + destruct rest as [|d rest]; [discriminate|].
      apply andb_true_iff in H as [Hd _]. apply N.eqb_eq in Hd. subst d.
      unfold notLineTerminator in Hx. simpl in Hrest. rewrite Hrest in Hx.
      discriminate.
    + apply andb_true_iff in H as [Hc H]. rewrite Hc. simpl.
      now apply (IH l rest).
Qed.

Lemma startsWith_app : forall l z f,
  startsWith l f = true -> startsWith (l ++ z) f = true.
Proof.
  intros l z f H. apply startsWith_spec in H as [b ->].
  apply startsWith_spec. exists (b ++ z). now rewrite app_assoc.
Qed.

Lemma fenceCore_lineBound : lineBound fenceCore.
Proof.
  split; [reflexivity|].
  intros l rest z Hl Hrest H. unfold fenceCore in *.
  destruct (startsWith (l ++ rest) codeFence) eqn:E; [|contradiction].
  apply startsWith_line in E; [|reflexivity|assumption].
  rewrite (startsWith_app _ z _ E). discriminate.
Qed.

(** ** Collapsing line feeds does not make a pattern match *)

Lemma notLT_notLF : forall c, notLineTerminator c = true -> isLF c = false.
Proof.
  intros c H. unfold notLineTerminator in H. apply negb_true_iff in H.
  unfold isLF, LF. destruct (c =? 10) eqn:E; [|reflexivity].
  apply N.eqb_eq in E. subst c. discriminate.
Qed.

Lemma collapse_app_line : forall l x,
  forallb notLineTerminator l = true ->
  collapseNewlines (l ++ x) = l ++ collapseNewlines x.
Proof.
  induction l as [|c l IH]; intros x H; simpl; [reflexivity|].
  simpl in H. apply andb_true_iff in H as [Hc Hl].
  rewrite collapse_cons_other by now apply notLT_notLF.
  now rewrite IH.
Qed.

Lemma collapse_head : forall s,
  match s with
  | [] => collapseNewlines s = []
  | c :: _ => exists t, collapseNewlines s = c :: t
  end.
Proof.
  intro s. pattern s. apply str_runs_ind; clear s;
    [|intros c r Hc _|intros n r Hr _].
  - reflexivity.
  - rewrite collapse_cons_other by assumption. eauto.
  - rewrite collapse_run by assumption. simpl repeat. simpl app.
    destruct n; simpl; eauto.
Qed.

Lemma stops_collapse : forall rest, stops rest -> stops (collapseNewlines rest).
Proof.
  intros [|c r] H.
  - exact I.
  - destruct (collapse_head (c :: r)) as [t ->]. exact H.
Qed.

Lemma forallb_collapse : forall p : char -> bool,
  p LF = true ->
  forall s, forallb p s = true -> forallb p (collapseNewlines s) = true.
Proof.
  intros p Hp s. pattern s. apply str_runs_ind; clear s;
    [|intros c r Hc IH|intros n r Hr IH].
  - reflexivity.
  - rewrite collapse_cons_other by assumption. simpl.
    intro H. apply andb_true_iff in H as [H1 H2]. rewrite H1. now apply IH.
  - rewrite collapse_run by assumption. rewrite !forallb_app.
    intro H. apply andb_true_iff in H as [_ H2].
    rewrite (IH H2), andb_true_r.
    clear -Hp. induction (Nat.min (S n) 2); simpl; [reflexivity|].
    now rewrite Hp.
Qed.

Lemma hit_text : forall core w c r,
  forallb isWhiteSpace w = true -> isWhiteSpace c = false ->
  hit core (w ++ c :: r) = core (c :: r).
Proof.
  intros core w c r Hw Hc. unfold hit.
  rewrite span_app_stop; auto.
Qed.

Lemma hit_blank : forall core w,
  forallb isWhiteSpace w = true -> hit core w = core [].
Proof.
  intros core w Hw. unfold hit.
  rewrite <- (app_nil_r w). rewrite span_app_stop; auto.
Qed.

Lemma hit_collapse : forall core,
  lineBound core ->
  forall s, hit core (collapseNewlines s) <> None -> hit core s <> None.
Proof.
  intros core Hcore s.
  destruct (span_spec isWhiteSpace s) as (E & Hw & Hr).
  destruct (span isWhiteSpace s) as [w r1]. simpl in *. subst s.
  destruct r1 as [|c r1].
  - rewrite app_nil_r. rewrite hit_blank.
    + destruct Hcore as [H0 _]. congruence.
    + apply forallb_collapse; [reflexivity | assumption].
  - rewrite collapse_app_other by now apply not_space_not_LF.
    rewrite !hit_text; auto;
      [|apply forallb_collapse; [reflexivity | assumption]].
    destruct (first_line (c :: r1)) as (l & rest & E & Hl & Hrest).
    replace (c :: collapseNewlines r1) with (collapseNewlines (c :: r1))
      by (apply collapse_cons_other; now apply not_space_not_LF).
    rewrite E, collapse_app_line by assumption.
    destruct Hcore as [_ Hcore].
    apply Hcore; [assumption | now apply stops_collapse].
Qed.

Lemma hit_collapse_none : forall core,
  lineBound core ->
  forall s, hit core s = None -> hit core (collapseNewlines s) = None.
Proof.
  intros core Hcore s H.
  destruct (hit core (collapseNewlines s)) eqn:E; [|reflexivity].
  exfalso. apply (hit_collapse core Hcore s); congruence.
Qed.

Lemma hit_skip_LF : forall core n s,
  hit core (repeat LF n ++ s) = hit core s.
Proof.
  intros. apply hit_skip_space.
  induction n; simpl; auto.
Qed.

Lemma noMatch_repeat_LF : forall core k t prev,
  hit core t = None ->
  noMatch (afterLineStart core) (Some LF) t ->
  noMatch (afterLineStart core) prev (repeat LF k ++ t).
Proof.
  intros core. induction k as [|k IH]; intros t prev Ht Hn.
  - simpl. destruct t as [|c t].
    + apply noMatch_nil. apply afterLineStart_none. right. exact Ht.
    + apply noMatch_cons. apply noMatch_cons in Hn as [_ Hn].
      split; [|assumption]. apply afterLineStart_none. now right.
  - simpl. apply noMatch_cons. split.
    + apply afterLineStart_none. right.
      change (LF :: repeat LF k ++ t) with (repeat LF (S k) ++ t).
      now rewrite hit_skip_LF.
    + now apply IH.
Qed.

Lemma noMatch_after_run : forall core n r prev,
  noMatch (afterLineStart core) prev (repeat LF (S n) ++ r) ->
  hit core r = None /\ noMatch (afterLineStart core) (Some LF) r.
Proof.
  intros core n r prev H. apply noMatch_app in H as [_ H].
  assert (E : prevAfter prev (repeat LF (S n)) = Some LF).
  { clear. simpl. induction n; simpl; auto. }
  rewrite E in H. split; [|assumption].
  assert (H0 : afterLineStart core (Some LF) r = None).
  { destruct r; [now apply noMatch_nil | now apply noMatch_cons in H]. }
  apply afterLineStart_none in H0 as [H0|H0]; [discriminate | assumption].
Qed.

(** No match in a text, no match in the text with its line feeds
    collapsed. *)
Lemma noMatch_collapse : forall core,
  lineBound core ->
  forall s prev,
    noMatch (afterLineStart core) prev s ->
    noMatch (afterLineStart core) prev (collapseNewlines s).
Proof.
  intros core Hcore s. pattern s. apply str_runs_ind; clear s;
    [|intros c r Hc IH|intros n r Hr IH]; intros prev H.
  - exact H.
  - rewrite collapse_cons_other by assumption.
    apply noMatch_cons in H as [H0 H]. apply noMatch_cons. split.
    + apply afterLineStart_none in H0 as [H0|H0];
        apply afterLineStart_none; [now left | right].
      rewrite <- collapse_cons_other by assumption.
      now apply hit_collapse_none.
    + now apply IH.
  - rewrite collapse_run by assumption.
    apply noMatch_after_run in H as [H1 H2].
    apply noMatch_repeat_LF.
    + now apply hit_collapse_none.
    + now apply IH.
Qed.

(** ** More on [trimEnd] and [includes] *)

Lemma trimEnd_decomp : forall s,
  exists tail, s = trimEnd s ++ tail /\ forallb isWhiteSpace tail = true.
Proof.
  induction s as [|c r IH]; simpl.
  - exists []. auto.
  - destruct IH as (tail & E & Ht).
    destruct (trimEnd r) as [|d r'] eqn:Er.
    + destruct (isWhiteSpace c) eqn:Hc.
      * exists (c :: tail). simpl in *. split; [congruence | now rewrite Hc].
      * exists tail. simpl in *. split; [congruence | assumption].
    + exists tail. split; [|assumption]. simpl in *. now f_equal.
Qed.

Lemma trimEnd_idem : forall s, trimEnd (trimEnd s) = trimEnd s.
Proof.
  intro s. destruct (trimEnd_shape s) as [E|(t & c & E & Hc)]; rewrite E.
  - reflexivity.
  - now apply trimEnd_last.
Qed.

Lemma trimEnd_blank : forall w, forallb isWhiteSpace w = true -> trimEnd w = [].
Proof.
  induction w as [|c w IH]; simpl; intro H; [reflexivity|].
  apply andb_true_iff in H as [Hc Hw]. now rewrite IH, Hc.
Qed.

Lemma trimEnd_app_blank : forall a w,
  forallb isWhiteSpace w = true -> trimEnd (a ++ w) = trimEnd a.
Proof.
  induction a as [|c a IH]; intros w H; simpl.
  - now apply trimEnd_blank.
  - now rewrite IH.
Qed.

Lemma trimEnd_length : forall s, (List.length (trimEnd s) <= List.length s)%nat.
Proof.
  intro s. destruct (trimEnd_decomp s) as (tail & E & _).
  rewrite E at 2. rewrite length_app. lia.
Qed.

Lemma trimEnd_cons_text : forall c x,
  isWhiteSpace c = false -> trimEnd (c :: x) = c :: trimEnd x.
Proof.
  intros c x H. simpl. destruct (trimEnd x); [now rewrite H | reflexivity].
Qed.

(** After a trimmed text that is not empty, [trimEnd] trims what follows. *)
Lemma trimEnd_after_trimmed : forall a x,
  a <> [] -> trimEnd a = a -> trimEnd (a ++ x) = a ++ trimEnd x.
Proof.
  intros a x Hne Ha.
  destruct (trimEnd_shape a) as [E|(t & c & E & Hc)]; rewrite Ha in E.
  - contradiction.
  - subst a. rewrite <- !app_assoc. simpl.
    rewrite trimEnd_app_keep; rewrite trimEnd_cons_text by assumption;
      [reflexivity | discriminate].
Qed.

(** A piece at the end of a trimmed text has a visible character. *)
Lemma suffix_has_text : forall h h1 h2,
  trimEnd h = h -> h = h1 ++ h2 -> h2 <> [] ->
  snd (span isWhiteSpace h2) <> [].
Proof.
  intros h h1 h2 Hh E Hne Hs.
  destruct (span_spec isWhiteSpace h2) as (E2 & Hw & _).
  rewrite Hs, app_nil_r in E2.
  assert (Hb : forallb isWhiteSpace h2 = true) by (rewrite E2; exact Hw).
  pose proof (trimEnd_app_blank h1 h2 Hb) as Ht.
  rewrite <- E, Hh in Ht.
  pose proof (trimEnd_length h1) as Hl. rewrite <- Ht, E, length_app in Hl.
  destruct h2; [contradiction | simpl in Hl; lia].
Qed.

Lemma LT_is_space : forall c, isLineTerminator c = true -> isWhiteSpace c = true.
Proof.
  intros c H. unfold isLineTerminator in H. unfold isWhiteSpace.
  repeat (apply orb_true_iff in H as [H|H]); apply N.eqb_eq in H; subst c;
    reflexivity.
Qed.

Lemma includes_spec : forall s p,
  includes s p = true <-> exists a b, s = a ++ p ++ b.
Proof.
  induction s as [|c s IH]; intro p; cbn [includes].
  - rewrite orb_false_r, startsWith_spec. split.
    + intros [b Hb]. now exists [], b.
    + intros (a & b & E). symmetry in E.
      apply app_eq_nil in E as [-> E]. apply app_eq_nil in E as [-> ->].
      now exists [].
  - rewrite orb_true_iff, startsWith_spec, IH. split.
    + intros [[b Hb]|(a & b & E)].
      * now exists [], b.
      * exists (c :: a), b. simpl. now f_equal.
    + intros ([|d a] & b & E); simpl in E.
      * left. now exists b.
      * right. injection E as -> ->. now exists a, b.
Qed.

Lemma includes_nil : forall s, includes s [] = true.
Proof. intro s. apply includes_spec. now exists [], s. Qed.

Lemma includes_collapse : forall s link,
  forallb notLineTerminator link = true ->
  includes s link = true -> includes (collapseNewlines s) link = true.
Proof.
  intros s link Hl H. destruct link as [|c link]; [apply includes_nil|].
  apply includes_spec in H as (a & b & ->). apply includes_spec.
  simpl in Hl. apply andb_true_iff in Hl as [Hc Hl].
  simpl app. rewrite collapse_app_other by now apply notLT_notLF.
  rewrite collapse_app_line by assumption.
  now exists (collapseNewlines a), (collapseNewlines b).
Qed.

Lemma collapse_idem : forall s,
  collapseNewlines (collapseNewlines s) = collapseNewlines s.
Proof.
  intro s. pattern s. apply str_runs_ind; clear s;
    [|intros c r Hc IH|intros n r Hr IH].
  - reflexivity.
  - rewrite !collapse_cons_other by assumption. now f_equal.
  - rewrite collapse_run by assumption.
    rewrite collapse_run by now apply noLeadLF_collapse.
    rewrite IH. f_equal. f_equal. lia.
Qed.

(** A trimmed text keeps its end when its line feeds are collapsed. *)
Lemma collapse_trimmed : forall s,
  trimEnd s = s ->
  trimEnd (collapseNewlines s) = collapseNewlines s
  /\ collapseNewlines (s ++ [LF]) = collapseNewlines s ++ [LF]
  /\ (s <> [] -> collapseNewlines s <> []).
Proof.
  intros s Hs. destruct (trimEnd_shape s) as [E|(t & c & E & Hc)];
    rewrite Hs in E; subst s.
  - repeat split; auto.
  - rewrite <- app_assoc. simpl.
    rewrite !collapse_app_other by now apply not_space_not_LF.
    repeat split.
    + now apply trimEnd_last.
    + now rewrite <- app_assoc.
    + intros _ H. apply app_eq_nil in H as [_ H]. discriminate.
Qed.

(** ** The header [generateCueContent] extracts has no match in it *)

Lemma noMatch_noMatchIn : forall (R : Type) (m : matcher R) s k,
  noMatch m None s -> noMatchIn m None (firstn k s) (skipn k s).
Proof.
  intros R m s k H. rewrite <- (firstn_skipn k s) in H.
  now apply noMatch_app in H as [H _].
Qed.

Lemma before_first_match : forall (R : Type) (m : matcher R) s k idx,
  searchIndex m None O s = Some k -> (idx <= k)%nat ->
  noMatchIn m None (firstn idx s) (skipn idx s).
Proof.
  intros R m s k idx H Hle.
  apply searchIndex_some in H as (_ & Hk & H & _).
  rewrite Nat.sub_0_r in *.
  assert (E1 : firstn k s = firstn idx s ++ skipn idx (firstn k s)).
  { rewrite <- (firstn_skipn idx (firstn k s)) at 1.
    rewrite firstn_firstn. now replace (Nat.min idx k) with idx by lia. }
  assert (E2 : skipn idx s = skipn idx (firstn k s) ++ skipn k s).
  { rewrite <- (firstn_skipn k s) at 1. rewrite skipn_app.
    rewrite length_firstn.
    replace (idx - Nat.min k (List.length s))%nat with O by lia.
    reflexivity. }
  rewrite E1 in H. apply noMatchIn_prefix in H. now rewrite E2.
Qed.

(** Both patterns have no match before [firstElementIdx]. *)
Lemma before_firstElementIdx : forall currentContent,
  let idx := firstElementIdx currentContent in
  noMatchIn firstDefRegex None (firstn idx currentContent)
            (skipn idx currentContent)
  /\ noMatchIn firstCbRegex None (firstn idx currentContent)
               (skipn idx currentContent).
Proof.
  intro s. unfold firstElementIdx. cbv zeta.
  destruct (searchIndex firstDefRegex None O s) as [i|] eqn:Ed;
    destruct (searchIndex firstCbRegex None O s) as [j|] eqn:Ec.
  - destruct (Nat.ltb_spec j i); split;
      try (eapply before_first_match; eauto; lia).
  - split; [eapply before_first_match; eauto|].
    apply noMatch_noMatchIn. now apply (searchIndex_none _ _ s None O).
  - assert (Hd : noMatch firstDefRegex None s)
      by now apply (searchIndex_none _ _ s None O).
    destruct (Nat.ltb_spec j (List.length s)); split;
      try (now apply noMatch_noMatchIn);
      eapply before_first_match; eauto; lia.
  - split; apply noMatch_noMatchIn;
      now apply (searchIndex_none _ _ s None O).
Qed.

Lemma prevAfter_last : forall a prev,
  a <> [] -> exists c, prevAfter prev a = Some c /\ In c a.
Proof.
  induction a as [|c a IH]; intros prev Hne; [contradiction|].
  rewrite prevAfter_cons. destruct a as [|d a].
  - exists c. simpl. auto.
  - destruct (IH (Some c)) as (x & E & Hin); [discriminate|].
    exists x. split; [assumption | now right].
Qed.

Lemma prevAfter_trimmed : forall h prev,
  h <> [] -> trimEnd h = h ->
  exists c, prevAfter prev h = Some c /\ isLineTerminator c = false.
Proof.
  intros h prev Hne Hh.
  destruct (trimEnd_shape h) as [E|(t & c & E & Hc)]; rewrite Hh in E.
  - contradiction.
  - exists c. subst h. rewrite prevAfter_app. split; [reflexivity|].
    destruct (isLineTerminator c) eqn:El; [|reflexivity].
    apply LT_is_space in El. congruence.
Qed.

Section Header.

Variable core : str -> option nat.
Hypothesis Hcore : lineBound core.

Let m := afterLineStart core.

(** After a trimmed text, the line feed and the end have no match. *)
Lemma noMatch_closing : forall h,
  trimEnd h = h -> noMatch m (prevAfter None h) [LF].
Proof.
  intros h Hh. apply noMatch_cons. split.
  - apply afterLineStart_none. destruct h as [|c h].
    + right. rewrite (hit_blank core [LF]) by reflexivity. apply Hcore.
    + left. destruct (prevAfter_trimmed (c :: h) None) as (x & -> & Hx);
        [discriminate | assumption | exact Hx].
  - apply noMatch_nil. apply afterLineStart_none. right. apply Hcore.
Qed.

(** Positions of a trimmed text [h]: a match there with a line feed after
    [h] is a match there whatever follows [h]. *)
Lemma noMatchIn_trimmed : forall h z prev,
  trimEnd h = h -> noMatchIn m prev h z -> noMatchIn m prev h [LF].
Proof.
  intros h z prev Hh H h1 h2 E Hne.
  destruct (m (prevAfter prev h1) (h2 ++ [LF])) eqn:Em; [|reflexivity].
  exfalso.
  assert (Hs : m (prevAfter prev h1) (h2 ++ [LF]) <> None) by congruence.
  apply afterLineStart_some in Hs as [Hs1 Hs2].
  assert (Hz : m (prevAfter prev h1) (h2 ++ z) <> None).
  { apply afterLineStart_some. split; [assumption|].
    apply (hit_extends core Hcore h2 [LF] z); auto.
    - eapply suffix_has_text; eauto.
    - reflexivity. }
  apply Hz. now apply H.
Qed.

Lemma header_noMatch : forall p q,
  noMatchIn m None p q -> noMatch m None (trimEnd p ++ [LF]).
Proof.
  intros p q H. destruct (trimEnd_decomp p) as (tail & E & Ht).
  apply noMatch_app. split.
  - apply (noMatchIn_trimmed _ (tail ++ q)); [apply trimEnd_idem|].
    apply noMatchIn_prefix. now rewrite <- E.
  - apply noMatch_closing. apply trimEnd_idem.
Qed.

Lemma noMatch_line_start : forall s p1 p2,
  atLineStart p1 = atLineStart p2 -> noMatch m p1 s -> noMatch m p2 s.
Proof.
  intros s p1 p2 E H. destruct s as [|c s].
  - apply noMatch_nil. apply noMatch_nil in H.
    unfold m, afterLineStart in *. now rewrite <- E.
  - apply noMatch_cons. apply noMatch_cons in H as [H0 H].
    split; [|assumption]. unfold m, afterLineStart in *. now rewrite <- E.
Qed.

(** The link at the start of a text, on its own line, has no match. *)
Lemma link_noMatchIn : forall link z,
  goodLink link -> m None link = None ->
  noMatchIn m None link (LF :: z).
Proof.
  intros link z (Hline & Htrim & _) Hm l1 l2 E Hne.
  destruct l1 as [|c l1].
  - simpl in E. subst l2. simpl.
    destruct (m None (link ++ LF :: z)) eqn:Em; [|reflexivity]. exfalso.
    assert (Hs : m None (link ++ LF :: z) <> None) by congruence.
    apply afterLineStart_some in Hs as [_ Hs].
    assert (Hz : m None (link ++ []) <> None).
    { apply afterLineStart_some. split; [reflexivity|].
      apply (hit_extends core Hcore link (LF :: z) []); auto.
      - apply (suffix_has_text link [] link); auto.
      - reflexivity. }
    rewrite app_nil_r in Hz. contradiction.
  - apply afterLineStart_none. left.
    destruct (prevAfter_last (c :: l1) None) as (x & -> & Hin); [discriminate|].
    simpl. rewrite forallb_forall in Hline.
    assert (Hx : In x link) by (rewrite E; apply in_or_app; now left).
    apply Hline in Hx. unfold notLineTerminator in Hx.
    now apply negb_true_iff in Hx.
Qed.

Lemma extractedHeader_noMatch : forall link currentContent,
  goodLink link -> m None link = None ->
  noMatchIn m None
    (firstn (firstElementIdx currentContent) currentContent)
    (skipn (firstElementIdx currentContent) currentContent) ->
  noMatch m None (extractedHeader link currentContent ++ [LF]).
Proof.
  intros link s Hlink Hm H. unfold extractedHeader.
  set (hdr := trimEnd (substring0 s (firstElementIdx s))).
  assert (Hh : noMatch m None (hdr ++ [LF])) by now apply (header_noMatch _ _ H).
  destruct (includes hdr link) eqn:Ei; [assumption|].
  assert (Hne : link <> []).
  { intros ->. now rewrite includes_nil in Ei. }
  pose proof Hlink as (Hline & Htrim & _).
  destruct (prevAfter_trimmed link None Hne Htrim) as (x & Ex & Hx).
  destruct (truthy hdr) eqn:Et.
  - unfold blankLine. rewrite <- !app_assoc. simpl app.
    apply noMatch_app. split; [now apply link_noMatchIn|].
    rewrite Ex. apply noMatch_cons. split.
    { apply afterLineStart_none. now left. }
    apply noMatch_cons. split.
    + apply afterLineStart_none. right.
      change (LF :: hdr ++ [LF]) with (repeat LF 1 ++ hdr ++ [LF]).
      rewrite hit_skip_LF.
      assert (H0 : m None (hdr ++ [LF]) = None).
      { apply (Hh [] (hdr ++ [LF])). reflexivity. }
      apply afterLineStart_none in H0 as [H0|H0]; [discriminate | assumption].
    + now apply (noMatch_line_start _ None).
  - apply noMatch_app. split; [now apply link_noMatchIn|].
    rewrite Ex. apply noMatch_cons. split.
    + apply afterLineStart_none. now left.
    + apply noMatch_nil. apply afterLineStart_none. right. apply Hcore.
Qed.

End Header.

Lemma extractedHeader_trimmed : forall link currentContent,
  trimEnd link = link ->
  trimEnd (extractedHeader link currentContent)
  = extractedHeader link currentContent.
Proof.
  intros link s Hl. unfold extractedHeader.
  set (hdr := trimEnd (substring0 s (firstElementIdx s))).
  assert (Hh : trimEnd hdr = hdr) by apply trimEnd_idem.
  destruct (includes hdr link); [assumption|].
  destruct (truthy hdr) eqn:Et; [|assumption].
  rewrite app_assoc. rewrite trimEnd_app_keep; rewrite Hh.
  - reflexivity.
  - destruct hdr; [discriminate | discriminate].
Qed.

Lemma extractedHeader_includes : forall link currentContent,
  includes (extractedHeader link currentContent) link = true.
Proof.
  intros link s. unfold extractedHeader.
  set (hdr := trimEnd (substring0 s (firstElementIdx s))).
  destruct (includes hdr link) eqn:Ei; [assumption|].
  destruct (truthy hdr); apply includes_spec.
  - now exists [], (blankLine ++ hdr).
  - exists [], []. now rewrite app_nil_r.
Qed.

(** ** Generating the Cue content twice *)

Lemma generateCueContent_assemble :
  forall localeCompare settings currentContent sourceNoteFile footnotes,
    generateCueContent localeCompare settings currentContent sourceNoteFile
      footnotes
    = assembleCue localeCompare
        (extractedHeader (linkToSource settings sourceNoteFile) currentContent)
        footnotes.
Proof. reflexivity. Qed.

Lemma sortInsert_In : forall (A : Type) (cmp : A -> A -> Z) x y l,
  In y (sortInsert cmp x l) <-> y = x \/ In y l.
Proof.
  induction l as [|z l IH]; simpl.
  - intuition congruence.
  - destruct (cmp x z <? 0)%Z; simpl; [intuition congruence|].
    rewrite IH. intuition congruence.
Qed.

Lemma sortBy_In : forall (A : Type) (cmp : A -> A -> Z) l y,
  In y (sortBy cmp l) <-> In y l.
Proof.
  intros A cmp l y. unfold sortBy.
  assert (H : forall acc, In y (fold_left (fun acc x => sortInsert cmp x acc) l acc)
                          <-> In y l \/ In y acc).
  { induction l as [|x l IH]; intro acc; simpl; [tauto|].
    rewrite IH, sortInsert_In. intuition congruence. }
  rewrite H. simpl. tauto.
Qed.

(** The definition block of footnotes with good names starts with the line
    of one of them. *)
Lemma definitionsText_shape : forall localeCompare (footnotes : Footnotes),
  footnotes <> [] ->
  (forall e, In e footnotes -> goodRef (fst e)) ->
  exists r y,
    goodRef r
    /\ definitionsText localeCompare footnotes
       = [LBRACK; CARET] ++ r ++ [RBRACK; COLON] ++ y.
Proof.
  intros cmp A Hne Hgood. unfold definitionsText, JsMap.entries.
  assert (Hs : JsMap.size A = S (pred (List.length A)))
    by (destruct A; [contradiction | reflexivity]).
  rewrite Hs. cbv iota.
  destruct (sortBy (fun a b => cmp (fst a) (fst b)) A) as [|x xs] eqn:Es.
  - exfalso. destruct A as [|e0 A0]; [contradiction|].
    assert (Hin : In e0 (sortBy (fun a b => cmp (fst a) (fst b)) (e0 :: A0))).
    { apply sortBy_In. now left. }
    rewrite Es in Hin. contradiction.
  - assert (Hx : In x A).
    { apply (sortBy_In _ (fun a b => cmp (fst a) (fst b))). rewrite Es. now left. }
    exists (fst x). simpl map. unfold renderDefinition at 1.
    destruct xs as [|x2 xs].
    + exists (SP :: snd x). split; [now apply Hgood|]. simpl.
      rewrite <- ?app_assoc. reflexivity.
    + eexists. split; [now apply Hgood|]. cbn [join]. simpl.
      rewrite <- ?app_assoc. simpl. reflexivity.
Qed.

Lemma lazyUntilBracketColon_finds : forall r y,
  forallb notLineTerminator r = true ->
  lazyUntilBracketColon (r ++ RBRACK :: COLON :: y) <> None.
Proof.
  induction r as [|c r IH]; intros y H.
  - cbn [app lazyUntilBracketColon].
    replace (startsWith (RBRACK :: COLON :: y) [RBRACK; COLON]) with true;
      [discriminate|].
    symmetry. apply startsWith_spec. now exists y.
  - simpl in H. apply andb_true_iff in H as [Hc Hr].
    unfold notLineTerminator in Hc. apply negb_true_iff in Hc.
    simpl app. cbn [lazyUntilBracketColon].
    destruct (startsWith _ _); [discriminate|]. rewrite Hc.
    specialize (IH y Hr).
    destruct (lazyUntilBracketColon (r ++ RBRACK :: COLON :: y));
      [discriminate | contradiction].
Qed.

(** The line written for a good name is a definition line. *)
Lemma defLine_found : forall r y,
  goodRef r ->
  defLineCore ([LBRACK; CARET] ++ r ++ [RBRACK; COLON] ++ y) <> None.
Proof.
  intros r y [Hne Hr]. destruct r as [|c r]; [contradiction|].
  simpl in Hr. apply andb_true_iff in Hr as [Hc Hr].
  unfold notLineTerminator in Hc. simpl. rewrite Hc. simpl.
  pose proof (lazyUntilBracketColon_finds r y Hr) as H.
  simpl in H. destruct (lazyUntilBracketColon (r ++ RBRACK :: COLON :: y));
    [discriminate | contradiction].
Qed.

Lemma collapse_defLine : forall r y,
  goodRef r ->
  collapseNewlines ([LBRACK; CARET] ++ r ++ [RBRACK; COLON] ++ y)
  = [LBRACK; CARET] ++ r ++ [RBRACK; COLON] ++ collapseNewlines y.
Proof.
  intros r y [_ Hr]. simpl.
  rewrite !collapse_cons_other by reflexivity.
  rewrite collapse_app_line by assumption.
  rewrite !collapse_cons_other by reflexivity. reflexivity.
Qed.

Lemma noMatchIn_context : forall core,
  lineBound core ->
  forall h z rest prev,
    trimEnd h = h -> stops rest ->
    noMatchIn (afterLineStart core) prev h z ->
    noMatchIn (afterLineStart core) prev h rest.
Proof.
  intros core Hcore h z rest prev Hh Hrest H h1 h2 E Hne.
  destruct (afterLineStart core (prevAfter prev h1) (h2 ++ rest)) eqn:Em;
    [|reflexivity].
  exfalso.
  assert (Hs : afterLineStart core (prevAfter prev h1) (h2 ++ rest) <> None)
    by congruence.
  apply afterLineStart_some in Hs as [Hs1 Hs2].
  assert (Hz : afterLineStart core (prevAfter prev h1) (h2 ++ z) <> None).
  { apply afterLineStart_some. split; [assumption|].
    apply (hit_extends core Hcore h2 rest z); auto.
    eapply suffix_has_text; eauto. }
  apply Hz. now apply H.
Qed.

Lemma trimEnd_codeBlockSection :
  trimEnd codeBlockSection = blankLine ++ codeFence ++ [LF] ++ [96; 96; 96].
Proof. reflexivity. Qed.

Lemma collapse_app_trimmed : forall e x,
  e <> [] -> trimEnd e = e ->
  collapseNewlines (e ++ x) = collapseNewlines e ++ collapseNewlines x.
Proof.
  intros e x Hne He.
  destruct (trimEnd_shape e) as [E|(t & c & E & Hc)]; rewrite He in E.
  - contradiction.
  - subst e. rewrite <- app_assoc. simpl.
    rewrite !collapse_app_other by now apply not_space_not_LF.
    now rewrite <- app_assoc.
Qed.

Lemma truthy_true : forall s, truthy s = true <-> s <> [].
Proof. intros [|c s]; simpl; split; congruence. Qed.

Lemma truthy_false : forall s, truthy s = false <-> s = [].
Proof. intros [|c s]; simpl; split; congruence. Qed.

(** The header with its line feeds collapsed gives the same content. *)
Lemma assembleCue_collapse : forall localeCompare header footnotes,
  trimEnd header = header ->
  assembleCue localeCompare (collapseNewlines header) footnotes
  = assembleCue localeCompare header footnotes.
Proof.
  intros cmp E A HE. unfold assembleCue.
  set (T := definitionsText cmp A ++ _).
  destruct (collapse_trimmed E HE) as (HE' & _ & Hne').
  destruct E as [|c0 E0] eqn:EE; [reflexivity|]. rewrite <- EE in *.
  assert (Hne : E <> []) by (rewrite EE; discriminate).
  rewrite (proj2 (truthy_true E) Hne).
  rewrite (proj2 (truthy_true _) (Hne' Hne)).
  rewrite <- !app_assoc.
  rewrite (trimEnd_after_trimmed E) by auto.
  rewrite (trimEnd_after_trimmed (collapseNewlines E)) by auto.
  rewrite <- !app_assoc.
  rewrite (collapse_app_trimmed E) by auto.
  rewrite (collapse_app_trimmed (collapseNewlines E)) by auto.
  now rewrite collapse_idem.
Qed.

Lemma searchIndex_here : forall (R : Type) (m : matcher R) prev i s,
  m prev s <> None -> searchIndex m prev i s = Some i.
Proof.
  intros R m prev i s H. destruct s; simpl; destruct (m prev _);
    congruence.
Qed.

Lemma searchIndex_next : forall (R : Type) (m : matcher R) prev i c s,
  m prev (c :: s) = None ->
  searchIndex m prev i (c :: s) = searchIndex m (Some c) (S i) s.
Proof. intros R m prev i c s H. simpl. now rewrite H. Qed.

Lemma firstn_app_exact : forall (a b : str), firstn (List.length a) (a ++ b) = a.
Proof.
  induction a as [|c a IH]; intro b; simpl; [reflexivity | now rewrite IH].
Qed.

Lemma firstn_app_one : forall (a : str) c b,
  firstn (S (List.length a)) (a ++ c :: b) = a ++ [c].
Proof.
  induction a as [|d a IH]; intros c b; [reflexivity|].
  change (firstn (S (List.length (d :: a))) ((d :: a) ++ c :: b))
    with (d :: firstn (S (List.length a)) (a ++ c :: b)).
  now rewrite IH.
Qed.

Lemma defLine_matches : forall prev w r y,
  atLineStart prev = true -> forallb isWhiteSpace w = true -> goodRef r ->
  firstDefRegex prev (w ++ [LBRACK; CARET] ++ r ++ [RBRACK; COLON] ++ y) <> None.
Proof.
  intros prev w r y Hp Hw Hr. apply afterLineStart_some. split; [assumption|].
  change (w ++ [LBRACK; CARET] ++ r ++ [RBRACK; COLON] ++ y)
    with (w ++ LBRACK :: ([CARET] ++ r ++ [RBRACK; COLON] ++ y)).
  rewrite hit_text by auto. now apply defLine_found.
Qed.

(** The header of the assembled content is the header it was assembled
    from, with its line feeds collapsed. *)
Lemma assembleCue_header : forall localeCompare link header footnotes,
  goodLink link ->
  trimEnd header = header ->
  includes header link = true ->
  noMatch firstDefRegex None (header ++ [LF]) ->
  noMatch firstCbRegex None (header ++ [LF]) ->
  (forall e, In e footnotes -> goodRef (fst e)) ->
  extractedHeader link (assembleCue localeCompare header footnotes)
  = collapseNewlines header.
Proof.
  intros cmp L E A HL HE Hinc Hd Hc Hgood.
  pose proof HL as (HLline & _).
  destruct (collapse_trimmed E HE) as (HE' & Hcl & Hne').
  set (E' := collapseNewlines E) in *.
  assert (Hinc' : includes E' L = true) by now apply includes_collapse.
  assert (Hd' : noMatch firstDefRegex None (E' ++ [LF])).
  { rewrite <- Hcl. apply noMatch_collapse; [apply defLineCore_lineBound | exact Hd]. }
  assert (Hc' : noMatch firstCbRegex None (E' ++ [LF])).
  { rewrite <- Hcl. apply noMatch_collapse; [apply fenceCore_lineBound | exact Hc]. }
  enough (Hhdr : trimEnd (firstn (firstElementIdx (assembleCue cmp E A))
                                 (assembleCue cmp E A)) = E').
  { unfold extractedHeader, substring0. now rewrite Hhdr, Hinc'. }
  destruct A as [|e0 A0] eqn:EA.
  - (* no footnote: the content is the header and a line feed *)
    assert (Hout : assembleCue cmp E [] = E' ++ [LF]).
    { unfold assembleCue. simpl. rewrite !app_nil_r.
      destruct (truthy E) eqn:Et.
      - rewrite trimEnd_app_blank by reflexivity. now rewrite HE.
      - apply truthy_false in Et. subst E. reflexivity. }
    rewrite Hout. unfold firstElementIdx.
    rewrite (proj2 (searchIndex_none _ firstDefRegex _ None O) Hd').
    rewrite (proj2 (searchIndex_none _ firstCbRegex _ None O) Hc').
    rewrite firstn_all. rewrite trimEnd_app_blank by reflexivity. exact HE'.
  - rewrite <- EA in *.
    assert (HA : A <> []) by (rewrite EA; discriminate).
    destruct (definitionsText_shape cmp A HA Hgood) as (r & y & Hr & HF).
    set (X' := [LBRACK; CARET] ++ r ++ [RBRACK; COLON]
               ++ collapseNewlines (y ++ trimEnd codeBlockSection ++ [LF])).
    assert (HX' : firstDefRegex None X' <> None
                  /\ firstDefRegex (Some LF) (LF :: X') <> None).
    { split.
      - now apply (defLine_matches None []).
      - now apply (defLine_matches (Some LF) [LF]). }
    destruct HX' as [HX0 HX1].
    assert (Hsize : JsMap.size A = S (pred (List.length A)))
      by (destruct A; [contradiction | reflexivity]).
    assert (Hbody : trimEnd (definitionsText cmp A ++ codeBlockSection) ++ [LF]
                    = [LBRACK; CARET] ++ r ++ [RBRACK; COLON]
                      ++ (y ++ trimEnd codeBlockSection ++ [LF])).
    { rewrite trimEnd_app_keep by discriminate. rewrite HF.
      now rewrite <- !app_assoc. }
    destruct (truthy E) eqn:Et.
    2:{ (* no header: the content starts with the first definition line *)
      apply truthy_false in Et. subst E.
      assert (Hout : assembleCue cmp [] A = X').
      { unfold assembleCue. rewrite Hsize. cbv iota. simpl truthy. cbv iota.
        simpl app at 1. rewrite Hbody. now apply collapse_defLine. }
      rewrite Hout. unfold firstElementIdx.
      rewrite (searchIndex_here _ firstDefRegex None O X' HX0).
      destruct (searchIndex firstCbRegex None O X') as [j|]; reflexivity. }
    { assert (HneE : E <> []) by now apply truthy_true.
      assert (Hout : assembleCue cmp E A = E' ++ LF :: LF :: X').
      { unfold assembleCue. rewrite Hsize. cbv iota.
        rewrite (proj2 (truthy_true E) HneE).
        rewrite <- !app_assoc. rewrite (trimEnd_after_trimmed E) by auto.
        rewrite (trimEnd_app_keep blankLine)
          by (rewrite trimEnd_app_keep by discriminate;
              rewrite HF; discriminate).
        rewrite <- !app_assoc. rewrite (collapse_app_trimmed E) by auto.
        f_equal. rewrite Hbody.
        change blankLine with (repeat LF 2).
        rewrite collapse_run by reflexivity.
        rewrite collapse_defLine by assumption. reflexivity. }
      rewrite Hout.
      destruct (prevAfter_trimmed E' None (Hne' HneE) HE') as (c & Ec & Hcl').
      assert (Hskip : forall core,
                lineBound core ->
                noMatch (afterLineStart core) None (E' ++ [LF]) ->
                searchIndex (afterLineStart core) None O (E' ++ LF :: LF :: X')
                = searchIndex (afterLineStart core) (Some LF)
                    (S (List.length E')) (LF :: X')).
      { intros core Hcore Hn. apply noMatch_app in Hn as [Hn _].
        rewrite searchIndex_skip
          by (apply (noMatchIn_context core Hcore E' [LF]); auto; reflexivity).
        rewrite Ec. simpl Nat.add. apply searchIndex_next.
        apply afterLineStart_none. now left. }
      unfold firstElementIdx.
      unfold firstDefRegex, firstCbRegex in *.
      rewrite (Hskip defLineCore defLineCore_lineBound Hd').
      rewrite (Hskip fenceCore fenceCore_lineBound Hc').
      rewrite (searchIndex_here _ _ (Some LF) _ _ HX1).
      destruct (searchIndex (afterLineStart fenceCore) (Some LF)
                  (S (List.length E')) (LF :: X')) as [j|] eqn:Ej.
      * apply searchIndex_some in Ej as (Hj & _).
        destruct (Nat.ltb_spec j (S (List.length E'))); [lia|].
        rewrite firstn_app_one. rewrite trimEnd_app_blank by reflexivity.
        exact HE'.
      * rewrite firstn_app_one. rewrite trimEnd_app_blank by reflexivity.
        exact HE'. }
Qed.

(** The link to the Source under the default template. *)
Lemma default_link_shape : forall sourceNoteFile,
  linkToSource DEFAULT_SETTINGS sourceNoteFile
  = lit "[[" ++ getSubstitution (lit "{{sourceNote}}") (lit "[[") backToSource
                  (file_basename sourceNoteFile)
      ++ backToSource.
Proof. intro f. reflexivity. Qed.

(** A replacement text without line terminators, expanded with parts
    without line terminators, has none. *)
Lemma getSubstitution_line : forall matched before after,
  forallb notLineTerminator matched = true ->
  forallb notLineTerminator before = true ->
  forallb notLineTerminator after = true ->
  forall n replacement,
    (List.length replacement <= n)%nat ->
    forallb notLineTerminator replacement = true ->
    forallb notLineTerminator
      (getSubstitution matched before after replacement) = true.
Proof.
  intros matched before after Hm Hb Ha.
  induction n as [|n IH]; intros r Hn Hr.
  - destruct r; [reflexivity | simpl in Hn; lia].
  - destruct r as [|c1 r1]; [reflexivity|].
    simpl in Hr. apply andb_true_iff in Hr as [Hc1 Hr1].
    simpl in Hn. cbn [getSubstitution].
    destruct (c1 =? DOLLAR).
    + destruct r1 as [|c2 r2]; [simpl; now rewrite Hc1|].
      simpl in Hr1. apply andb_true_iff in Hr1 as [Hc2 Hr2]. simpl in Hn.
      assert (H2 : forallb notLineTerminator
                     (getSubstitution matched before after r2) = true)
        by (apply IH; [lia | assumption]).
      destruct (c2 =? DOLLAR); [simpl; now rewrite H2|].
      destruct (c2 =? 38); [rewrite forallb_app; now rewrite Hm, H2|].
      destruct (c2 =? 96); [rewrite forallb_app; now rewrite Hb, H2|].
      destruct (c2 =? 39); [rewrite forallb_app; now rewrite Ha, H2|].
      cbn [forallb]. rewrite Hc1. cbn [andb]. apply IH; [simpl; lia|].
      cbn [forallb]. now rewrite Hc2.
    + cbn [forallb]. rewrite Hc1. cbn [andb]. apply IH; [lia | assumption].
Qed.

(** With the default template, the link for a note whose name has no line
    terminator is a good link. *)
Lemma default_link_good : forall sourceNoteFile,
  forallb notLineTerminator (file_basename sourceNoteFile) = true ->
  goodLink (linkToSource DEFAULT_SETTINGS sourceNoteFile).
Proof.
  intros f Hf. rewrite default_link_shape.
  set (mid := getSubstitution _ _ _ _).
  assert (Hmid : forallb notLineTerminator mid = true).
  { apply (getSubstitution_line (lit "{{sourceNote}}") (lit "[[") backToSource
             eq_refl eq_refl eq_refl (List.length (file_basename f))); auto. }
  split; [|split; [|split]].
  - rewrite !forallb_app. now rewrite Hmid.
  - rewrite app_assoc. now rewrite trimEnd_app_keep by discriminate.
  - simpl. destruct (mid ++ backToSource); reflexivity.
  - reflexivity.
Qed.

(** The header [generateCueContent] extracts, the link put before it when
    it was missing, is what [assembleCue_header] asks for. *)
Lemma extractedHeader_good : forall link currentContent,
  goodLink link ->
  let header := extractedHeader link currentContent in
  trimEnd header = header
  /\ includes header link = true
  /\ noMatch firstDefRegex None (header ++ [LF])
  /\ noMatch firstCbRegex None (header ++ [LF]).
Proof.
  intros link s Hlink. cbv zeta.
  pose proof Hlink as (_ & Htrim & Hdef & Hcb).
  destruct (before_firstElementIdx s) as [Hd Hc].
  repeat split.
  - now apply extractedHeader_trimmed.
  - apply extractedHeader_includes.
  - now apply (extractedHeader_noMatch defLineCore defLineCore_lineBound).
  - now apply (extractedHeader_noMatch fenceCore fenceCore_lineBound).
Qed.

(** Generating again from the generated content changes nothing, for good
    names and a good link. *)
Lemma generateCueContent_again :
  forall localeCompare settings currentContent sourceNoteFile footnotes,
    goodLink (linkToSource settings sourceNoteFile) ->
    (forall e, In e footnotes -> goodRef (fst e)) ->
    generateCueContent localeCompare settings
      (generateCueContent localeCompare settings currentContent
         sourceNoteFile footnotes)
      sourceNoteFile footnotes
    = generateCueContent localeCompare settings currentContent
        sourceNoteFile footnotes.
Proof.
  intros cmp settings s f A Hlink Hgood.
  rewrite !generateCueContent_assemble.
  destruct (extractedHeader_good _ s Hlink) as (H1 & H2 & H3 & H4).
  rewrite (assembleCue_header cmp _ _ A Hlink H1 H2 H3 H4 Hgood).
  now apply assembleCue_collapse.
Qed.

(** C3, as amended: when every footnote name is not empty and has no line
    terminator, and the link to the Source is on one line, has no white
    space at its end and is not itself the start of a definition line or of
    the code block, generating the Cue content again from the generated
    content (same footnotes, same Source note) returns the generated
    content. *)
Theorem generateCueContent_idempotent :
  forall localeCompare settings currentContent sourceNoteFile footnotes,
    goodLink (linkToSource settings sourceNoteFile) ->
    (forall e, In e footnotes -> goodRef (fst e)) ->
    generateCueContent localeCompare settings
      (generateCueContent localeCompare settings currentContent
         sourceNoteFile footnotes)
      sourceNoteFile footnotes
    = generateCueContent localeCompare settings currentContent
        sourceNoteFile footnotes.
Proof. exact generateCueContent_again. Qed.

(** With the default settings, a Cue note that has a header and an old
    definition, and two footnotes. *)
Lemma generateCueContent_idempotent_witness :
  generateCueContent codeUnitCompare DEFAULT_SETTINGS
    (generateCueContent codeUnitCompare DEFAULT_SETTINGS
       (text "My cues|||[^old]: gone") sampleSource
       [(lit "2", lit "two"); (lit "10", lit "ten")])
    sampleSource [(lit "2", lit "two"); (lit "10", lit "ten")]
  = generateCueContent codeUnitCompare DEFAULT_SETTINGS
      (text "My cues|||[^old]: gone") sampleSource
      [(lit "2", lit "two"); (lit "10", lit "ten")].
Proof.
  apply generateCueContent_idempotent.
  - repeat split; vm_compute; reflexivity.
  - intros e [<-|[<-|[]]]; (split; [discriminate | reflexivity]).
Defined.

(** C3 as stated fails: the name [a], line feed, [b], which the parser
    returns for a definition whose name runs over two lines, gives a
    definition line that [generateCueContent] does not recognise, so the
    second generation keeps it in the header and writes it again. *)
Lemma generateCueContent_not_idempotent :
  let footnotes := parseFootnotesSimple (text "[^a|b]: x") in
  let once :=
    generateCueContent codeUnitCompare DEFAULT_SETTINGS (lit "")
      sampleSource footnotes in
  footnotes = [(text "a|b", lit "x")]
  /\ generateCueContent codeUnitCompare DEFAULT_SETTINGS once sampleSource
       footnotes
     <> once.
Proof.
  cbv zeta. split; [vm_compute; reflexivity|].
  vm_compute. discriminate.
Qed.

(** ** References in the generated Cue content *)

Lemma execAll_noMatch : forall (R : Type) (m : matcher R) s prev i,
  noMatch m prev s -> execAll m prev O i s = [].
Proof.
  induction s as [|c r IH]; intros prev i H; simpl; [reflexivity|].
  apply noMatch_cons in H as [H0 H]. rewrite H0. now apply IH.
Qed.

Lemma refRegex_needs_start : forall prev s,
  startsWith s [LBRACK; CARET] = false -> refRegex prev s = None.
Proof.
  intros prev [|c1 [|c2 r]] H; try reflexivity.
  unfold refRegex. cbn [startsWith] in H.
  destruct ((c1 =? LBRACK) && (c2 =? CARET)) eqn:E; [|reflexivity].
  apply andb_true_iff in E as [E1 E2]. rewrite E1, E2 in H.
  destruct r; discriminate.
Qed.

Lemma noMatch_ref_prev : forall s p1 p2,
  noMatch refRegex p1 s -> noMatch refRegex p2 s.
Proof.
  intros [|c s] p1 p2 H.
  - apply noMatch_nil. reflexivity.
  - apply noMatch_cons. apply noMatch_cons in H as [H0 H]. now split.
Qed.

Lemma plain_cons : forall c s,
  plain (c :: s) <-> startsWith (c :: s) [LBRACK; CARET] = false /\ plain s.
Proof.
  intros c s. unfold plain. cbn [includes]. apply orb_false_iff.
Qed.

Lemma plain_nil : plain [].
Proof. reflexivity. Qed.

Lemma startsWith_caret_app : forall a b,
  a <> [] -> startsWith (a ++ b) [CARET] = startsWith a [CARET].
Proof.
  intros [|c a] b H; [contradiction|]. simpl.
  destruct (a ++ b), a; reflexivity.
Qed.

Lemma startsWith_single : forall d s p,
  startsWith (d :: s) [p] = (d =? p).
Proof. intros d [|e s] p; simpl; apply andb_true_r. Qed.

Lemma startsWith_pair_cons : forall c s,
  startsWith (c :: s) [LBRACK; CARET] = (c =? LBRACK) && startsWith s [CARET].
Proof. intros c [|d s]; reflexivity. Qed.

Lemma plain_app : forall a b,
  plain a -> plain b -> startsWith b [CARET] = false -> plain (a ++ b).
Proof.
  induction a as [|c a IH]; intros b Ha Hb Hc; [exact Hb|].
  apply plain_cons in Ha as [H1 H2]. simpl app. apply plain_cons. split.
  - rewrite startsWith_pair_cons in *.
    destruct a as [|d a]; simpl app.
    + rewrite Hc. apply andb_false_r.
    + rewrite startsWith_single in *. exact H1.
  - now apply IH.
Qed.

Lemma plain_prefix : forall a b, plain (a ++ b) -> plain a.
Proof.
  unfold plain. intros a b H.
  destruct (includes a [LBRACK; CARET]) eqn:E; [|reflexivity].
  apply includes_spec in E as (x & y & ->).
  assert (Hx : includes ((x ++ [LBRACK; CARET] ++ y) ++ b) [LBRACK; CARET] = true).
  { apply includes_spec. exists x, (y ++ b). now rewrite <- !app_assoc. }
  congruence.
Qed.

Lemma plain_trimEnd : forall s, plain s -> plain (trimEnd s).
Proof.
  intros s H. destruct (trimEnd_decomp s) as (tail & E & _).
  rewrite E in H. now apply plain_prefix in H.
Qed.

Lemma startsWith_caret_collapse : forall s,
  startsWith (collapseNewlines s) [CARET] = startsWith s [CARET].
Proof.
  intros [|c s]; [reflexivity|].
  destruct (collapse_head (c :: s)) as [t ->].
  destruct t, s; reflexivity.
Qed.

Lemma plain_collapse : forall s, plain s -> plain (collapseNewlines s).
Proof.
  intro s. pattern s. apply str_runs_ind; clear s;
    [|intros c r Hc IH|intros n r Hr IH]; intro H.
  - exact H.
  - rewrite collapse_cons_other by assumption.
    apply plain_cons in H as [H1 H2]. apply plain_cons. split; [|now apply IH].
    rewrite startsWith_pair_cons in *.
    now rewrite startsWith_caret_collapse.
  - rewrite collapse_run by assumption.
    assert (Hp : plain r).
    { clear -H. induction (S n); [exact H|].
      apply IHn0. simpl in H. now apply plain_cons in H as [_ H]. }
    specialize (IH Hp).
    induction (Nat.min (S n) 2) as [|k IHk]; [exact IH|].
    simpl. apply plain_cons. split; [|exact IHk].
    rewrite startsWith_pair_cons. reflexivity.
Qed.

(** Plain text before a text without match adds no match, when the text
    does not start with a caret. *)
Lemma noMatch_ref_plain_app : forall a z p p',
  plain a -> startsWith z [CARET] = false ->
  noMatch refRegex p z -> noMatch refRegex p' (a ++ z).
Proof.
  induction a as [|c a IH]; intros z p p' Ha Hz H.
  - now apply (noMatch_ref_prev z p).
  - apply plain_cons in Ha as [H1 H2]. simpl app. apply noMatch_cons. split.
    + apply refRegex_needs_start. rewrite startsWith_pair_cons in *.
      destruct a as [|d a]; simpl app.
      * rewrite Hz. apply andb_false_r.
      * rewrite startsWith_single in *. exact H1.
    + now apply (IH z p).
Qed.

(** The prefix of a definition line is not a reference. *)
Lemma refRegex_defPrefix : forall prev r b,
  forallb notRBrack r = true ->
  refRegex prev ([LBRACK; CARET] ++ r ++ [RBRACK; COLON] ++ b) = None.
Proof.
  intros prev r b Hr. simpl. unfold refRegex.
  replace ((LBRACK =? LBRACK) && (CARET =? CARET)) with true by reflexivity.
  rewrite span_app_stop; [|assumption|reflexivity].
  destruct r; [reflexivity|].
  rewrite startsWith_single. reflexivity.
Qed.

Lemma refRegex_other : forall prev c s,
  (c =? LBRACK) = false -> refRegex prev (c :: s) = None.
Proof.
  intros prev c s H. apply refRegex_needs_start.
  rewrite startsWith_pair_cons, H. reflexivity.
Qed.

Lemma defText_noMatch : forall s,
  defText s -> forall prev, noMatch refRegex prev s.
Proof.
  induction 1 as [s Hs|a r b Ha Hr Hb Hd IH]; intro prev.
  - rewrite <- (app_nil_r s).
    apply (noMatch_ref_plain_app s [] None); [assumption | reflexivity|].
    apply noMatch_nil. reflexivity.
  - apply (noMatch_ref_plain_app a _ None); [assumption | reflexivity|].
    apply noMatch_cons. split; [now apply refRegex_defPrefix|].
    apply noMatch_cons. split; [now apply refRegex_other|].
    apply (noMatch_ref_plain_app r _ None); [assumption | reflexivity|].
    apply noMatch_cons. split; [now apply refRegex_other|].
    apply noMatch_cons. split; [now apply refRegex_other|].
    apply IH.
Qed.

Lemma defText_collapse : forall s, defText s -> defText (collapseNewlines s).
Proof.
  induction 1 as [s Hs|a r b Ha Hr Hb Hd IH].
  - apply defText_plain. now apply plain_collapse.
  - simpl app. rewrite collapse_app_other by reflexivity.
    rewrite collapse_cons_other by reflexivity.
    rewrite collapse_app_other by reflexivity.
    rewrite collapse_cons_other by reflexivity.
    apply (defText_def (collapseNewlines a) (collapseNewlines r)
             (collapseNewlines b)); auto using plain_collapse.
    now apply forallb_collapse.
Qed.

Lemma plain_cons_other : forall c s,
  (c =? LBRACK) = false -> plain s -> plain (c :: s).
Proof.
  intros c s Hc Hs. apply plain_cons. split; [|assumption].
  rewrite startsWith_pair_cons, Hc. reflexivity.
Qed.

Lemma join_cons2 : forall sep p q ps,
  join sep (p :: q :: ps) = p ++ sep ++ join sep (q :: ps).
Proof. reflexivity. Qed.

(** The rendered definitions, between plain texts. *)
Lemma definitions_defText : forall l a tail,
  l <> [] -> plain a ->
  (forall e, In e l -> referenceFree e) ->
  plain tail -> startsWith tail [CARET] = false ->
  defText (a ++ join blankLine (List.map renderDefinition l) ++ tail).
Proof.
  induction l as [|x l IH]; intros a tail Hne Ha Hl Ht Hc; [contradiction|].
  destruct (Hl x (or_introl eq_refl)) as (Hr & Hb & Hbody).
  destruct l as [|x2 l].
  - assert (Eq : a ++ join blankLine (List.map renderDefinition [x]) ++ tail
                 = a ++ [LBRACK; CARET] ++ fst x ++ [RBRACK; COLON]
                     ++ (SP :: snd x ++ tail)).
    { simpl. unfold renderDefinition. rewrite <- !app_assoc. reflexivity. }
    rewrite Eq. apply defText_def; auto. apply defText_plain.
    apply plain_cons_other; [reflexivity|]. now apply plain_app.
  - assert (Eq : a ++ join blankLine (List.map renderDefinition (x :: x2 :: l))
                   ++ tail
                 = a ++ [LBRACK; CARET] ++ fst x ++ [RBRACK; COLON]
                     ++ ((SP :: snd x ++ blankLine)
                           ++ join blankLine (List.map renderDefinition (x2 :: l))
                           ++ tail)).
    { cbn [List.map]. rewrite join_cons2. unfold renderDefinition at 1.
      rewrite <- !app_assoc. simpl app. rewrite <- !app_assoc. reflexivity. }
    rewrite Eq. apply defText_def; auto. apply IH; auto.
    + discriminate.
    + apply plain_cons_other; [reflexivity|].
      apply plain_app; [assumption | reflexivity | reflexivity].
    + intros e He. apply Hl. now right.
Qed.

(** C6, as amended: when neither the header kept from the current content
    (the link to the Source included) nor the name or the text of any
    footnote contains the two characters [[^], and no name contains a
    closing bracket, parsing the content [generateCueContent] returns
    yields no reference: the prefix it writes before each definition is
    not one. *)
Theorem generated_content_has_no_reference :
  forall localeCompare settings currentContent sourceNoteFile footnotes,
    plain (extractedHeader (linkToSource settings sourceNoteFile)
             currentContent) ->
    (forall e, In e footnotes -> referenceFree e) ->
    snd (parseSourceContent
           (generateCueContent localeCompare settings currentContent
              sourceNoteFile footnotes)) = [].
Proof.
  intros cmp settings s f A HE HA.
  rewrite generateCueContent_assemble. unfold assembleCue.
  set (E := extractedHeader (linkToSource settings f) s) in *.
  set (FH := if truthy E then E ++ blankLine else []).
  assert (HFH : plain FH).
  { unfold FH. destruct (truthy E); [|reflexivity].
    apply plain_app; [assumption | reflexivity | reflexivity]. }
  enough (Hd : defText (trimEnd (FH ++ definitionsText cmp A
                          ++ match JsMap.size A with
                             | O => []
                             | S _ => codeBlockSection
                             end) ++ [LF])).
  { apply defText_collapse in Hd.
    unfold parseSourceContent, parseReferences, refMatches. simpl snd.
    rewrite execAll_noMatch; [reflexivity|]. now apply defText_noMatch. }
  destruct A as [|e0 A0] eqn:EA.
  - simpl. rewrite !app_nil_r. apply defText_plain.
    apply plain_app; [now apply plain_trimEnd | reflexivity | reflexivity].
  - rewrite <- EA in *.
    assert (Hne : A <> []) by (rewrite EA; discriminate).
    assert (Hsize : JsMap.size A = S (pred (List.length A)))
      by (destruct A; [contradiction | reflexivity]).
    unfold definitionsText. rewrite Hsize. cbv iota.
    set (sorted := sortBy (fun a b => cmp (fst a) (fst b)) (JsMap.entries A)).
    assert (Hs : sorted <> []).
    { intro Hs. assert (Hin : In e0 sorted).
      { apply sortBy_In. unfold JsMap.entries. rewrite EA. now left. }
      rewrite Hs in Hin. contradiction. }
    assert (Hall : forall e, In e sorted -> referenceFree e).
    { intros e He. apply HA. now apply sortBy_In in He. }
    pose proof (definitions_defText sorted FH (trimEnd codeBlockSection ++ [LF])
                  Hs HFH Hall eq_refl eq_refl) as Hd.
    assert (Hj : join blankLine (List.map renderDefinition sorted) <> []).
    { destruct sorted as [|x [|x2 l]]; [contradiction | discriminate | discriminate]. }
    rewrite (trimEnd_app_keep FH).
    + rewrite trimEnd_app_keep by discriminate.
      rewrite <- !app_assoc. exact Hd.
    + rewrite trimEnd_app_keep by discriminate.
      intro H. apply app_eq_nil in H as [H _]. contradiction.
Qed.

(** A header without reference and one footnote. *)
Lemma generated_content_has_no_reference_witness :
  snd (parseSourceContent
         (generateCueContent codeUnitCompare DEFAULT_SETTINGS
            (text "My cues") sampleSource [(lit "a", lit "x")])) = [].
Proof.
  apply generated_content_has_no_reference.
  - vm_compute. reflexivity.
  - intros e [<-|[]]. repeat split; vm_compute; reflexivity.
Defined.

(** C6 as stated fails: a definition whose text cites another footnote is
    written to the Cue with the citation, and parsing the Cue finds it. *)
Lemma generated_content_with_reference :
  let source := text "Text[^a].||[^a]: see also [^b]|[^b]: B" in
  let cue :=
    generateCueContent codeUnitCompare DEFAULT_SETTINGS (lit "")
      sampleSource (parseFootnotesSimple source) in
  List.map ref_ref (snd (parseSourceContent cue)) = [lit "b"].
Proof. vm_compute. reflexivity. Qed.

(** ** The forward pass *)

Lemma JsMap_set_fresh : forall (V : Type) (m : JsMap.t V) k v,
  ~ In k (JsMap.keys m) -> JsMap.set m k v = m ++ [(k, v)].
Proof.
  induction m as [|[k0 v0] m IH]; intros k v H; simpl; [reflexivity|].
  simpl in H. destruct (str_eqb k0 k) eqn:E.
  - apply str_eqb_eq in E. tauto.
  - rewrite IH by tauto. reflexivity.
Qed.

(** Copying a map entry by entry gives the map. *)
Lemma JsMap_copy : forall (V : Type) (l acc : JsMap.t V),
  NoDup (JsMap.keys (acc ++ l)) ->
  fold_left (fun m e => JsMap.set m (fst e) (snd e)) l acc = acc ++ l.
Proof.
  induction l as [|[k v] l IH]; intros acc H; simpl.
  - now rewrite app_nil_r.
  - assert (Hk : ~ In k (JsMap.keys acc)).
    { unfold JsMap.keys in *. rewrite map_app in H. simpl in H.
      apply NoDup_remove_2 in H. intro Hin. apply H.
      apply in_or_app. now left. }
    rewrite JsMap_set_fresh by assumption.
    rewrite IH; rewrite <- app_assoc; [reflexivity | exact H].
Qed.

(** With the deletion of unreferenced definitions off, the footnotes written
    to the Cue are the definitions parsed from the Source, by name. *)
Lemma finalCueFootnotes_source : forall settings sourceContent,
  deleteDefinitionsOnReferenceDelete settings = false ->
  finalCueFootnotes settings sourceContent = parseFootnotesSimple sourceContent.
Proof.
  intros settings s Hoff. unfold finalCueFootnotes. rewrite Hoff.
  rewrite parseFootnotesSimple_fold.
  assert (E : JsMap.ofEntries
                (List.map (fun def => (def_ref def, def_definition def))
                   (parseDefinitions s))
              = fold_left setDefinition (parseDefinitions s) JsMap.empty).
  { unfold JsMap.ofEntries. generalize (@JsMap.empty str).
    induction (parseDefinitions s) as [|d l IH]; intro m; simpl; [reflexivity|].
    apply IH. }
  rewrite E. unfold JsMap.entries.
  apply (JsMap_copy str _ []). simpl.
  apply fold_setDefinition_NoDup. constructor.
Qed.

Lemma getAbstractFileByPath_path : forall v path a,
  getAbstractFileByPath v path = Some a -> abstractPath a = path.
Proof.
  unfold getAbstractFileByPath. intros v path a H.
  apply find_some in H as [_ H]. now apply str_eqb_eq.
Qed.

Lemma getAbstractFileByPath_write_same : forall v path f d data,
  getAbstractFileByPath v path = Some (AFile f d) ->
  getAbstractFileByPath (writeFile v path data) path = Some (AFile f data).
Proof.
  unfold getAbstractFileByPath.
  induction v as [|a v IH]; intros path f d data H; simpl in *; [discriminate|].
  destruct (str_eqb (abstractPath a) path) eqn:E.
  - injection H as ->. simpl in *. now rewrite E.
  - simpl. rewrite E. eapply IH; eauto.
Qed.

Lemma getAbstractFileByPath_write_other : forall v path data p,
  p <> path ->
  getAbstractFileByPath (writeFile v path data) p = getAbstractFileByPath v p.
Proof.
  unfold getAbstractFileByPath.
  induction v as [|a v IH]; intros path data p H; simpl; [reflexivity|].
  destruct (str_eqb (abstractPath a) path) eqn:E.
  - apply str_eqb_eq in E.
    assert (Hp : str_eqb (abstractPath a) p = false).
    { apply str_eqb_neq. congruence. }
    destruct a as [f d|q]; simpl in *; now rewrite Hp.
  - simpl. destruct (str_eqb (abstractPath a) p); [reflexivity|].
    now apply IH.
Qed.

Lemma modifications_app : forall a b,
  modifications (a ++ b) = modifications a ++ modifications b.
Proof. intros. apply filter_app. Qed.

Lemma bind_normal : forall (A B : Type) (t : Task A) (k : A -> Task B) w a w',
  t w = (Normal a, w') -> bind t k w = k a w'.
Proof. intros A B t k w a w' H. unfold bind. now rewrite H. Qed.

Lemma sameFiles_refl : forall w, sameFiles w w.
Proof. intro w. split; reflexivity. Qed.

Lemma sameFiles_trans : forall w1 w2 w3,
  sameFiles w1 w2 -> sameFiles w2 w3 -> sameFiles w1 w3.
Proof. intros w1 w2 w3 [H1 H2] [H3 H4]. split; congruence. Qed.

Section ForwardPass.

Variable localeCompare : str -> str -> Z.
Variable normalizePath : str -> str.
Variable settings : CornellFootnoteSettings.
Variable rejects : nat -> bool.
Variable interleaved : nat -> World -> World.

(** No call of the host rejects, and nothing else runs meanwhile. *)
Hypothesis Hrejects : forall k, rejects k = false.
Hypothesis Hinterleaved : forall k w, interleaved k w = w.

Lemma awaitHost_quiet : forall (A : Type) (call : Task A) w,
  awaitHost rejects interleaved call w = call (nextAwait w).
Proof.
  intros A call w. unfold awaitHost. rewrite Hrejects, !Hinterleaved.
  destruct (call (nextAwait w)) as [c w2]. now rewrite Hinterleaved.
Qed.

Lemma sleep_quiet : forall w, sleep interleaved w = (Normal tt, nextAwait w).
Proof. intro w. unfold sleep. now rewrite !Hinterleaved. Qed.

Lemma cachedRead_quiet : forall file f data w,
  getAbstractFileByPath (vault w) (file_path file) = Some (AFile f data) ->
  cachedRead rejects interleaved file w = (Normal data, nextAwait w).
Proof.
  intros file f data w H. unfold cachedRead. rewrite awaitHost_quiet.
  simpl. now rewrite H.
Qed.

Lemma saveData_quiet : forall w,
  exists w', saveData rejects interleaved w = (Normal tt, w') /\ sameFiles w w'.
Proof.
  intro w. unfold saveData. rewrite awaitHost_quiet. eexists. split; [reflexivity|].
  split; simpl; [reflexivity|]. rewrite modifications_app. apply app_nil_r.
Qed.

Lemma recordSync_quiet : forall sourceNoteFile cuePathNow mapNeedsSave stamp w,
  exists w',
    recordSync normalizePath rejects interleaved sourceNoteFile cuePathNow
      mapNeedsSave stamp w = (Normal tt, w')
    /\ sameFiles w w'.
Proof.
  intros src cuePathNow b stamp w. unfold recordSync.
  assert (Hinfo : exists info w0,
            getOrCreateNoteInfo normalizePath src w = (Normal info, w0)
            /\ sameFiles w w0).
  { unfold getOrCreateNoteInfo.
    destruct (JsMap.get (noteInfoMap w) (file_path src)) as [info|].
    - exists info, w. split; [reflexivity | apply sameFiles_refl].
    - eexists _, _. split; [reflexivity | split; reflexivity]. }
  destruct Hinfo as (info & w0 & E0 & S0).
  rewrite (bind_normal _ _ _ _ _ _ _ E0).
  unfold look at 1. unfold bind at 1.
  destruct (negb (option_str_eqb (cuePath info) cuePathNow) || b).
  - unfold bind, perform.
    match goal with
    | |- context [saveData rejects interleaved ?x] =>
        destruct (saveData_quiet x) as (w1 & E1 & S1); rewrite E1
    end.
    exists w1. split; [reflexivity|].
    eapply sameFiles_trans; [exact S0|]. destruct S1 as [V1 M1].
    split; [exact V1 | exact M1].
  - exists w0. split; [reflexivity | exact S0].
Qed.



End ForwardPass.




(** * Further properties of the code *)

(** ** The roles of a path *)

(** X1: no path is both a Cue note and a Summary note, whatever
    [normalizePath] does: the two endings [-cue.md] and [-summary.md]
    exclude each other. *)
Theorem roles_exclusive : forall normalizePath filePath,
  isCueNote normalizePath filePath && isSummaryNote normalizePath filePath
  = false.
Proof.
  intros np p. unfold isCueNote, isSummaryNote.
  destruct (truthy p); [|reflexivity].
  destruct (endsWith (np p) (cueNoteSuffix ++ dotMd)) eqn:E1; [|reflexivity].
  destruct (endsWith (np p) (summaryNoteSuffix ++ dotMd)) eqn:E2;
    [|reflexivity].
  exfalso. unfold endsWith in *.
  apply startsWith_spec in E1 as [b1 E1].
  apply startsWith_spec in E2 as [b2 E2].
  rewrite E1 in E2. vm_compute in E2. discriminate E2.
Qed.

(** ** What the parsers return *)

Lemma trimStart_fixed : forall s,
  match s with [] => True | c :: _ => isWhiteSpace c = false end ->
  trimStart s = s.
Proof.
  intros [|c s] H; [reflexivity|]. unfold trimStart. simpl. now rewrite H.
Qed.

Lemma trimStart_head : forall s,
  match trimStart s with [] => True | c :: _ => isWhiteSpace c = false end.
Proof.
  unfold trimStart. induction s as [|c s IH]; simpl; [exact I|].
  destruct (isWhiteSpace c) eqn:E; [exact IH | exact E].
Qed.

Lemma trim_idem : forall s, trim (trim s) = trim s.
Proof.
  intro s. unfold trim. pose proof (trimStart_head s) as H.
  destruct (trimStart s) as [|c r]; [reflexivity|].
  rewrite (trimEnd_cons_text c r H).
  rewrite trimStart_fixed by exact H.
  rewrite (trimEnd_cons_text c (trimEnd r) H). now rewrite trimEnd_idem.
Qed.

Lemma In_JsMap_set : forall (V : Type) (m : JsMap.t V) k v e,
  In e (JsMap.set m k v) -> In e m \/ e = (k, v).
Proof.
  induction m as [|[k0 v0] m IH]; intros k v e H; simpl in H.
  - destruct H as [<-|[]]. now right.
  - destruct (str_eqb k0 k) eqn:E.
    + apply str_eqb_eq in E. subst k0. destruct H as [<-|H].
      * now right.
      * left. now right.
    + destruct H as [<-|H]; [left; now left|].
      apply IH in H as [H|H]; [left; now right | now right].
Qed.

Lemma In_fold_setDefinition : forall l m e,
  In e (fold_left setDefinition l m) ->
  In e m \/ exists d, In d l /\ e = (def_ref d, def_definition d).
Proof.
  induction l as [|d l IH]; intros m e H; simpl in H; [now left|].
  apply IH in H as [H|(d' & Hd & E)].
  - apply In_JsMap_set in H as [H|H]; [now left|].
    right. exists d. split; [now left | exact H].
  - right. exists d'. split; [now right | exact E].
Qed.

(** X2: every name and every definition text the parsers return is
    trimmed: [parseSourceContent] and [parseFootnotesSimple] never give a
    name or a text with white space at either end. *)
Theorem parsed_names_trimmed : forall content,
  (forall d, In d (fst (parseSourceContent content)) ->
     trim (def_ref d) = def_ref d
     /\ trim (def_definition d) = def_definition d)
  /\ (forall r, In r (snd (parseSourceContent content)) ->
        trim (ref_ref r) = ref_ref r)
  /\ (forall k v, In (k, v) (JsMap.entries (parseFootnotesSimple content)) ->
        trim k = k /\ trim v = v).
Proof.
  intro content.
  assert (Hd : forall d, In d (parseDefinitions content) ->
                 trim (def_ref d) = def_ref d
                 /\ trim (def_definition d) = def_definition d).
  { intros d H. unfold parseDefinitions in H. apply in_map_iff in H.
    destruct H as ([[i len] [[g1 g2] g3]] & <- & _). simpl.
    unfold definitionText. split; apply trim_idem. }
  split; [exact Hd|]. split.
  - intros r H. simpl in H. unfold parseReferences in H.
    apply in_map_iff in H. destruct H as ([[i len] g1] & <- & _). simpl.
    apply trim_idem.
  - intros k v H. unfold JsMap.entries in H.
    rewrite parseFootnotesSimple_fold in H.
    apply In_fold_setDefinition in H as [[]|(d & Hin & E)].
    injection E as -> ->. now apply Hd.
Qed.

Lemma span_length : forall p s,
  (List.length (fst (span p s)) + List.length (snd (span p s))
   = List.length s)%nat.
Proof.
  intros p s. destruct (span_spec p s) as (E & _).
  rewrite E at 3. now rewrite length_app.
Qed.

Lemma bodyLen_le : forall s skip, (bodyLen skip s <= List.length s)%nat.
Proof.
  induction s as [|c r IH]; intro skip; simpl; [lia|].
  destruct skip as [|k].
  - destruct (isLineTerminator c).
    + destruct (c =? LF); [|lia].
      destruct (indentLen r) as [k|]; [|lia].
      specialize (IH k). lia.
    + specialize (IH O). lia.
  - specialize (IH k). lia.
Qed.

(** A match of the definition pattern takes at least one code unit and no
    more than there are. *)
Lemma defRegex_len : forall prev s len x,
  defRegex prev s = Some (len, x) -> (1 <= len <= List.length s)%nat.
Proof.
  unfold defRegex. intros prev s len x H.
  destruct (atLineStart prev); [|discriminate].
  pose proof (span_length isWhiteSpace s) as L1.
  destruct (span isWhiteSpace s) as [a r1]. simpl in L1.
  destruct r1 as [|c1 [|c2 r2]]; try discriminate.
  destruct ((c1 =? LBRACK) && (c2 =? CARET)); [|discriminate].
  pose proof (span_length notRBrack r2) as L2.
  destruct (span notRBrack r2) as [b r3]. simpl in L2.
  destruct b as [|b0 b]; [discriminate|].
  destruct r3 as [|c3 [|c4 r4]]; try discriminate.
  destruct ((c3 =? RBRACK) && (c4 =? COLON)); [|discriminate].
  pose proof (span_length isWhiteSpace r4) as L3.
  destruct (span isWhiteSpace r4) as [ws r5]. simpl in L3.
  pose proof (bodyLen_le r5 O) as L4.
  injection H as <- _. simpl in *. lia.
Qed.

Lemma refRegex_len : forall prev s len x,
  refRegex prev s = Some (len, x) -> (1 <= len <= List.length s)%nat.
Proof.
  unfold refRegex. intros prev s len x H.
  destruct s as [|c1 [|c2 r2]]; try discriminate.
  destruct ((c1 =? LBRACK) && (c2 =? CARET)); [|discriminate].
  pose proof (span_length notRBrack r2) as L2.
  destruct (span notRBrack r2) as [b r3]. simpl in L2.
  destruct b as [|b0 b]; [discriminate|].
  destruct r3 as [|c3 r4]; [discriminate|].
  destruct ((c3 =? RBRACK) && negb (startsWith r4 [COLON])); [|discriminate].
  injection H as <- _. simpl in *. lia.
Qed.

(** The matches of a search with flag g come in the order of the text, one
    after the end of the other, inside the text. *)
Lemma execAll_ordered : forall (R : Type) (m : matcher R),
  (forall prev s len x,
     m prev s = Some (len, x) -> (1 <= len <= List.length s)%nat) ->
  forall s prev skip i,
    Forall (fun r => (i + skip <= fst (fst r))%nat
                     /\ (fst (fst r) < fst (fst r) + snd (fst r))%nat
                     /\ (fst (fst r) + snd (fst r) <= i + List.length s)%nat)
           (execAll m prev skip i s)
    /\ StronglySorted
         (fun a b => (fst (fst a) + snd (fst a) <= fst (fst b))%nat)
         (execAll m prev skip i s).
Proof.
  intros R m Hm. induction s as [|c r IH]; intros prev skip i; simpl.
  - split; constructor.
  - destruct skip as [|k].
    + destruct (m prev (c :: r)) as [[len x]|] eqn:E.
      * apply Hm in E. simpl in E.
        destruct (IH (Some c) (pred len) (S i)) as [F S].
        split.
        -- constructor; [simpl; lia|].
           eapply Forall_impl; [|exact F]. intros a Ha. simpl in Ha. lia.
        -- constructor; [exact S|].
           eapply Forall_impl; [|exact F]. intros a Ha. simpl in *. lia.
      * destruct (IH (Some c) O (S i)) as [F S]. split; [|exact S].
        eapply Forall_impl; [|exact F]. intros a Ha. simpl in Ha. lia.
    + destruct (IH (Some c) k (S i)) as [F S]. split; [|exact S].
      eapply Forall_impl; [|exact F]. intros a Ha. simpl in Ha. lia.
Qed.

Lemma StronglySorted_map : forall (A B : Type) (f : A -> B)
    (P : A -> A -> Prop) (Q : B -> B -> Prop) l,
  (forall a b, P a b -> Q (f a) (f b)) ->
  StronglySorted P l -> StronglySorted Q (List.map f l).
Proof.
  intros A B f P Q l H. induction 1 as [|a l S IH F]; simpl; constructor.
  - exact IH.
  - apply Forall_map. eapply Forall_impl; [|exact F]. intros b Hb. now apply H.
Qed.

(** X3: the definitions [parseSourceContent] returns are not empty, lie
    inside the content and come in the order of the text without
    overlapping, and so do the references: each one ends before the next
    one starts. *)
Theorem parsed_positions_ordered : forall content,
  (forall d, In d (fst (parseSourceContent content)) ->
     (def_start d < def_end d <= List.length content)%nat)
  /\ StronglySorted (fun a b => (def_end a <= def_start b)%nat)
       (fst (parseSourceContent content))
  /\ (forall r, In r (snd (parseSourceContent content)) ->
        (ref_start r < ref_end r <= List.length content)%nat)
  /\ StronglySorted (fun a b => (ref_end a <= ref_start b)%nat)
       (snd (parseSourceContent content)).
Proof.
  intro content. simpl fst. simpl snd.
  destruct (execAll_ordered _ defRegex defRegex_len content None O O)
    as [Fd Sd].
  destruct (execAll_ordered _ refRegex refRegex_len content None O O)
    as [Fr Sr].
  rewrite Forall_forall in Fd, Fr.
  split; [|split; [|split]].
  - intros d H. unfold parseDefinitions in H. apply in_map_iff in H.
    destruct H as ([[i len] [[g1 g2] g3]] & <- & H). simpl.
    apply Fd in H. simpl in H. lia.
  - unfold parseDefinitions.
    eapply StronglySorted_map; [|exact Sd].
    intros [[i len] [[g1 g2] g3]] [[i' len'] [[g1' g2'] g3']] H. exact H.
  - intros r H. unfold parseReferences in H. apply in_map_iff in H.
    destruct H as ([[i len] g1] & <- & H). simpl.
    apply Fr in H. simpl in H. lia.
  - unfold parseReferences.
    eapply StronglySorted_map; [|exact Sr].
    intros [[i len] g1] [[i' len'] g1'] H. exact H.
Qed.

Lemma plain_suffix : forall a b, plain (a ++ b) -> plain b.
Proof.
  induction a as [|c a IH]; intros b H; [exact H|].
  simpl in H. apply plain_cons in H as [_ H]. now apply IH.
Qed.

Lemma plain_skip_space : forall s,
  plain s -> plain (snd (span isWhiteSpace s)).
Proof.
  intros s H. destruct (span_spec isWhiteSpace s) as (E & _).
  rewrite E in H. now apply plain_suffix in H.
Qed.

(** The definition pattern needs the two characters [[^] after the white
    space. *)
Lemma defRegex_needs_start : forall prev s,
  startsWith (snd (span isWhiteSpace s)) [LBRACK; CARET] = false ->
  defRegex prev s = None.
Proof.
  intros prev s H. unfold defRegex.
  destruct (atLineStart prev); [|reflexivity].
  destruct (span isWhiteSpace s) as [a r1]. simpl in H.
  destruct r1 as [|c1 [|c2 r2]]; try reflexivity.
  rewrite startsWith_pair_cons, startsWith_single in H. now rewrite H.
Qed.

Lemma noMatch_def_plain : forall s prev, plain s -> noMatch defRegex prev s.
Proof.
  intros s prev H a1 a2 E. subst s. apply plain_suffix in H.
  apply defRegex_needs_start. apply plain_skip_space in H.
  destruct (snd (span isWhiteSpace a2)) as [|c r]; [reflexivity|].
  now apply plain_cons in H as [H _].
Qed.

Lemma noMatch_ref_plain : forall s prev, plain s -> noMatch refRegex prev s.
Proof.
  intros s prev H. rewrite <- (app_nil_r s).
  apply (noMatch_ref_plain_app s [] None); [assumption | reflexivity|].
  apply noMatch_nil. reflexivity.
Qed.

Lemma parseDefinitions_plain : forall content,
  plain content -> parseDefinitions content = [].
Proof.
  intros content H. unfold parseDefinitions, defMatches.
  now rewrite execAll_noMatch by now apply noMatch_def_plain.
Qed.

Lemma parseFootnotesSimple_plain : forall content,
  plain content -> parseFootnotesSimple content = [].
Proof.
  intros content H.
  now rewrite parseFootnotesSimple_fold, parseDefinitions_plain.
Qed.

(** X4: a text without the two characters [[^] in a row has no footnote:
    both parsers return nothing for it. *)
Theorem plain_text_has_no_footnote : forall content,
  plain content ->
  parseSourceContent content = ([], [])
  /\ parseFootnotesSimple content = [].
Proof.
  intros content H. split.
  - unfold parseSourceContent. rewrite parseDefinitions_plain by assumption.
    f_equal. unfold parseReferences, refMatches.
    now rewrite execAll_noMatch by now apply noMatch_ref_plain.
  - now apply parseFootnotesSimple_plain.
Qed.

(** A note of plain prose. *)
Lemma plain_text_has_no_footnote_witness :
  parseSourceContent (text "To do:|- [ ] water the plants^2|") = ([], [])
  /\ parseFootnotesSimple (text "To do:|- [ ] water the plants^2|") = [].
Proof.
  apply plain_text_has_no_footnote. reflexivity.
Defined.

(** ** Definition lines read back *)

Lemma execAll_index : forall (R : Type) (m : matcher R) s prev skip i j,
  List.map snd (execAll m prev skip i s)
  = List.map snd (execAll m prev skip j s).
Proof.
  intros R m. induction s as [|c r IH]; intros prev skip i j; simpl.
  - reflexivity.
  - destruct skip as [|k]; [|apply IH].
    destruct (m prev (c :: r)) as [[len x]|]; simpl; [f_equal|]; apply IH.
Qed.

Lemma captures_skip : forall (R : Type) (m : matcher R) a b prev,
  captures m prev (List.length a) (a ++ b) = captures m (prevAfter prev a) O b.
Proof.
  intros R m. induction a as [|c a IH]; intros b prev.
  - reflexivity.
  - unfold captures. simpl. rewrite (execAll_index _ m _ _ _ 1%nat O).
    apply IH.
Qed.

Lemma captures_match : forall (R : Type) (m : matcher R) a b prev x,
  a <> [] ->
  m prev (a ++ b) = Some (List.length a, x) ->
  captures m prev O (a ++ b) = x :: captures m (prevAfter prev a) O b.
Proof.
  intros R m a b prev x Ha Hm. destruct a as [|c a]; [contradiction|].
  unfold captures. simpl app in *. cbn [execAll]. rewrite Hm. simpl.
  f_equal. rewrite (execAll_index _ m _ _ _ 1%nat O).
  apply (captures_skip R m a b (Some c)).
Qed.

Lemma captures_no_match : forall (R : Type) (m : matcher R) c r prev,
  m prev (c :: r) = None ->
  captures m prev O (c :: r) = captures m (Some c) O r.
Proof.
  intros R m c r prev H. unfold captures. simpl. rewrite H.
  apply execAll_index.
Qed.

Lemma captures_noMatch : forall (R : Type) (m : matcher R) s prev,
  noMatch m prev s -> captures m prev O s = [].
Proof.
  intros R m s prev H. unfold captures. now rewrite execAll_noMatch.
Qed.

(** [parseFootnotesSimple] from what the definition pattern captured. *)
Lemma parseFootnotesSimple_captures : forall content,
  parseFootnotesSimple content
  = fold_left
      (fun m (x : defCaptures) =>
         JsMap.set m (trim (snd (fst x))) (definitionText (snd x)))
      (captures defRegex None O content) JsMap.empty.
Proof.
  intro content. rewrite parseFootnotesSimple_fold.
  unfold parseDefinitions, captures, defMatches.
  generalize (@JsMap.empty str).
  induction (execAll defRegex None O O content)
    as [|[[i len] [[g1 g2] g3]] l IH]; intro m; simpl; [reflexivity|].
  apply IH.
Qed.

Lemma replaceAll_noMatch : forall (R : Type) (m : matcher R) f s prev,
  noMatch m prev s -> replaceAll m f prev O s = s.
Proof.
  intros R m f. induction s as [|c r IH]; intros prev H; [reflexivity|].
  apply noMatch_cons in H as [H0 H].
  rewrite replaceAll_no_match by exact H0. f_equal. now apply IH.
Qed.

(** A text on one line is its own definition text once trimmed. *)
Lemma definitionText_line : forall d,
  forallb notLineTerminator d = true -> definitionText d = trim d.
Proof.
  intros d Hd. unfold definitionText. f_equal.
  apply replaceAll_noMatch. generalize (@None char).
  induction d as [|c d IH]; intro prev.
  - apply noMatch_nil. reflexivity.
  - simpl in Hd. apply andb_true_iff in Hd as [Hc Hd].
    apply noMatch_cons. split; [|now apply IH].
    unfold indentRegex. apply notLT_notLF in Hc. unfold isLF in Hc.
    now rewrite Hc.
Qed.

Lemma bodyLen_line : forall d t,
  forallb notLineTerminator d = true -> endsBody t ->
  bodyLen O (d ++ t) = List.length d.
Proof.
  induction d as [|c d IH]; intros t Hd Ht.
  - simpl. destruct t as [|c r]; [reflexivity|].
    destruct Ht as [Hc Hr]. simpl. rewrite Hc.
    destruct (c =? LF) eqn:E; [|reflexivity].
    destruct Hr as [Hr|Hr]; [discriminate | now rewrite Hr].
  - simpl in Hd. apply andb_true_iff in Hd as [Hc Hd].
    unfold notLineTerminator in Hc. apply negb_true_iff in Hc.
    simpl. rewrite Hc. f_equal. now apply IH.
Qed.

Lemma dropWhile_length : forall p s,
  (List.length (dropWhile p s) <= List.length s)%nat.
Proof.
  induction s as [|c s IH]; simpl; [lia|].
  destruct (p c); simpl; lia.
Qed.

(** A trimmed text that is not empty starts with a character that is not
    white space. *)
Lemma trim_fixed_head : forall d,
  trim d = d -> d <> [] ->
  match d with [] => False | c :: _ => isWhiteSpace c = false end.
Proof.
  intros [|c d] H Hne; [contradiction|].
  destruct (isWhiteSpace c) eqn:E; [|reflexivity]. exfalso.
  assert (L : (List.length (trim (c :: d)) <= List.length d)%nat).
  { unfold trim, trimStart. simpl. rewrite E.
    pose proof (trimEnd_length (dropWhile isWhiteSpace d)).
    pose proof (dropWhile_length isWhiteSpace d). lia. }
  rewrite H in L. simpl in L. lia.
Qed.

(** The definition pattern on a definition line as the generators write
    it, after white space: it takes the line, and captures the name and
    the text. *)
Lemma defRegex_line : forall w r d t prev,
  atLineStart prev = true -> forallb isWhiteSpace w = true ->
  r <> [] -> forallb notRBrack r = true ->
  match d with [] => False | c :: _ => isWhiteSpace c = false end ->
  forallb notLineTerminator d = true -> endsBody t ->
  defRegex prev (w ++ renderDefinition (r, d) ++ t)
  = Some (List.length (w ++ renderDefinition (r, d)), (w, r, d)).
Proof.
  intros w r d t prev Hp Hw Hr Hrb Hd Hline Ht.
  unfold defRegex. rewrite Hp. unfold renderDefinition. simpl fst. simpl snd.
  rewrite <- !app_assoc. simpl app.
  rewrite (span_app_stop isWhiteSpace w) by (auto; reflexivity).
  cbn [N.eqb LBRACK CARET andb Pos.eqb].
  rewrite (span_app_stop notRBrack r) by (auto; reflexivity).
  destruct r as [|r0 r]; [contradiction|].
  cbn [N.eqb RBRACK COLON andb Pos.eqb].
  destruct d as [|d0 d]; [contradiction|].
  change (SP :: (d0 :: d) ++ t) with ([SP] ++ (d0 :: d) ++ t).
  rewrite (span_app_stop isWhiteSpace [SP]) by (auto; reflexivity).
  rewrite bodyLen_line by assumption.
  rewrite firstn_app, firstn_all, Nat.sub_diag. simpl firstn.
  rewrite app_nil_r. f_equal. f_equal.
  rewrite !length_app. simpl. rewrite !length_app. simpl. lia.
Qed.

(** A plain text that is not all white space and ends a line does not
    lead to a definition. *)
Lemma lead_not_start : forall x z prev,
  plain x -> forallb isWhiteSpace x = false ->
  atLineStart (prevAfter prev x) = true ->
  startsWith (snd (span isWhiteSpace (x ++ z))) [LBRACK; CARET] = false.
Proof.
  induction x as [|c x IH]; intros z prev Hx Hw Hl; [discriminate|].
  simpl app. cbn [span]. destruct (isWhiteSpace c) eqn:E.
  - simpl in Hw. rewrite E in Hw. simpl in Hw.
    apply plain_cons in Hx as [_ Hx].
    specialize (IH z (Some c) Hx Hw Hl).
    destruct (span isWhiteSpace (x ++ z)). exact IH.
  - simpl snd. rewrite startsWith_pair_cons.
    destruct x as [|c2 x].
    + simpl in Hl. apply LT_is_space in Hl. congruence.
    + apply plain_cons in Hx as [Hx _].
      rewrite startsWith_pair_cons in Hx. simpl app.
      rewrite startsWith_single in *. exact Hx.
Qed.

Lemma captures_after_lead : forall x r d t prev,
  plain x -> atLineStart (prevAfter prev x) = true ->
  r <> [] -> forallb notRBrack r = true ->
  match d with [] => False | c :: _ => isWhiteSpace c = false end ->
  forallb notLineTerminator d = true -> endsBody t ->
  exists w last,
    captures defRegex prev O (x ++ renderDefinition (r, d) ++ t)
    = (w, r, d) :: captures defRegex (Some last) O t.
Proof.
  intros x r d t prev Hx Hl Hr Hrb Hd Hline Ht. revert prev Hx Hl.
  assert (Hne : forall w, w ++ renderDefinition (r, d) <> []).
  { intros w H. apply app_eq_nil in H as [_ H]. discriminate H. }
  assert (Hhit : forall w prev,
            atLineStart prev = true -> forallb isWhiteSpace w = true ->
            exists last,
              captures defRegex prev O (w ++ renderDefinition (r, d) ++ t)
              = (w, r, d) :: captures defRegex (Some last) O t).
  { intros w prev Hp Hw.
    destruct (prevAfter_last (w ++ renderDefinition (r, d)) prev (Hne w))
      as (last & El & _).
    exists last. rewrite <- El. rewrite app_assoc.
    apply captures_match; [apply Hne|]. rewrite <- app_assoc.
    now apply defRegex_line. }
  induction x as [|c x IH]; intros prev Hx Hl.
  - destruct (Hhit [] prev Hl eq_refl) as (last & E). now exists [], last.
  - destruct (forallb isWhiteSpace (c :: x)) eqn:W.
    + destruct (atLineStart prev) eqn:P.
      * destruct (Hhit (c :: x) prev P W) as (last & E).
        now exists (c :: x), last.
      * simpl app. rewrite captures_no_match
          by (unfold defRegex; now rewrite P).
        apply plain_cons in Hx as [_ Hx]. now apply IH.
    + simpl app. rewrite captures_no_match.
      * apply plain_cons in Hx as [_ Hx]. now apply IH.
      * apply defRegex_needs_start.
        apply (lead_not_start (c :: x) _ prev); assumption.
Qed.

Lemma join_render_head : forall e l,
  exists y, join blankLine (List.map renderDefinition (e :: l)) = LBRACK :: y.
Proof.
  intros e l. destruct l; simpl; eexists; reflexivity.
Qed.

(** What the definition pattern captures in a block of definition lines
    as the generators write it, after a plain text that ends a line and
    before a plain text: the names and the texts, in order. *)
Lemma captures_definitions : forall l x t prev,
  l <> [] -> (forall e, In e l -> faithfulEntry e) ->
  plain x -> atLineStart (prevAfter prev x) = true ->
  plain t -> endsBody t ->
  List.map (fun c : defCaptures => (snd (fst c), snd c))
    (captures defRegex prev O
       (x ++ join blankLine (List.map renderDefinition l) ++ t))
  = l.
Proof.
  induction l as [|[r d] l IH]; intros x t prev Hne Hl Hx Hp Ht He;
    [contradiction|].
  destruct (Hl (r, d) (or_introl eq_refl))
    as ((Hr & _) & Hrb & _ & Hd & Hline & Htrim).
  simpl in Hr, Hrb, Hd, Hline, Htrim.
  pose proof (trim_fixed_head d Htrim Hd) as Hhead.
  destruct l as [|e2 l].
  - cbn [List.map join].
    destruct (captures_after_lead x r d t prev Hx Hp Hr Hrb Hhead Hline He)
      as (w & last & E).
    etransitivity; [exact (f_equal _ E)|]. simpl. f_equal.
    rewrite captures_noMatch by now apply noMatch_def_plain. reflexivity.
  - cbn [List.map]. rewrite join_cons2. rewrite <- !app_assoc.
    destruct (join_render_head e2 l) as (y & Ey).
    assert (He1 : endsBody (blankLine
                            ++ join blankLine
                                 (List.map renderDefinition (e2 :: l)) ++ t)).
    { rewrite Ey. simpl. split; [reflexivity|].
      right. reflexivity. }
    destruct (captures_after_lead x r d _ prev Hx Hp Hr Hrb Hhead Hline He1)
      as (w & last & E).
    etransitivity; [exact (f_equal _ E)|].
    cbn [List.map fst snd]. f_equal.
    apply (IH blankLine t (Some last)); auto.
    + discriminate.
    + intros e He'. apply Hl. now right.
    + reflexivity.
Qed.

Lemma sortInsert_Permutation : forall (A : Type) (cmp : A -> A -> Z) x l,
  Permutation (sortInsert cmp x l) (x :: l).
Proof.
  induction l as [|y l IH]; simpl; [reflexivity|].
  destruct (cmp x y <? 0)%Z; [reflexivity|].
  rewrite IH. apply perm_swap.
Qed.

Lemma sortBy_Permutation : forall (A : Type) (cmp : A -> A -> Z) l,
  Permutation (sortBy cmp l) l.
Proof.
  intros A cmp l. unfold sortBy.
  assert (H : forall acc,
            Permutation
              (fold_left (fun acc x => sortInsert cmp x acc) l acc)
              (acc ++ l)).
  { induction l as [|x l IH]; intro acc; simpl.
    - now rewrite app_nil_r.
    - rewrite IH. rewrite sortInsert_Permutation. simpl.
      apply Permutation_middle. }
  apply (H []).
Qed.

(** A content that ends with a line feed still does once collapsed. *)
Lemma collapse_ends_LF : forall s,
  exists t, collapseNewlines (s ++ [LF]) = t ++ [LF].
Proof.
  intro s. pattern s. apply str_runs_ind; clear s;
    [|intros c r Hc [t IH]|intros n r Hr [t IH]].
  - now exists [].
  - exists (c :: t). simpl app. rewrite collapse_cons_other by assumption.
    now rewrite IH.
  - destruct r as [|c r].
    + rewrite app_nil_r. exists [LF].
      replace (repeat LF (S n) ++ [LF]) with (repeat LF (S (S n)) ++ []).
      * rewrite collapse_run by exact I. destruct n; reflexivity.
      * rewrite app_nil_r. change (repeat LF (S (S n)))
          with (LF :: repeat LF (S n)). apply repeat_cons.
    + rewrite <- app_assoc. rewrite collapse_run by exact Hr. rewrite IH.
      exists (repeat LF (Nat.min (S n) 2) ++ t). now rewrite app_assoc.
Qed.

Lemma renderDefinition_line : forall e,
  faithfulEntry e -> forallb notLineTerminator (renderDefinition e) = true.
Proof.
  intros [r d] ((_ & Hr) & _ & _ & _ & Hd & _). simpl in *.
  unfold renderDefinition. simpl. rewrite forallb_app. simpl.
  rewrite Hr, Hd. reflexivity.
Qed.

(** Collapsing the line feeds leaves a block of definition lines as it
    is. *)
Lemma collapse_definitions : forall l t,
  l <> [] -> (forall e, In e l -> faithfulEntry e) ->
  collapseNewlines (join blankLine (List.map renderDefinition l) ++ t)
  = join blankLine (List.map renderDefinition l) ++ collapseNewlines t.
Proof.
  induction l as [|e l IH]; intros t Hne Hl; [contradiction|].
  pose proof (renderDefinition_line e (Hl e (or_introl eq_refl))) as He.
  destruct l as [|e2 l].
  - cbn [List.map join]. now apply collapse_app_line.
  - cbn [List.map]. rewrite join_cons2. rewrite <- !app_assoc.
    rewrite collapse_app_line by assumption. f_equal.
    destruct (join_render_head e2 l) as (y & Ey).
    change blankLine with (repeat LF 2) at 1 3.
    rewrite collapse_run.
    + simpl Nat.min. f_equal. apply IH; [discriminate|].
      intros e' He'. apply Hl. now right.
    + cbn [List.map] in Ey. rewrite Ey. reflexivity.
Qed.

(** The generated content for footnotes that their lines give back: the
    collapsed header, the definition lines in the order of the names, and
    the code block. *)
Lemma assembleCue_definitions : forall cmp header (footnotes : Footnotes),
  footnotes <> [] -> (forall e, In e footnotes -> faithfulEntry e) ->
  assembleCue cmp header footnotes
  = collapseNewlines (if truthy header then header ++ blankLine else [])
    ++ join blankLine
         (List.map renderDefinition
            (sortBy (fun a b => cmp (fst a) (fst b)) footnotes))
    ++ trimEnd codeBlockSection ++ [LF].
Proof.
  intros cmp E A Hne Hl. unfold assembleCue, definitionsText, JsMap.entries.
  set (FH := if truthy E then E ++ blankLine else []).
  set (L := sortBy (fun a b => cmp (fst a) (fst b)) A).
  assert (Hsize : JsMap.size A = S (pred (List.length A)))
    by (destruct A; [contradiction | reflexivity]).
  rewrite Hsize. cbv iota.
  assert (HL : forall e, In e L -> faithfulEntry e).
  { intros e He. apply Hl. unfold L in He. now apply sortBy_In in He. }
  assert (HLne : L <> []).
  { destruct A as [|a A]; [contradiction|]. intro H.
    assert (Ha : In a L) by (unfold L; apply sortBy_In; now left).
    rewrite H in Ha. destruct Ha. }
  destruct L as [|e l] eqn:EL; [contradiction|].
  destruct (join_render_head e l) as (y & Ey).
  set (DT := join blankLine (List.map renderDefinition (e :: l))) in *.
  assert (Ht : trimEnd (DT ++ codeBlockSection)
               = DT ++ trimEnd codeBlockSection)
    by (apply trimEnd_app_keep; discriminate).
  rewrite (trimEnd_app_keep FH).
  2:{ rewrite Ht, Ey. discriminate. }
  rewrite Ht. rewrite <- !app_assoc.
  pose proof (collapse_definitions (e :: l) (trimEnd codeBlockSection ++ [LF])
                HLne HL) as Hc.
  fold DT in Hc. rewrite Ey in *. simpl app in *.
  rewrite collapse_app_other by reflexivity.
  rewrite collapse_cons_other in Hc by reflexivity.
  rewrite Hc. reflexivity.
Qed.

(** The footnotes parsed from the generated content, for footnotes that
    their lines give back after a header without [[^]. *)
Lemma generateCueContent_parses :
  forall localeCompare settings currentContent sourceNoteFile
         (footnotes : Footnotes),
    plain (extractedHeader (linkToSource settings sourceNoteFile)
             currentContent) ->
    NoDup (JsMap.keys footnotes) ->
    (forall e, In e footnotes -> faithfulEntry e) ->
    parseFootnotesSimple
      (generateCueContent localeCompare settings currentContent
         sourceNoteFile footnotes)
    = sortBy (fun a b => localeCompare (fst a) (fst b))
             (JsMap.entries footnotes).
Proof.
  intros cmp settings s f A HE Hnd Hl.
  rewrite generateCueContent_assemble.
  set (E := extractedHeader (linkToSource settings f) s) in *.
  unfold JsMap.entries.
  destruct A as [|a0 A0] eqn:EA.
  - (* no footnote: the content is plain *)
    apply parseFootnotesSimple_plain. unfold assembleCue. simpl.
    rewrite !app_nil_r. apply plain_collapse.
    apply plain_app; [|reflexivity|reflexivity].
    apply plain_trimEnd.
    destruct (truthy E); [|reflexivity].
    apply plain_app; [assumption|reflexivity|reflexivity].
  - rewrite <- EA in *.
    assert (Hne : A <> []) by (rewrite EA; discriminate).
    rewrite assembleCue_definitions by assumption.
    set (L := sortBy (fun a b => cmp (fst a) (fst b)) A).
    assert (HL : forall e, In e L -> faithfulEntry e).
    { intros e He. apply Hl. unfold L in He. now apply sortBy_In in He. }
    assert (HLne : L <> []).
    { intro H.
      assert (Ha : In a0 L) by (unfold L; apply sortBy_In; rewrite EA; now left).
      rewrite H in Ha. destruct Ha. }
    assert (HLnd : NoDup (JsMap.keys L)).
    { unfold JsMap.keys.
      apply (Permutation_NoDup (l := List.map fst A)); [|exact Hnd].
      apply Permutation_map. symmetry. apply sortBy_Permutation. }
    set (X := collapseNewlines (if truthy E then E ++ blankLine else [])).
    assert (HX : plain X).
    { apply plain_collapse. destruct (truthy E); [|reflexivity].
      apply plain_app; [assumption|reflexivity|reflexivity]. }
    assert (HXl : atLineStart (prevAfter None X) = true).
    { unfold X. destruct (truthy E); [|reflexivity].
      change blankLine with ([LF] ++ [LF]). rewrite app_assoc.
      destruct (collapse_ends_LF (E ++ [LF])) as (t & Et).
      rewrite Et, prevAfter_app. reflexivity. }
    pose proof (captures_definitions L X (trimEnd codeBlockSection ++ [LF])
                  None HLne HL HX HXl eq_refl
                  (conj eq_refl (or_intror eq_refl))) as Hcap.
    rewrite parseFootnotesSimple_captures.
    set (caps := captures defRegex None O _) in *.
    assert (Hfold : forall (cs : list defCaptures) m,
              (forall e, In e (List.map (fun c : defCaptures =>
                                           (snd (fst c), snd c)) cs) ->
                         faithfulEntry e) ->
              fold_left
                (fun m (x : defCaptures) =>
                   JsMap.set m (trim (snd (fst x))) (definitionText (snd x)))
                cs m
              = fold_left (fun m e => JsMap.set m (fst e) (snd e))
                  (List.map (fun c : defCaptures => (snd (fst c), snd c)) cs)
                  m).
    { induction cs as [|[[g1 g2] g3] cs IH]; intros m Hcs; [reflexivity|].
      simpl. destruct (Hcs (g2, g3) (or_introl eq_refl))
        as (_ & _ & H2 & _ & H3 & H4).
      simpl in H2, H3, H4.
      rewrite definitionText_line by assumption. rewrite H2, H4.
      apply IH. intros e He. apply Hcs. now right. }
    rewrite Hfold by (rewrite Hcap; exact HL).
    rewrite Hcap. apply (JsMap_copy str L []). exact HLnd.
Qed.

(** X5: what [generateCueContent] writes, [parseFootnotesSimple] reads
    back.  When the header has no [[^], the names are distinct, and every
    footnote has a good, trimmed name without a closing bracket and a
    trimmed text on one line that is not empty, the footnotes parsed from
    the generated content are the footnotes given, in the order of their
    names. *)
Theorem cue_content_parses_back :
  forall localeCompare settings currentContent sourceNoteFile
         (footnotes : Footnotes),
    plain (extractedHeader (linkToSource settings sourceNoteFile)
             currentContent) ->
    NoDup (JsMap.keys footnotes) ->
    (forall e, In e footnotes -> faithfulEntry e) ->
    parseFootnotesSimple
      (generateCueContent localeCompare settings currentContent
         sourceNoteFile footnotes)
    = sortBy (fun a b => localeCompare (fst a) (fst b))
             (JsMap.entries footnotes).
Proof.
  intros cmp settings s f A HE Hnd Hl.
  now apply generateCueContent_parses.
Qed.

(** A footnote numbered 2 and one numbered 10, after a header. *)
Lemma cue_content_parses_back_witness :
  parseFootnotesSimple
    (generateCueContent codeUnitCompare DEFAULT_SETTINGS
       (text "My cues|||[^old]: gone") sampleSource
       [(lit "2", lit "two"); (lit "10", lit "ten")])
  = sortBy (fun a b => codeUnitCompare (fst a) (fst b))
           (JsMap.entries [(lit "2", lit "two"); (lit "10", lit "ten")]).
Proof.
  apply cue_content_parses_back.
  - reflexivity.
  - repeat constructor; simpl; intuition discriminate.
  - intros e [<-|[<-|[]]]; repeat split; try reflexivity; discriminate.
Defined.

(** ** What a pass keeps *)

Lemma keeps_ret : forall (A : Type) (I : World -> Prop) (a : A)
    (Q : A -> Prop),
  Q a -> keeps I (ret a) Q.
Proof. intros A I a Q H w Hw. now split. Qed.

Lemma keeps_bind : forall (A B : Type) (I : World -> Prop) (t : Task A)
    (k : A -> Task B) (P : A -> Prop) (Q : B -> Prop),
  keeps I t P -> (forall a, P a -> keeps I (k a) Q) -> keeps I (bind t k) Q.
Proof.
  intros A B I t k P Q Ht Hk w Hw. unfold bind.
  destruct (Ht w Hw) as [H1 H2]. destruct (t w) as [[a|e] w1]; simpl in *.
  - now apply Hk.
  - now split.
Qed.

Lemma keeps_weaken : forall (A : Type) (I : World -> Prop) (t : Task A)
    (P Q : A -> Prop),
  keeps I t P -> (forall a, P a -> Q a) -> keeps I t Q.
Proof.
  intros A I t P Q Ht H w Hw. destruct (Ht w Hw) as [H1 H2].
  split; [exact H1|]. destruct (fst (t w)); auto.
Qed.

Lemma keeps_perform : forall (I : World -> Prop) (f : World -> World),
  (forall w, I w -> I (f w)) -> keeps I (perform f) (fun _ => True).
Proof. intros I f H w Hw. split; [now apply H | exact Logic.I]. Qed.

Lemma keeps_look : forall (A : Type) (I : World -> Prop) (f : World -> A)
    (Q : A -> Prop),
  (forall w, I w -> Q (f w)) -> keeps I (look f) Q.
Proof. intros A I f Q H w Hw. split; [exact Hw | now apply H]. Qed.

Lemma keeps_tryCatch : forall (A : Type) (I : World -> Prop)
    (body : Task A) (handler : Error -> Task A) (Q : A -> Prop),
  keeps I body Q -> (forall e, keeps I (handler e) Q) ->
  keeps I (tryCatch body handler) Q.
Proof.
  intros A I body handler Q Hb Hh w Hw. unfold tryCatch.
  destruct (Hb w Hw) as [H1 H2]. destruct (body w) as [[a|e] w1]; simpl in *.
  - now split.
  - now apply Hh.
Qed.

Lemma keeps_tryCatchFinally : forall (A : Type) (I : World -> Prop)
    (body : Task A) (handler : Error -> Task A) (finalizer : Task unit)
    (Q : A -> Prop),
  keeps I body Q -> (forall e, keeps I (handler e) Q) ->
  keeps I finalizer (fun _ => True) ->
  keeps I (tryCatchFinally body handler finalizer) Q.
Proof.
  intros A I body handler finalizer Q Hb Hh Hf w Hw. unfold tryCatchFinally.
  assert (H : forall c w1,
            I w1 -> match c with Normal a => Q a | Throw _ => True end ->
            I (snd (let '(c0, w2) := (c, w1) in
                    match finalizer w2 with
                    | (Normal _, w3) => (c0, w3)
                    | (Throw e, w3) => (Throw e, w3)
                    end))
            /\ match fst (let '(c0, w2) := (c, w1) in
                          match finalizer w2 with
                          | (Normal _, w3) => (c0, w3)
                          | (Throw e, w3) => (Throw e, w3)
                          end) with
               | Normal a => Q a
               | Throw _ => True
               end).
  { intros c w1 H1 H2. destruct (Hf w1 H1) as [H3 _].
    destruct (finalizer w1) as [[u|e] w3]; simpl in *; now split. }
  destruct (Hb w Hw) as [H1 H2]. destruct (body w) as [[a|e] w1]; simpl in *.
  - now apply (H (Normal a)).
  - destruct (Hh e w1 H1) as [H3 H4].
    destruct (handler e w1) as [c w2]. simpl in *. now apply H.
Qed.

Section Keeping.

Variable rejects : nat -> bool.
Variable interleaved : nat -> World -> World.
Variable I : World -> Prop.

(** What the others do keeps [I], and [I] does not look at the count of
    the awaited calls. *)
Hypothesis I_interleaved : forall k w, I w -> I (interleaved k w).
Hypothesis I_nextAwait : forall w, I w -> I (nextAwait w).

Lemma keeps_awaitHost : forall (A : Type) (call : Task A) (Q : A -> Prop),
  keeps I call Q -> keeps I (awaitHost rejects interleaved call) Q.
Proof.
  intros A call Q Hc w Hw. unfold awaitHost.
  set (w1 := interleaved (2 * awaits w) (nextAwait w)).
  assert (H1 : I w1) by (apply I_interleaved; now apply I_nextAwait).
  destruct (rejects (awaits w)).
  - split; [now apply I_interleaved | exact Logic.I].
  - destruct (Hc w1 H1) as [H2 H3]. destruct (call w1) as [c w2].
    simpl in *. split; [now apply I_interleaved | exact H3].
Qed.

Lemma keeps_sleep : keeps I (sleep interleaved) (fun _ => True).
Proof.
  intros w Hw. unfold sleep. simpl. split; [|exact Logic.I].
  apply I_interleaved, I_interleaved. now apply I_nextAwait.
Qed.

End Keeping.

(** ** Invariants of the two passes

    [I] is a property of the world, [G k info] says that [info] may be
    filed under [k] in the map of note infos, and [W file] that [file] may
    be written.  When every step of the plugin keeps [I] under these
    conditions, so do the two passes, whatever the host's calls do. *)

Section PassKeeps.

Variable localeCompare : str -> str -> Z.
Variable normalizePath : str -> str.
Variable settings : CornellFootnoteSettings.
Variable rejects : nat -> bool.
Variable interleaved : nat -> World -> World.
Variable I : World -> Prop.
Variable G : str -> CornellNoteInfo -> Prop.
Variable W : TFile -> Prop.

Hypothesis I_interleaved : forall k w, I w -> I (interleaved k w).
Hypothesis I_nextAwait : forall w, I w -> I (nextAwait w).
Hypothesis I_setSyncing : forall b w, I w -> I (setSyncing b w).
Hypothesis I_notice :
  forall kind name w, I w -> I (addEvent (Notice kind name) w).
Hypothesis I_saved :
  forall w, I w -> I (addEvent DataSaved (setSaved (noteInfoMap w) w)).
Hypothesis I_setInfo :
  forall k info w,
    I w -> G k info -> I (setNoteInfoMap (JsMap.set (noteInfoMap w) k info) w).
Hypothesis I_modify :
  forall file data w,
    W file -> I w ->
    I (addEvent (Modified (file_path file) data)
         (setVault (writeFile (vault w) (file_path file) data) w)).
Hypothesis G_get :
  forall w k info, I w -> JsMap.get (noteInfoMap w) k = Some info -> G k info.
Hypothesis G_new :
  forall k c s,
    G k {| sourcePath := k; cuePath := c; summaryPath := s;
           lastSyncSourceToCue := None; lastSyncCueToSource := None |}.
Hypothesis G_cue : forall k p info, G k info -> G k (withCuePath p info).
Hypothesis G_summary :
  forall k p info, G k info -> G k (withSummaryPath p info).
Hypothesis G_forward :
  forall k t info, G k info -> G k (withLastSyncSourceToCue t info).
Hypothesis G_backward :
  forall k t info, G k info -> G k (withLastSyncCueToSource t info).

Let any {A : Type} : A -> Prop := fun _ => True.

Lemma keeps_cachedRead : forall file,
  keeps I (cachedRead rejects interleaved file) any.
Proof.
  intro file. apply keeps_awaitHost; auto. intros w Hw.
  destruct (getAbstractFileByPath (vault w) (file_path file)) as [[f d|p]|];
    now split.
Qed.

Lemma keeps_modify : forall file data,
  W file -> keeps I (modify rejects interleaved file data) any.
Proof.
  intros file data Hf. apply keeps_awaitHost; auto. intros w Hw.
  destruct (getAbstractFileByPath (vault w) (file_path file)) as [[f d|p]|];
    split; simpl; auto; exact Logic.I.
Qed.

Lemma keeps_saveData : keeps I (saveData rejects interleaved) any.
Proof.
  apply keeps_awaitHost; auto. intros w Hw. split; simpl; [auto | exact Logic.I].
Qed.

Lemma keeps_notice : forall kind name, keeps I (notice kind name) any.
Proof. intros kind name. apply keeps_perform. auto. Qed.

Lemma keeps_getOrCreateNoteInfo : forall sourceNoteFile,
  keeps I (getOrCreateNoteInfo normalizePath sourceNoteFile)
        (G (file_path sourceNoteFile)).
Proof.
  intros src w Hw. unfold getOrCreateNoteInfo.
  destruct (JsMap.get (noteInfoMap w) (file_path src)) as [info|] eqn:E;
    simpl.
  - split; [exact Hw | eapply G_get; eauto].
  - split; [apply I_setInfo; auto | apply G_new].
Qed.

Lemma keeps_recordSync :
  forall sourceNoteFile cuePathNow mapNeedsSave stamp,
    (forall k t info, G k info -> G k (stamp t info)) ->
    keeps I (recordSync normalizePath rejects interleaved sourceNoteFile
               cuePathNow mapNeedsSave stamp) any.
Proof.
  intros src cuePathNow b stamp Hstamp. unfold recordSync.
  eapply keeps_bind; [apply keeps_getOrCreateNoteInfo|]. intros info Hinfo.
  eapply keeps_bind; [apply (keeps_look _ _ _ any); now intros|].
  intros t _.
  destruct (negb (option_str_eqb (cuePath info) cuePathNow) || b).
  - eapply keeps_bind; [|intros; apply keeps_saveData].
    apply keeps_perform. intros w Hw. apply I_setInfo; [exact Hw|].
    destruct b; [apply Hstamp|];
      destruct (negb (option_str_eqb (cuePath info) cuePathNow)); auto.
  - now apply keeps_ret.
Qed.

Lemma keeps_updateCueNoteContent : forall cueNoteFile sourceNoteFile footnotes,
  W cueNoteFile ->
  keeps I (updateCueNoteContent localeCompare settings rejects interleaved
             cueNoteFile sourceNoteFile footnotes) any.
Proof.
  intros cue src A Hcue. unfold updateCueNoteContent.
  apply keeps_tryCatch; [|intro e; now apply keeps_ret].
  eapply keeps_bind; [apply keeps_cachedRead|]. intros current _.
  destruct (str_eqb current _); [now apply keeps_ret|].
  eapply keeps_bind; [now apply keeps_modify|]. intros. now apply keeps_ret.
Qed.

Lemma keeps_syncSourceToCue : forall sourceNoteFile,
  (forall w f,
     fileAt w (getCueNotePath normalizePath sourceNoteFile) = Some f -> W f) ->
  keeps I (syncSourceToCue localeCompare normalizePath settings rejects
             interleaved sourceNoteFile) any.
Proof.
  intros src Hcue w Hw. unfold syncSourceToCue.
  destruct (isSyncing w); [now split|].
  destruct (isCueNote normalizePath (file_path src)
            || isSummaryNote normalizePath (file_path src)); [now split|].
  revert w Hw. change (keeps I
    (perform (setSyncing true) ;;;
     tryCatchFinally
       (sourceContent <- cachedRead rejects interleaved src ;;
        cueFile <- look (fun w => fileAt w (getCueNotePath normalizePath src)) ;;
        match cueFile with
        | Some cueFileInstance =>
            currentCueContent <- cachedRead rejects interleaved cueFileInstance ;;
            updated <- updateCueNoteContent localeCompare settings rejects
                         interleaved cueFileInstance src
                         (finalCueFootnotes settings sourceContent) ;;
            recordSync normalizePath rejects interleaved src
              (file_path cueFileInstance) updated withLastSyncSourceToCue
        | None =>
            notice CueNoteNotFound (file_basename src) ;;;
            info <- getOrCreateNoteInfo normalizePath src ;;
            (match cuePath info with
             | Some _ =>
                 perform (fun w => setNoteInfoMap
                                     (JsMap.set (noteInfoMap w) (file_path src)
                                        (withCuePath None info)) w) ;;;
                 saveData rejects interleaved
             | None => ret tt
             end) ;;;
            perform (setSyncing false) ;;;
            sleep interleaved
        end)
       (fun _ => notice ErrorDuringSourceToCue (file_basename src))
       (sleep interleaved ;;; perform (setSyncing false))) any).
  eapply keeps_bind; [apply keeps_perform; auto|]. intros _ _.
  apply keeps_tryCatchFinally.
  - eapply keeps_bind; [apply keeps_cachedRead|]. intros sourceContent _.
    eapply keeps_bind
      with (P := fun cf => forall f, cf = Some f -> W f).
    { apply keeps_look. intros w Hw f Hf. eapply Hcue; eauto. }
    intros [cueFileInstance|] Hcf.
    + eapply keeps_bind; [apply keeps_cachedRead|]. intros _ _.
      eapply keeps_bind; [apply keeps_updateCueNoteContent; now apply Hcf|].
      intros updated _. apply keeps_recordSync. exact G_forward.
    + eapply keeps_bind; [apply keeps_notice|]. intros _ _.
      eapply keeps_bind; [apply keeps_getOrCreateNoteInfo|]. intros info Hinfo.
      eapply keeps_bind with (P := any).
      { destruct (cuePath info).
        - eapply keeps_bind; [|intros; apply keeps_saveData].
          apply keeps_perform. intros w Hw. apply I_setInfo; auto.
        - now apply keeps_ret. }
      intros _ _. eapply keeps_bind; [apply keeps_perform; auto|].
      intros _ _. apply keeps_sleep; auto.
  - intro e. apply keeps_notice.
  - eapply keeps_bind; [apply keeps_sleep; auto|]. intros _ _.
    apply keeps_perform. auto.
Qed.

Lemma keeps_saveDataDetached : keeps I (saveDataDetached rejects) any.
Proof.
  intros w Hw. unfold saveDataDetached. destruct (rejects (awaits w)); simpl.
  - split; [now apply I_nextAwait | exact Logic.I].
  - split; [|exact Logic.I]. apply (I_saved (nextAwait w)).
    now apply I_nextAwait.
Qed.

Lemma keeps_getSourceNoteFileFromDerived : forall derivedPath,
  keeps I (getSourceNoteFileFromDerived normalizePath rejects derivedPath) any.
Proof.
  intros derivedPath w Hw. unfold getSourceNoteFileFromDerived.
  destruct (sourceFromNoteInfo w _ _); [now split|].
  destruct (guessSourceBasename normalizePath _) as [sourceBasename|];
    [|now split].
  destruct (negb (truthy sourceBasename)); [now split|].
  destruct (probePaths w sourceBasename _) as [file|]; [|now split].
  set (info0 := match JsMap.get (noteInfoMap w) (file_path file) with
                | Some info => info
                | None => _
                end).
  assert (H0 : G (file_path file) info0).
  { unfold info0.
    destruct (JsMap.get (noteInfoMap w) (file_path file)) eqn:E;
      [eapply G_get; eauto | apply G_new]. }
  refine (keeps_bind _ _ I _ _ any any _ _ w Hw).
  - apply keeps_perform. intros w1 Hw1. apply I_setInfo; [exact Hw1|].
    destruct (isSummaryNote normalizePath _);
      destruct (isCueNote normalizePath _); auto.
  - intros _ _. eapply keeps_bind; [apply keeps_saveDataDetached|].
    intros _ _. now apply keeps_ret.
Qed.

Lemma keeps_syncCueToSource : forall cueNoteFile,
  (forall f, W f) ->
  keeps I (syncCueToSource localeCompare normalizePath settings rejects
             interleaved cueNoteFile) any.
Proof.
  intros cue HW w Hw. unfold syncCueToSource.
  destruct (isSyncing w); [now split|].
  destruct (negb (isCueNote normalizePath (file_path cue))); [now split|].
  refine (keeps_bind _ _ I _ _ any any _ _ w Hw);
    [apply keeps_perform; auto|]. intros _ _.
  apply keeps_tryCatchFinally.
  - eapply keeps_bind; [apply keeps_cachedRead|]. intros cueContent _.
    eapply keeps_bind; [apply keeps_getSourceNoteFileFromDerived|].
    intros [sourceNoteFile|] _.
    + eapply keeps_bind; [apply keeps_cachedRead|]. intros sourceContent _.
      eapply keeps_bind with (P := any).
      { destruct (str_eqb _ sourceContent); [now apply keeps_ret|].
        eapply keeps_bind; [apply keeps_modify; apply HW|].
        intros. now apply keeps_ret. }
      intros mapNeedsSave _. apply keeps_recordSync. exact G_backward.
    + eapply keeps_bind; [apply keeps_notice|]. intros _ _.
      apply keeps_perform. auto.
  - intro e. apply keeps_notice.
  - eapply keeps_bind; [apply keeps_sleep; auto|]. intros _ _.
    apply keeps_perform. auto.
Qed.

End PassKeeps.

Lemma JsMap_get_In : forall (V : Type) (m : JsMap.t V) k v,
  JsMap.get m k = Some v -> In (k, v) m.
Proof.
  induction m as [|[k0 v0] m IH]; intros k v H; simpl in H; [discriminate|].
  destruct (str_eqb k0 k) eqn:E.
  - apply str_eqb_eq in E. injection H as ->. subst k0. now left.
  - right. now apply IH.
Qed.

Lemma wellKeyed_set : forall m k info,
  wellKeyed m -> sourcePath info = k -> wellKeyed (JsMap.set m k info).
Proof.
  intros m k info Hm Hk k' info' H.
  apply In_JsMap_set in H as [H|H]; [now apply Hm|].
  injection H as -> ->. exact Hk.
Qed.

(** X6: both passes keep the map of note infos well keyed: when every
    entry is filed under the path of its Source before a pass, and the
    other tasks keep it so, every entry is after the pass, whatever the
    host's calls do. *)
Theorem noteInfoMap_stays_well_keyed :
  forall localeCompare normalizePath settings rejects interleaved,
    (forall k w, wellKeyed (noteInfoMap w) ->
                 wellKeyed (noteInfoMap (interleaved k w))) ->
    forall file w,
      wellKeyed (noteInfoMap w) ->
      wellKeyed
        (noteInfoMap
           (snd (syncSourceToCue localeCompare normalizePath settings rejects
                   interleaved file w)))
      /\ wellKeyed
           (noteInfoMap
              (snd (syncCueToSource localeCompare normalizePath settings
                      rejects interleaved file w))).
Proof.
  intros cmp np settings rejects interleaved Hint file w Hw.
  set (I := fun w => wellKeyed (noteInfoMap w)).
  set (G := fun (k : str) (info : CornellNoteInfo) => sourcePath info = k).
  set (W := fun _ : TFile => True).
  assert (Hset : forall k info w, I w -> G k info ->
                   I (setNoteInfoMap (JsMap.set (noteInfoMap w) k info) w)).
  { intros k info w0 H0 Hg. now apply wellKeyed_set. }
  assert (Hget : forall w k info,
                   I w -> JsMap.get (noteInfoMap w) k = Some info -> G k info).
  { intros w0 k info H0 E. apply (H0 k info). now apply JsMap_get_In. }
  assert (K1 : keeps I (syncSourceToCue cmp np settings rejects interleaved
                          file) (fun _ => True)).
  { apply (keeps_syncSourceToCue cmp np settings rejects interleaved I G W);
      auto; try (intros; exact Logic.I);
      intros; unfold I, G in *; simpl in *; auto. }
  assert (K2 : keeps I (syncCueToSource cmp np settings rejects interleaved
                          file) (fun _ => True)).
  { apply (keeps_syncCueToSource cmp np settings rejects interleaved I G W);
      auto; try (intros; exact Logic.I);
      intros; unfold I, G in *; simpl in *; auto. }
  split; [exact (proj1 (K1 w Hw)) | exact (proj1 (K2 w Hw))].
Qed.

(** A first pass each way on an empty map. *)
Lemma noteInfoMap_stays_well_keyed_witness :
  wellKeyed
    (noteInfoMap
       (snd (syncSourceToCue codeUnitCompare sampleNormalizePath
               DEFAULT_SETTINGS (fun _ => false) (fun _ w => w) sampleSource
               (sampleWorld (text "Text[^1]||[^1]: one|") (lit "")))))
  /\ wellKeyed
       (noteInfoMap
          (snd (syncCueToSource codeUnitCompare sampleNormalizePath
                  DEFAULT_SETTINGS (fun _ => false) (fun _ w => w) sampleSource
                  (sampleWorld (text "Text[^1]||[^1]: one|") (lit ""))))).
Proof.
  apply noteInfoMap_stays_well_keyed.
  - intros k w H. exact H.
  - intros k info [].
Defined.

Lemma fileAt_path : forall w path f, fileAt w path = Some f -> file_path f = path.
Proof.
  intros w path f H. unfold fileAt in H.
  destruct (getAbstractFileByPath (vault w) path) as [[f0 d|p]|] eqn:E;
    try discriminate.
  injection H as ->. apply getAbstractFileByPath_path in E. exact E.
Qed.

Lemma wroteOnly_refl : forall path w, wroteOnly path w w.
Proof. intros path w. split; intros; auto. Qed.

Lemma wroteOnly_event : forall path w0 w e,
  (forall p data, e <> Modified p data) ->
  wroteOnly path w0 w -> wroteOnly path w0 (addEvent e w).
Proof.
  intros path w0 w e He [Hv Hm]. split; [exact Hv|].
  intros p data H. simpl in H. apply in_app_or in H as [H|[H|[]]].
  - now apply Hm.
  - exfalso. now apply (He p data).
Qed.

(** X7: a forward pass writes no file but the Cue note: whatever the
    host's calls do, as long as the other tasks write no other file, after
    [syncSourceToCue] every path but the Cue's leads to what it led to
    (the Source is as it was), and every write recorded since is a write
    of the Cue. *)
Theorem forward_sync_writes_only_the_cue :
  forall localeCompare normalizePath settings rejects interleaved
         sourceNoteFile w0,
    (forall k w,
       wroteOnly (getCueNotePath normalizePath sourceNoteFile) w0 w ->
       wroteOnly (getCueNotePath normalizePath sourceNoteFile) w0
         (interleaved k w)) ->
    wroteOnly (getCueNotePath normalizePath sourceNoteFile) w0
      (snd (syncSourceToCue localeCompare normalizePath settings rejects
              interleaved sourceNoteFile w0)).
Proof.
  intros cmp np settings rejects interleaved src w0 Hint.
  set (p := getCueNotePath np src) in *.
  set (G := fun (_ : str) (_ : CornellNoteInfo) => True).
  set (W := fun f : TFile => file_path f = p).
  enough (K : keeps (wroteOnly p w0)
                 (syncSourceToCue cmp np settings rejects interleaved src)
                 (fun _ => True))
    by exact (proj1 (K w0 (wroteOnly_refl p w0))).
  apply (keeps_syncSourceToCue cmp np settings rejects interleaved
           (wroteOnly p w0) G W);
    try (intros; exact Logic.I); try (intros; assumption).
  - exact Hint.
  - intros kind name w H. apply wroteOnly_event; [discriminate | exact H].
  - intros w [Hv Hm]. apply wroteOnly_event; [discriminate|]. now split.
  - intros file data w Hf [Hv Hm]. unfold W in Hf. rewrite Hf. split.
    + intros q Hq. simpl. rewrite getAbstractFileByPath_write_other by exact Hq.
      now apply Hv.
    + intros q d H. simpl in H. apply in_app_or in H as [H|[H|[]]].
      * now apply Hm.
      * injection H as -> _. now right.
  - intros w f H. unfold W. now apply fileAt_path in H.
Qed.

(** A first pass on the sample vault. *)
Lemma forward_sync_writes_only_the_cue_witness :
  wroteOnly (getCueNotePath sampleNormalizePath sampleSource)
    (sampleWorld (text "Text[^1]||[^1]: one|") (lit ""))
    (snd (syncSourceToCue codeUnitCompare sampleNormalizePath DEFAULT_SETTINGS
            (fun _ => false) (fun _ w => w) sampleSource
            (sampleWorld (text "Text[^1]||[^1]: one|") (lit "")))).
Proof.
  apply forward_sync_writes_only_the_cue. intros k w H. exact H.
Defined.

Lemma writeFile_paths : forall v path data,
  List.map abstractPath (writeFile v path data) = List.map abstractPath v.
Proof.
  induction v as [|a v IH]; intros path data; simpl; [reflexivity|].
  destruct (str_eqb (abstractPath a) path).
  - destruct a; reflexivity.
  - simpl. now rewrite IH.
Qed.

(** X8: a pass creates, deletes and renames nothing: whatever the host's
    calls do, as long as the other tasks leave the paths of the vault as
    they are, the vault has the same paths, in the same order, after
    [syncSourceToCue] and after [syncCueToSource]; in particular a forward
    pass does not create a missing Cue note. *)
Theorem passes_keep_the_paths :
  forall localeCompare normalizePath settings rejects interleaved,
    (forall k w, List.map abstractPath (vault (interleaved k w))
                 = List.map abstractPath (vault w)) ->
    forall file w,
      List.map abstractPath
        (vault (snd (syncSourceToCue localeCompare normalizePath settings
                       rejects interleaved file w)))
      = List.map abstractPath (vault w)
      /\ List.map abstractPath
           (vault (snd (syncCueToSource localeCompare normalizePath settings
                          rejects interleaved file w)))
         = List.map abstractPath (vault w).
Proof.
  intros cmp np settings rejects interleaved Hint file w0.
  set (I := fun w => List.map abstractPath (vault w)
                     = List.map abstractPath (vault w0)).
  set (G := fun (_ : str) (_ : CornellNoteInfo) => True).
  set (W := fun _ : TFile => True).
  assert (Hi : forall k w, I w -> I (interleaved k w)).
  { intros k w H. unfold I. now rewrite Hint. }
  assert (Hm : forall file data w, W file -> I w ->
                 I (addEvent (Modified (file_path file) data)
                      (setVault (writeFile (vault w) (file_path file) data) w))).
  { intros f data w _ H. unfold I. simpl. now rewrite writeFile_paths. }
  assert (K1 : keeps I (syncSourceToCue cmp np settings rejects interleaved
                          file) (fun _ => True)).
  { apply (keeps_syncSourceToCue cmp np settings rejects interleaved I G W);
      auto; try (intros; exact Logic.I);
      intros; unfold I, G in *; simpl in *; auto. }
  assert (K2 : keeps I (syncCueToSource cmp np settings rejects interleaved
                          file) (fun _ => True)).
  { apply (keeps_syncCueToSource cmp np settings rejects interleaved I G W);
      auto; try (intros; exact Logic.I);
      intros; unfold I, G in *; simpl in *; auto. }
  split; [exact (proj1 (K1 w0 eq_refl)) | exact (proj1 (K2 w0 eq_refl))].
Qed.

(** A vault where the Source has no Cue note. *)
Lemma passes_keep_the_paths_witness :
  List.map abstractPath
    (vault (snd (syncSourceToCue codeUnitCompare sampleNormalizePath
                   DEFAULT_SETTINGS (fun _ => false) (fun _ w => w)
                   sampleSource
                   (setVault [AFile sampleSource (lit "[^1]: one")]
                      (sampleWorld (lit "") (lit ""))))))
  = List.map abstractPath
      (vault (setVault [AFile sampleSource (lit "[^1]: one")]
                (sampleWorld (lit "") (lit ""))))
  /\ List.map abstractPath
       (vault (snd (syncCueToSource codeUnitCompare sampleNormalizePath
                      DEFAULT_SETTINGS (fun _ => false) (fun _ w => w)
                      sampleSource
                      (setVault [AFile sampleSource (lit "[^1]: one")]
                         (sampleWorld (lit "") (lit ""))))))
     = List.map abstractPath
         (vault (setVault [AFile sampleSource (lit "[^1]: one")]
                   (sampleWorld (lit "") (lit "")))).
Proof.
  apply passes_keep_the_paths. intros k w. reflexivity.
Defined.

(** ** The backward pass *)

Lemma fileAt_vault : forall w w' path,
  vault w' = vault w -> fileAt w' path = fileAt w path.
Proof. intros w w' path H. unfold fileAt. now rewrite H. Qed.

Lemma sourceFromNoteInfo_vault : forall w w' path infos,
  vault w' = vault w ->
  sourceFromNoteInfo w' path infos = sourceFromNoteInfo w path infos.
Proof.
  intros w w' path infos H. induction infos as [|info rest IH]; simpl.
  - reflexivity.
  - rewrite IH, (fileAt_vault w w') by exact H. reflexivity.
Qed.

(** A backward pass with a host that rejects nothing and nothing else
    running, for a Cue note whose Source the map of note infos gives. *)
Lemma backward_pass :
  forall localeCompare normalizePath settings rejects interleaved
         cueNoteFile cf sourceNoteFile cueContent sourceContent w,
    (forall k, rejects k = false) ->
    (forall k w, interleaved k w = w) ->
    isSyncing w = false ->
    isCueNote normalizePath (file_path cueNoteFile) = true ->
    getAbstractFileByPath (vault w) (file_path cueNoteFile)
      = Some (AFile cf cueContent) ->
    sourceFromNoteInfo w (normalizePath (file_path cueNoteFile))
      (JsMap.values (noteInfoMap w)) = Some sourceNoteFile ->
    getAbstractFileByPath (vault w) (file_path sourceNoteFile)
      = Some (AFile sourceNoteFile sourceContent) ->
    file_path sourceNoteFile <> file_path cueNoteFile ->
    exists w',
      syncCueToSource localeCompare normalizePath settings rejects
        interleaved cueNoteFile w = (Normal tt, w')
      /\ isSyncing w' = false
      /\ getAbstractFileByPath (vault w') (file_path sourceNoteFile)
         = Some (AFile sourceNoteFile
                   (updateSourceNoteContentRebuild localeCompare sourceContent
                      (parseFootnotesSimple cueContent)
                      (deleteReferencesOnDefinitionDelete settings)
                      (moveFootnotesToEnd settings)))
      /\ getAbstractFileByPath (vault w') (file_path cueNoteFile)
         = Some (AFile cf cueContent)
      /\ modifications (events w')
         = modifications (events w)
           ++ (if str_eqb
                    (updateSourceNoteContentRebuild localeCompare
                       sourceContent (parseFootnotesSimple cueContent)
                       (deleteReferencesOnDefinitionDelete settings)
                       (moveFootnotesToEnd settings))
                    sourceContent
               then []
               else [Modified (file_path sourceNoteFile)
                       (updateSourceNoteContentRebuild localeCompare
                          sourceContent (parseFootnotesSimple cueContent)
                          (deleteReferencesOnDefinitionDelete settings)
                          (moveFootnotesToEnd settings))]).
Proof.
  intros cmp np settings rejects interleaved cue cf src C S w
         Hrej Hint Hidle Hrole Hcue Hfind Hsrc Hneq.
  set (R := updateSourceNoteContentRebuild cmp S (parseFootnotesSimple C)
              (deleteReferencesOnDefinitionDelete settings)
              (moveFootnotesToEnd settings)).
  unfold syncCueToSource. rewrite Hidle, Hrole. simpl negb. cbv iota.
  unfold bind at 1. unfold perform at 1. unfold tryCatchFinally.
  set (w0 := setSyncing true w).
  rewrite (bind_normal _ _ _ _ _ _ _
             (cachedRead_quiet rejects interleaved Hrej Hint cue cf C w0 Hcue)).
  assert (Hget : getSourceNoteFileFromDerived np rejects (file_path cue)
                   (nextAwait w0) = (Normal (Some src), nextAwait w0)).
  { unfold getSourceNoteFileFromDerived.
    rewrite (sourceFromNoteInfo_vault w (nextAwait w0)) by reflexivity.
    simpl noteInfoMap. now rewrite Hfind. }
  rewrite (bind_normal _ _ _ _ _ _ _ Hget).
  assert (Hsrc1 : getAbstractFileByPath (vault (nextAwait w0)) (file_path src)
                  = Some (AFile src S)) by exact Hsrc.
  rewrite (bind_normal _ _ _ _ _ _ _
             (cachedRead_quiet rejects interleaved Hrej Hint src src S _ Hsrc1)).
  fold R. destruct (str_eqb R S) eqn:E.
  - (* the content is up to date: nothing is written *)
    unfold bind at 1. unfold ret at 1.
    destruct (recordSync_quiet np rejects interleaved Hrej Hint src
                (file_path cue) false withLastSyncCueToSource
                (nextAwait (nextAwait w0))) as (w3 & E3 & [V3 M3]).
    rewrite E3. unfold bind, perform.
    rewrite (sleep_quiet interleaved Hint). eexists. split; [reflexivity|].
    simpl. rewrite V3, M3. simpl. apply str_eqb_eq in E.
    rewrite app_nil_r. rewrite E. repeat split; auto.
  - assert (Em : modify rejects interleaved src R (nextAwait (nextAwait w0))
                 = (Normal tt,
                    addEvent (Modified (file_path src) R)
                      (setVault (writeFile (vault w) (file_path src) R)
                         (nextAwait (nextAwait (nextAwait w0)))))).
    { unfold modify. rewrite (awaitHost_quiet rejects interleaved Hrej Hint).
      simpl. now rewrite Hsrc. }
    assert (Ew : (modify rejects interleaved src R ;;; ret true)
                   (nextAwait (nextAwait w0))
                 = (Normal true,
                    addEvent (Modified (file_path src) R)
                      (setVault (writeFile (vault w) (file_path src) R)
                         (nextAwait (nextAwait (nextAwait w0))))))
      by (unfold bind; rewrite Em; reflexivity).
    rewrite (bind_normal _ _ _ _ _ _ _ Ew).
    match goal with
    | |- context [recordSync np rejects interleaved src ?p ?b ?s ?x] =>
        destruct (recordSync_quiet np rejects interleaved Hrej Hint src
                    p b s x) as (w3 & E3 & [V3 M3])
    end.
    rewrite E3. unfold bind, perform.
    rewrite (sleep_quiet interleaved Hint). eexists. split; [reflexivity|].
    simpl. rewrite V3, M3. simpl. rewrite modifications_app. simpl.
    repeat split.
    + eapply getAbstractFileByPath_write_same; eauto.
    + rewrite getAbstractFileByPath_write_other by congruence. exact Hcue.
Qed.

(** X9: a backward pass writes the rebuilt content to the Source and
    leaves the Cue alone.  When no call of the host rejects and nothing
    else runs meanwhile, for a Cue note whose Source the map of note infos
    gives, after [syncCueToSource] the Source holds the content
    [updateSourceNoteContentRebuild] makes from what it held and the
    footnotes parsed from the Cue, the Cue holds what it held, the guard is
    released, and the Source was written once if its content changed and
    not at all if it did not. *)
Theorem backward_sync_rebuilds_the_source :
  forall localeCompare normalizePath settings rejects interleaved
         cueNoteFile cf sourceNoteFile cueContent sourceContent w,
    (forall k, rejects k = false) ->
    (forall k w, interleaved k w = w) ->
    isSyncing w = false ->
    isCueNote normalizePath (file_path cueNoteFile) = true ->
    getAbstractFileByPath (vault w) (file_path cueNoteFile)
      = Some (AFile cf cueContent) ->
    sourceFromNoteInfo w (normalizePath (file_path cueNoteFile))
      (JsMap.values (noteInfoMap w)) = Some sourceNoteFile ->
    getAbstractFileByPath (vault w) (file_path sourceNoteFile)
      = Some (AFile sourceNoteFile sourceContent) ->
    file_path sourceNoteFile <> file_path cueNoteFile ->
    exists w',
      syncCueToSource localeCompare normalizePath settings rejects
        interleaved cueNoteFile w = (Normal tt, w')
      /\ isSyncing w' = false
      /\ getAbstractFileByPath (vault w') (file_path sourceNoteFile)
         = Some (AFile sourceNoteFile
                   (updateSourceNoteContentRebuild localeCompare sourceContent
                      (parseFootnotesSimple cueContent)
                      (deleteReferencesOnDefinitionDelete settings)
                      (moveFootnotesToEnd settings)))
      /\ getAbstractFileByPath (vault w') (file_path cueNoteFile)
         = Some (AFile cf cueContent)
      /\ modifications (events w')
         = modifications (events w)
           ++ (if str_eqb
                    (updateSourceNoteContentRebuild localeCompare
                       sourceContent (parseFootnotesSimple cueContent)
                       (deleteReferencesOnDefinitionDelete settings)
                       (moveFootnotesToEnd settings))
                    sourceContent
               then []
               else [Modified (file_path sourceNoteFile)
                       (updateSourceNoteContentRebuild localeCompare
                          sourceContent (parseFootnotesSimple cueContent)
                          (deleteReferencesOnDefinitionDelete settings)
                          (moveFootnotesToEnd settings))]).
Proof.
  intros cmp np settings rejects interleaved cue cf src C S w
         Hrej Hint Hidle Hrole Hcue Hfind Hsrc Hneq.
  now apply backward_pass.
Qed.

(** The Cue was edited: the text of footnote 1 changed. *)
Lemma backward_sync_rebuilds_the_source_witness :
  exists w',
    syncCueToSource codeUnitCompare sampleNormalizePath DEFAULT_SETTINGS
      (fun _ => false) (fun _ w => w) sampleCue
      (sampleLinkedWorld (text "Text[^1]||[^1]: one|") (text "[^1]: uno|"))
    = (Normal tt, w')
    /\ isSyncing w' = false
    /\ getAbstractFileByPath (vault w') (file_path sampleSource)
       = Some (AFile sampleSource
                 (updateSourceNoteContentRebuild codeUnitCompare
                    (text "Text[^1]||[^1]: one|")
                    (parseFootnotesSimple (text "[^1]: uno|"))
                    (deleteReferencesOnDefinitionDelete DEFAULT_SETTINGS)
                    (moveFootnotesToEnd DEFAULT_SETTINGS)))
    /\ getAbstractFileByPath (vault w') (file_path sampleCue)
       = Some (AFile sampleCue (text "[^1]: uno|"))
    /\ modifications (events w')
       = modifications
           (events (sampleLinkedWorld (text "Text[^1]||[^1]: one|")
                      (text "[^1]: uno|")))
         ++ (if str_eqb
                  (updateSourceNoteContentRebuild codeUnitCompare
                     (text "Text[^1]||[^1]: one|")
                     (parseFootnotesSimple (text "[^1]: uno|"))
                     (deleteReferencesOnDefinitionDelete DEFAULT_SETTINGS)
                     (moveFootnotesToEnd DEFAULT_SETTINGS))
                  (text "Text[^1]||[^1]: one|")
             then []
             else [Modified (file_path sampleSource)
                     (updateSourceNoteContentRebuild codeUnitCompare
                        (text "Text[^1]||[^1]: one|")
                        (parseFootnotesSimple (text "[^1]: uno|"))
                        (deleteReferencesOnDefinitionDelete DEFAULT_SETTINGS)
                        (moveFootnotesToEnd DEFAULT_SETTINGS))]).
Proof.
  apply (backward_sync_rebuilds_the_source codeUnitCompare sampleNormalizePath
           DEFAULT_SETTINGS (fun _ => false) (fun _ w => w) sampleCue
           sampleCue sampleSource);
    try reflexivity. discriminate.
Defined.

(** ** A Source without a Cue note *)

Lemma saveData_quiet_eq : forall rejects interleaved,
  (forall k, rejects k = false) ->
  (forall k w, interleaved k w = w) ->
  forall w,
    saveData rejects interleaved w
    = (Normal tt,
       addEvent DataSaved (setSaved (noteInfoMap w) (nextAwait w))).
Proof.
  intros rejects interleaved Hrej Hint w. unfold saveData.
  now rewrite (awaitHost_quiet rejects interleaved Hrej Hint).
Qed.

(** X10: a forward pass on a Source that has no Cue note skips the sync.
    When no call of the host rejects and nothing else runs meanwhile,
    [syncSourceToCue] shows the notice that the Cue note was not found,
    writes no file and creates none, records in the map of note infos that
    the Source has no Cue, and releases the guard. *)
Theorem forward_sync_without_cue :
  forall localeCompare normalizePath settings rejects interleaved
         sourceNoteFile sf sourceContent w,
    (forall k, rejects k = false) ->
    (forall k w, interleaved k w = w) ->
    isSyncing w = false ->
    isCueNote normalizePath (file_path sourceNoteFile)
      || isSummaryNote normalizePath (file_path sourceNoteFile) = false ->
    getAbstractFileByPath (vault w) (file_path sourceNoteFile)
      = Some (AFile sf sourceContent) ->
    fileAt w (getCueNotePath normalizePath sourceNoteFile) = None ->
    exists w',
      syncSourceToCue localeCompare normalizePath settings rejects
        interleaved sourceNoteFile w = (Normal tt, w')
      /\ isSyncing w' = false
      /\ vault w' = vault w
      /\ modifications (events w') = modifications (events w)
      /\ In (Notice CueNoteNotFound (file_basename sourceNoteFile)) (events w')
      /\ exists info,
           JsMap.get (noteInfoMap w') (file_path sourceNoteFile) = Some info
           /\ cuePath info = None.
Proof.
  intros cmp np settings rejects interleaved src sf S w
         Hrej Hint Hidle Hrole Hsrc Hcue.
  unfold syncSourceToCue. rewrite Hidle, Hrole.
  unfold bind at 1. unfold perform at 1. unfold tryCatchFinally.
  set (w0 := setSyncing true w).
  rewrite (bind_normal _ _ _ _ _ _ _
             (cachedRead_quiet rejects interleaved Hrej Hint src sf S w0 Hsrc)).
  unfold look at 1. unfold bind at 1.
  rewrite (fileAt_vault w (nextAwait w0)) by reflexivity. rewrite Hcue.
  unfold notice at 1. unfold bind at 1. unfold perform at 1.
  set (w1 := addEvent (Notice CueNoteNotFound (file_basename src))
               (nextAwait w0)).
  unfold bind at 1. unfold getOrCreateNoteInfo.
  destruct (JsMap.get (noteInfoMap w1) (file_path src)) as [info|] eqn:Eget.
  - destruct (cuePath info) as [c|] eqn:Ec.
    + unfold bind, perform.
      rewrite (saveData_quiet_eq rejects interleaved Hrej Hint).
      rewrite !(sleep_quiet interleaved Hint).
      eexists. split; [reflexivity|]. simpl.
      rewrite !modifications_app. simpl. rewrite !app_nil_r.
      repeat split; auto.
      * apply in_or_app. left. apply in_or_app. right. now left.
      * exists (withCuePath None info). split; [|reflexivity].
        apply JsMap_get_set_same.
    + unfold bind, perform, ret, sleep. simpl. rewrite !Hint.
      eexists. split; [reflexivity|]. simpl.
      rewrite !modifications_app. simpl. rewrite !app_nil_r.
      repeat split; auto.
      * apply in_or_app. right. now left.
      * exists info. split; assumption.
  - rewrite (fileAt_vault w w1) by reflexivity. rewrite Hcue. simpl.
    unfold bind, perform, ret, sleep. simpl. rewrite !Hint.
    eexists. split; [reflexivity|]. simpl.
    rewrite !modifications_app. simpl. rewrite !app_nil_r.
    repeat split; auto.
    + apply in_or_app. right. now left.
    + eexists. split; [apply JsMap_get_set_same | reflexivity].
Qed.

(** The sample Source alone in its folder. *)
Lemma forward_sync_without_cue_witness :
  exists w',
    syncSourceToCue codeUnitCompare sampleNormalizePath DEFAULT_SETTINGS
      (fun _ => false) (fun _ w => w) sampleSource
      (sampleLoneWorld (text "Text[^1]||[^1]: one|"))
    = (Normal tt, w')
    /\ isSyncing w' = false
    /\ vault w' = vault (sampleLoneWorld (text "Text[^1]||[^1]: one|"))
    /\ modifications (events w')
       = modifications (events (sampleLoneWorld (text "Text[^1]||[^1]: one|")))
    /\ In (Notice CueNoteNotFound (file_basename sampleSource)) (events w')
    /\ exists info,
         JsMap.get (noteInfoMap w') (file_path sampleSource) = Some info
         /\ cuePath info = None.
Proof.
  apply (forward_sync_without_cue codeUnitCompare sampleNormalizePath
           DEFAULT_SETTINGS (fun _ => false) (fun _ w => w) sampleSource
           sampleSource (text "Text[^1]||[^1]: one|"));
    reflexivity.
Defined.

(** ** Escaped names *)

Lemma escapeRegex_cons : forall c s,
  escapeRegex (c :: s)
  = if isSpecial c then BACKSLASH :: c :: escapeRegex s
    else c :: escapeRegex s.
Proof.
  intros c s. unfold escapeRegex. cbn [replaceAll specialRegex].
  destruct (isSpecial c); simpl; [do 2 f_equal | f_equal];
    apply replaceAll_prev_irrelevant; reflexivity.
Qed.

(** X11: [escapeRegex] gives a pattern that matches its argument and
    nothing else: the pattern is made of plain characters and of special
    characters after a backslash, and the text it stands for is the
    argument, whatever characters the argument has. *)
Theorem escapeRegex_literal : forall s,
  patternLiteral (escapeRegex s) = Some s.
Proof.
  induction s as [|c s IH]; [reflexivity|].
  rewrite escapeRegex_cons. destruct (isSpecial c) eqn:E.
  - cbn [patternLiteral]. change (BACKSLASH =? BACKSLASH) with true.
    cbv iota. rewrite E, IH. reflexivity.
  - cbn [patternLiteral]. rewrite E.
    destruct (c =? BACKSLASH) eqn:Eb.
    + apply N.eqb_eq in Eb. subst c. discriminate E.
    + now rewrite IH.
Qed.

(** ** The name on the line of the cursor *)

(** X12: on a definition line as the generators write it, indented or
    not, the command that highlights the first reference finds the name of
    the footnote, when the name is not empty, is trimmed and has no closing
    bracket; the text of the definition does not matter. *)
Theorem highlight_command_finds_name : forall w r d,
  forallb isWhiteSpace w = true ->
  r <> [] -> forallb notRBrack r = true -> trim r = r ->
  refAtCursor (w ++ renderDefinition (r, d)) = Some r.
Proof.
  intros w r d Hw Hr Hrb Htrim. unfold refAtCursor.
  assert (E : defLineName (w ++ renderDefinition (r, d)) = Some r).
  { unfold defLineName, renderDefinition. simpl fst. simpl snd.
    rewrite (span_app_stop isWhiteSpace w) by (auto; reflexivity).
    simpl app. cbn [N.eqb LBRACK CARET andb Pos.eqb].
    rewrite (span_app_stop notRBrack r) by (auto; reflexivity).
    destruct r; [contradiction | reflexivity]. }
  rewrite E. simpl option_map. rewrite Htrim.
  destruct r; [contradiction | reflexivity].
Qed.

(** The line of footnote 12, indented by two spaces. *)
Lemma highlight_command_finds_name_witness :
  refAtCursor (lit "  " ++ renderDefinition (lit "12", lit "twelve"))
  = Some (lit "12").
Proof.
  apply highlight_command_finds_name; try reflexivity. discriminate.
Defined.

(** ** A new Cue note *)

Lemma noMatch_blank_after : forall core link,
  lineBound core -> goodLink link ->
  afterLineStart core None link = None ->
  noMatch (afterLineStart core) None (link ++ blankLine).
Proof.
  intros core link Hcore Hlink Hm.
  assert (Hend : forall p, noMatch (afterLineStart core) p [LF]
                           \/ atLineStart p = true).
  { intro p. destruct (atLineStart p) eqn:E; [now right|]. left.
    apply noMatch_cons. split; [apply afterLineStart_none; now left|].
    apply noMatch_nil. apply afterLineStart_none. right. apply Hcore. }
  assert (Htail : noMatch (afterLineStart core) (Some LF) [LF]).
  { apply noMatch_cons. split.
    - apply afterLineStart_none. right.
      rewrite (hit_blank core [LF]) by reflexivity. apply Hcore.
    - apply noMatch_nil. apply afterLineStart_none. right. apply Hcore. }
  destruct link as [|c link].
  - simpl. apply noMatch_cons. split; [|exact Htail].
    apply afterLineStart_none. right.
    rewrite (hit_blank core [LF; LF]) by reflexivity. apply Hcore.
  - apply noMatch_app. split.
    + now apply link_noMatchIn.
    + destruct Hlink as (_ & Htrim & _).
      destruct (prevAfter_trimmed (c :: link) None) as (x & -> & Hx);
        [discriminate | assumption |].
      apply noMatch_cons. split; [|exact Htail].
      apply afterLineStart_none. now left.
Qed.

(** X13: the Cue note that the Arrange command creates already has its
    header.  For a good link, the header [generateCueContent] extracts
    from the initial content of [ensureCueNoteExists] is the link alone,
    so the first sync does not put a second link; and with no footnote the
    first sync turns the content into the link and one line feed. *)
Theorem new_cue_note_has_its_header :
  forall localeCompare settings sourceFile,
    goodLink (linkToSource settings sourceFile) ->
    extractedHeader (linkToSource settings sourceFile)
      (initialCueContent settings sourceFile)
    = linkToSource settings sourceFile
    /\ generateCueContent localeCompare settings
         (initialCueContent settings sourceFile) sourceFile JsMap.empty
       = linkToSource settings sourceFile ++ [LF].
Proof.
  intros cmp settings f Hlink. unfold initialCueContent.
  set (link := linkToSource settings f) in *.
  pose proof Hlink as (Hline & Htrim & Hdef & Hcb).
  assert (Hhdr : extractedHeader link (link ++ blankLine) = link).
  { unfold extractedHeader, firstElementIdx, substring0.
    rewrite (proj2 (searchIndex_none _ firstDefRegex _ None O))
      by (apply noMatch_blank_after;
          [apply defLineCore_lineBound | assumption | assumption]).
    rewrite (proj2 (searchIndex_none _ firstCbRegex _ None O))
      by (apply noMatch_blank_after;
          [apply fenceCore_lineBound | assumption | assumption]).
    rewrite firstn_all. rewrite trimEnd_app_blank by reflexivity.
    rewrite Htrim.
    assert (Hinc : includes link link = true).
    { apply includes_spec. exists [], []. now rewrite app_nil_r. }
    now rewrite Hinc. }
  split; [exact Hhdr|].
  rewrite generateCueContent_assemble. fold link. rewrite Hhdr.
  unfold assembleCue. simpl. rewrite !app_nil_r.
  destruct (truthy link) eqn:Et.
  - rewrite trimEnd_app_blank by reflexivity. rewrite Htrim.
    now rewrite collapse_app_line by assumption.
  - apply truthy_false in Et. rewrite Et. reflexivity.
Qed.

(** The default link to the sample Source. *)
Lemma new_cue_note_has_its_header_witness :
  extractedHeader (linkToSource DEFAULT_SETTINGS sampleSource)
    (initialCueContent DEFAULT_SETTINGS sampleSource)
  = linkToSource DEFAULT_SETTINGS sampleSource
  /\ generateCueContent codeUnitCompare DEFAULT_SETTINGS
       (initialCueContent DEFAULT_SETTINGS sampleSource) sampleSource
       JsMap.empty
     = linkToSource DEFAULT_SETTINGS sampleSource ++ [LF].
Proof.
  apply new_cue_note_has_its_header.
  repeat split; vm_compute; reflexivity.
Defined.

(** ** The scan of the vault *)

Lemma optionStrEqb_eq : forall a b, optionStrEqb a b = true <-> a = b.
Proof.
  intros [a|] [b|]; simpl; split; intro H; try discriminate; try reflexivity.
  - apply str_eqb_eq in H. now subst.
  - injection H as ->. apply str_eqb_refl.
Qed.

Lemma In_setDelete : forall s x k,
  NoDup s -> (In k (setDelete s x) <-> In k s /\ k <> x).
Proof.
  induction s as [|y s IH]; intros x k Hnd; simpl; [tauto|].
  inversion Hnd as [|? ? Hy Hs]; subst.
  destruct (str_eqb y x) eqn:E.
  - apply str_eqb_eq in E. subst y. split.
    + intro H. split; [now right|]. intros ->. contradiction.
    + intros [[->|H] Hk]; [contradiction | assumption].
  - apply str_eqb_neq in E. simpl. rewrite IH by assumption. split.
    + intros [->|[H Hk]]; [split; [now left | assumption]|].
      split; [now right | assumption].
    + intros [[->|H] Hk]; [now left | right; now split].
Qed.

Lemma NoDup_setDelete : forall s x, NoDup s -> NoDup (setDelete s x).
Proof.
  induction s as [|y s IH]; intros x Hnd; simpl; [constructor|].
  inversion Hnd as [|? ? Hy Hs]; subst.
  destruct (str_eqb y x); [assumption|].
  constructor; [|now apply IH].
  intro H. apply In_setDelete in H; [|assumption]. tauto.
Qed.

Lemma In_keys : forall (V : Type) (m : JsMap.t V) k v,
  In (k, v) m -> In k (JsMap.keys m).
Proof.
  intros V m k v H. unfold JsMap.keys.
  change k with (fst (k, v)). now apply in_map.
Qed.

Lemma In_JsMap_delete : forall (V : Type) (m : JsMap.t V) x e,
  NoDup (JsMap.keys m) ->
  (In e (JsMap.delete m x) <-> In e m /\ fst e <> x).
Proof.
  induction m as [|[k0 v0] m IH]; intros x e Hnd; simpl; [tauto|].
  simpl in Hnd. inversion Hnd as [|? ? Hk Hm]; subst.
  destruct (str_eqb k0 x) eqn:E.
  - apply str_eqb_eq in E. subst k0. split.
    + intro H. split; [now right|]. intros <-. apply Hk.
      destruct e as [k v]. now apply In_keys in H.
    + intros [[<-|H] He]; [now contradiction He | assumption].
  - apply str_eqb_neq in E. simpl. rewrite IH by assumption. split.
    + intros [<-|[H He]]; [split; [now left | assumption]|].
      split; [now right | assumption].
    + intros [[<-|H] He]; [now left | right; now split].
Qed.

Lemma NoDup_JsMap_delete : forall (V : Type) (m : JsMap.t V) x,
  NoDup (JsMap.keys m) -> NoDup (JsMap.keys (JsMap.delete m x)).
Proof.
  induction m as [|[k0 v0] m IH]; intros x Hnd; simpl; [constructor|].
  simpl in Hnd. inversion Hnd as [|? ? Hk Hm]; subst.
  destruct (str_eqb k0 x); [assumption|]. simpl.
  constructor; [|now apply IH].
  intro H. apply in_map_iff in H as ([k v] & Ek & H). simpl in Ek. subst k.
  apply In_JsMap_delete in H; [|assumption]. destruct H as [H _].
  apply Hk. now apply In_keys in H.
Qed.

Lemma JsMap_get_unique : forall (V : Type) (m : JsMap.t V) k v,
  NoDup (JsMap.keys m) -> In (k, v) m -> JsMap.get m k = Some v.
Proof.
  induction m as [|[k0 v0] m IH]; intros k v Hnd H; [destruct H|].
  simpl in Hnd. inversion Hnd as [|? ? Hk Hm]; subst. simpl.
  destruct H as [H|H].
  - injection H as -> ->. now rewrite str_eqb_refl.
  - destruct (str_eqb k0 k) eqn:E.
    + apply str_eqb_eq in E. subst k0. exfalso. apply Hk.
      now apply In_keys in H.
    + now apply IH.
Qed.

Lemma JsMap_get_None : forall (V : Type) (m : JsMap.t V) k,
  JsMap.get m k = None <-> ~ In k (JsMap.keys m).
Proof.
  intros V m k. split.
  - intros H Hin. apply JsMap_has_In in Hin. unfold JsMap.has in Hin.
    rewrite H in Hin. discriminate.
  - intro H. destruct (JsMap.get m k) eqn:E; [|reflexivity].
    exfalso. apply H. apply JsMap_has_In. unfold JsMap.has. now rewrite E.
Qed.

Lemma In_JsMap_set_NoDup : forall (V : Type) (m : JsMap.t V) k v e,
  NoDup (JsMap.keys m) -> In e (JsMap.set m k v) ->
  e = (k, v) \/ (fst e <> k /\ In e m).
Proof.
  induction m as [|[k0 v0] m IH]; intros k v e Hnd H; simpl in H.
  - destruct H as [<-|[]]. now left.
  - simpl in Hnd. inversion Hnd as [|? ? Hk Hm]; subst.
    destruct (str_eqb k0 k) eqn:E.
    + apply str_eqb_eq in E. subst k0. destruct H as [<-|H]; [now left|].
      right. split; [|now right]. intros <-. apply Hk.
      destruct e as [k' v']. now apply In_keys in H.
    + apply str_eqb_neq in E. destruct H as [<-|H].
      * right. split; [exact E | now left].
      * apply IH in H; [|assumption].
        destruct H as [->|[H1 H2]]; [now left|].
        right. split; [assumption | now right].
Qed.

Lemma In_JsMap_set_same : forall (V : Type) (m : JsMap.t V) k v,
  In (k, v) (JsMap.set m k v).
Proof.
  intros V m k v. apply JsMap_get_In. apply JsMap_get_set_same.
Qed.

Lemma In_JsMap_set_other : forall (V : Type) (m : JsMap.t V) k v e,
  fst e <> k -> In e m -> In e (JsMap.set m k v).
Proof.
  induction m as [|[k0 v0] m IH]; intros k v e He H; [destruct H|].
  simpl. destruct (str_eqb k0 k) eqn:E.
  - apply str_eqb_eq in E. subst k0. destruct H as [<-|H].
    + now contradiction He.
    + now right.
  - destruct H as [<-|H]; [now left | right; now apply IH].
Qed.

Lemma keys_JsMap_set_In : forall (V : Type) (m : JsMap.t V) k v x,
  In x (JsMap.keys (JsMap.set m k v)) <-> In x (JsMap.keys m) \/ x = k.
Proof.
  intros V m k v x. rewrite JsMap_keys_set.
  destruct (JsMap.has m k) eqn:E.
  - apply JsMap_has_In in E. split; [now left|]. intros [H| ->]; assumption.
  - rewrite in_app_iff. simpl. intuition congruence.
Qed.

(** One file more keeps the scan where it should stand. *)
Lemma scanFile_invariant : forall normalizePath w keys0 done st file,
  scanInvariant normalizePath w keys0 done st ->
  scanInvariant normalizePath w keys0 (done ++ [file])
    (scanFile normalizePath w st file).
Proof.
  intros np w keys0 done st f (P1 & P2 & P3 & P4 & P5 & P6).
  unfold scanFile.
  destruct (isCueNote np (file_path f) || isSummaryNote np (file_path f))
    eqn:Erole.
  - (* a Cue or Summary note: skipped *)
    assert (Hf : isSourceNote np f = false)
      by (unfold isSourceNote; now rewrite Erole).
    split; [exact P1|]. split; [exact P2|]. split; [|split; [|split]].
    + intro k. rewrite P3. split; intros [Hk Hn]; (split; [exact Hk|]).
      * intros (f' & Hin & Hp & Hs). apply Hn.
        apply in_app_or in Hin as [Hin|[<-|[]]]; [|congruence].
        now exists f'.
      * intros (f' & Hin & Hp & Hs). apply Hn. exists f'.
        split; [apply in_or_app; now left | now split].
    + intros k info H. apply P4 in H as [H|(f' & Hin & Hp & Hs & Hu)];
        [now left|]. right. exists f'.
      split; [apply in_or_app; now left | auto].
    + intros f' Hin Hs. apply in_app_or in Hin as [Hin|[<-|[]]];
        [now apply P5 | congruence].
    + exact P6.
  - assert (Hf : isSourceNote np f = true)
      by (unfold isSourceNote; now rewrite Erole).
    set (p := file_path f) in *.
    set (aC := option_map file_path (fileAt w (getCueNotePath np f))).
    set (aS := option_map file_path (fileAt w (getSummaryNotePath np f))).
    assert (Hdone : forall k,
              (exists f', In f' (done ++ [f]) /\ file_path f' = k
                          /\ isSourceNote np f' = true)
              <-> (exists f', In f' done /\ file_path f' = k
                              /\ isSourceNote np f' = true) \/ k = p).
    { intro k. split.
      - intros (f' & Hin & Hp & Hs).
        apply in_app_or in Hin as [Hin|[<-|[]]]; [left; now exists f'|].
        right. now symmetry.
      - intros [(f' & Hin & Hp & Hs)| ->].
        + exists f'. split; [apply in_or_app; now left | now split].
        + exists f. split; [apply in_or_app; right; now left | now split]. }
    destruct (JsMap.get (scan_noteInfoMap st) p) as [currentInfo|] eqn:Eget.
    + (* an entry is there: its paths are brought up to date *)
      set (cueChanged := negb (optionStrEqb (cuePath currentInfo) aC)).
      set (info1 := if cueChanged then withCuePath aC currentInfo
                    else currentInfo).
      set (summaryChanged := negb (optionStrEqb (summaryPath info1) aS)).
      set (info2 := if summaryChanged then withSummaryPath aS info1
                    else info1).
      assert (Hup : upToDate np w f info2).
      { unfold upToDate. fold aC aS. unfold info2, summaryChanged.
        destruct (optionStrEqb (summaryPath info1) aS) eqn:E2; simpl.
        - apply optionStrEqb_eq in E2. split; [|exact E2].
          unfold info1, cueChanged.
          destruct (optionStrEqb (cuePath currentInfo) aC) eqn:E1; simpl;
            [now apply optionStrEqb_eq in E1 | reflexivity].
        - split; [|reflexivity]. unfold info1, cueChanged.
          destruct (optionStrEqb (cuePath currentInfo) aC) eqn:E1; simpl;
            [now apply optionStrEqb_eq in E1 | reflexivity]. }
      assert (Hsame : cueChanged || summaryChanged = false ->
                      info2 = currentInfo).
      { intro H. apply orb_false_iff in H as [H1 H2].
        unfold info2, info1. now rewrite H2, H1. }
      assert (Hpin : In p (JsMap.keys (scan_noteInfoMap st))).
      { apply JsMap_get_In in Eget. now apply In_keys in Eget. }
      set (m' := if cueChanged || summaryChanged
                 then JsMap.set (scan_noteInfoMap st) p info2
                 else scan_noteInfoMap st).
      assert (Hkeys : forall k, In k (JsMap.keys m')
                                <-> In k (JsMap.keys (scan_noteInfoMap st))).
      { intro k. unfold m'. destruct (cueChanged || summaryChanged);
          [|tauto]. rewrite keys_JsMap_set_In. split; [|now left].
        intros [H| ->]; assumption. }
      assert (Hent : forall k info, In (k, info) m' ->
                       (k = p /\ info = info2)
                       \/ (k <> p /\ In (k, info) (scan_noteInfoMap st))).
      { intros k info H. unfold m' in H.
        destruct (cueChanged || summaryChanged) eqn:En.
        - apply In_JsMap_set_NoDup in H; [|assumption].
          destruct H as [H|[H1 H2]]; [left; now injection H | now right].
        - destruct (str_eqb k p) eqn:Ek.
          + apply str_eqb_eq in Ek. subst k. left. split; [reflexivity|].
            apply (JsMap_get_unique _ _ _ _ P1) in H.
            rewrite Hsame by reflexivity. congruence.
          + apply str_eqb_neq in Ek. now right. }
      unfold scanInvariant. simpl. fold m'.
      split; [|split; [|split; [|split; [|split]]]].
      * unfold m'. destruct (cueChanged || summaryChanged);
          [now apply JsMap_keys_set_NoDup | assumption].
      * now apply NoDup_setDelete.
      * intro k. rewrite In_setDelete by assumption. rewrite P3, Hdone.
        tauto.
      * intros k info H. apply Hent in H as [[-> ->]|[Hk H]].
        -- right. exists f.
           split; [apply in_or_app; right; now left | auto].
        -- apply P4 in H as [H|(f' & Hin & Hp & Hs & Hu)].
           ++ left. apply In_setDelete; [assumption | now split].
           ++ right. exists f'.
              split; [apply in_or_app; now left | auto].
      * intros f' Hin Hs. apply Hkeys.
        apply in_app_or in Hin as [Hin|[<-|[]]]; [now apply P5 | exact Hpin].
      * intros k H. apply Hkeys. apply In_setDelete in H as [H _];
          [now apply P6 | assumption].
    + (* no entry: one is made *)
      assert (Hnot : ~ In p (JsMap.keys (scan_noteInfoMap st)))
        by now apply JsMap_get_None.
      unfold scanInvariant. simpl. fold p aC aS.
      split; [|split; [|split; [|split; [|split]]]].
      * now apply JsMap_keys_set_NoDup.
      * assumption.
      * intro k. rewrite P3, Hdone. split; [|tauto].
        intros [Hk Hn]. split; [exact Hk|]. intros [H| ->]; [now apply Hn|].
        apply Hnot. apply P6. apply P3. now split.
      * intros k info H. apply In_JsMap_set in H as [H|H].
        -- apply P4 in H as [H|(f' & Hin & Hp & Hs & Hu)]; [now left|].
           right. exists f'.
           split; [apply in_or_app; now left | auto].
        -- injection H as -> ->. right. exists f.
           split; [apply in_or_app; right; now left|].
           split; [reflexivity|]. split; [exact Hf|]. split; reflexivity.
      * intros f' Hin Hs. apply keys_JsMap_set_In.
        apply in_app_or in Hin as [Hin|[<-|[]]];
          [left; now apply P5 | now right].
      * intros k H. apply keys_JsMap_set_In. left. now apply P6.
Qed.

Lemma scan_invariant : forall normalizePath w keys0 files done st,
  scanInvariant normalizePath w keys0 done st ->
  scanInvariant normalizePath w keys0 (done ++ files)
    (fold_left (scanFile normalizePath w) files st).
Proof.
  intros np w keys0. induction files as [|f files IH]; intros done st H.
  - now rewrite app_nil_r.
  - simpl. replace (done ++ f :: files) with ((done ++ [f]) ++ files)
      by now rewrite <- app_assoc.
    apply IH. now apply scanFile_invariant.
Qed.

(** The loop over the keys left: the entries under these keys go. *)
Lemma dropDeleted_entries : forall keys (m : JsMap.t CornellNoteInfo) changed,
  NoDup (JsMap.keys m) ->
  NoDup (JsMap.keys (fst (fold_left dropDeleted keys (m, changed))))
  /\ forall e, In e (fst (fold_left dropDeleted keys (m, changed)))
               <-> In e m /\ ~ In (fst e) keys.
Proof.
  induction keys as [|k keys IH]; intros m changed Hnd; simpl.
  - split; [assumption|]. tauto.
  - destruct (JsMap.has m k) eqn:E.
    + destruct (IH (JsMap.delete m k) true) as [H1 H2];
        [now apply NoDup_JsMap_delete|].
      split; [assumption|]. intro e. rewrite H2.
      rewrite In_JsMap_delete by assumption. split.
      * intros [[H H'] Hn]. split; [assumption|].
        intros [Ek|Hin]; [apply H'; now symmetry | now apply Hn].
      * intros [H Hn]. split; [split; [assumption|]|].
        -- intro Ek. apply Hn. left. now symmetry.
        -- intro Hin. apply Hn. now right.
    + destruct (IH m changed Hnd) as [H1 H2]. split; [assumption|].
      intro e. rewrite H2. split.
      * intros [H Hn]. split; [assumption|]. intros [Ek|Hin]; [|now apply Hn].
        assert (Hk : JsMap.has m (fst e) = true).
        { apply JsMap_has_In. destruct e as [k' v]. now apply In_keys in H. }
        congruence.
      * intros [H Hn]. split; [assumption|]. intro Hin. apply Hn. now right.
Qed.

(** The scan when nothing else runs meanwhile: the map it leaves, and the
    world it leaves when it has nothing to save. *)
Lemma initialize_quiet :
  forall normalizePath rejects interleaved allMarkdownFiles w,
    (forall k w, interleaved k w = w) ->
    forall st,
      st = fold_left (scanFile normalizePath w) allMarkdownFiles
             {| scan_noteInfoMap := noteInfoMap w;
                scan_currentMapKeys := JsMap.keys (noteInfoMap w);
                scan_mapChanged := false |} ->
      forall m changed,
        fold_left dropDeleted (scan_currentMapKeys st)
                  (scan_noteInfoMap st, scan_mapChanged st) = (m, changed) ->
        noteInfoMap (snd (initializeOrUpdateNoteInfoMap normalizePath rejects
                            interleaved allMarkdownFiles w)) = m
        /\ vault (snd (initializeOrUpdateNoteInfoMap normalizePath rejects
                         interleaved allMarkdownFiles w)) = vault w
        /\ (changed = false ->
            initializeOrUpdateNoteInfoMap normalizePath rejects interleaved
              allMarkdownFiles w
            = (Normal tt,
               setNoteInfoMap m
                 (nextAwait (setNoteInfoMap (scan_noteInfoMap st) w)))).
Proof.
  intros np rejects interleaved files w Hint st Est m changed Efold.
  unfold initializeOrUpdateNoteInfoMap. rewrite <- Est.
  unfold bind, perform, awaitAll. rewrite !Hint. simpl noteInfoMap.
  rewrite Efold. destruct changed.
  - unfold saveData, awaitHost. rewrite !Hint.
    destruct (rejects _); simpl; repeat split; try reflexivity; discriminate.
  - simpl. repeat split.
Qed.

(** What the scan leaves, when nothing else runs meanwhile. *)
Lemma scan_facts :
  forall normalizePath rejects interleaved allMarkdownFiles w,
    (forall k w, interleaved k w = w) ->
    NoDup (JsMap.keys (noteInfoMap w)) ->
    (forall file,
       In file allMarkdownFiles -> isSourceNote normalizePath file = true ->
       In (file_path file)
          (JsMap.keys
             (noteInfoMap
                (snd (initializeOrUpdateNoteInfoMap normalizePath rejects
                        interleaved allMarkdownFiles w)))))
    /\ (forall k info,
          In (k, info)
             (noteInfoMap
                (snd (initializeOrUpdateNoteInfoMap normalizePath rejects
                        interleaved allMarkdownFiles w))) ->
          exists file,
            In file allMarkdownFiles /\ file_path file = k
            /\ isSourceNote normalizePath file = true
            /\ upToDate normalizePath w file info)
    /\ NoDup
         (JsMap.keys
            (noteInfoMap
               (snd (initializeOrUpdateNoteInfoMap normalizePath rejects
                       interleaved allMarkdownFiles w))))
    /\ vault (snd (initializeOrUpdateNoteInfoMap normalizePath rejects
                     interleaved allMarkdownFiles w)) = vault w.
Proof.
  intros np rejects interleaved files w Hint Hnd.
  set (st0 := {| scan_noteInfoMap := noteInfoMap w;
                 scan_currentMapKeys := JsMap.keys (noteInfoMap w);
                 scan_mapChanged := false |}).
  set (st := fold_left (scanFile np w) files st0).
  assert (Hinv : scanInvariant np w (JsMap.keys (noteInfoMap w)) files st).
  { apply (scan_invariant np w _ files [] st0). unfold scanInvariant. simpl.
    split; [assumption|]. split; [assumption|].
    split; [|split; [|split]].
    - intro k. split; [|tauto]. intro H. split; [assumption|].
      intros (f & [] & _).
    - intros k info H. left. now apply In_keys in H.
    - intros f [].
    - auto. }
  destruct Hinv as (P1 & P2 & P3 & P4 & P5 & P6).
  destruct (fold_left dropDeleted (scan_currentMapKeys st)
              (scan_noteInfoMap st, scan_mapChanged st)) as [m changed] eqn:Ef.
  destruct (initialize_quiet np rejects interleaved files w Hint st eq_refl
              m changed Ef) as (-> & Hv & _).
  destruct (dropDeleted_entries (scan_currentMapKeys st) (scan_noteInfoMap st)
              (scan_mapChanged st) P1) as [D1 D2].
  rewrite Ef in D1, D2. simpl in D1, D2.
  split; [|split; [|split; [exact D1 | exact Hv]]].
  - intros f Hin Hs. pose proof (P5 f Hin Hs) as Hk.
    unfold JsMap.keys in Hk. apply in_map_iff in Hk as ([k info] & Ek & He).
    simpl in Ek. subst k. apply (In_keys _ _ _ info). apply D2.
    split; [assumption|]. simpl. intro Hc. apply P3 in Hc as [_ Hc].
    apply Hc. now exists f.
  - intros k info H. apply D2 in H as [H Hn]. simpl in Hn.
    apply P4 in H as [H|H]; [contradiction | exact H].
Qed.

(** X14: after [initializeOrUpdateNoteInfoMap], the map of note infos
    indexes the Source notes of the list of files, and only them.  When
    nothing else runs meanwhile, whatever the save does: every file of the
    list that is neither a Cue nor a Summary note has an entry under its
    path, every entry belongs to such a file and has the paths of its Cue
    and Summary notes as the vault has them (the path of the note that
    exists, or nothing), and no key is there twice. *)
Theorem scan_indexes_the_sources :
  forall normalizePath rejects interleaved allMarkdownFiles w,
    (forall k w, interleaved k w = w) ->
    NoDup (JsMap.keys (noteInfoMap w)) ->
    (forall file,
       In file allMarkdownFiles -> isSourceNote normalizePath file = true ->
       In (file_path file)
          (JsMap.keys
             (noteInfoMap
                (snd (initializeOrUpdateNoteInfoMap normalizePath rejects
                        interleaved allMarkdownFiles w)))))
    /\ (forall k info,
          In (k, info)
             (noteInfoMap
                (snd (initializeOrUpdateNoteInfoMap normalizePath rejects
                        interleaved allMarkdownFiles w))) ->
          exists file,
            In file allMarkdownFiles /\ file_path file = k
            /\ isSourceNote normalizePath file = true
            /\ upToDate normalizePath w file info)
    /\ NoDup
         (JsMap.keys
            (noteInfoMap
               (snd (initializeOrUpdateNoteInfoMap normalizePath rejects
                       interleaved allMarkdownFiles w)))).
Proof.
  intros np rejects interleaved files w Hint Hnd.
  destruct (scan_facts np rejects interleaved files w
              Hint Hnd) as (A & B & C & _).
  now repeat split.
Qed.

(** The sample vault, where the map knows nothing yet. *)
Lemma scan_indexes_the_sources_witness :
  (forall file,
     In file [sampleSource; sampleCue] ->
     isSourceNote sampleNormalizePath file = true ->
     In (file_path file)
        (JsMap.keys
           (noteInfoMap
              (snd (initializeOrUpdateNoteInfoMap sampleNormalizePath
                      (fun _ => false) (fun _ w => w)
                      [sampleSource; sampleCue]
                      (sampleWorld (lit "") (lit "")))))))
  /\ (forall k info,
        In (k, info)
           (noteInfoMap
              (snd (initializeOrUpdateNoteInfoMap sampleNormalizePath
                      (fun _ => false) (fun _ w => w)
                      [sampleSource; sampleCue]
                      (sampleWorld (lit "") (lit ""))))) ->
        exists file,
          In file [sampleSource; sampleCue] /\ file_path file = k
          /\ isSourceNote sampleNormalizePath file = true
          /\ upToDate sampleNormalizePath (sampleWorld (lit "") (lit ""))
               file info)
  /\ NoDup
       (JsMap.keys
          (noteInfoMap
             (snd (initializeOrUpdateNoteInfoMap sampleNormalizePath
                     (fun _ => false) (fun _ w => w)
                     [sampleSource; sampleCue]
                     (sampleWorld (lit "") (lit "")))))).
Proof.
  apply scan_indexes_the_sources.
  - intros k w. reflexivity.
  - constructor.
Defined.

Lemma NoDup_map_eq : forall (A B : Type) (f : A -> B) l x y,
  NoDup (List.map f l) -> In x l -> In y l -> f x = f y -> x = y.
Proof.
  intros A B f. induction l as [|a l IH]; intros x y Hnd Hx Hy E;
    [destruct Hx|].
  simpl in Hnd. inversion Hnd as [|? ? Ha Hl]; subst.
  destruct Hx as [->|Hx], Hy as [->|Hy]; auto.
  - exfalso. apply Ha. rewrite E. now apply in_map.
  - exfalso. apply Ha. rewrite <- E. now apply in_map.
Qed.

(** The scan of files whose entries are up to date changes no entry. *)
Lemma scan_fixed : forall normalizePath w files st,
  NoDup (scan_currentMapKeys st) ->
  (forall f, In f files -> isSourceNote normalizePath f = true ->
     exists info,
       JsMap.get (scan_noteInfoMap st) (file_path f) = Some info
       /\ upToDate normalizePath w f info) ->
  scan_noteInfoMap (fold_left (scanFile normalizePath w) files st)
  = scan_noteInfoMap st
  /\ scan_mapChanged (fold_left (scanFile normalizePath w) files st)
     = scan_mapChanged st
  /\ forall k,
       In k (scan_currentMapKeys
               (fold_left (scanFile normalizePath w) files st)) ->
       In k (scan_currentMapKeys st)
       /\ ~ exists f, In f files /\ file_path f = k
                      /\ isSourceNote normalizePath f = true.
Proof.
  intros np w. induction files as [|f files IH]; intros st Hnd Hup.
  - simpl. repeat split; auto. intros (f & [] & _).
  - simpl.
    assert (Hstep : scan_noteInfoMap (scanFile np w st f) = scan_noteInfoMap st
                    /\ scan_mapChanged (scanFile np w st f) = scan_mapChanged st
                    /\ NoDup (scan_currentMapKeys (scanFile np w st f))
                    /\ forall k,
                         In k (scan_currentMapKeys (scanFile np w st f)) ->
                         In k (scan_currentMapKeys st)
                         /\ (isSourceNote np f = true -> k <> file_path f)).
    { unfold scanFile.
      destruct (isCueNote np (file_path f) || isSummaryNote np (file_path f))
        eqn:Erole.
      - repeat split; auto. unfold isSourceNote. rewrite Erole. discriminate.
      - assert (Hsrc : isSourceNote np f = true)
          by (unfold isSourceNote; now rewrite Erole).
        destruct (Hup f (or_introl eq_refl) Hsrc) as (info & Eg & Hc & Hs).
        rewrite Eg. apply optionStrEqb_eq in Hc. rewrite Hc. simpl negb.
        cbv iota. apply optionStrEqb_eq in Hs. rewrite Hs. simpl.
        rewrite orb_false_r.
        split; [reflexivity|]. split; [reflexivity|].
        split; [now apply NoDup_setDelete|].
        intros k H. apply In_setDelete in H as [H1 H2]; [|assumption].
        split; [assumption|]. intros _. exact H2. }
    destruct Hstep as (S1 & S2 & S3 & S4).
    destruct (IH (scanFile np w st f) S3) as (I1 & I2 & I3).
    { intros f' Hin Hs. rewrite S1. apply Hup; [now right | assumption]. }
    rewrite I1, I2, S1, S2. split; [reflexivity|]. split; [reflexivity|].
    intros k H. apply I3 in H as [H Hn]. apply S4 in H as [H Hk].
    split; [assumption|]. intros (f' & [<-|Hin] & Hp & Hs).
    + now apply Hk.
    + apply Hn. now exists f'.
Qed.

(** X15: a second scan changes nothing.  When nothing else runs
    meanwhile and the files of the list have distinct paths, running
    [initializeOrUpdateNoteInfoMap] again right after it has run completes
    normally, leaves the map, the vault and the saved data as they are,
    and saves nothing. *)
Theorem second_scan_changes_nothing :
  forall normalizePath rejects interleaved allMarkdownFiles w,
    (forall k w, interleaved k w = w) ->
    NoDup (JsMap.keys (noteInfoMap w)) ->
    NoDup (List.map file_path allMarkdownFiles) ->
    exists w2,
      initializeOrUpdateNoteInfoMap normalizePath rejects interleaved
        allMarkdownFiles
        (snd (initializeOrUpdateNoteInfoMap normalizePath rejects interleaved
                allMarkdownFiles w))
      = (Normal tt, w2)
      /\ noteInfoMap w2
         = noteInfoMap
             (snd (initializeOrUpdateNoteInfoMap normalizePath rejects
                     interleaved allMarkdownFiles w))
      /\ vault w2
         = vault
             (snd (initializeOrUpdateNoteInfoMap normalizePath rejects
                     interleaved allMarkdownFiles w))
      /\ events w2
         = events
             (snd (initializeOrUpdateNoteInfoMap normalizePath rejects
                     interleaved allMarkdownFiles w))
      /\ savedNoteInfoMap w2
         = savedNoteInfoMap
             (snd (initializeOrUpdateNoteInfoMap normalizePath rejects
                     interleaved allMarkdownFiles w)).
Proof.
  intros np rejects interleaved files w Hint Hnd Hfiles.
  destruct (scan_facts np rejects interleaved files w
              Hint Hnd) as (A & B & C & Hv).
  set (w1 := snd (initializeOrUpdateNoteInfoMap np rejects interleaved
                    files w)) in *.
  set (st0 := {| scan_noteInfoMap := noteInfoMap w1;
                 scan_currentMapKeys := JsMap.keys (noteInfoMap w1);
                 scan_mapChanged := false |}).
  destruct (scan_fixed np w1 files st0 C) as (F1 & F2 & F3).
  { intros f Hin Hs. pose proof (A f Hin Hs) as Hk.
    unfold JsMap.keys in Hk. apply in_map_iff in Hk as ([k info] & Ek & He).
    simpl in Ek. subst k. exists info.
    split; [now apply JsMap_get_unique|].
    destruct (B _ _ He) as (g & Hg & Hp & _ & Hu1 & Hu2).
    assert (g = f) by (apply (NoDup_map_eq _ _ file_path files); auto).
    subst g. unfold upToDate.
    rewrite !(fileAt_vault w w1) by exact Hv. now split. }
  set (st := fold_left (scanFile np w1) files st0) in *.
  assert (Hcur : scan_currentMapKeys st = []).
  { destruct (scan_currentMapKeys st) as [|k l] eqn:E; [reflexivity|].
    exfalso. destruct (F3 k (or_introl eq_refl)) as [Hk Hn]. simpl in Hk.
    unfold JsMap.keys in Hk. apply in_map_iff in Hk as ([k' info] & Ek & He).
    simpl in Ek. subst k'. destruct (B _ _ He) as (g & Hg & Hp & Hs & _).
    apply Hn. now exists g. }
  assert (Ef : fold_left dropDeleted (scan_currentMapKeys st)
                 (scan_noteInfoMap st, scan_mapChanged st)
               = (noteInfoMap w1, false)).
  { rewrite Hcur, F1, F2. reflexivity. }
  destruct (initialize_quiet np rejects interleaved files w1 Hint st eq_refl
              _ _ Ef) as (_ & _ & E).
  rewrite (E eq_refl). eexists. split; [reflexivity|]. repeat split.
Qed.

(** The sample vault, scanned twice. *)
Lemma second_scan_changes_nothing_witness :
  exists w2,
    initializeOrUpdateNoteInfoMap sampleNormalizePath (fun _ => false)
      (fun _ w => w) [sampleSource; sampleCue]
      (snd (initializeOrUpdateNoteInfoMap sampleNormalizePath (fun _ => false)
              (fun _ w => w) [sampleSource; sampleCue]
              (sampleWorld (lit "") (lit ""))))
    = (Normal tt, w2)
    /\ noteInfoMap w2
       = noteInfoMap
           (snd (initializeOrUpdateNoteInfoMap sampleNormalizePath
                   (fun _ => false) (fun _ w => w) [sampleSource; sampleCue]
                   (sampleWorld (lit "") (lit ""))))
    /\ vault w2
       = vault
           (snd (initializeOrUpdateNoteInfoMap sampleNormalizePath
                   (fun _ => false) (fun _ w => w) [sampleSource; sampleCue]
                   (sampleWorld (lit "") (lit ""))))
    /\ events w2
       = events
           (snd (initializeOrUpdateNoteInfoMap sampleNormalizePath
                   (fun _ => false) (fun _ w => w) [sampleSource; sampleCue]
                   (sampleWorld (lit "") (lit ""))))
    /\ savedNoteInfoMap w2
       = savedNoteInfoMap
           (snd (initializeOrUpdateNoteInfoMap sampleNormalizePath
                   (fun _ => false) (fun _ w => w) [sampleSource; sampleCue]
                   (sampleWorld (lit "") (lit "")))).
Proof.
  apply second_scan_changes_nothing.
  - intros k w. reflexivity.
  - constructor.
  - repeat constructor; simpl; intuition discriminate.
Defined.

(** ** The sync of all notes *)

(** A forward pass completes normally in every world. *)
Lemma syncSourceToCue_normal :
  forall localeCompare normalizePath settings rejects interleaved file w,
    exists w',
      syncSourceToCue localeCompare normalizePath settings rejects interleaved
        file w = (Normal tt, w').
Proof.
  intros cmp np settings rejects interleaved file w. unfold syncSourceToCue.
  destruct (isSyncing w); [now exists w|].
  destruct (isCueNote np (file_path file) || isSummaryNote np (file_path file));
    [now exists w|].
  match goal with
  | |- exists w', (perform (setSyncing true) ;;;
                    tryCatchFinally ?body _ _) w = _ =>
      destruct (guarded_pass_releases interleaved body
                  ErrorDuringSourceToCue (file_basename file) w)
        as (w' & E & _)
  end.
  now exists w'.
Qed.

Lemma batchLoop_counts :
  forall localeCompare normalizePath settings rejects interleaved totalFiles
         files c w,
    exists c' w',
      batchLoop localeCompare normalizePath settings rejects interleaved
        totalFiles files c w = (Normal c', w')
      /\ errorCount c' = errorCount c
      /\ (processedCount c' + skippedDerivedCount c' + skippedNoCueCount c'
          = processedCount c + skippedDerivedCount c + skippedNoCueCount c
            + List.length files)%nat.
Proof.
  intros cmp np settings rejects interleaved total.
  induction files as [|f files IH]; intros c w.
  - exists c, w. simpl. repeat split; lia.
  - cbn [batchLoop].
    destruct (isCueNote np (file_path f) || isSummaryNote np (file_path f)).
    + destruct (IH (countSkippedDerived c) w) as (c' & w' & E & He & Hs).
      exists c', w'. split; [exact E|]. simpl in *. split; [exact He | lia].
    + unfold look at 1. unfold bind at 1.
      destruct (fileAt w (getCueNotePath np f)) as [cueFile|].
      * destruct (syncSourceToCue_normal cmp np settings rejects interleaved
                    f w) as (w1 & E1).
        unfold bind at 1. unfold tryCatch. unfold bind at 1. rewrite E1.
        unfold ret at 1.
        set (total1 := (processedCount (countProcessed c)
                        + skippedDerivedCount (countProcessed c)
                        + skippedNoCueCount (countProcessed c))%nat).
        assert (Hw : exists w2,
                  (if Nat.eqb (total1 mod batchSyncUpdateInterval) O
                      || Nat.eqb total1 total
                   then sleep interleaved else ret tt) w1 = (Normal tt, w2)).
        { destruct (_ || _); eexists; reflexivity. }
        destruct Hw as (w2 & E2). unfold bind at 1. fold total1. rewrite E2.
        destruct (IH (countProcessed c) w2) as (c' & w' & E & He & Hs).
        exists c', w'. split; [exact E|]. simpl in *. split; [exact He | lia].
      * destruct (IH (countSkippedNoCue c) w) as (c' & w' & E & He & Hs).
        exists c', w'. split; [exact E|]. simpl in *. split; [exact He | lia].
Qed.

(** X16: the sync of all notes never counts an error.  Whatever the
    host's calls do and whatever runs meanwhile, the loop of
    [processAllNotesSourceToCue] completes normally with an error count of
    zero and with every file of the list counted once, as processed or as
    skipped; the fatal branch is never taken, and the whole ends as the
    final save ends: with the counts, or with the rejection of that save. *)
Theorem batch_sync_counts_no_error :
  forall localeCompare normalizePath settings rejects interleaved
         allMarkdownFiles w,
    exists counts w1,
      errorCount counts = O
      /\ (processedCount counts + skippedDerivedCount counts
          + skippedNoCueCount counts = List.length allMarkdownFiles)%nat
      /\ processAllNotesSourceToCue localeCompare normalizePath settings
           rejects interleaved allMarkdownFiles w
         = match saveData rejects interleaved w1 with
           | (Normal _, w2) => (Normal (BatchComplete counts), w2)
           | (Throw e, w2) => (Throw e, w2)
           end.
Proof.
  intros cmp np settings rejects interleaved files w.
  destruct (batchLoop_counts cmp np settings rejects interleaved
              (List.length files) files
              {| processedCount := O; skippedDerivedCount := O;
                 skippedNoCueCount := O; errorCount := O |} w)
    as (c & w1 & E & He & Hs).
  exists c, w1. split; [exact He|]. split; [exact Hs|].
  unfold processAllNotesSourceToCue, tryCatchFinally. unfold bind at 1.
  rewrite E. reflexivity.
Qed.

(** ** What [updateCueNoteContent] reports *)

(** X17: [updateCueNoteContent] never throws, and it reports an update
    exactly when it wrote.  When nothing else runs meanwhile, whatever the
    host's calls do, it completes normally; when it returns [true] the Cue
    note was there and now holds the content generated from what it held,
    and that one write is recorded; when it returns [false] (the content
    was up to date, or the read or the write failed) the vault and the
    events are as they were. *)
Theorem updateCueNoteContent_reports_writes :
  forall localeCompare settings rejects interleaved cueNoteFile
         sourceNoteFile footnotes w,
    (forall k w, interleaved k w = w) ->
    exists updated w',
      updateCueNoteContent localeCompare settings rejects interleaved
        cueNoteFile sourceNoteFile footnotes w = (Normal updated, w')
      /\ if updated
         then exists f current,
                getAbstractFileByPath (vault w) (file_path cueNoteFile)
                  = Some (AFile f current)
                /\ vault w'
                   = writeFile (vault w) (file_path cueNoteFile)
                       (generateCueContent localeCompare settings current
                          sourceNoteFile footnotes)
                /\ events w'
                   = events w
                     ++ [Modified (file_path cueNoteFile)
                           (generateCueContent localeCompare settings current
                              sourceNoteFile footnotes)]
         else vault w' = vault w /\ events w' = events w.
Proof.
  intros cmp settings rejects interleaved cue src A w Hint.
  unfold updateCueNoteContent, tryCatch, bind, cachedRead, modify, awaitHost.
  rewrite !Hint.
  destruct (rejects (awaits w)).
  { exists false. eexists. split; [reflexivity|]. now split. }
  simpl vault.
  destruct (getAbstractFileByPath (vault w) (file_path cue))
    as [[f current|p]|] eqn:E.
  2,3: rewrite !Hint; exists false; eexists; split; [reflexivity | now split].
  rewrite !Hint.
  destruct (str_eqb current (generateCueContent cmp settings current src A)).
  { exists false. eexists. split; [reflexivity|]. now split. }
  rewrite !Hint.
  destruct (rejects (awaits (nextAwait w))).
  { exists false. eexists. split; [reflexivity|]. now split. }
  simpl vault. rewrite E. rewrite !Hint.
  exists true. eexists. split; [reflexivity|].
  exists f, current. repeat split.
Qed.

(** The sample Cue note, empty, gets its link and its definition. *)
Lemma updateCueNoteContent_reports_writes_witness :
  exists updated w',
    updateCueNoteContent codeUnitCompare DEFAULT_SETTINGS (fun _ => false)
      (fun _ w => w) sampleCue sampleSource [(lit "1", lit "one")]
      (sampleWorld (lit "") (lit ""))
    = (Normal updated, w')
    /\ if updated
       then exists f current,
              getAbstractFileByPath (vault (sampleWorld (lit "") (lit "")))
                (file_path sampleCue) = Some (AFile f current)
              /\ vault w'
                 = writeFile (vault (sampleWorld (lit "") (lit "")))
                     (file_path sampleCue)
                     (generateCueContent codeUnitCompare DEFAULT_SETTINGS
                        current sampleSource [(lit "1", lit "one")])
              /\ events w'
                 = events (sampleWorld (lit "") (lit ""))
                   ++ [Modified (file_path sampleCue)
                         (generateCueContent codeUnitCompare DEFAULT_SETTINGS
                            current sampleSource [(lit "1", lit "one")])]
       else vault w' = vault (sampleWorld (lit "") (lit ""))
            /\ events w' = events (sampleWorld (lit "") (lit "")).
Proof.
  apply updateCueNoteContent_reports_writes. intros k w. reflexivity.
Defined.

(** ** The Source of a derived note *)

Lemma sourceFromNoteInfo_file : forall w path infos f,
  sourceFromNoteInfo w path infos = Some f -> fileAt w (file_path f) = Some f.
Proof.
  intros w path. induction infos as [|info rest IH]; intros f H;
    [discriminate|].
  simpl in H.
  destruct (option_str_eqb (cuePath info) path
            || option_str_eqb (summaryPath info) path); [|now apply IH].
  destruct (fileAt w (sourcePath info)) as [f0|] eqn:E; [|now apply IH].
  injection H as ->. pose proof (fileAt_path _ _ _ E) as Hp.
  now rewrite Hp.
Qed.

Lemma probePaths_file : forall w sourceBasename paths f,
  probePaths w sourceBasename paths = Some f ->
  fileAt w (file_path f) = Some f
  /\ file_basename f = sourceBasename.
Proof.
  intros w b. induction paths as [|p rest IH]; intros f H; [discriminate|].
  simpl in H. destruct (fileAt w p) as [f0|] eqn:E; [|now apply IH].
  destruct (str_eqb (file_basename f0) b) eqn:Eb; [|now apply IH].
  injection H as ->. apply str_eqb_eq in Eb.
  pose proof (fileAt_path _ _ _ E) as Hp. rewrite Hp. now split.
Qed.

(** X18: what [getSourceNoteFileFromDerived] returns is a file of the
    vault.  It never throws and never touches the vault; when it returns a
    file, the vault has that very file at the file's path; and when it
    returns nothing, it has changed nothing at all. *)
Theorem derived_source_is_in_the_vault :
  forall normalizePath rejects derivedPath w,
    exists result w',
      getSourceNoteFileFromDerived normalizePath rejects derivedPath w
      = (Normal result, w')
      /\ vault w' = vault w
      /\ match result with
         | Some f => fileAt w (file_path f) = Some f
         | None => w' = w
         end.
Proof.
  intros np rejects derivedPath w. unfold getSourceNoteFileFromDerived.
  destruct (sourceFromNoteInfo w (np derivedPath)
              (JsMap.values (noteInfoMap w))) as [f|] eqn:E1.
  { exists (Some f), w. repeat split.
    now apply sourceFromNoteInfo_file in E1. }
  destruct (guessSourceBasename np (np derivedPath)) as [b|];
    [|now exists None, w].
  destruct (negb (truthy b)); [now exists None, w|].
  destruct (probePaths w b _) as [f|] eqn:E2; [|now exists None, w].
  apply probePaths_file in E2 as [E2 _].
  unfold bind, perform, saveDataDetached, ret.
  destruct (rejects _); exists (Some f); eexists;
    (split; [reflexivity|]); split; auto.
Qed.

(** ** Definitions cut out of a Source *)

Lemma defRun_app : forall a b q, defRun q (a ++ b) = defRun (defRun q a) b.
Proof. intros. unfold defRun. apply fold_left_app. Qed.

Lemma defRun_reject : forall s, defRun DReject s = DReject.
Proof. induction s; simpl; auto. Qed.

Lemma defRun_accept : forall s, defRun DAccept s = DAccept.
Proof. induction s; simpl; auto. Qed.

Lemma defRun_lead : forall w s,
  forallb isWhiteSpace w = true -> defRun DLead (w ++ s) = defRun DLead s.
Proof.
  induction w as [|c w IH]; intros s H; [reflexivity|].
  simpl in H. apply andb_true_iff in H as [Hc Hw].
  simpl. rewrite Hc. now apply IH.
Qed.

Lemma defRun_name : forall n s,
  forallb notRBrack n = true -> defRun DName (n ++ s) = defRun DName s.
Proof.
  induction n as [|c n IH]; intros s H; [reflexivity|].
  simpl in H. apply andb_true_iff in H as [Hc Hn].
  unfold notRBrack in Hc. apply negb_true_iff in Hc.
  simpl. rewrite Hc. now apply IH.
Qed.

Lemma defRun_cons : forall q c s,
  defRun q (c :: s) = defRun (defStep q c) s.
Proof. reflexivity. Qed.

Ltac run_step := rewrite defRun_cons; cbv beta iota delta [defStep].

(** The definition pattern matches where a line starts and the text gets
    through. *)
Lemma defRegex_run : forall prev s,
  defRegex prev s <> None
  <-> atLineStart prev = true /\ defRun DLead s = DAccept.
Proof.
  intros prev s. unfold defRegex.
  destruct (atLineStart prev);
    [|split; [intro H; now contradiction H | intros [H _]; discriminate]].
  destruct (span_spec isWhiteSpace s) as (E1 & W1 & H1).
  destruct (span isWhiteSpace s) as [g1 r1]. simpl in E1, W1, H1.
  rewrite E1. rewrite defRun_lead by assumption.
  destruct r1 as [|c1 [|c2 r2]].
  - simpl. split; [intro H; now contradiction H | intros [_ H]; discriminate].
  - simpl. rewrite H1. destruct (c1 =? LBRACK);
      (split; [intro H; now contradiction H | intros [_ H]; discriminate]).
  - run_step. rewrite H1.
    destruct (c1 =? LBRACK); simpl andb.
    2:{ rewrite defRun_reject.
        split; [intro H; now contradiction H | intros [_ H]; discriminate]. }
    run_step.
    destruct (c2 =? CARET).
    2:{ rewrite defRun_reject.
        split; [intro H; now contradiction H | intros [_ H]; discriminate]. }
    destruct (span_spec notRBrack r2) as (E2 & W2 & H2).
    destruct (span notRBrack r2) as [g2 r3]. simpl in E2, W2, H2.
    rewrite E2. destruct g2 as [|b0 b].
    + simpl app. destruct r3 as [|c3 r4].
      * simpl. split; [intro H; now contradiction H
                      | intros [_ H]; discriminate].
      * unfold notRBrack in H2. apply negb_false_iff in H2.
        run_step. rewrite H2. rewrite defRun_reject.
        split; [intro H; now contradiction H | intros [_ H]; discriminate].
    + simpl in W2. apply andb_true_iff in W2 as [Wb0 Wb].
      unfold notRBrack in Wb0. apply negb_true_iff in Wb0.
      simpl app. run_step. rewrite Wb0.
      rewrite defRun_name by assumption.
      destruct r3 as [|c3 [|c4 r4]].
      * simpl. split; [intro H; now contradiction H
                      | intros [_ H]; discriminate].
      * unfold notRBrack in H2. apply negb_false_iff in H2.
        simpl. rewrite H2.
        split; [intro H; now contradiction H | intros [_ H]; discriminate].
      * unfold notRBrack in H2. apply negb_false_iff in H2.
        run_step. rewrite H2. simpl andb. run_step.
        destruct (c4 =? COLON).
        -- rewrite defRun_accept.
           destruct (span isWhiteSpace r4).
           split; [intros _; now split | intros _; discriminate].
        -- rewrite defRun_reject.
           split; [intro H; now contradiction H
                  | intros [_ H]; discriminate].
Qed.


(** A definition met inside a name closes the name and gets through. *)
Lemma defRun_in_name : forall s q,
  q = DLead \/ q = DBracket \/ q = DCaret \/ q = DName ->
  defRun q s = DAccept -> defRun DName s = DAccept.
Proof.
  induction s as [|c r IH]; intros q Hq H.
  - simpl in H. subst q. destruct Hq as [Hq|[Hq|[Hq|Hq]]]; discriminate.
  - rewrite defRun_cons in *.
    destruct Hq as [Hq|[Hq|[Hq|Hq]]]; subst q; cbv beta iota delta [defStep] in *.
    + destruct (isWhiteSpace c) eqn:Hw.
      * assert (Hc : (c =? RBRACK) = false).
        { destruct (c =? RBRACK) eqn:E; [|reflexivity].
          apply N.eqb_eq in E. subst c. discriminate Hw. }
        rewrite Hc. apply (IH DLead); auto.
      * destruct (c =? LBRACK) eqn:Hb.
        -- apply N.eqb_eq in Hb. subst c. simpl. apply (IH DBracket); auto.
        -- rewrite defRun_reject in H. discriminate.
    + destruct (c =? CARET) eqn:Hb.
      * apply N.eqb_eq in Hb. subst c. simpl. apply (IH DCaret); auto.
      * rewrite defRun_reject in H. discriminate.
    + destruct (c =? RBRACK) eqn:Hb.
      * rewrite defRun_reject in H. discriminate.
      * exact H.
    + exact H.
Qed.

(** Where a name is open, the text has a [[^] without a closing bracket
    after it. *)
Lemma defRun_open : forall s q,
  defRun q s = DCaret \/ defRun q s = DName ->
  (exists W N, s = W ++ [LBRACK; CARET] ++ N /\ forallb notRBrack N = true)
  \/ (q = DBracket /\ exists N, s = CARET :: N /\ forallb notRBrack N = true)
  \/ ((q = DCaret \/ q = DName) /\ forallb notRBrack s = true).
Proof.
  assert (Hcons : forall c r,
            (exists W N, r = W ++ [LBRACK; CARET] ++ N
                         /\ forallb notRBrack N = true) ->
            exists W N, c :: r = W ++ [LBRACK; CARET] ++ N
                        /\ forallb notRBrack N = true).
  { intros c r (W & N & E & H). exists (c :: W), N. subst r. auto. }
  induction s as [|c r IH]; intros q H.
  - simpl in H. right. right. split; [|reflexivity].
    destruct H; auto.
  - rewrite defRun_cons in H. specialize (IH (defStep q c) H).
    destruct q; cbv beta iota delta [defStep] in *.
    + destruct (isWhiteSpace c).
      * destruct IH as [IH|[[IH _]|[[IH|IH] _]]]; try discriminate.
        left. now apply Hcons.
      * destruct (c =? LBRACK) eqn:Hb.
        -- apply N.eqb_eq in Hb. subst c.
           destruct IH as [IH|[(_ & N & E & HN)|[[IH|IH] _]]]; try discriminate.
           ++ left. now apply Hcons.
           ++ left. exists [], N. subst r. auto.
        -- rewrite defRun_reject in H. destruct H; discriminate.
    + destruct (c =? CARET) eqn:Hb.
      * apply N.eqb_eq in Hb. subst c.
        destruct IH as [IH|[[IH _]|[_ IH]]]; try discriminate.
        -- left. now apply Hcons.
        -- right. left. split; [reflexivity|]. now exists r.
      * rewrite defRun_reject in H. destruct H; discriminate.
    + destruct (c =? RBRACK) eqn:Hb.
      * rewrite defRun_reject in H. destruct H; discriminate.
      * destruct IH as [IH|[[IH _]|[_ IH]]]; try discriminate.
        -- left. now apply Hcons.
        -- right. right. split; [now left|]. simpl.
           unfold notRBrack at 1. now rewrite Hb.
    + destruct (c =? RBRACK) eqn:Hb.
      * destruct IH as [IH|[[IH _]|[[IH|IH] _]]]; try discriminate.
        left. now apply Hcons.
      * destruct IH as [IH|[[IH _]|[_ IH]]]; try discriminate.
        -- left. now apply Hcons.
        -- right. right. split; [now right|]. simpl.
           unfold notRBrack at 1. now rewrite Hb.
    + destruct (c =? COLON);
        [rewrite defRun_accept in H | rewrite defRun_reject in H];
        destruct H; discriminate.
    + rewrite defRun_accept in H. destruct H; discriminate.
    + rewrite defRun_reject in H. destruct H; discriminate.
Qed.

(** The match of a definition ends where its text ends: at the end of the
    input or before a line terminator. *)
Lemma bodyLen_stops : forall s skip, stops (skipn (bodyLen skip s) s).
Proof.
  induction s as [|c r IH]; intro skip; [destruct skip; exact I|].
  cbn [bodyLen]. destruct skip as [|k]; [|apply IH].
  destruct (isLineTerminator c) eqn:Hc.
  - destruct (c =? LF).
    + destruct (indentLen r); [apply IH | exact Hc].
    + exact Hc.
  - apply IH.
Qed.

Lemma skipn_length_app : forall (a b : str) n,
  skipn (List.length a + n) (a ++ b) = skipn n b.
Proof.
  induction a as [|c a IH]; intros b n; [reflexivity | apply IH].
Qed.

Lemma defRegex_stops : forall prev s len x,
  defRegex prev s = Some (len, x) -> stops (skipn len s).
Proof.
  unfold defRegex. intros prev s len x H.
  destruct (atLineStart prev); [|discriminate].
  destruct (span_spec isWhiteSpace s) as (E1 & _ & _).
  destruct (span isWhiteSpace s) as [g1 r1]. simpl in E1.
  destruct r1 as [|c1 [|c2 r2]]; try discriminate.
  destruct ((c1 =? LBRACK) && (c2 =? CARET)); [|discriminate].
  destruct (span_spec notRBrack r2) as (E2 & _ & _).
  destruct (span notRBrack r2) as [g2 r3]. simpl in E2.
  destruct g2 as [|b0 b]; [discriminate|].
  destruct r3 as [|c3 [|c4 r4]]; try discriminate.
  destruct ((c3 =? RBRACK) && (c4 =? COLON)); [|discriminate].
  destruct (span_spec isWhiteSpace r4) as (E3 & _ & _).
  destruct (span isWhiteSpace r4) as [ws r5]. simpl in E3.
  injection H as Hlen _. subst len s r2 r4.
  replace (g1 ++ c1 :: c2 :: (b0 :: b) ++ c3 :: c4 :: ws ++ r5)
    with (g1 ++ [c1; c2] ++ (b0 :: b) ++ [c3; c4] ++ ws ++ r5)
    by reflexivity.
  rewrite <- !Nat.add_assoc.
  rewrite skipn_length_app.
  rewrite (skipn_length_app [c1; c2]).
  rewrite (skipn_length_app (b0 :: b)).
  rewrite (skipn_length_app [c3; c4]).
  rewrite skipn_length_app.
  apply bodyLen_stops.
Qed.

Lemma follows_step : forall q c, follows (defStep q c) (Some c).
Proof.
  intros q c. destruct q; cbv beta iota delta [defStep].
  - destruct (isWhiteSpace c); [exact I|].
    destruct (c =? LBRACK) eqn:E; [|exact I].
    apply N.eqb_eq in E. now subst c.
  - destruct (c =? CARET) eqn:E; [|exact I].
    apply N.eqb_eq in E. now subst c.
  - destruct (c =? RBRACK); exact I.
  - destruct (c =? RBRACK) eqn:E; [|exact I].
    apply N.eqb_eq in E. now subst c.
  - destruct (c =? COLON); exact I.
  - exact I.
  - exact I.
Qed.

(** Reading a text with its definitions removed gets as far as reading
    the text itself, unless that gets through. *)
Lemma defRun_replaceAll : forall s prev q,
  follows q prev ->
  defRun q s = DAccept
  \/ defRun q (replaceAll defRegex (fun _ => []) prev O s) = defRun q s.
Proof.
  induction s as [|c r IH]; intros prev q Hq; [now right|].
  destruct (defRegex prev (c :: r)) as [[len x]|] eqn:E.
  - assert (Hm : defRegex prev (c :: r) <> None) by (rewrite E; discriminate).
    apply defRegex_run in Hm as [Hp Hacc].
    destruct q; simpl in Hq.
    + now left.
    + subst prev. discriminate Hp.
    + subst prev. discriminate Hp.
    + left. apply (defRun_in_name _ DLead); auto.
    + subst prev. discriminate Hp.
    + left. apply defRun_accept.
    + right. now rewrite !defRun_reject.
  - rewrite replaceAll_no_match by exact E. rewrite !defRun_cons.
    apply IH. apply follows_step.
Qed.

Lemma quiet_nil : forall prev, quiet prev [].
Proof.
  intros prev a b E _. symmetry in E. apply app_eq_nil in E as [_ ->].
  simpl. repeat split; discriminate.
Qed.

Lemma quiet_cons : forall prev c o,
  (atLineStart prev = true -> settled (defRun DLead (c :: o))) ->
  quiet (Some c) o -> quiet prev (c :: o).
Proof.
  intros prev c o H0 H a b E Hl. destruct a as [|d a].
  - simpl in E. subst b. now apply H0.
  - simpl in E. injection E as <- E. now apply (H a b E).
Qed.

Lemma quiet_tail : forall prev a b,
  quiet prev (a ++ b) -> quiet (prevAfter prev a) b.
Proof.
  intros prev a b H x y E Hl. apply (H (a ++ x) y).
  - now rewrite E, app_assoc.
  - now rewrite prevAfter_app.
Qed.

Lemma bracketsClosed_suffix : forall a b,
  bracketsClosed (a ++ b) -> bracketsClosed b.
Proof.
  intros a b H x y E. apply (H (a ++ x) y). rewrite E.
  now rewrite <- app_assoc.
Qed.

(** Where the brackets are closed and no definition starts, the start of
    a line is settled. *)
Lemma settled_start : forall s prev,
  bracketsClosed s -> defRegex prev s = None -> atLineStart prev = true ->
  settled (defRun DLead s).
Proof.
  intros s prev Hb Hn Hl.
  assert (Hopen : defRun DLead s = DCaret \/ defRun DLead s = DName -> False).
  { intro H. apply defRun_open in H.
    destruct H as [(W & N & Es & HN)|[[Q _]|[[Q|Q] _]]]; try discriminate.
    apply Hb in Es. rewrite forallb_forall in HN.
    specialize (HN _ Es). discriminate HN. }
  repeat split; intro E.
  - assert (H : defRegex prev s <> None) by (apply defRegex_run; auto).
    contradiction.
  - apply Hopen. now left.
  - apply Hopen. now right.
Qed.

(** With its definitions removed, a text whose brackets are closed has no
    line start at which a definition starts or a name stays open. *)
Lemma quiet_replaceAll : forall n s prevIn prevOut,
  (List.length s <= n)%nat ->
  prevIn = prevOut \/ stops s ->
  bracketsClosed s ->
  quiet prevOut (replaceAll defRegex (fun _ => []) prevIn O s).
Proof.
  induction n as [|n IH]; intros s prevIn prevOut Hn HR Hb.
  - destruct s; [apply quiet_nil | simpl in Hn; lia].
  - destruct s as [|c r]; [apply quiet_nil|].
    destruct (defRegex prevIn (c :: r)) as [[len x]|] eqn:E.
    + pose proof (defRegex_len _ _ _ _ E) as Hlen.
      pose proof (defRegex_stops _ _ _ _ E) as Hs.
      set (a := firstn len (c :: r)) in *.
      set (b := skipn len (c :: r)) in *.
      assert (Es : c :: r = a ++ b) by (symmetry; apply firstn_skipn).
      assert (La : List.length a = len) by (apply firstn_length_le; lia).
      assert (Ha : a <> []).
      { intro H. rewrite H in La. simpl in La. lia. }
      rewrite Es in E, Hb |- *. rewrite <- La in E.
      rewrite (replaceAll_match _ _ _ a b prevIn x Ha E). simpl app.
      apply IH.
      * assert (L : List.length (c :: r) = (List.length a + List.length b)%nat)
          by (rewrite Es; apply length_app).
        simpl in L, Hn. lia.
      * now right.
      * now apply bracketsClosed_suffix in Hb.
    + assert (Hr : quiet (Some c) (replaceAll defRegex (fun _ => []) (Some c) O r)).
      { apply IH; [simpl in Hn; lia | now left|].
        now apply (bracketsClosed_suffix [c]). }
      rewrite replaceAll_no_match by exact E. apply quiet_cons; [|exact Hr].
      intro Hl. destruct HR as [<-|Hst].
      * rewrite <- (replaceAll_no_match _ defRegex (fun _ => []) c r prevIn E).
        destruct (defRun_replaceAll (c :: r) prevIn DLead I) as [Ha|Heq].
        -- exfalso.
           assert (H : defRegex prevIn (c :: r) <> None)
             by (apply defRegex_run; auto).
           contradiction.
        -- rewrite Heq. now apply settled_start with prevIn.
      * simpl in Hst. rewrite defRun_cons. cbv beta iota delta [defStep].
        rewrite (LT_is_space c Hst).
        apply (Hr [] _ eq_refl). exact Hst.
Qed.

Lemma space_not_RBrack : forall w,
  forallb isWhiteSpace w = true -> forallb notRBrack w = true.
Proof.
  induction w as [|c w IH]; intro H; [reflexivity|].
  simpl in *. apply andb_true_iff in H as [Hc Hw].
  rewrite IH by assumption. rewrite andb_true_r.
  unfold notRBrack. destruct (c =? RBRACK) eqn:E; [|reflexivity].
  apply N.eqb_eq in E. subst c. discriminate Hc.
Qed.

Lemma defRun_name_all : forall n,
  forallb notRBrack n = true -> defRun DName n = DName.
Proof.
  intros n H. rewrite <- (app_nil_r n). now rewrite defRun_name.
Qed.

Lemma settled_before_blank : forall w o q,
  forallb isWhiteSpace w = true ->
  settled (defRun q (o ++ w)) -> settled (defRun q o).
Proof.
  intros w o q Hw H. rewrite defRun_app in H.
  apply space_not_RBrack in Hw.
  destruct (defRun q o); try (repeat split; discriminate).
  - destruct w as [|c w]; [exact H|].
    simpl in Hw. apply andb_true_iff in Hw as [Hc Hw].
    unfold notRBrack in Hc. apply negb_true_iff in Hc.
    rewrite defRun_cons in H. cbv beta iota delta [defStep] in H.
    rewrite Hc in H. rewrite defRun_name_all in H by assumption.
    destruct H as (_ & _ & H). now contradiction H.
  - rewrite defRun_name_all in H by assumption.
    destruct H as (_ & _ & H). now contradiction H.
  - rewrite defRun_accept in H. destruct H as (H & _). now contradiction H.
Qed.

Lemma quiet_trimEnd : forall prev s, quiet prev s -> quiet prev (trimEnd s).
Proof.
  intros prev s H a b E Hl.
  destruct (trimEnd_decomp s) as (tail & Es & Ht).
  apply (settled_before_blank tail); [assumption|].
  apply (H a (b ++ tail)); [|assumption].
  rewrite Es at 1. rewrite E. now rewrite app_assoc.
Qed.

Lemma defStep_LF_idem : forall q, defStep (defStep q LF) LF = defStep q LF.
Proof. destruct q; reflexivity. Qed.

Lemma defRun_LF_run : forall n q s,
  defRun q (repeat LF (S n) ++ s) = defRun (defStep q LF) s.
Proof.
  induction n as [|n IH]; intros q s; [reflexivity|].
  change (repeat LF (S (S n)) ++ s) with (LF :: repeat LF (S n) ++ s).
  rewrite defRun_cons. rewrite IH. now rewrite defStep_LF_idem.
Qed.

(** Collapsing the line feeds does not change how far a text gets. *)
Lemma defRun_collapse : forall s q, defRun q (collapseNewlines s) = defRun q s.
Proof.
  intro s. pattern s. apply str_runs_ind; clear s.
  - reflexivity.
  - intros c r Hc IH q. rewrite collapse_cons_other by assumption.
    rewrite !defRun_cons. apply IH.
  - intros n r Hr IH q. rewrite collapse_run by assumption.
    replace (Nat.min (S n) 2) with (S (Nat.min n 1)) by (destruct n; reflexivity).
    rewrite !defRun_LF_run. apply IH.
Qed.

Lemma prevAfter_LF_run : forall n prev,
  prevAfter prev (repeat LF (S n)) = Some LF.
Proof.
  induction n as [|n IH]; intro prev; [reflexivity|].
  change (repeat LF (S (S n))) with (LF :: repeat LF (S n)).
  rewrite prevAfter_cons. apply IH.
Qed.

Lemma quiet_LF_run : forall k prev o,
  quiet (Some LF) o -> quiet prev (repeat LF (S k) ++ o).
Proof.
  induction k as [|k IH]; intros prev o H.
  - simpl. apply quiet_cons; [|exact H]. intros _.
    rewrite defRun_cons. apply (H [] o eq_refl). reflexivity.
  - change (repeat LF (S (S k)) ++ o) with (LF :: repeat LF (S k) ++ o).
    apply quiet_cons; [|now apply IH]. intros _.
    change (LF :: repeat LF (S k) ++ o) with (repeat LF (S (S k)) ++ o).
    rewrite defRun_LF_run. apply (H [] o eq_refl). reflexivity.
Qed.

Lemma quiet_collapse : forall s prev,
  quiet prev s -> quiet prev (collapseNewlines s).
Proof.
  intro s. pattern s. apply str_runs_ind; clear s.
  - intros prev H. exact H.
  - intros c r Hc IH prev H. rewrite collapse_cons_other by assumption.
    apply quiet_cons.
    + intro Hl. rewrite <- collapse_cons_other by assumption.
      rewrite defRun_collapse. now apply (H [] (c :: r) eq_refl).
    + apply IH. apply (quiet_tail prev [c] r H).
  - intros n r Hr IH prev H. rewrite collapse_run by assumption.
    replace (Nat.min (S n) 2) with (S (Nat.min n 1)) by (destruct n; reflexivity).
    apply quiet_LF_run. apply IH.
    apply quiet_tail in H. now rewrite prevAfter_LF_run in H.
Qed.

Lemma defRun_lead_blank : forall s,
  defRun DLead s = DLead -> forallb isWhiteSpace s = true.
Proof.
  intro s. induction s as [|c r IH] using rev_ind; intro H; [reflexivity|].
  rewrite defRun_app in H. simpl in H.
  rewrite forallb_app. simpl.
  destruct (defRun DLead r); cbv beta iota delta [defStep] in H.
  - destruct (isWhiteSpace c).
    + now rewrite IH.
    + destruct (c =? LBRACK); discriminate.
  - destruct (c =? CARET); discriminate.
  - destruct (c =? RBRACK); discriminate.
  - destruct (c =? RBRACK); discriminate.
  - destruct (c =? COLON); discriminate.
  - discriminate.
  - discriminate.
Qed.

(** In a quiet, trimmed text no definition starts, whatever follows it
    after a line feed. *)
Lemma quiet_noMatchIn : forall prev B z,
  quiet prev B -> trimEnd B = B -> noMatchIn defRegex prev B (LF :: z).
Proof.
  intros prev B z H HB a1 a2 E Hne.
  destruct (defRegex (prevAfter prev a1) (a2 ++ LF :: z)) eqn:D;
    [|reflexivity].
  exfalso.
  assert (Hm : defRegex (prevAfter prev a1) (a2 ++ LF :: z) <> None)
    by (rewrite D; discriminate).
  apply defRegex_run in Hm as [Hl Hacc].
  destruct (H a1 a2 E Hl) as (S1 & S2 & S3).
  assert (Hw : forallb isWhiteSpace a2 = false).
  { destruct (exists_last Hne) as (t' & c' & Ea). subst a2.
    destruct (trimEnd_shape B) as [Eb|(t & c & Eb & Hc)]; rewrite HB in Eb.
    - rewrite Eb in E. symmetry in E. apply app_eq_nil in E as [_ E].
      apply app_eq_nil in E as [_ E]. discriminate.
    - rewrite Eb in E. rewrite app_assoc in E.
      apply app_inj_tail in E as [_ <-].
      rewrite forallb_app. simpl. rewrite Hc. apply andb_false_r. }
  rewrite defRun_app, defRun_cons in Hacc.
  destruct (defRun DLead a2) eqn:Q.
  - apply defRun_lead_blank in Q. congruence.
  - simpl in Hacc. rewrite defRun_reject in Hacc. discriminate.
  - now contradiction S2.
  - now contradiction S3.
  - simpl in Hacc. rewrite defRun_reject in Hacc. discriminate.
  - now contradiction S1.
  - simpl in Hacc. rewrite defRun_reject in Hacc. discriminate.
Qed.

Lemma captures_noMatchIn : forall (R : Type) (m : matcher R) a b prev,
  noMatchIn m prev a b ->
  captures m prev O (a ++ b) = captures m (prevAfter prev a) O b.
Proof.
  intros R m. induction a as [|c a IH]; intros b prev H; [reflexivity|].
  simpl app. rewrite captures_no_match.
  - rewrite prevAfter_cons. apply IH.
    intros a1 a2 E Hne. apply (H (c :: a1) a2); [now rewrite E | assumption].
  - apply (H [] (c :: a)); [reflexivity | discriminate].
Qed.

(** An ascending list sorted to descend is the list reversed. *)
Lemma sortBy_rev_acc : forall (A : Type) (cmp : A -> A -> Z) l acc,
  StronglySorted (fun a b => (cmp b a < 0)%Z) l ->
  (forall x y, In x l -> In y acc -> (cmp x y < 0)%Z) ->
  fold_left (fun acc x => sortInsert cmp x acc) l acc = rev l ++ acc.
Proof.
  induction l as [|x l IH]; intros acc Hs Hacc; [reflexivity|].
  inversion Hs as [|? ? Hs' Hx]; subst. simpl.
  assert (E : sortInsert cmp x acc = x :: acc).
  { destruct acc as [|y acc]; [reflexivity|]. simpl.
    assert (H : (cmp x y < 0)%Z) by (apply Hacc; now left).
    apply Z.ltb_lt in H. now rewrite H. }
  rewrite E. rewrite IH; [now rewrite <- app_assoc | exact Hs' |].
  intros x' y Hx' [<-|Hy].
  - rewrite Forall_forall in Hx. now apply Hx.
  - apply Hacc; [now right | assumption].
Qed.

(** Cutting the matches out from the last to the first, by their
    positions, is replacing each by nothing. *)
Lemma cut_execAll : forall (R : Type) (m : matcher R),
  (forall prev s len x,
     m prev s = Some (len, x) -> (1 <= len <= List.length s)%nat) ->
  forall s prev skip pre,
    (skip <= List.length s)%nat ->
    fold_right
      (fun (r : nat * nat * R) (body : str) =>
         firstn (fst (fst r)) body
         ++ skipn (fst (fst r) + snd (fst r)) body)
      (pre ++ s) (execAll m prev skip (List.length pre) s)
    = pre ++ firstn skip s ++ replaceAll m (fun _ => []) prev skip s.
Proof.
  intros R m Hm. induction s as [|c r IH]; intros prev skip pre Hk.
  - simpl. now rewrite firstn_nil.
  - assert (Hpre : forall k,
              (k <= List.length r)%nat ->
              fold_right
                (fun (r : nat * nat * R) (body : str) =>
                   firstn (fst (fst r)) body
                   ++ skipn (fst (fst r) + snd (fst r)) body)
                (pre ++ c :: r)
                (execAll m (Some c) k (S (List.length pre)) r)
              = pre ++ c :: firstn k r
                ++ replaceAll m (fun _ => []) (Some c) k r).
    { intros k Hk'. specialize (IH (Some c) k (pre ++ [c]) Hk').
      rewrite length_app in IH. simpl in IH. rewrite Nat.add_1_r in IH.
      rewrite <- !app_assoc in IH. exact IH. }
    cbn [execAll replaceAll]. destruct skip as [|k].
    + destruct (m prev (c :: r)) as [[len x]|] eqn:E.
      * apply Hm in E. simpl in E. cbn [fold_right fst snd].
        rewrite Hpre by lia.
        rewrite firstn_app, firstn_all, Nat.sub_diag. simpl firstn.
        rewrite app_nil_r.
        assert (La : List.length (firstn (pred len) r) = pred len)
          by (apply firstn_length_le; lia).
        replace len with (1 + (List.length (firstn (pred len) r) + 0))%nat
          at 1 by lia.
        rewrite skipn_length_app.
        change (skipn (1 + (List.length (firstn (pred len) r) + 0))
                  (c :: firstn (pred len) r
                        ++ replaceAll m (fun _ => []) (Some c) (pred len) r))
          with (skipn (List.length (firstn (pred len) r) + 0)
                  (firstn (pred len) r
                   ++ replaceAll m (fun _ => []) (Some c) (pred len) r)).
        rewrite skipn_length_app. reflexivity.
      * rewrite Hpre by lia. reflexivity.
    + simpl in Hk. rewrite Hpre by lia. reflexivity.
Qed.

Lemma StronglySorted_strengthen : forall (A : Type) (P Q : A -> A -> Prop)
    (F : A -> Prop) l,
  (forall a b, F a -> P a b -> Q a b) ->
  Forall F l -> StronglySorted P l -> StronglySorted Q l.
Proof.
  intros A P Q F l H HF. induction 1 as [|a l S IH Ha]; constructor.
  - apply IH. now inversion HF.
  - inversion HF; subst. eapply Forall_impl; [|exact Ha].
    intros b Hb. now apply H.
Qed.

(** Step 3a of the rebuild removes the definitions of the Source. *)
Lemma cut_definitions : forall content,
  fold_left cutDefinition
    (sortBy (fun a b => (Z.of_nat (def_start b) - Z.of_nat (def_start a))%Z)
            (parseDefinitions content))
    content
  = replaceAll defRegex (fun _ => []) None O content.
Proof.
  intro content.
  destruct (execAll_ordered _ defRegex defRegex_len content None O O)
    as [Fd Sd].
  assert (Hs : StronglySorted
                 (fun a b => (Z.of_nat (def_start a) - Z.of_nat (def_start b) < 0)%Z)
                 (parseDefinitions content)).
  { unfold parseDefinitions. eapply StronglySorted_map.
    2:{ eapply (StronglySorted_strengthen _ _
                  (fun a b => (fst (fst a) < fst (fst b))%nat));
          [|exact Fd|exact Sd].
        intros [[i l] x] [[i' l'] x'] Ha Hab. simpl in *. lia. }
    intros [[i len] [[g1 g2] g3]] [[i' len'] [[g1' g2'] g3']] H.
    simpl in *. lia. }
  unfold sortBy. rewrite sortBy_rev_acc; [|exact Hs|intros x y _ []].
  rewrite app_nil_r.
  transitivity (fold_right (fun d body => cutDefinition body d) content
                           (parseDefinitions content)).
  { rewrite <- (rev_involutive (parseDefinitions content)) at 2.
    rewrite fold_left_rev_right. reflexivity. }
  transitivity (fold_right
                  (fun (r : nat * nat * defCaptures) (body : str) =>
                     firstn (fst (fst r)) body
                     ++ skipn (fst (fst r) + snd (fst r)) body)
                  content (defMatches content)).
  { unfold parseDefinitions.
    induction (defMatches content) as [|[[i len] [[g1 g2] g3]] l IH];
      [reflexivity|].
    simpl. rewrite IH. reflexivity. }
  apply (cut_execAll _ defRegex defRegex_len content None O []).
  lia.
Qed.

Lemma set_from_cue : forall (cue fd : Footnotes) k v,
  NoDup (JsMap.keys cue) ->
  NoDup (JsMap.keys fd) -> (forall e, In e fd -> In e cue) ->
  In (k, v) cue ->
  NoDup (JsMap.keys (JsMap.set fd k v))
  /\ (forall e, In e (JsMap.set fd k v) -> In e cue)
  /\ (forall e, In e fd -> In e (JsMap.set fd k v))
  /\ In (k, v) (JsMap.set fd k v).
Proof.
  intros cue fd k v Hc Hn Hsub Hkv. split; [|split; [|split]].
  - now apply JsMap_keys_set_NoDup.
  - intros e He. apply In_JsMap_set in He as [He| ->]; auto.
  - intros [k' v'] He. destruct (str_eqb k' k) eqn:E.
    + apply str_eqb_eq in E. subst k'.
      pose proof (JsMap_get_unique _ cue k v Hc Hkv) as G1.
      pose proof (JsMap_get_unique _ cue k v' Hc (Hsub _ He)) as G2.
      rewrite G1 in G2. injection G2 as <-. apply In_JsMap_set_same.
    + apply str_eqb_neq in E. now apply In_JsMap_set_other.
  - apply In_JsMap_set_same.
Qed.

Lemma keepOrMark_entries : forall (cue : Footnotes) defs fd marks,
  NoDup (JsMap.keys cue) ->
  NoDup (JsMap.keys fd) -> (forall e, In e fd -> In e cue) ->
  NoDup (JsMap.keys (fst (fold_left (keepOrMark cue) defs (fd, marks))))
  /\ (forall e, In e (fst (fold_left (keepOrMark cue) defs (fd, marks))) ->
                In e cue)
  /\ (forall e, In e fd ->
                In e (fst (fold_left (keepOrMark cue) defs (fd, marks))))
  /\ (forall d v, In d defs -> JsMap.get cue (def_ref d) = Some v ->
        In (def_ref d, v)
           (fst (fold_left (keepOrMark cue) defs (fd, marks)))).
Proof.
  intros cue defs. induction defs as [|d defs IH]; intros fd marks Hc Hn Hsub.
  - simpl. repeat split; auto. intros d v [].
  - cbn [fold_left]. unfold keepOrMark at 2 4 6 8.
    destruct (JsMap.get cue (def_ref d)) as [cueDef|] eqn:G.
    + destruct (set_from_cue cue fd (def_ref d) cueDef Hc Hn Hsub
                  (JsMap_get_In _ _ _ _ G)) as (N1 & S1 & M1 & I1).
      destruct (IH (JsMap.set fd (def_ref d) cueDef) marks Hc N1 S1)
        as (N2 & S2 & M2 & I2).
      split; [exact N2|split; [exact S2|split]].
      * intros e He. apply M2. now apply M1.
      * intros d' v [<-|Hd] Gv.
        -- rewrite G in Gv. injection Gv as <-. now apply M2.
        -- now apply I2.
    + destruct (IH fd (setAdd marks (def_ref d)) Hc Hn Hsub)
        as (N2 & S2 & M2 & I2).
      split; [exact N2|split; [exact S2|split; [exact M2|]]].
      intros d' v [<-|Hd] Gv.
      * rewrite G in Gv. discriminate.
      * now apply I2.
Qed.

Lemma addNew_entries : forall (cue : Footnotes) defs l fd,
  NoDup (JsMap.keys cue) ->
  NoDup (JsMap.keys fd) -> (forall e, In e fd -> In e cue) ->
  (forall e, In e l -> In e cue) ->
  NoDup (JsMap.keys (fold_left (addNew defs) l fd))
  /\ (forall e, In e (fold_left (addNew defs) l fd) -> In e cue)
  /\ (forall e, In e fd -> In e (fold_left (addNew defs) l fd))
  /\ (forall e, In e l ->
        existsb (fun d => str_eqb (def_ref d) (fst e)) defs = false ->
        In e (fold_left (addNew defs) l fd)).
Proof.
  intros cue defs. induction l as [|[k v] l IH]; intros fd Hc Hn Hsub Hl.
  - simpl. repeat split; auto. intros e [].
  - cbn [fold_left]. unfold addNew at 2 4 6 8. cbn [fst snd].
    assert (Hl' : forall e, In e l -> In e cue)
      by (intros e He; apply Hl; now right).
    destruct (existsb (fun d => str_eqb (def_ref d) k) defs) eqn:X.
    + destruct (IH fd Hc Hn Hsub Hl') as (N2 & S2 & M2 & I2).
      split; [exact N2|split; [exact S2|split; [exact M2|]]].
      intros e [<-|He] Xe.
      * simpl in Xe. rewrite X in Xe. discriminate.
      * now apply I2.
    + destruct (set_from_cue cue fd k v Hc Hn Hsub
                  (Hl _ (or_introl eq_refl))) as (N1 & S1 & M1 & I1).
      destruct (IH (JsMap.set fd k v) Hc N1 S1 Hl') as (N2 & S2 & M2 & I2).
      split; [exact N2|split; [exact S2|split]].
      * intros e He. apply M2. now apply M1.
      * intros e [<-|He] Xe.
        -- now apply M2.
        -- now apply I2.
Qed.

(** Step 2 of the rebuild: the definitions that remain are the Cue's. *)
Lemma finalDefinitions_cue : forall (cue : Footnotes) defs,
  NoDup (JsMap.keys cue) ->
  NoDup (JsMap.keys (finalDefinitions cue defs))
  /\ (forall e, In e (finalDefinitions cue defs) <-> In e cue).
Proof.
  intros cue defs Hc. unfold finalDefinitions.
  destruct (keepOrMark_entries cue defs JsMap.empty [] Hc)
    as (N1 & S1 & _ & I1); [constructor | intros e [] |].
  destruct (addNew_entries cue defs (JsMap.entries cue) _ Hc N1 S1)
    as (N2 & S2 & M2 & I2); [auto|].
  split; [exact N2|]. intro e. split; [apply S2|]. intro He.
  destruct (existsb (fun d => str_eqb (def_ref d) (fst e)) defs) eqn:X.
  - apply existsb_exists in X as (d & Hd & Ed). apply str_eqb_eq in Ed.
    apply M2. destruct e as [k v]. simpl in Ed. subst k.
    apply I1; [assumption|]. now apply JsMap_get_unique.
  - now apply I2.
Qed.

(** A block of definition lines has no white space at its end. *)
Lemma definitions_trimmed : forall l,
  l <> [] -> (forall e, In e l -> faithfulEntry e) ->
  trimEnd (join blankLine (List.map renderDefinition l))
  = join blankLine (List.map renderDefinition l).
Proof.
  induction l as [|[r d] l IH]; intros Hne Hl; [contradiction|].
  destruct l as [|e2 l].
  - cbn [List.map join]. unfold renderDefinition. cbn [fst snd].
    destruct (Hl (r, d) (or_introl eq_refl)) as (_ & _ & _ & Hd & _ & Ht).
    simpl in Hd, Ht.
    assert (He : trimEnd d = d).
    { rewrite <- Ht at 1. unfold trim. rewrite trimEnd_idem. exact Ht. }
    rewrite !app_assoc. rewrite trimEnd_app_keep; rewrite He; auto.
  - assert (H2 : trimEnd (join blankLine (List.map renderDefinition (e2 :: l)))
                 = join blankLine (List.map renderDefinition (e2 :: l))).
    { apply IH; [discriminate|]. intros e He. apply Hl. now right. }
    destruct (join_render_head e2 l) as (y & Ey).
    change (List.map renderDefinition ((r, d) :: e2 :: l))
      with (renderDefinition (r, d) :: List.map renderDefinition (e2 :: l)).
    set (J := join blankLine (List.map renderDefinition (e2 :: l))) in *.
    change (join blankLine (renderDefinition (r, d)
                            :: List.map renderDefinition (e2 :: l)))
      with (renderDefinition (r, d) ++ blankLine ++ J).
    rewrite !app_assoc. rewrite trimEnd_app_keep; rewrite H2; auto.
    rewrite Ey. discriminate.
Qed.

(** The footnotes read from what the definition pattern captured, when
    the captures are footnotes that their lines give back. *)
Lemma footnotes_of_captures : forall (caps : list defCaptures) l,
  List.map (fun c : defCaptures => (snd (fst c), snd c)) caps = l ->
  (forall e, In e l -> faithfulEntry e) ->
  NoDup (JsMap.keys l) ->
  fold_left
    (fun m (x : defCaptures) =>
       JsMap.set m (trim (snd (fst x))) (definitionText (snd x)))
    caps JsMap.empty
  = l.
Proof.
  intros caps l Hcap Hl Hnd.
  assert (Hfold : forall (cs : list defCaptures) m,
            (forall e, In e (List.map (fun c : defCaptures =>
                                         (snd (fst c), snd c)) cs) ->
                       faithfulEntry e) ->
            fold_left
              (fun m (x : defCaptures) =>
                 JsMap.set m (trim (snd (fst x))) (definitionText (snd x)))
              cs m
            = fold_left (fun m e => JsMap.set m (fst e) (snd e))
                (List.map (fun c : defCaptures => (snd (fst c), snd c)) cs)
                m).
  { induction cs as [|[[g1 g2] g3] cs IH]; intros m Hcs; [reflexivity|].
    simpl. destruct (Hcs (g2, g3) (or_introl eq_refl))
      as (_ & _ & H2 & _ & H3 & H4).
    simpl in H2, H3, H4.
    rewrite definitionText_line by assumption. rewrite H2, H4.
    apply IH. intros e He. apply Hcs. now right. }
  rewrite Hfold by (rewrite Hcap; exact Hl).
  rewrite Hcap. apply (JsMap_copy str l []). exact Hnd.
Qed.

(** The body and the block of definition lines put together, as the
    rebuild does it. *)
Lemma assemble_source : forall B l,
  trimEnd B = B -> l <> [] -> (forall e, In e l -> faithfulEntry e) ->
  collapseNewlines
    (trimEnd (B ++ blankLine ++ join blankLine (List.map renderDefinition l))
     ++ [LF])
  = collapseNewlines B ++ blankLine
    ++ join blankLine (List.map renderDefinition l) ++ [LF].
Proof.
  intros B L HB HLne HL.
  pose proof (definitions_trimmed L HLne HL) as HT.
  pose proof (collapse_definitions L [LF] HLne HL) as HCD.
  destruct L as [|e l]; [contradiction|].
  destruct (join_render_head e l) as (y & Ey).
  set (J := join blankLine (List.map renderDefinition (e :: l))) in *.
  assert (E1 : trimEnd (B ++ blankLine ++ J) = B ++ blankLine ++ J).
  { assert (E0 : trimEnd (blankLine ++ J) = blankLine ++ J).
    { rewrite trimEnd_app_keep; rewrite HT; auto.
      rewrite Ey. discriminate. }
    rewrite trimEnd_app_keep; rewrite E0; auto.
    rewrite Ey. discriminate. }
  rewrite E1. rewrite <- !app_assoc.
  assert (E2 : collapseNewlines (blankLine ++ J ++ [LF])
               = blankLine ++ J ++ [LF]).
  { change blankLine with (repeat LF 2).
    rewrite collapse_run by (rewrite Ey; reflexivity).
    rewrite HCD. reflexivity. }
  destruct B as [|b0 B'].
  - exact E2.
  - rewrite collapse_app_trimmed by (auto; discriminate).
    now rewrite E2.
Qed.

(** The definitions parsed from what the definition pattern captured,
    when the captures are footnotes that their lines give back. *)
Lemma definitions_of_captures : forall content l,
  List.map (fun c : defCaptures => (snd (fst c), snd c))
    (captures defRegex None O content) = l ->
  (forall e, In e l -> faithfulEntry e) ->
  List.map (fun d => (def_ref d, def_definition d)) (parseDefinitions content)
  = l.
Proof.
  intros content l Hcap Hl. subst l.
  unfold parseDefinitions, captures, defMatches in *.
  induction (execAll defRegex None O O content)
    as [|[[i len] [[g1 g2] g3]] ms IH]; [reflexivity|].
  simpl in *.
  destruct (Hl (g2, g3) (or_introl eq_refl)) as (_ & _ & H2 & _ & H3 & H4).
  simpl in H2, H3, H4.
  rewrite definitionText_line by assumption. rewrite H2, H4.
  f_equal. apply IH. intros e He. apply Hl. now right.
Qed.

(** What the rebuild returns when it deletes no reference: the Source
    with its definitions removed and trimmed, then the definitions it
    keeps. *)
Lemma rebuild_unfold : forall cmp sourceContent (cue : Footnotes) moveToEnd,
  updateSourceNoteContentRebuild cmp sourceContent cue false moveToEnd
  = collapseNewlines
      (trimEnd
         (trimEnd (replaceAll defRegex (fun _ => []) None O sourceContent)
          ++ (if truthy (definitionsText cmp
                           (finalDefinitions cue
                              (parseDefinitions sourceContent)))
              then blankLine
                   ++ definitionsText cmp
                        (finalDefinitions cue (parseDefinitions sourceContent))
              else []))
       ++ [LF]).
Proof.
  intros cmp s cue mv.
  unfold updateSourceNoteContentRebuild, finalDefinitions.
  destruct (fold_left (keepOrMark cue) (parseDefinitions s) (JsMap.empty, []))
    as [fd0 marks].
  cbn [fst andb]. rewrite cut_definitions.
  destruct (truthy _); [|now rewrite app_nil_r].
  destruct mv; reflexivity.
Qed.

Lemma bracketsClosedb_sound : forall s,
  bracketsClosedb s = true -> bracketsClosed s.
Proof.
  induction s as [|c r IH]; intros H a b E.
  - destruct a; discriminate.
  - cbn [bracketsClosedb] in H. apply andb_true_iff in H as [H0 H].
    destruct a as [|d a].
    + simpl in E. injection E as -> ->. simpl in H0.
      replace (startsWith b []) with true in H0 by (destruct b; reflexivity).
      apply existsb_exists in H0 as (x & Hx & Ex).
      apply N.eqb_eq in Ex. now subst x.
    + simpl in E. injection E as _ E. now apply (IH H a b).
Qed.

(** The rebuilt Source, when the brackets of the Source are closed and
    the Cue's footnotes are ones their lines give back: the text of the
    Source without its definitions, in which no definition starts, then
    the definitions kept, which are what the content parses to. *)
Lemma rebuild_facts : forall cmp s (cue : Footnotes) mv,
  bracketsClosed s ->
  NoDup (JsMap.keys cue) ->
  (forall e, In e cue -> faithfulEntry e) ->
  quiet None
    (collapseNewlines (trimEnd (replaceAll defRegex (fun _ => []) None O s)))
  /\ trimEnd
       (collapseNewlines (trimEnd (replaceAll defRegex (fun _ => []) None O s)))
     = collapseNewlines (trimEnd (replaceAll defRegex (fun _ => []) None O s))
  /\ updateSourceNoteContentRebuild cmp s cue false mv
     = collapseNewlines (trimEnd (replaceAll defRegex (fun _ => []) None O s))
       ++ match finalDefinitions cue (parseDefinitions s) with
          | [] => [LF]
          | _ :: _ =>
              blankLine
              ++ join blankLine
                   (List.map renderDefinition
                      (sortBy (fun a b => cmp (fst a) (fst b))
                         (finalDefinitions cue (parseDefinitions s))))
              ++ [LF]
          end
  /\ parseFootnotesSimple (updateSourceNoteContentRebuild cmp s cue false mv)
     = sortBy (fun a b => cmp (fst a) (fst b))
         (finalDefinitions cue (parseDefinitions s))
  /\ List.map (fun d => (def_ref d, def_definition d))
       (parseDefinitions (updateSourceNoteContentRebuild cmp s cue false mv))
     = sortBy (fun a b => cmp (fst a) (fst b))
         (finalDefinitions cue (parseDefinitions s)).
Proof.
  intros cmp s cue mv Hb Hc Hf.
  rewrite rebuild_unfold.
  destruct (finalDefinitions_cue cue (parseDefinitions s) Hc) as (N & I).
  remember (finalDefinitions cue (parseDefinitions s)) as fd eqn:Ef.
  clear Ef.
  remember (trimEnd (replaceAll defRegex (fun _ => []) None O s)) as B eqn:EB.
  assert (HqB : quiet None B).
  { subst B. apply quiet_trimEnd.
    apply (quiet_replaceAll (List.length s)); auto. }
  assert (HB : trimEnd B = B) by (subst B; apply trimEnd_idem).
  destruct (collapse_trimmed B HB) as (CT & CL & _).
  assert (HqC : quiet None (collapseNewlines B)) by now apply quiet_collapse.
  split; [exact HqC|split; [exact CT|]].
  destruct fd as [|e0 fd'] eqn:Efd.
  - unfold definitionsText. simpl. rewrite app_nil_r, HB, CL.
    split; [reflexivity|].
    assert (Hcap : List.map (fun c : defCaptures => (snd (fst c), snd c))
                     (captures defRegex None O (collapseNewlines B ++ [LF]))
                   = []).
    { rewrite captures_noMatchIn by now apply quiet_noMatchIn.
      rewrite captures_noMatch by (apply noMatch_def_plain; reflexivity).
      reflexivity. }
    split.
    + rewrite parseFootnotesSimple_captures.
      apply (footnotes_of_captures _ [] Hcap); [intros e []|constructor].
    + apply (definitions_of_captures _ [] Hcap). intros e [].
  - rewrite <- Efd in N, I.
    assert (DT : definitionsText cmp (e0 :: fd')
                 = join blankLine
                     (List.map renderDefinition
                        (sortBy (fun a b => cmp (fst a) (fst b)) (e0 :: fd'))))
      by reflexivity.
    rewrite DT. clear DT. rewrite <- Efd.
    set (L := sortBy (fun a b => cmp (fst a) (fst b)) fd).
    assert (HL : forall e, In e L -> faithfulEntry e).
    { intros e He. apply Hf, I. unfold L in He. now apply sortBy_In in He. }
    assert (HLne : L <> []).
    { intro H.
      assert (Ha : In e0 L)
        by (unfold L; apply sortBy_In; rewrite Efd; now left).
      rewrite H in Ha. destruct Ha. }
    assert (HLnd : NoDup (JsMap.keys L)).
    { unfold JsMap.keys.
      apply (Permutation_NoDup (l := List.map fst fd)); [|exact N].
      apply Permutation_map. symmetry. apply sortBy_Permutation. }
    clearbody L. clear Efd.
    assert (Htr : truthy (join blankLine (List.map renderDefinition L)) = true).
    { destruct L as [|e l]; [contradiction|].
      destruct (join_render_head e l) as (y & Ey). now rewrite Ey. }
    rewrite Htr. rewrite assemble_source by assumption.
    split; [reflexivity|].
    assert (Hcap : List.map (fun c : defCaptures => (snd (fst c), snd c))
                     (captures defRegex None O
                        (collapseNewlines B ++ blankLine
                         ++ join blankLine (List.map renderDefinition L)
                         ++ [LF]))
                   = L).
    { rewrite captures_noMatchIn by now apply quiet_noMatchIn.
      apply (captures_definitions L blankLine [LF]); auto.
      all: try reflexivity.
      all: try (split; [reflexivity|]; now right). }
    split.
    + rewrite parseFootnotesSimple_captures.
      now apply (footnotes_of_captures _ L Hcap).
    + now apply (definitions_of_captures _ L Hcap).
Qed.

(** X19: what the rebuild writes into the Source, [parseFootnotesSimple]
    reads back as the Cue's footnotes.  When every [[^] of the Source has a
    closing bracket after it, the names of the Cue are distinct, every
    footnote of the Cue has a good, trimmed name without a closing bracket
    and a trimmed text on one line that is not empty, and no reference is
    to be deleted, the footnotes of the rebuilt Source are the footnotes
    of the Cue, each once: the definitions the Source had are gone or
    carry the Cue's text, and the text that is left starts no definition
    of its own. *)
Theorem rebuilt_source_parses_back :
  forall localeCompare sourceContent (footnotesFromCue : Footnotes) moveToEnd,
    bracketsClosed sourceContent ->
    NoDup (JsMap.keys footnotesFromCue) ->
    (forall e, In e footnotesFromCue -> faithfulEntry e) ->
    Permutation
      (JsMap.entries
         (parseFootnotesSimple
            (updateSourceNoteContentRebuild localeCompare sourceContent
               footnotesFromCue false moveToEnd)))
      (JsMap.entries footnotesFromCue).
Proof.
  intros cmp s cue mv Hb Hc Hf.
  destruct (rebuild_facts cmp s cue mv Hb Hc Hf) as (_ & _ & _ & -> & _).
  destruct (finalDefinitions_cue cue (parseDefinitions s) Hc) as (N & I).
  unfold JsMap.entries.
  transitivity (finalDefinitions cue (parseDefinitions s));
    [apply sortBy_Permutation|].
  apply NoDup_Permutation; [| |exact I].
  - now apply (NoDup_map_inv fst).
  - now apply (NoDup_map_inv fst).
Qed.

(** A Source with a reference and a definition, and a Cue that changes the
    text and adds a footnote. *)
Lemma rebuilt_source_parses_back_witness :
  Permutation
    (JsMap.entries
       (parseFootnotesSimple
          (updateSourceNoteContentRebuild codeUnitCompare
             (text "Tea[^1] is good.||[^1]: old text|")
             [(lit "1", lit "new text"); (lit "2", lit "added")]
             false true)))
    (JsMap.entries [(lit "1", lit "new text"); (lit "2", lit "added")]).
Proof.
  apply rebuilt_source_parses_back.
  - apply bracketsClosedb_sound. reflexivity.
  - repeat constructor; simpl; intuition discriminate.
  - intros e [<-|[<-|[]]]; repeat split; try reflexivity; discriminate.
Defined.

(** ** A second rebuild *)

Section Sorting.

Variable A : Type.
Variable cmp : A -> A -> Z.
Hypothesis asym : forall a b, (cmp a b < 0)%Z -> ~ (cmp b a < 0)%Z.
Hypothesis trans :
  forall a b c, (cmp a b < 0)%Z -> (cmp b c < 0)%Z -> (cmp a c < 0)%Z.

Lemma sortInsert_ascending : forall x l,
  StronglySorted (fun a b => ~ (cmp b a < 0)%Z) l ->
  StronglySorted (fun a b => ~ (cmp b a < 0)%Z) (sortInsert cmp x l).
Proof.
  intros x l. induction 1 as [|y l S IH F]; simpl.
  - repeat constructor.
  - destruct (cmp x y <? 0)%Z eqn:E.
    + apply Z.ltb_lt in E. constructor; [now constructor|].
      constructor; [now apply asym|].
      rewrite Forall_forall in *. intros q Hq Hqx.
      apply (F q Hq). now apply (trans q x y).
    + apply Z.ltb_ge in E. constructor; [exact IH|].
      rewrite Forall_forall in *. intros q Hq.
      apply sortInsert_In in Hq as [->|Hq]; [lia | now apply F].
Qed.

Lemma sortBy_ascending : forall l,
  StronglySorted (fun a b => ~ (cmp b a < 0)%Z) (sortBy cmp l).
Proof.
  intro l. unfold sortBy.
  assert (H : forall acc,
            StronglySorted (fun a b => ~ (cmp b a < 0)%Z) acc ->
            StronglySorted (fun a b => ~ (cmp b a < 0)%Z)
              (fold_left (fun acc x => sortInsert cmp x acc) l acc)).
  { induction l as [|x l IH]; intros acc Hacc; [exact Hacc|].
    simpl. apply IH. now apply sortInsert_ascending. }
  apply H. constructor.
Qed.

Lemma sortInsert_last : forall x l,
  Forall (fun y => ~ (cmp x y < 0)%Z) l -> sortInsert cmp x l = l ++ [x].
Proof.
  intros x l. induction 1 as [|y l Hy F IH]; simpl; [reflexivity|].
  destruct (cmp x y <? 0)%Z eqn:E.
  - apply Z.ltb_lt in E. contradiction.
  - now rewrite IH.
Qed.

Lemma StronglySorted_app_inv : forall (R : A -> A -> Prop) a b,
  StronglySorted R (a ++ b) ->
  StronglySorted R b /\ forall x y, In x a -> In y b -> R x y.
Proof.
  intros R. induction a as [|c a IH]; intros b H.
  - split; [exact H | intros x y []].
  - simpl in H. inversion H as [|? ? S F]; subst.
    destruct (IH b S) as (Sb & Hab). split; [exact Sb|].
    intros x y [<-|Hx] Hy.
    + rewrite Forall_forall in F. apply F. apply in_or_app. now right.
    + now apply Hab.
Qed.

(** Sorting a sorted list leaves it as it is. *)
Lemma sortBy_fixed : forall l,
  StronglySorted (fun a b => ~ (cmp b a < 0)%Z) l -> sortBy cmp l = l.
Proof.
  intro l. unfold sortBy.
  assert (H : forall acc,
            StronglySorted (fun a b => ~ (cmp b a < 0)%Z) (acc ++ l) ->
            fold_left (fun acc x => sortInsert cmp x acc) l acc = acc ++ l).
  { induction l as [|x l IH]; intros acc Hs; simpl.
    - now rewrite app_nil_r.
    - destruct (StronglySorted_app_inv _ acc (x :: l) Hs) as (_ & Hax).
      rewrite sortInsert_last.
      + rewrite IH; rewrite <- app_assoc; [reflexivity | exact Hs].
      + rewrite Forall_forall. intros y Hy. apply Hax; [assumption|now left]. }
  intro Hs. apply (H []). exact Hs.
Qed.

Lemma sortBy_idem : forall l, sortBy cmp (sortBy cmp l) = sortBy cmp l.
Proof. intro l. apply sortBy_fixed. apply sortBy_ascending. Qed.

End Sorting.

Lemma replaceAll_noMatchIn : forall (R : Type) (m : matcher R) f a b prev,
  noMatchIn m prev a b ->
  replaceAll m f prev O (a ++ b) = a ++ replaceAll m f (prevAfter prev a) O b.
Proof.
  intros R m f. induction a as [|c a IH]; intros b prev H; [reflexivity|].
  simpl app. rewrite replaceAll_no_match.
  - f_equal. apply IH.
    intros a1 a2 E Hne. apply (H (c :: a1) a2); [now rewrite E | assumption].
  - apply (H [] (c :: a)); [reflexivity | discriminate].
Qed.

(** Removing the definitions takes a definition line as the generators
    write it, and of the white space before it what starts a line. *)
Lemma removal_after_space : forall x r d t prev,
  forallb isWhiteSpace x = true -> atLineStart (prevAfter prev x) = true ->
  r <> [] -> forallb notRBrack r = true ->
  match d with [] => False | c :: _ => isWhiteSpace c = false end ->
  forallb notLineTerminator d = true -> endsBody t ->
  exists x' last,
    forallb isWhiteSpace x' = true
    /\ replaceAll defRegex (fun _ => []) prev O
         (x ++ renderDefinition (r, d) ++ t)
       = x' ++ replaceAll defRegex (fun _ => []) (Some last) O t.
Proof.
  intros x r d t prev Hx Hl Hr Hrb Hd Hline Ht. revert prev Hl.
  assert (Hne : forall w, w ++ renderDefinition (r, d) <> []).
  { intros w H. apply app_eq_nil in H as [_ H]. discriminate H. }
  assert (Hhit : forall w prev,
            atLineStart prev = true -> forallb isWhiteSpace w = true ->
            exists last,
              replaceAll defRegex (fun _ => []) prev O
                (w ++ renderDefinition (r, d) ++ t)
              = replaceAll defRegex (fun _ => []) (Some last) O t).
  { intros w prev Hp Hw.
    destruct (prevAfter_last (w ++ renderDefinition (r, d)) prev (Hne w))
      as (last & El & _).
    exists last. rewrite <- El. rewrite app_assoc.
    rewrite (replaceAll_match _ defRegex (fun _ => [])
               (w ++ renderDefinition (r, d)) t prev (w, r, d));
      [reflexivity | apply Hne|].
    rewrite <- app_assoc. now apply defRegex_line. }
  induction x as [|c x IH]; intros prev Hl.
  - destruct (Hhit [] prev Hl eq_refl) as (last & E).
    exists [], last. split; [reflexivity | exact E].
  - destruct (atLineStart prev) eqn:P.
    + destruct (Hhit (c :: x) prev P Hx) as (last & E).
      exists [], last. split; [reflexivity | exact E].
    + simpl in Hx. apply andb_true_iff in Hx as [Hc Hx].
      simpl app. rewrite replaceAll_no_match
        by (unfold defRegex; now rewrite P).
      destruct (IH Hx (Some c) Hl) as (x' & last & Hx' & E).
      exists (c :: x'), last. split.
      * simpl. now rewrite Hc, Hx'.
      * exact (f_equal (cons c) E).
Qed.

(** Removing the definitions from a block of definition lines as the
    generators write it, between white space and a plain text, leaves
    white space and the plain text. *)
Lemma removal_definitions : forall l x t prev,
  l <> [] -> (forall e, In e l -> faithfulEntry e) ->
  forallb isWhiteSpace x = true -> atLineStart (prevAfter prev x) = true ->
  plain t -> endsBody t ->
  exists x',
    forallb isWhiteSpace x' = true
    /\ replaceAll defRegex (fun _ => []) prev O
         (x ++ join blankLine (List.map renderDefinition l) ++ t)
       = x' ++ t.
Proof.
  induction l as [|[r d] l IH]; intros x t prev Hne Hl Hx Hp Ht He;
    [contradiction|].
  destruct (Hl (r, d) (or_introl eq_refl))
    as ((Hr & _) & Hrb & _ & Hd & Hline & Htrim).
  simpl in Hr, Hrb, Hd, Hline, Htrim.
  pose proof (trim_fixed_head d Htrim Hd) as Hhead.
  destruct l as [|e2 l].
  - cbn [List.map join].
    destruct (removal_after_space x r d t prev Hx Hp Hr Hrb Hhead Hline He)
      as (x' & last & Hx' & E).
    exists x'. split; [exact Hx'|].
    etransitivity; [exact E|]. f_equal.
    apply replaceAll_noMatch. now apply noMatch_def_plain.
  - cbn [List.map] in IH |- *. rewrite join_cons2. rewrite <- !app_assoc.
    destruct (join_render_head e2 l) as (y & Ey). cbn [List.map] in Ey.
    assert (He1 : endsBody (blankLine
                            ++ join blankLine
                                 (renderDefinition e2
                                  :: List.map renderDefinition l) ++ t)).
    { rewrite Ey. simpl. split; [reflexivity|].
      right. reflexivity. }
    destruct (removal_after_space x r d _ prev Hx Hp Hr Hrb Hhead Hline He1)
      as (x1 & last & Hx1 & E).
    destruct (IH blankLine t (Some last)) as (x2 & Hx2 & E2); auto.
    + discriminate.
    + intros e He'. apply Hl. now right.
    + exists (x1 ++ x2). split.
      * rewrite forallb_app. now rewrite Hx1, Hx2.
      * etransitivity; [exact E|]. rewrite <- app_assoc. f_equal. exact E2.
Qed.

Lemma keepOrMark_sets : forall (cue : Footnotes) defs fd marks,
  (forall d, In d defs ->
     JsMap.get cue (def_ref d) = Some (def_definition d)) ->
  fst (fold_left (keepOrMark cue) defs (fd, marks))
  = fold_left setDefinition defs fd.
Proof.
  intros cue. induction defs as [|d defs IH]; intros fd marks H;
    [reflexivity|].
  cbn [fold_left]. unfold keepOrMark at 2.
  rewrite (H d (or_introl eq_refl)).
  apply IH. intros d' Hd'. apply H. now right.
Qed.

Lemma addNew_none : forall defs (l : list (str * str)) (fd : Footnotes),
  (forall e, In e l ->
     existsb (fun d => str_eqb (def_ref d) (fst e)) defs = true) ->
  fold_left (addNew defs) l fd = fd.
Proof.
  intros defs. induction l as [|e l IH]; intros fd H; [reflexivity|].
  cbn [fold_left]. unfold addNew at 2.
  rewrite (H e (or_introl eq_refl)).
  apply IH. intros e' He'. apply H. now right.
Qed.

Lemma codeUnitCompare_lt : forall a b,
  (codeUnitCompare a b < 0)%Z ->
  match a, b with
  | [], [] => False
  | [], _ :: _ => True
  | _ :: _, [] => False
  | x :: a', y :: b' => x < y \/ (x = y /\ (codeUnitCompare a' b' < 0)%Z)
  end.
Proof.
  intros [|x a] [|y b] H; simpl in *; try lia.
  destruct (x <? y) eqn:E1.
  - apply N.ltb_lt in E1. now left.
  - destruct (y <? x) eqn:E2; [lia|].
    apply N.ltb_ge in E1, E2. right. split; [lia | exact H].
Qed.

Lemma codeUnitCompare_lt_intro : forall x a y b,
  x < y \/ (x = y /\ (codeUnitCompare a b < 0)%Z) ->
  (codeUnitCompare (x :: a) (y :: b) < 0)%Z.
Proof.
  intros x a y b [H|[-> H]]; simpl.
  - apply N.ltb_lt in H. rewrite H. lia.
  - rewrite N.ltb_irrefl. exact H.
Qed.

Lemma codeUnitCompare_consistent : consistentOrder codeUnitCompare.
Proof.
  split.
  - induction a as [|x a IH]; intros [|y b] H1 H2;
      apply codeUnitCompare_lt in H1; apply codeUnitCompare_lt in H2;
      try contradiction.
    destruct H1 as [H1|[-> H1]], H2 as [H2|[E2 H2]]; try lia.
    now apply (IH b).
  - induction a as [|x a IH]; intros [|y b] [|z c] H1 H2;
      apply codeUnitCompare_lt in H1; apply codeUnitCompare_lt in H2;
      try contradiction; try (simpl; lia).
    apply codeUnitCompare_lt_intro.
    destruct H1 as [H1|[-> H1]], H2 as [H2|[-> H2]];
      try (left; lia).
    right. split; [reflexivity|]. now apply (IH b c).
Qed.

(** Rebuilding a rebuilt Source from the same Cue. *)
Lemma second_rebuild_fixed :
  forall localeCompare sourceContent (footnotesFromCue : Footnotes)
         moveToEnd moveToEnd',
    consistentOrder localeCompare ->
    bracketsClosed sourceContent ->
    NoDup (JsMap.keys footnotesFromCue) ->
    (forall e, In e footnotesFromCue -> faithfulEntry e) ->
    updateSourceNoteContentRebuild localeCompare
      (updateSourceNoteContentRebuild localeCompare sourceContent
         footnotesFromCue false moveToEnd)
      footnotesFromCue false moveToEnd'
    = updateSourceNoteContentRebuild localeCompare sourceContent
        footnotesFromCue false moveToEnd.
Proof.
  intros cmp s cue mv mv' [Hasym Htrans] Hb Hc Hf.
  destruct (rebuild_facts cmp s cue mv Hb Hc Hf) as (Hq & Ht & ER & EP & ED).
  destruct (finalDefinitions_cue cue (parseDefinitions s) Hc) as (N & I).
  assert (HCC : collapseNewlines
                  (collapseNewlines
                     (trimEnd (replaceAll defRegex (fun _ => []) None O s)))
                = collapseNewlines
                    (trimEnd (replaceAll defRegex (fun _ => []) None O s)))
    by apply collapse_idem.
  remember (updateSourceNoteContentRebuild cmp s cue false mv) as R eqn:HR.
  remember (collapseNewlines
              (trimEnd (replaceAll defRegex (fun _ => []) None O s)))
    as CB eqn:HCB.
  remember (finalDefinitions cue (parseDefinitions s)) as fd eqn:Hfd.
  clear HR HCB Hfd.
  set (L := sortBy (fun a b => cmp (fst a) (fst b)) fd) in *.
  assert (HL : forall e, In e L <-> In e cue).
  { intro e. unfold L. rewrite sortBy_In. apply I. }
  assert (HLf : forall e, In e L -> faithfulEntry e).
  { intros e He. now apply Hf, HL. }
  assert (Hfd2 : finalDefinitions cue (parseDefinitions R) = L).
  { unfold finalDefinitions. rewrite keepOrMark_sets.
    - rewrite <- parseFootnotesSimple_fold, EP. apply addNew_none.
      intros e He. apply HL in He. rewrite <- ED in He.
      apply in_map_iff in He as (d & Ed & Hd).
      apply existsb_exists. exists d. split; [exact Hd|].
      apply str_eqb_eq. now rewrite <- Ed.
    - intros d Hd. apply JsMap_get_unique; [exact Hc|]. apply HL.
      rewrite <- ED. apply in_map_iff. now exists d. }
  assert (Hsort : sortBy (fun a b => cmp (fst a) (fst b)) L = L).
  { unfold L. apply sortBy_idem.
    - intros a b. apply Hasym.
    - intros a b c. apply Htrans. }
  rewrite rebuild_unfold, Hfd2.
  destruct (collapse_trimmed CB Ht) as (_ & CL & _).
  destruct fd as [|e0 fd'] eqn:Efd.
  - (* no definition is kept *)
    assert (HB2 : trimEnd (replaceAll defRegex (fun _ => []) None O R) = CB).
    { rewrite ER.
      rewrite replaceAll_noMatchIn by now apply quiet_noMatchIn.
      rewrite trimEnd_app_blank; [exact Ht|].
      rewrite replaceAll_noMatch by (apply noMatch_def_plain; reflexivity).
      reflexivity. }
    rewrite HB2. unfold L, definitionsText. simpl.
    rewrite app_nil_r, Ht, CL, HCC. symmetry. exact ER.
  - assert (HLne : L <> []).
    { intro H.
      assert (Ha : In e0 L) by (unfold L; apply sortBy_In; now left).
      rewrite H in Ha. destruct Ha. }
    clearbody L.
    assert (HB2 : trimEnd (replaceAll defRegex (fun _ => []) None O R) = CB).
    { rewrite ER.
      rewrite replaceAll_noMatchIn by now apply quiet_noMatchIn.
      destruct (removal_definitions L blankLine [LF]
                  (prevAfter None CB) HLne HLf eq_refl eq_refl eq_refl
                  (conj eq_refl (or_intror eq_refl))) as (x' & Hx' & E).
      etransitivity; [exact (f_equal (fun z => trimEnd (CB ++ z)) E)|].
      rewrite trimEnd_app_blank; [exact Ht|].
      rewrite forallb_app. now rewrite Hx'. }
    rewrite HB2.
    assert (DT : definitionsText cmp L
                 = join blankLine (List.map renderDefinition L)).
    { unfold definitionsText, JsMap.entries. rewrite Hsort.
      destruct L; [contradiction | reflexivity]. }
    rewrite DT.
    assert (Htr : truthy (join blankLine (List.map renderDefinition L)) = true).
    { destruct L as [|e l]; [contradiction|].
      destruct (join_render_head e l) as (y & Ey). now rewrite Ey. }
    rewrite Htr. rewrite assemble_source by assumption.
    rewrite HCC. symmetry. exact ER.
Qed.

(** X20: a second rebuild with the same Cue changes nothing.  When the
    comparison of names is consistent, every [[^] of the Source has a
    closing bracket after it, the names of the Cue are distinct, every
    footnote of the Cue has a good, trimmed name without a closing bracket
    and a trimmed text on one line that is not empty, and no reference is
    to be deleted, rebuilding the rebuilt Source from the same Cue returns
    it as it is. *)
Theorem second_rebuild_changes_nothing :
  forall localeCompare sourceContent (footnotesFromCue : Footnotes)
         moveToEnd moveToEnd',
    consistentOrder localeCompare ->
    bracketsClosed sourceContent ->
    NoDup (JsMap.keys footnotesFromCue) ->
    (forall e, In e footnotesFromCue -> faithfulEntry e) ->
    updateSourceNoteContentRebuild localeCompare
      (updateSourceNoteContentRebuild localeCompare sourceContent
         footnotesFromCue false moveToEnd)
      footnotesFromCue false moveToEnd'
    = updateSourceNoteContentRebuild localeCompare sourceContent
        footnotesFromCue false moveToEnd.
Proof.
  intros cmp s cue mv mv' Hcmp Hb Hc Hf.
  now apply second_rebuild_fixed.
Qed.

(** A Source with a reference and two definitions, and a Cue that changes
    a text, drops a footnote and adds one. *)
Lemma second_rebuild_changes_nothing_witness :
  updateSourceNoteContentRebuild codeUnitCompare
    (updateSourceNoteContentRebuild codeUnitCompare
       (text "Tea[^b] is good.||[^b]: old text|  more|[^3]: gone||After.|")
       [(lit "b", lit "new text"); (lit "a", lit "added")] false true)
    [(lit "b", lit "new text"); (lit "a", lit "added")] false true
  = updateSourceNoteContentRebuild codeUnitCompare
      (text "Tea[^b] is good.||[^b]: old text|  more|[^3]: gone||After.|")
      [(lit "b", lit "new text"); (lit "a", lit "added")] false true.
Proof.
  apply second_rebuild_changes_nothing.
  - apply codeUnitCompare_consistent.
  - apply bracketsClosedb_sound. reflexivity.
  - repeat constructor; simpl; intuition discriminate.
  - intros e [<-|[<-|[]]]; repeat split; try reflexivity; discriminate.
Defined.

(** X21: from the Cue to the Source and back.  When the deletion of
    definitions without reference is off, the header of the Cue has no
    [[^], every [[^] of the Source has a closing bracket after it, the
    names of the Cue are distinct and every footnote of the Cue has a
    good, trimmed name without a closing bracket and a trimmed text on one
    line that is not empty, then the Cue content the forward pass
    generates from the rebuilt Source holds the footnotes of the Cue, each
    once. *)
Theorem cue_survives_the_round_trip :
  forall localeCompare settings sourceContent currentCueContent sourceNoteFile
         (footnotesFromCue : Footnotes) moveToEnd,
    deleteDefinitionsOnReferenceDelete settings = false ->
    plain (extractedHeader (linkToSource settings sourceNoteFile)
             currentCueContent) ->
    bracketsClosed sourceContent ->
    NoDup (JsMap.keys footnotesFromCue) ->
    (forall e, In e footnotesFromCue -> faithfulEntry e) ->
    Permutation
      (JsMap.entries
         (parseFootnotesSimple
            (generateCueContent localeCompare settings currentCueContent
               sourceNoteFile
               (finalCueFootnotes settings
                  (updateSourceNoteContentRebuild localeCompare sourceContent
                     footnotesFromCue false moveToEnd)))))
      (JsMap.entries footnotesFromCue).
Proof.
  intros cmp settings s c f cue mv Hoff Hh Hb Hc Hf.
  rewrite finalCueFootnotes_source by assumption.
  destruct (rebuild_facts cmp s cue mv Hb Hc Hf) as (_ & _ & _ & -> & _).
  destruct (finalDefinitions_cue cue (parseDefinitions s) Hc) as (N & I).
  set (L := sortBy (fun a b => cmp (fst a) (fst b))
              (finalDefinitions cue (parseDefinitions s))).
  assert (PL : Permutation L cue).
  { transitivity (finalDefinitions cue (parseDefinitions s));
      [apply sortBy_Permutation|].
    apply NoDup_Permutation; [| |exact I].
    - now apply (NoDup_map_inv fst).
    - now apply (NoDup_map_inv fst). }
  rewrite generateCueContent_parses.
  - unfold JsMap.entries. transitivity L; [apply sortBy_Permutation|exact PL].
  - exact Hh.
  - unfold JsMap.keys. apply (Permutation_NoDup (l := List.map fst cue));
      [|exact Hc].
    apply Permutation_map. now symmetry.
  - intros e He. apply Hf. now apply (Permutation_in e PL).
Qed.

(** The Cue of a note: its link, then two footnotes; the Source has a
    reference and the first footnote with another text. *)
Lemma cue_survives_the_round_trip_witness :
  Permutation
    (JsMap.entries
       (parseFootnotesSimple
          (generateCueContent codeUnitCompare DEFAULT_SETTINGS
             (text "[[Tea]]||[^1]: new text||[^2]: added|")
             {| file_path := lit "Notes/Tea.md";
                file_basename := lit "Tea";
                file_parent := Some (lit "Notes") |}
             (finalCueFootnotes DEFAULT_SETTINGS
                (updateSourceNoteContentRebuild codeUnitCompare
                   (text "Tea[^1] is good.||[^1]: old text|")
                   [(lit "1", lit "new text"); (lit "2", lit "added")]
                   false true)))))
    (JsMap.entries [(lit "1", lit "new text"); (lit "2", lit "added")]).
Proof.
  apply cue_survives_the_round_trip.
  - reflexivity.
  - reflexivity.
  - apply bracketsClosedb_sound. reflexivity.
  - repeat constructor; simpl; intuition discriminate.
  - intros e [<-|[<-|[]]]; repeat split; try reflexivity; discriminate.
Defined.

(** ** A backward pass on a pair that is in step *)

(** X22: once the Source holds what the rebuild makes from the Cue, a
    backward pass writes nothing.  When no call of the host rejects and
    nothing else runs meanwhile, references are not to be deleted, the
    comparison of names is consistent, and the Source holds the content
    rebuilt, from a content whose [[^] all have a closing bracket after
    them, with the footnotes of the Cue, each of them with a good, trimmed
    name without a closing bracket and a trimmed text on one line that is
    not empty, then [syncCueToSource] completes normally, releases the
    guard, leaves the Source and the Cue holding what they held, and
    records no write. *)
Theorem backward_sync_settled :
  forall localeCompare normalizePath settings rejects interleaved
         cueNoteFile cf sourceNoteFile cueContent sourceContent moveToEnd w,
    (forall k, rejects k = false) ->
    (forall k w, interleaved k w = w) ->
    isSyncing w = false ->
    isCueNote normalizePath (file_path cueNoteFile) = true ->
    getAbstractFileByPath (vault w) (file_path cueNoteFile)
      = Some (AFile cf cueContent) ->
    sourceFromNoteInfo w (normalizePath (file_path cueNoteFile))
      (JsMap.values (noteInfoMap w)) = Some sourceNoteFile ->
    getAbstractFileByPath (vault w) (file_path sourceNoteFile)
      = Some (AFile sourceNoteFile
                (updateSourceNoteContentRebuild localeCompare sourceContent
                   (parseFootnotesSimple cueContent) false moveToEnd)) ->
    file_path sourceNoteFile <> file_path cueNoteFile ->
    deleteReferencesOnDefinitionDelete settings = false ->
    consistentOrder localeCompare ->
    bracketsClosed sourceContent ->
    (forall e, In e (parseFootnotesSimple cueContent) -> faithfulEntry e) ->
    exists w',
      syncCueToSource localeCompare normalizePath settings rejects
        interleaved cueNoteFile w = (Normal tt, w')
      /\ isSyncing w' = false
      /\ getAbstractFileByPath (vault w') (file_path sourceNoteFile)
         = Some (AFile sourceNoteFile
                   (updateSourceNoteContentRebuild localeCompare sourceContent
                      (parseFootnotesSimple cueContent) false moveToEnd))
      /\ getAbstractFileByPath (vault w') (file_path cueNoteFile)
         = Some (AFile cf cueContent)
      /\ modifications (events w') = modifications (events w).
Proof.
  intros cmp np settings rejects interleaved cue cf src C S mv w
         Hrej Hint Hidle Hrole Hcue Hfind Hsrc Hneq Hoff Hcmp Hb Hf.
  assert (Hnd : NoDup (JsMap.keys (parseFootnotesSimple C))).
  { rewrite parseFootnotesSimple_fold. apply fold_setDefinition_NoDup.
    constructor. }
  destruct (backward_pass cmp np settings rejects interleaved cue cf src C _ w
              Hrej Hint Hidle Hrole Hcue Hfind Hsrc Hneq)
    as (w' & E & Hg & Hs & Hc & Hm).
  rewrite Hoff in Hs, Hm.
  rewrite (second_rebuild_fixed cmp S (parseFootnotesSimple C) mv
             (moveFootnotesToEnd settings) Hcmp Hb Hnd Hf) in Hs, Hm.
  rewrite str_eqb_refl, app_nil_r in Hm.
  exists w'. repeat split; assumption.
Qed.

(** The sample pair after a backward pass: the Source holds what the
    rebuild made of it with the footnote of the Cue. *)
Lemma backward_sync_settled_witness :
  exists w',
    syncCueToSource codeUnitCompare sampleNormalizePath DEFAULT_SETTINGS
      (fun _ => false) (fun _ w => w) sampleCue
      (sampleLinkedWorld
         (updateSourceNoteContentRebuild codeUnitCompare
            (text "Text[^1]||[^1]: one|")
            (parseFootnotesSimple (text "[^1]: uno|")) false true)
         (text "[^1]: uno|"))
    = (Normal tt, w')
    /\ isSyncing w' = false
    /\ getAbstractFileByPath (vault w') (file_path sampleSource)
       = Some (AFile sampleSource
                 (updateSourceNoteContentRebuild codeUnitCompare
                    (text "Text[^1]||[^1]: one|")
                    (parseFootnotesSimple (text "[^1]: uno|")) false true))
    /\ getAbstractFileByPath (vault w') (file_path sampleCue)
       = Some (AFile sampleCue (text "[^1]: uno|"))
    /\ modifications (events w')
       = modifications
           (events
              (sampleLinkedWorld
                 (updateSourceNoteContentRebuild codeUnitCompare
                    (text "Text[^1]||[^1]: one|")
                    (parseFootnotesSimple (text "[^1]: uno|")) false true)
                 (text "[^1]: uno|"))).
Proof.
  apply (backward_sync_settled codeUnitCompare sampleNormalizePath
           DEFAULT_SETTINGS (fun _ => false) (fun _ w => w) sampleCue
           sampleCue sampleSource);
    try reflexivity.
  - discriminate.
  - apply codeUnitCompare_consistent.
  - apply bracketsClosedb_sound. reflexivity.
  - intros e [<-|[]]; repeat split; try reflexivity; discriminate.
Defined.

(** ** The two deletion options *)

Lemma final0_source : forall s,
  fold_left (fun m e => JsMap.set m (fst e) (snd e))
    (JsMap.entries
       (JsMap.ofEntries
          (List.map (fun def => (def_ref def, def_definition def))
             (parseDefinitions s))))
    JsMap.empty
  = parseFootnotesSimple s.
Proof.
  intro s. rewrite parseFootnotesSimple_fold.
  assert (E : JsMap.ofEntries
                (List.map (fun def => (def_ref def, def_definition def))
                   (parseDefinitions s))
              = fold_left setDefinition (parseDefinitions s) JsMap.empty).
  { unfold JsMap.ofEntries. generalize (@JsMap.empty str).
    induction (parseDefinitions s) as [|d l IH]; intro m; simpl; [reflexivity|].
    apply IH. }
  rewrite E. unfold JsMap.entries.
  apply (JsMap_copy str _ []). simpl.
  apply fold_setDefinition_NoDup. constructor.
Qed.

(** Deleting from a map the entries of a list that a test does not keep
    leaves the entries that are not in the list or that the test keeps. *)
Lemma fold_delete_entries : forall (keep : str -> bool) (l : list (str * str))
    (m : Footnotes),
  NoDup (JsMap.keys m) ->
  NoDup
    (JsMap.keys
       (fold_left (fun m e => if keep (fst e) then m else JsMap.delete m (fst e))
          l m))
  /\ forall e,
       In e (fold_left
               (fun m e => if keep (fst e) then m else JsMap.delete m (fst e))
               l m)
       <-> In e m /\ (In (fst e) (List.map fst l) -> keep (fst e) = true).
Proof.
  intros keep. induction l as [|x l IH]; intros m Hm.
  - simpl. split; [exact Hm|]. intro e. split; [intro H; split; tauto|tauto].
  - cbn [fold_left]. destruct (keep (fst x)) eqn:K.
    + destruct (IH m Hm) as (N & I). split; [exact N|].
      intro e. rewrite I. simpl. split; intros [H1 H2]; split; auto.
      intros [E|H]; [now rewrite <- E | now apply H2].
    + destruct (IH (JsMap.delete m (fst x)) (NoDup_JsMap_delete _ _ _ Hm))
        as (N & I).
      split; [exact N|]. intro e. rewrite I.
      rewrite In_JsMap_delete by exact Hm. simpl.
      split.
      * intros [[H1 Hne] H2]. split; [exact H1|].
        intros [E|H]; [congruence | now apply H2].
      * intros [H1 H2]. split; [split; [exact H1|]|].
        -- intro E. rewrite <- E in K. rewrite H2 in K; [discriminate|].
           now left.
        -- intro H. apply H2. now right.
Qed.

(** X23: the footnotes a forward pass writes to the Cue.  They are
    definitions of the Source, by name and each once; with the deletion of
    definitions without reference off they are all of them, and with it on
    they are those whose name a reference of the Source has. *)
Theorem cue_footnotes_are_the_cited_definitions :
  forall settings sourceContent,
    NoDup (JsMap.keys (finalCueFootnotes settings sourceContent))
    /\ forall name definition,
         In (name, definition) (finalCueFootnotes settings sourceContent)
         <-> In (name, definition) (parseFootnotesSimple sourceContent)
             /\ (deleteDefinitionsOnReferenceDelete settings = true ->
                 In name (List.map ref_ref (parseReferences sourceContent))).
Proof.
  intros settings s.
  assert (Hnd : NoDup (JsMap.keys (parseFootnotesSimple s))).
  { rewrite parseFootnotesSimple_fold. apply fold_setDefinition_NoDup.
    constructor. }
  unfold finalCueFootnotes. rewrite final0_source.
  destruct (deleteDefinitionsOnReferenceDelete settings).
  - destruct (fold_delete_entries
                (fun k => existsb (str_eqb k)
                            (List.map ref_ref (parseReferences s)))
                (JsMap.entries (parseFootnotesSimple s))
                (parseFootnotesSimple s) Hnd) as (N & I).
    split; [exact N|]. intros k v. rewrite I. cbn [fst].
    split.
    + intros [H1 H2]. split; [exact H1|]. intros _.
      assert (Hk : In k (List.map fst (JsMap.entries (parseFootnotesSimple s))))
        by (apply in_map_iff; now exists (k, v)).
      apply H2 in Hk. apply existsb_exists in Hk as (x & Hx & E).
      apply str_eqb_eq in E. now subst x.
    + intros [H1 H2]. split; [exact H1|]. intros _.
      apply existsb_exists. exists k. split; [now apply H2|].
      apply str_eqb_refl.
  - split; [exact Hnd|]. intros k v. split; [intro H; split; auto|].
    + discriminate.
    + now intros [H _].
Qed.

Lemma keepOrMark_marks : forall (cue : Footnotes) defs fd marks,
  (forall d, In d defs -> JsMap.get cue (def_ref d) <> None) ->
  snd (fold_left (keepOrMark cue) defs (fd, marks)) = marks.
Proof.
  intros cue. induction defs as [|d defs IH]; intros fd marks H;
    [reflexivity|].
  cbn [fold_left]. unfold keepOrMark at 2.
  destruct (JsMap.get cue (def_ref d)) as [v|] eqn:G.
  - apply IH. intros d' Hd'. apply H. now right.
  - exfalso. now apply (H d (or_introl eq_refl)).
Qed.

(** X24: the deletion of references does nothing while the Cue has every
    definition of the Source.  When every name defined in the Source is a
    name of the Cue, the rebuild returns the same content with the option
    on as with the option off: no reference is touched. *)
Theorem references_kept_while_nothing_is_dropped :
  forall localeCompare sourceContent (footnotesFromCue : Footnotes) moveToEnd,
    (forall d, In d (fst (parseSourceContent sourceContent)) ->
               JsMap.has footnotesFromCue (def_ref d) = true) ->
    updateSourceNoteContentRebuild localeCompare sourceContent footnotesFromCue
      true moveToEnd
    = updateSourceNoteContentRebuild localeCompare sourceContent
        footnotesFromCue false moveToEnd.
Proof.
  intros cmp s cue mv H. unfold updateSourceNoteContentRebuild.
  assert (Hm : snd (fold_left (keepOrMark cue) (parseDefinitions s)
                      (JsMap.empty, [])) = []).
  { apply keepOrMark_marks. intros d Hd G.
    specialize (H d Hd). unfold JsMap.has in H. rewrite G in H.
    discriminate. }
  destruct (fold_left (keepOrMark cue) (parseDefinitions s) (JsMap.empty, []))
    as [fd0 marks].
  simpl in Hm. subst marks. reflexivity.
Qed.

(** The Cue still has the footnote of the Source. *)
Lemma references_kept_while_nothing_is_dropped_witness :
  updateSourceNoteContentRebuild codeUnitCompare
    (text "Tea[^1] is good.||[^1]: old text|")
    [(lit "1", lit "new text"); (lit "2", lit "added")] true true
  = updateSourceNoteContentRebuild codeUnitCompare
      (text "Tea[^1] is good.||[^1]: old text|")
      [(lit "1", lit "new text"); (lit "2", lit "added")] false true.
Proof.
  apply references_kept_while_nothing_is_dropped.
  intros d [<-|[]]. reflexivity.
Defined.

(** ** From the Cue note back to its Source *)

Lemma lastIndexOfSlash_none : forall name i,
  noSlash name -> lastIndexOfSlash i name = None.
Proof.
  unfold noSlash. induction name as [|c r IH]; intros i H; [reflexivity|].
  simpl in *. apply andb_true_iff in H as [Hc Hr].
  rewrite IH by assumption. apply negb_true_iff in Hc. now rewrite Hc.
Qed.

Lemma lastIndexOfSlash_last : forall a name i,
  noSlash name ->
  lastIndexOfSlash i (a ++ slash ++ name) = Some (i + List.length a)%nat.
Proof.
  induction a as [|c a IH]; intros name i H.
  - change ([] ++ slash ++ name) with (47 :: name). cbn [lastIndexOfSlash].
    rewrite lastIndexOfSlash_none by assumption. simpl. f_equal. lia.
  - change ((c :: a) ++ slash ++ name) with (c :: (a ++ slash ++ name)).
    cbn [lastIndexOfSlash]. rewrite IH by assumption.
    f_equal. simpl. lia.
Qed.

Lemma lastSegment_in_folder : forall a name,
  noSlash name -> lastSegment (a ++ slash ++ name) = name.
Proof.
  intros a name H. unfold lastSegment.
  rewrite lastIndexOfSlash_last by assumption. simpl Nat.add.
  change (a ++ slash ++ name) with (a ++ [47] ++ name).
  rewrite app_assoc.
  replace (S (List.length a)) with (List.length (a ++ [47%N]) + 0)%nat
    by (rewrite length_app; simpl; lia).
  now rewrite skipn_length_app.
Qed.

Lemma folderOf_in_folder : forall a name,
  a <> [] -> noSlash name -> folderOf (a ++ slash ++ name) = a.
Proof.
  intros a name Ha H. unfold folderOf.
  rewrite lastIndexOfSlash_last by assumption. simpl Nat.add.
  rewrite firstn_app, firstn_all, Nat.sub_diag. simpl firstn.
  rewrite app_nil_r. destruct a; [contradiction | reflexivity].
Qed.

Lemma unique_head : forall p rest, exists tl, unique (p :: rest) = p :: tl.
Proof.
  intros p rest. unfold unique. simpl.
  assert (H : forall l acc, exists tl,
            fold_left setAdd l (p :: acc) = p :: tl).
  { induction l as [|x l IH]; intro acc; simpl.
    - now exists acc.
    - unfold setAdd at 2.
      destruct (existsb (str_eqb x) (p :: acc)); [apply IH|].
      apply (IH (acc ++ [x])). }
  apply (H rest []).
Qed.

(** X25: the Cue note of a Source leads back to the Source, by its name
    alone.  For a Source in a folder, with a base name that is not empty
    and has no slash, whose path is the folder, a slash, the base name and
    [.md], when that path and the path of the Cue note are normalised
    already, the vault has the Source, and the map of note infos leads
    nowhere from the Cue note, [getSourceNoteFileFromDerived] on the path
    [getCueNotePath] gives returns the Source, leaves the vault as it is,
    and records the path of the Cue note in the note info of the
    Source. *)
Theorem cue_note_leads_back_to_its_source :
  forall normalizePath rejects sourceFile folder w,
    file_parent sourceFile = Some folder ->
    folder <> [] -> folder <> slash ->
    file_basename sourceFile <> [] ->
    noSlash (file_basename sourceFile) ->
    file_path sourceFile = folder ++ slash ++ file_basename sourceFile ++ dotMd ->
    normalizePath (file_path sourceFile) = file_path sourceFile ->
    normalizePath
      (folder ++ slash ++ file_basename sourceFile ++ cueNoteSuffix ++ dotMd)
    = folder ++ slash ++ file_basename sourceFile ++ cueNoteSuffix ++ dotMd ->
    fileAt w (file_path sourceFile) = Some sourceFile ->
    sourceFromNoteInfo w (getCueNotePath normalizePath sourceFile)
      (JsMap.values (noteInfoMap w)) = None ->
    exists w',
      getSourceNoteFileFromDerived normalizePath rejects
        (getCueNotePath normalizePath sourceFile) w
      = (Normal (Some sourceFile), w')
      /\ vault w' = vault w
      /\ option_map cuePath
           (JsMap.get (noteInfoMap w') (file_path sourceFile))
         = Some (Some (getCueNotePath normalizePath sourceFile)).
Proof.
  intros np rejects src folder w Hpar Hf Hfs Hb Hns Hpath Hnp Hnc Hat Hmap.
  set (b := file_basename src) in *.
  assert (ED : getCueNotePath np src
               = folder ++ slash ++ b ++ cueNoteSuffix ++ dotMd).
  { unfold getCueNotePath. rewrite Hpar. fold b.
    apply str_eqb_neq in Hf, Hfs. rewrite Hf, Hfs. simpl orb. cbv iota.
    exact Hnc. }
  rewrite ED in *.
  set (D := folder ++ slash ++ b ++ cueNoteSuffix ++ dotMd) in *.
  assert (HnD : np D = D) by exact Hnc.
  assert (Hname : noSlash (b ++ cueNoteSuffix ++ dotMd)).
  { unfold noSlash in *. rewrite forallb_app.
    apply andb_true_iff. split; [exact Hns | reflexivity]. }
  assert (Hcue : isCueNote np D = true).
  { unfold isCueNote. rewrite HnD.
    assert (He : endsWith D (cueNoteSuffix ++ dotMd) = true).
    { apply endsWith_spec. exists (folder ++ slash ++ b). unfold D.
      now rewrite <- !app_assoc. }
    rewrite He. destruct D eqn:E; [|reflexivity].
    unfold D in E. apply app_eq_nil in E as [E _]. contradiction. }
  assert (Hguess : guessSourceBasename np D = Some b).
  { unfold guessSourceBasename. rewrite Hcue. unfold D.
    rewrite lastSegment_in_folder by exact Hname.
    unfold stripSuffix.
    assert (He : endsWith (b ++ cueNoteSuffix ++ dotMd)
                   (cueNoteSuffix ++ dotMd) = true)
      by (apply endsWith_spec; now exists b).
    rewrite He. rewrite !length_app.
    replace (List.length b
             + (List.length cueNoteSuffix + List.length dotMd)
             - (List.length cueNoteSuffix + List.length dotMd))%nat
      with (List.length b + 0)%nat by lia.
    rewrite firstn_app, firstn_all2 by lia.
    replace (List.length b + 0 - List.length b)%nat with O by lia.
    simpl firstn. now rewrite app_nil_r. }
  assert (Hfirst : exists tl,
            unique (potentialPaths np D b) = file_path src :: tl).
  { assert (HfD : folderOf D = folder)
      by (unfold D; now apply folderOf_in_folder).
    unfold potentialPaths. rewrite !HfD.
    apply str_eqb_neq in Hfs. rewrite Hfs.
    rewrite <- Hpath, Hnp. apply unique_head. }
  destruct Hfirst as (tl & Hu).
  unfold getSourceNoteFileFromDerived. rewrite HnD, Hmap, Hguess.
  assert (Ht : truthy b = true) by (destruct b; [contradiction|reflexivity]).
  rewrite Ht. simpl negb. cbv iota. rewrite Hu.
  cbn [probePaths]. rewrite Hat. fold b. rewrite str_eqb_refl.
  rewrite Hcue. unfold bind, perform, ret, saveDataDetached.
  destruct (rejects _); eexists; (split; [reflexivity|]); simpl;
    (split; [reflexivity|]); rewrite JsMap_get_set_same; simpl;
    destruct (isSummaryNote np D); reflexivity.
Qed.

(** The sample Source, in a vault whose map of note infos is empty. *)
Lemma cue_note_leads_back_to_its_source_witness :
  exists w',
    getSourceNoteFileFromDerived sampleNormalizePath (fun _ => false)
      (getCueNotePath sampleNormalizePath sampleSource)
      (sampleWorld (text "Text[^1]||[^1]: one|") (text "[^1]: one|"))
    = (Normal (Some sampleSource), w')
    /\ vault w'
       = vault (sampleWorld (text "Text[^1]||[^1]: one|") (text "[^1]: one|"))
    /\ option_map cuePath
         (JsMap.get (noteInfoMap w') (file_path sampleSource))
       = Some (Some (getCueNotePath sampleNormalizePath sampleSource)).
Proof.
  apply (cue_note_leads_back_to_its_source sampleNormalizePath (fun _ => false)
           sampleSource (lit "notes"));
    try reflexivity; discriminate.
Defined.

(** ** The forward pass and the definitions of the Cue *)









